(* ===================================================================== *)
(*  go-macho, package fixupchains: chained-fixups parser, pointer scan   *)
(*  and read-through rebasing reader.                                    *)
(*                                                                       *)
(*  A shallow embedding of                                               *)
(*    - Parse, ParseStarts, parseImports, walkDcFixupChain,              *)
(*      GetImportForPointer, RebasePointer   (dyld chained fixups file)  *)
(*    - init, ReadAt, patchReadBytes         (pkg/fixupchains/reader.go) *)
(*  Machine integers are Z with the wrap-around written out; Go's        *)
(*  run-time panics (index and slice bounds, nil function value) are an  *)
(*  outcome of their own, distinct from a returned error.  The methods   *)
(*  of the receiver are computations in a state-and-outcome monad.       *)
(*  The two loops whose length the input decides take fuel; the last     *)
(*  sections show that more fuel changes no result and that [Parse]      *)
(*  never uses up fuel beyond a bound in the size of the image.          *)
(* ===================================================================== *)

From Stdlib Require Import ZArith List Bool Lia.
From Stdlib.Strings Require Import Byte.
From stdpp Require Import base option list gmap.
Import ListNotations.
Local Open Scope Z_scope.

(* --------------------------------------------------------------------- *)
(** * Machine integers and bytes                                          *)
(* --------------------------------------------------------------------- *)

Definition uint16 (x : Z) : Z := x mod 2 ^ 16.
Definition uint32 (x : Z) : Z := x mod 2 ^ 32.
Definition uint64 (x : Z) : Z := x mod 2 ^ 64.

(** Go's conversion [int64(x)] of an unsigned 64-bit value. *)
Definition int64 (x : Z) : Z :=
  let y := x mod 2 ^ 64 in if y <? 2 ^ 63 then y else y - 2 ^ 64.

(** [x & m != 0] and [x &^ m] on unsigned values. *)
Definition has_bits (x m : Z) : bool := negb (Z.land x m =? 0).
Definition and_not (x m : Z) : Z := Z.land x (Z.lnot m).

(** Modelled from the spec: [types.ExtractBits] lives in the [types]
    package, which is not part of the sources at hand; a field of [nbits]
    bits starting at bit [start], counted from the least significant bit. *)
Definition ExtractBits (x start nbits : Z) : Z :=
  Z.land (Z.shiftr x start) (Z.ones nbits).

Definition byte_val (b : byte) : Z := Z.of_N (Byte.to_N b).

Definition byte_of_Z (x : Z) : byte :=
  match Byte.of_N (Z.to_N (x mod 256)) with
  | Some b => b
  | None => x00
  end.

Definition bytes_of (l : list Z) : list byte := map byte_of_Z l.

#[global] Instance byte_eq_decision : EqDecision byte := Byte.byte_eq_dec.

(** [binary.ByteOrder]: the two implementations of [encoding/binary]. *)
Inductive ByteOrder := LittleEndian | BigEndian.

Fixpoint le_uint (bs : list byte) : Z :=
  match bs with
  | [] => 0
  | b :: rest => byte_val b + 256 * le_uint rest
  end.

Fixpoint le_bytes (n : nat) (x : Z) : list byte :=
  match n with
  | O => []
  | S k => byte_of_Z x :: le_bytes k (x / 256)
  end.

(** [bo.Uint16/32/64] on a slice of exactly that width. *)
Definition bo_uint (bo : ByteOrder) (bs : list byte) : Z :=
  match bo with
  | LittleEndian => le_uint bs
  | BigEndian => le_uint (rev bs)
  end.

(** [bo.PutUint32/64]: the [n] bytes that encode [x]. *)
Definition bo_put (bo : ByteOrder) (n : nat) (x : Z) : list byte :=
  match bo with
  | LittleEndian => le_bytes n x
  | BigEndian => rev (le_bytes n x)
  end.

(** Consecutive fixed-width fields of a byte string, as [binary.Read]
    decodes a slice or the fields of a struct. *)
Fixpoint chunks (fuel : nat) (w : nat) (bs : list byte) : list (list byte) :=
  match fuel with
  | O => []
  | S k => take w bs :: chunks k w (drop w bs)
  end.

(* --------------------------------------------------------------------- *)
(** * Errors, outcomes and the state monad of the receiver                *)
(* --------------------------------------------------------------------- *)

Inductive error :=
| EOF                                   (* io.EOF *)
| ErrUnexpectedEOF                      (* io.ErrUnexpectedEOF *)
| ErrReadString (at_ : Z) (cause : error)
    (* "failed to read string at: %d: %v" *)
| ErrUnknownPointerFormat (fmt : Z)     (* "unknown pointer format %#04X" *)
| ErrNotABindPointer                    (* "not a bind pointer" *)
| ErrCannotRetrieveFixups (cause : error)
| ErrCannotParseFixups (cause : error)
| ErrUnexpectedPointerSize (sz : Z)
| ErrInitRebasedReader (cause : error)
    (* "failed to initialise rebased reader: %v" *)
| ErrUnderlyingMismatch (rOff : Z) (found expected : list byte)
    (* "underlying read value at %x is %x, expected %x" *)
| ErrOther (code : Z).                  (* an error of a collaborator *)

(** How a call ends: a normal return, a returned [error], a run-time
    panic, or (for the loops whose iteration count the data decides) the
    exhaustion of the fuel given to the model. *)
Inductive outcome (A : Type) :=
| Ok (a : A)
| Err (e : error)
| Panic
| OutOfFuel.
Arguments Ok {A} a.
Arguments Err {A} e.
Arguments Panic {A}.
Arguments OutOfFuel {A}.

Definition M (S A : Type) : Type := S -> outcome A * S.

Definition ret {S A} (a : A) : M S A := fun s => (Ok a, s).
Definition fail {S A} (e : error) : M S A := fun s => (Err e, s).
Definition panic {S A} : M S A := fun s => (Panic, s).
Definition out_of_fuel {S A} : M S A := fun s => (OutOfFuel, s).

Definition bind {S A B} (m : M S A) (k : A -> M S B) : M S B :=
  fun s =>
    match m s with
    | (Ok a, s') => k a s'
    | (Err e, s') => (Err e, s')
    | (Panic, s') => (Panic, s')
    | (OutOfFuel, s') => (OutOfFuel, s')
    end.

Definition get {S} : M S S := fun s => (Ok s, s).
Definition modify {S} (f : S -> S) : M S unit := fun s => (Ok tt, f s).

(** A call whose returned error the caller drops ([dcf.parseImports()] as
    a statement): execution goes on; a panic still unwinds. *)
Definition drop_error {S} (m : M S unit) : M S unit :=
  fun s =>
    match m s with
    | (Err _, s') => (Ok tt, s')
    | r => r
    end.

Declare Scope go_scope.
Delimit Scope go_scope with go.
Notation "x <- m ;; k" := (bind m (fun x => k))
  (at level 100, m at next level, right associativity) : go_scope.
Notation "m ;;; k" := (bind m (fun _ => k))
  (at level 100, right associativity) : go_scope.
Local Open Scope go_scope.

(* --------------------------------------------------------------------- *)
(** * Positional readers                                                  *)
(* --------------------------------------------------------------------- *)

(** [bytes.Reader] over the load-command payload, and the image reader
    [sr].  Both keep a read position; [Seek] to a negative offset is
    refused and leaves the position where it was (the callers drop the
    error), a read at or past the end yields [io.EOF]. *)
Record Reader := mkReader { rd_data : list byte; rd_pos : Z }.

Definition Reader_Size (r : Reader) : Z := Z.of_nat (length (rd_data r)).

(** [r.Seek(off, io.SeekStart)], result dropped. *)
Definition Reader_Seek (off : Z) (r : Reader) : Reader :=
  if off <? 0 then r else mkReader (rd_data r) off.

(** [io.ReadFull(r, buf)] with [len(buf) = n], as [binary.Read] calls it:
    nothing is read for [n = 0]; [io.EOF] when no byte is left;
    [io.ErrUnexpectedEOF] when fewer than [n] are. *)
Definition Reader_ReadFull (n : nat) : M Reader (list byte) :=
  fun r =>
    match n with
    | O => (Ok [], r)
    | _ =>
      let avail := drop (Z.to_nat (rd_pos r)) (rd_data r) in
      match avail with
      | [] => (Err EOF, r)
      | _ =>
        if (length avail <? n)%nat
        then (Err ErrUnexpectedEOF, mkReader (rd_data r) (Reader_Size r))
        else (Ok (take n avail), mkReader (rd_data r) (rd_pos r + Z.of_nat n))
      end
    end.

(** [bufio.NewReader(pool).ReadString(0)] followed by
    [strings.Trim(s, "\x00")], for a pool that ends where the payload ends:
    the bytes from [start] up to the first NUL, or [io.EOF] when the payload
    ends first. *)
Fixpoint until_nul (bs : list byte) : option (list byte) :=
  match bs with
  | [] => None
  | b :: rest =>
    if Byte.eqb b x00 then Some []
    else match until_nul rest with
         | Some s => Some (b :: s)
         | None => None
         end
  end.

Definition ReadString0 (data : list byte) (start : Z) : outcome (list byte) :=
  match until_nul (drop (Z.to_nat start) data) with
  | Some s => Ok s
  | None => Err EOF
  end.

(* --------------------------------------------------------------------- *)
(** * Pointer formats and the slot codec                                  *)
(* --------------------------------------------------------------------- *)

(** [DCPtrKind]: the members of the closed enumeration.  The field of the
    segment header keeps the raw 16-bit value, as the code does. *)
Inductive DCPtrKind :=
| DYLD_CHAINED_PTR_ARM64E
| DYLD_CHAINED_PTR_64
| DYLD_CHAINED_PTR_32
| DYLD_CHAINED_PTR_32_CACHE
| DYLD_CHAINED_PTR_32_FIRMWARE
| DYLD_CHAINED_PTR_64_OFFSET
| DYLD_CHAINED_PTR_ARM64E_KERNEL
| DYLD_CHAINED_PTR_64_KERNEL_CACHE
| DYLD_CHAINED_PTR_ARM64E_USERLAND
| DYLD_CHAINED_PTR_ARM64E_FIRMWARE
| DYLD_CHAINED_PTR_X86_64_KERNEL_CACHE
| DYLD_CHAINED_PTR_ARM64E_USERLAND24.

(** Modelled from the spec: the numeric values of the [DYLD_CHAINED_PTR_*]
    constants are declared in the package's type file, which is not part of
    the sources at hand; the spec's table lists the members in the order of
    the canonical dyld constants 1 to 12. *)
Definition DCPtrKind_of (v : Z) : option DCPtrKind :=
  match v with
  | 1 => Some DYLD_CHAINED_PTR_ARM64E
  | 2 => Some DYLD_CHAINED_PTR_64
  | 3 => Some DYLD_CHAINED_PTR_32
  | 4 => Some DYLD_CHAINED_PTR_32_CACHE
  | 5 => Some DYLD_CHAINED_PTR_32_FIRMWARE
  | 6 => Some DYLD_CHAINED_PTR_64_OFFSET
  | 7 => Some DYLD_CHAINED_PTR_ARM64E_KERNEL
  | 8 => Some DYLD_CHAINED_PTR_64_KERNEL_CACHE
  | 9 => Some DYLD_CHAINED_PTR_ARM64E_USERLAND
  | 10 => Some DYLD_CHAINED_PTR_ARM64E_FIRMWARE
  | 11 => Some DYLD_CHAINED_PTR_X86_64_KERNEL_CACHE
  | 12 => Some DYLD_CHAINED_PTR_ARM64E_USERLAND24
  | _ => None
  end.

Definition DCPtrKind_code (k : DCPtrKind) : Z :=
  match k with
  | DYLD_CHAINED_PTR_ARM64E => 1
  | DYLD_CHAINED_PTR_64 => 2
  | DYLD_CHAINED_PTR_32 => 3
  | DYLD_CHAINED_PTR_32_CACHE => 4
  | DYLD_CHAINED_PTR_32_FIRMWARE => 5
  | DYLD_CHAINED_PTR_64_OFFSET => 6
  | DYLD_CHAINED_PTR_ARM64E_KERNEL => 7
  | DYLD_CHAINED_PTR_64_KERNEL_CACHE => 8
  | DYLD_CHAINED_PTR_ARM64E_USERLAND => 9
  | DYLD_CHAINED_PTR_ARM64E_FIRMWARE => 10
  | DYLD_CHAINED_PTR_X86_64_KERNEL_CACHE => 11
  | DYLD_CHAINED_PTR_ARM64E_USERLAND24 => 12
  end.

(** Modelled from the spec: the page-start sentinels ([NONE = 0xFFFF],
    [MULTI = 0x8000], [LAST = 0x4000]) and the import-format tags are
    constants of the absent type file. *)
Definition DYLD_CHAINED_PTR_START_NONE : Z := 0xFFFF.
Definition DYLD_CHAINED_PTR_START_MULTI : Z := 0x8000.
Definition DYLD_CHAINED_PTR_START_LAST : Z := 0x4000.

Definition DC_IMPORT : Z := 1.
Definition DC_IMPORT_ADDEND : Z := 2.
Definition DC_IMPORT_ADDEND64 : Z := 3.

(** Modelled from the spec: [stride] is defined in the absent type file;
    the byte distance per unit of [next], from the spec's format table. *)
Definition stride (k : DCPtrKind) : Z :=
  match k with
  | DYLD_CHAINED_PTR_ARM64E
  | DYLD_CHAINED_PTR_ARM64E_USERLAND
  | DYLD_CHAINED_PTR_ARM64E_USERLAND24 => 8
  | DYLD_CHAINED_PTR_X86_64_KERNEL_CACHE => 1
  | _ => 4
  end.

(** Modelled from the spec: [ptrSize] is defined in the absent type file;
    the slot width in bytes, from the "slot bits" column of the table. *)
Definition ptrSize (fmt : Z) : outcome Z :=
  match DCPtrKind_of fmt with
  | Some DYLD_CHAINED_PTR_32
  | Some DYLD_CHAINED_PTR_32_CACHE
  | Some DYLD_CHAINED_PTR_32_FIRMWARE => Ok 4
  | Some _ => Ok 8
  | None => Err (ErrUnknownPointerFormat fmt)
  end.

(** Modelled from the spec: the bit accessors of the slot layouts are
    functions of the absent type file.  Generic 32:
    [target:26 | next:5 | bind:1], bind [ordinal:20 | addend:6 | ...]. *)
Definition Generic32IsBind (ptr : Z) : bool := negb (ExtractBits ptr 31 1 =? 0).
Definition Generic32Next (ptr : Z) : Z := ExtractBits ptr 26 5.
Definition Ptr32Bind_Ordinal (ptr : Z) : Z := ExtractBits ptr 0 20.
Definition Ptr32Rebase_Target (ptr : Z) : Z := ExtractBits ptr 0 26.

(** Modelled from the spec: generic 64,
    [target:36 | high8:8 | reserved:7 | next:12 | bind:1], bind
    [ordinal:24 | addend:8 | reserved:19 | next:12 | bind:1];
    [UnpackedTarget = target | high8 << 56]. *)
Definition Generic64IsBind (ptr : Z) : bool := negb (ExtractBits ptr 63 1 =? 0).
Definition Generic64Next (ptr : Z) : Z := ExtractBits ptr 51 12.
Definition Ptr64Bind_Ordinal (ptr : Z) : Z := ExtractBits ptr 0 24.
Definition Ptr64Rebase_UnpackedTarget (ptr : Z) : Z :=
  Z.lor (ExtractBits ptr 0 36) (uint64 (Z.shiftl (ExtractBits ptr 36 8) 56)).

(** Modelled from the spec: ARM64E family,
    rebase [target:43 | high8:8 | next:11 | bind:1 | auth:1],
    auth rebase [target:32 | diversity:16 | addr_div:1 | key:2 | next:11 |
    bind:1 | auth:1], bind [ordinal:16 | zero:16 | addend:19 | next:11 |
    bind:1 | auth:1]; the 24 variants have a 24-bit ordinal;
    [UnpackTarget = target | high8 << 43]. *)
Definition DcpArm64eIsBind (ptr : Z) : bool := negb (ExtractBits ptr 62 1 =? 0).
Definition DcpArm64eIsAuth (ptr : Z) : bool := negb (ExtractBits ptr 63 1 =? 0).
Definition DcpArm64eNext (ptr : Z) : Z := ExtractBits ptr 51 11.
Definition Arm64eBind_Ordinal (ptr : Z) : Z := ExtractBits ptr 0 16.
Definition Arm64eAuthBind_Ordinal (ptr : Z) : Z := ExtractBits ptr 0 16.
Definition Arm64eBind24_Ordinal (ptr : Z) : Z := ExtractBits ptr 0 24.
Definition Arm64eAuthBind24_Ordinal (ptr : Z) : Z := ExtractBits ptr 0 24.
Definition Arm64eAuthRebase_Target (ptr : Z) : Z := ExtractBits ptr 0 32.
Definition Arm64eRebase_UnpackTarget (ptr : Z) : Z :=
  Z.lor (ExtractBits ptr 0 43) (Z.shiftl (ExtractBits ptr 43 8) 43).

(* --------------------------------------------------------------------- *)
(** * Data model                                                          *)
(* --------------------------------------------------------------------- *)

(** The fixup record types that [walkDcFixupChain] builds.  The ten rebase
    types are the ones listed under [_rebaseTypes]; a bind type also holds
    the name of the import it resolves to. *)
Inductive RebaseKind :=
| Ptr32Rebase | Ptr32CacheRebase | Ptr32FirmwareRebase
| Ptr64Rebase | Ptr64RebaseOffset | Ptr64KernelCacheRebase
| Arm64eRebase | Arm64eRebase24
| Arm64eAuthRebase | Arm64eAuthRebase24.

Inductive BindKind :=
| Ptr32Bind | Ptr64Bind
| Arm64eBind | Arm64eBind24
| Arm64eAuthBind | Arm64eAuthBind24.

Inductive Fixup :=
| RebaseFixup (k : RebaseKind) (Pointer : Z) (Fixup_ : Z)
| BindFixup (k : BindKind) (Pointer : Z) (Fixup_ : Z) (Import_ : list byte).

Definition Fixup_Offset (f : Fixup) : Z :=
  match f with
  | RebaseFixup _ _ loc => loc
  | BindFixup _ _ loc _ => loc
  end.

Definition Fixup_Pointer (f : Fixup) : Z :=
  match f with
  | RebaseFixup _ p _ => p
  | BindFixup _ p _ _ => p
  end.

(** [bind.Ordinal()] of each bind type. *)
Definition Bind_Ordinal (k : BindKind) (ptr : Z) : Z :=
  match k with
  | Ptr32Bind => Ptr32Bind_Ordinal ptr
  | Ptr64Bind => Ptr64Bind_Ordinal ptr
  | Arm64eBind => Arm64eBind_Ordinal ptr
  | Arm64eBind24 => Arm64eBind24_Ordinal ptr
  | Arm64eAuthBind => Arm64eAuthBind_Ordinal ptr
  | Arm64eAuthBind24 => Arm64eAuthBind24_Ordinal ptr
  end.

(** The three shapes of an import record, behind the [Import] interface. *)
Inductive Import :=
| DyldChainedImport (v : Z)
| DyldChainedImportAddend (v : Z) (Addend : Z)
| DyldChainedImportAddend64 (v : Z) (Addend : Z).

(** Modelled from the spec: [NameOffset] is a method of the absent type
    file; [{lib_ordinal:8, weak_import:1, name_offset:23}] for the 32-bit
    shapes and [{lib_ordinal:16, weak_import:1, reserved:15,
    name_offset:32}] for the 64-bit one. *)
Definition NameOffset (i : Import) : Z :=
  match i with
  | DyldChainedImport v => ExtractBits v 9 23
  | DyldChainedImportAddend v _ => ExtractBits v 9 23
  | DyldChainedImportAddend64 v _ => ExtractBits v 32 32
  end.

Record DcfImport := mkDcfImport { Name : list byte; Import_of : Import }.

(** Modelled from the spec: the field lists of the header and of the
    per-segment record are type declarations of the absent file; the fields
    and their order are the spec's, the widths those of the dyld header
    file the spec defers to (seven 32-bit fields; 32, 16, 16, 64, 32 and
    16 bits). *)
Record DyldChainedFixupsHeader := mkHeader {
  FixupsVersion : Z;
  StartsOffset : Z;
  ImportsOffset : Z;
  SymbolsOffset : Z;
  ImportsCount : Z;
  ImportsFormat : Z;
  SymbolsFormat : Z
}.

Record DyldChainedStartsInSegment := mkStartsInSegment {
  Size : Z;
  PageSize : Z;
  PointerFormat : Z;
  SegmentOffset : Z;
  MaxValidPointer : Z;
  PageCount : Z
}.

(** [PageStarts] is [None] for Go's nil slice. *)
Record DyldChainedStarts := mkStarts {
  InSegment : DyldChainedStartsInSegment;
  PageStarts : option (list Z);
  Fixups : list Fixup
}.

(** [Starts] is [None] for Go's nil slice. *)
Record DyldChainedFixups := mkDcf {
  Header : DyldChainedFixupsHeader;
  Starts : option (list DyldChainedStarts);
  Imports : list DcfImport;
  r : Reader;
  sr : Reader;
  bo : ByteOrder
}.

Definition zero_header : DyldChainedFixupsHeader := mkHeader 0 0 0 0 0 0 0.
Definition zero_in_segment : DyldChainedStartsInSegment :=
  mkStartsInSegment 0 0 0 0 0 0.
Definition zero_starts : DyldChainedStarts := mkStarts zero_in_segment None [].

(** [NewChainedFixups(lcdat, sr, bo)]. *)
Definition NewChainedFixups (lcdat : list byte) (image : list byte)
    (bo : ByteOrder) : DyldChainedFixups :=
  mkDcf zero_header None [] (mkReader lcdat 0) (mkReader image 0) bo.

Definition set_Header (h : DyldChainedFixupsHeader) (d : DyldChainedFixups) :=
  mkDcf h (Starts d) (Imports d) (r d) (sr d) (bo d).
Definition set_Starts (s : option (list DyldChainedStarts)) (d : DyldChainedFixups) :=
  mkDcf (Header d) s (Imports d) (r d) (sr d) (bo d).
Definition set_Imports (i : list DcfImport) (d : DyldChainedFixups) :=
  mkDcf (Header d) (Starts d) i (r d) (sr d) (bo d).
Definition set_r (x : Reader) (d : DyldChainedFixups) :=
  mkDcf (Header d) (Starts d) (Imports d) x (sr d) (bo d).
Definition set_sr (x : Reader) (d : DyldChainedFixups) :=
  mkDcf (Header d) (Starts d) (Imports d) (r d) x (bo d).

Definition set_SymbolsFormat (v : Z) (h : DyldChainedFixupsHeader) :=
  mkHeader (FixupsVersion h) (StartsOffset h) (ImportsOffset h)
           (SymbolsOffset h) (ImportsCount h) (ImportsFormat h) v.

Definition set_InSegment (x : DyldChainedStartsInSegment) (s : DyldChainedStarts) :=
  mkStarts x (PageStarts s) (Fixups s).
Definition set_PageStarts (x : option (list Z)) (s : DyldChainedStarts) :=
  mkStarts (InSegment s) x (Fixups s).
Definition set_Fixups (x : list Fixup) (s : DyldChainedStarts) :=
  mkStarts (InSegment s) (PageStarts s) x.

(** The slice behind [dcf.Starts]; a nil slice has no element. *)
Definition Starts_list (d : DyldChainedFixups) : list DyldChainedStarts :=
  default [] (Starts d).

Abbreviation DCF := (M DyldChainedFixups).

(** [dcf.Starts[segIdx]], a run-time panic when out of range. *)
Definition Starts_at (segIdx : nat) : DCF DyldChainedStarts :=
  fun d =>
    match Starts_list d !! segIdx with
    | Some s => (Ok s, d)
    | None => (Panic, d)
    end.

(** An assignment to a field of [dcf.Starts[segIdx]]. *)
Definition Starts_update (segIdx : nat) (f : DyldChainedStarts -> DyldChainedStarts)
    : DCF unit :=
  fun d =>
    match Starts_list d !! segIdx with
    | Some s => (Ok tt, set_Starts (Some (<[segIdx := f s]> (Starts_list d))) d)
    | None => (Panic, d)
    end.

(** Run an operation of the payload reader [dcf.r] / of the image reader
    [dcf.sr] on the receiver. *)
Definition on_r {A} (m : M Reader A) : DCF A :=
  fun d => let '(o, x) := m (r d) in (o, set_r x d).
Definition on_sr {A} (m : M Reader A) : DCF A :=
  fun d => let '(o, x) := m (sr d) in (o, set_sr x d).

Definition r_Seek (off : Z) : DCF unit :=
  modify (fun d => set_r (Reader_Seek off (r d)) d).
Definition sr_Seek (off : Z) : DCF unit :=
  modify (fun d => set_sr (Reader_Seek off (sr d)) d).

(* --------------------------------------------------------------------- *)
(** * ParseStarts                                                         *)
(* --------------------------------------------------------------------- *)

(** The field of width [w] at byte [off] of a struct image. *)
Definition field (bo : ByteOrder) (bs : list byte) (off w : nat) : Z :=
  bo_uint bo (take w (drop off bs)).

Definition int32 (x : Z) : Z :=
  let y := x mod 2 ^ 32 in if y <? 2 ^ 31 then y else y - 2 ^ 32.

Definition decode_header (bo : ByteOrder) (bs : list byte) : DyldChainedFixupsHeader :=
  mkHeader (field bo bs 0 4) (field bo bs 4 4) (field bo bs 8 4)
           (field bo bs 12 4) (field bo bs 16 4) (field bo bs 20 4)
           (field bo bs 24 4).

Definition decode_in_segment (bo : ByteOrder) (bs : list byte)
    : DyldChainedStartsInSegment :=
  mkStartsInSegment (field bo bs 0 4) (field bo bs 4 2) (field bo bs 6 2)
                    (field bo bs 8 8) (field bo bs 16 4) (field bo bs 20 2).

(** [binary.Read(dcf.r, dcf.bo, &x)] for an [x] of [n] bytes. *)
Definition r_Read (n : nat) : DCF (list byte) := on_r (Reader_ReadFull n).

(** The body of [for segIdx, segInfoOffset := range segInfoOffsets]. *)
Fixpoint ParseStarts_segments (segIdx : nat) (segInfoOffsets : list Z) : DCF unit :=
  match segInfoOffsets with
  | [] => ret tt
  | segInfoOffset :: rest =>
    if segInfoOffset =? 0 then ParseStarts_segments (S segIdx) rest
    else
      d <- get ;;
      r_Seek (int64 (uint32 (StartsOffset (Header d) + segInfoOffset))) ;;;
      bs <- r_Read 22 ;;
      Starts_update segIdx (set_InSegment (decode_in_segment (bo d) bs)) ;;;
      s <- Starts_at segIdx ;;
      let n := Z.to_nat (PageCount (InSegment s)) in
      Starts_update segIdx (set_PageStarts (Some (repeat 0 n))) ;;;
      bs <- r_Read (2 * n) ;;
      Starts_update segIdx
        (set_PageStarts (Some (map (bo_uint (bo d)) (chunks n 2 bs)))) ;;;
      ParseStarts_segments (S segIdx) rest
  end.

(** [ParseStarts].  The two [make] calls for the segment table are taken
    to succeed: memory is not part of the model. *)
Definition ParseStarts : DCF unit :=
  d <- get ;;
  bs <- r_Read 28 ;;
  modify (set_Header (decode_header (bo d) bs)) ;;;
  r_Seek (int64 (StartsOffset (decode_header (bo d) bs))) ;;;
  bs <- r_Read 4 ;;
  let segCount := Z.to_nat (bo_uint (bo d) bs) in
  modify (set_Starts (Some (repeat zero_starts segCount))) ;;;
  bs <- r_Read (4 * segCount) ;;
  ParseStarts_segments 0 (map (bo_uint (bo d)) (chunks segCount 4 bs)).

(* --------------------------------------------------------------------- *)
(** * parseImports                                                        *)
(* --------------------------------------------------------------------- *)

(** The [switch] on [ImportsFormat]: the records read into [imports]; any
    other format reads nothing and leaves [imports] empty.  The [make] of
    the [ImportsCount] records is taken to succeed. *)
Definition read_imports : DCF (list Import) :=
  d <- get ;;
  let n := Z.to_nat (ImportsCount (Header d)) in
  let fmt := ImportsFormat (Header d) in
  if fmt =? DC_IMPORT then
    bs <- r_Read (4 * n) ;;
    ret (map (fun c => DyldChainedImport (bo_uint (bo d) c)) (chunks n 4 bs))
  else if fmt =? DC_IMPORT_ADDEND then
    bs <- r_Read (8 * n) ;;
    ret (map (fun c => DyldChainedImportAddend (field (bo d) c 0 4)
                                               (int32 (field (bo d) c 4 4)))
             (chunks n 8 bs))
  else if fmt =? DC_IMPORT_ADDEND64 then
    bs <- r_Read (16 * n) ;;
    ret (map (fun c => DyldChainedImportAddend64 (field (bo d) c 0 8)
                                                 (int64 (field (bo d) c 8 8)))
             (chunks n 16 bs))
  else ret [].

(** The body of [for _, i := range imports]: the name is read from the
    symbol pool, which starts at [SymbolsOffset] and ends with the payload. *)
Fixpoint parseImports_names (imports : list Import) : DCF unit :=
  match imports with
  | [] => ret tt
  | i :: rest =>
    d <- get ;;
    match ReadString0 (rd_data (r d)) (SymbolsOffset (Header d) + NameOffset i) with
    | Ok s =>
      modify (fun d => set_Imports (Imports d ++ [mkDcfImport s i]) d) ;;;
      parseImports_names rest
    | Err e => fail (ErrReadString (uint64 (SymbolsOffset (Header d) + NameOffset i)) e)
    | Panic => panic
    | OutOfFuel => out_of_fuel
    end
  end.

Definition parseImports : DCF unit :=
  d <- get ;;
  r_Seek (int64 (ImportsOffset (Header d))) ;;;
  imports <- read_imports ;;
  parseImports_names imports.

(* --------------------------------------------------------------------- *)
(** * walkDcFixupChain                                                    *)
(* --------------------------------------------------------------------- *)

(** [binary.Read(dcf.sr, dcf.bo, &dcPtr)] / [&dcPtr64]. *)
Definition read_slot (w : nat) : DCF Z :=
  d <- get ;;
  bs <- on_sr (Reader_ReadFull w) ;;
  ret (bo_uint (bo d) bs).

(** [dcf.Starts[segIdx].Fixups = append(dcf.Starts[segIdx].Fixups, f)]. *)
Definition append_Fixup (segIdx : nat) (f : Fixup) : DCF unit :=
  Starts_update segIdx (fun s => set_Fixups (Fixups s ++ [f]) s).

(** [dcf.Imports[ordinal].Name]: an index expression, which panics when
    [ordinal] is not below [len(dcf.Imports)]. *)
Definition Imports_Name (ordinal : Z) : DCF (list byte) :=
  fun d =>
    match Imports d !! Z.to_nat ordinal with
    | Some i => (Ok (Name i), d)
    | None => (Panic, d)
    end.

Definition append_rebase (segIdx : nat) (k : RebaseKind) (ptr loc : Z) : DCF unit :=
  append_Fixup segIdx (RebaseFixup k ptr loc).

(** [bind := T{Pointer, Fixup}; bind.Import = dcf.Imports[bind.Ordinal()].Name;
    append(..., bind)]. *)
Definition append_bind (segIdx : nat) (k : BindKind) (ptr loc : Z) : DCF unit :=
  name <- Imports_Name (Bind_Ordinal k ptr) ;;
  append_Fixup segIdx (BindFixup k ptr loc name).

(** One case of the [switch pointerFormat]: the slot is read, its record is
    appended, and the value of its [next] field is handed back. *)
Definition walk_slot (segIdx : nat) (k : DCPtrKind) (fixupLocation : Z) : DCF Z :=
  match k with
  | DYLD_CHAINED_PTR_32 =>
    dcPtr <- read_slot 4 ;;
    (if Generic32IsBind dcPtr
     then append_bind segIdx Ptr32Bind dcPtr fixupLocation
     else append_rebase segIdx Ptr32Rebase dcPtr fixupLocation) ;;;
    ret (Generic32Next dcPtr)
  | DYLD_CHAINED_PTR_32_CACHE =>
    dcPtr <- read_slot 4 ;;
    append_rebase segIdx Ptr32CacheRebase dcPtr fixupLocation ;;;
    ret (Generic32Next dcPtr)
  | DYLD_CHAINED_PTR_32_FIRMWARE =>
    dcPtr <- read_slot 4 ;;
    append_rebase segIdx Ptr32FirmwareRebase dcPtr fixupLocation ;;;
    ret (Generic32Next dcPtr)
  | DYLD_CHAINED_PTR_64 =>
    dcPtr64 <- read_slot 8 ;;
    (if Generic64IsBind dcPtr64
     then append_bind segIdx Ptr64Bind dcPtr64 fixupLocation
     else append_rebase segIdx Ptr64Rebase dcPtr64 fixupLocation) ;;;
    ret (Generic64Next dcPtr64)
  | DYLD_CHAINED_PTR_64_OFFSET =>
    dcPtr64 <- read_slot 8 ;;
    append_rebase segIdx Ptr64RebaseOffset dcPtr64 fixupLocation ;;;
    ret (Generic64Next dcPtr64)
  | DYLD_CHAINED_PTR_64_KERNEL_CACHE
  | DYLD_CHAINED_PTR_X86_64_KERNEL_CACHE =>
    dcPtr64 <- read_slot 8 ;;
    append_rebase segIdx Ptr64KernelCacheRebase dcPtr64 fixupLocation ;;;
    ret (Generic64Next dcPtr64)
  | DYLD_CHAINED_PTR_ARM64E_KERNEL
  | DYLD_CHAINED_PTR_ARM64E_FIRMWARE
  | DYLD_CHAINED_PTR_ARM64E
  | DYLD_CHAINED_PTR_ARM64E_USERLAND =>
    dcPtr64 <- read_slot 8 ;;
    (if negb (DcpArm64eIsBind dcPtr64) && negb (DcpArm64eIsAuth dcPtr64)
     then append_rebase segIdx Arm64eRebase dcPtr64 fixupLocation
     else if DcpArm64eIsBind dcPtr64 && negb (DcpArm64eIsAuth dcPtr64)
     then append_bind segIdx Arm64eBind dcPtr64 fixupLocation
     else if negb (DcpArm64eIsBind dcPtr64) && DcpArm64eIsAuth dcPtr64
     then append_rebase segIdx Arm64eAuthRebase dcPtr64 fixupLocation
     else append_bind segIdx Arm64eAuthBind dcPtr64 fixupLocation) ;;;
    ret (DcpArm64eNext dcPtr64)
  | DYLD_CHAINED_PTR_ARM64E_USERLAND24 =>
    dcPtr64 <- read_slot 8 ;;
    (if negb (DcpArm64eIsBind dcPtr64) && negb (DcpArm64eIsAuth dcPtr64)
     then append_rebase segIdx Arm64eRebase24 dcPtr64 fixupLocation
     else if DcpArm64eIsBind dcPtr64 && DcpArm64eIsAuth dcPtr64
     then append_bind segIdx Arm64eAuthBind24 dcPtr64 fixupLocation
     else if negb (DcpArm64eIsBind dcPtr64) && DcpArm64eIsAuth dcPtr64
     then append_rebase segIdx Arm64eAuthRebase24 dcPtr64 fixupLocation
     else if DcpArm64eIsBind dcPtr64 && negb (DcpArm64eIsAuth dcPtr64)
     then append_bind segIdx Arm64eBind24 dcPtr64 fixupLocation
     else ret tt) ;;;
    ret (DcpArm64eNext dcPtr64)
  end.

(** The loop [for !chainEnd]: [next] is the byte distance accumulated from
    the chain head. *)
Fixpoint walk_loop (fuel : nat) (segIdx : nat)
    (pageContentStart offsetInPage next : Z) : DCF unit :=
  match fuel with
  | O => out_of_fuel
  | S fuel' =>
    let fixupLocation := uint64 (pageContentStart + offsetInPage + next) in
    sr_Seek (int64 fixupLocation) ;;;
    s <- Starts_at segIdx ;;
    let pointerFormat := PointerFormat (InSegment s) in
    match DCPtrKind_of pointerFormat with
    | None => fail (ErrUnknownPointerFormat pointerFormat)
    | Some k =>
      nx <- walk_slot segIdx k fixupLocation ;;
      if nx =? 0 then ret tt
      else walk_loop fuel' segIdx pageContentStart offsetInPage
                     (uint64 (next + nx * stride k))
    end
  end.

Definition walkDcFixupChain (fuel : nat) (segIdx : nat)
    (pageIndex offsetInPage : Z) : DCF unit :=
  s <- Starts_at segIdx ;;
  let segOffset := SegmentOffset (InSegment s) in
  let pageContentStart :=
    uint64 (segOffset + uint64 (pageIndex * PageSize (InSegment s))) in
  walk_loop fuel segIdx pageContentStart offsetInPage 0.

(* --------------------------------------------------------------------- *)
(** * Parse                                                               *)
(* --------------------------------------------------------------------- *)

(** The loop [for !chainEnd] over the overflow entries of a page whose
    start has the MULTI bit; [overflowIndex] is a 16-bit value. *)
Fixpoint overflow_loop (fuel : nat) (walk_fuel : nat) (segIdx : nat)
    (pageIndex : Z) (PageStarts : list Z) (overflowIndex : Z) : DCF unit :=
  match fuel with
  | O => out_of_fuel
  | S fuel' =>
    match PageStarts !! Z.to_nat overflowIndex with
    | None => panic
    | Some entry =>
      let chainEnd := has_bits entry DYLD_CHAINED_PTR_START_LAST in
      let offsetInPage := and_not entry DYLD_CHAINED_PTR_START_LAST in
      walkDcFixupChain walk_fuel segIdx pageIndex offsetInPage ;;;
      if chainEnd then ret tt
      else overflow_loop fuel' walk_fuel segIdx pageIndex PageStarts
                         (uint16 (overflowIndex + 1))
    end
  end.

(** The body of the loop over the pages of a segment. *)
Definition Parse_page (fuel : nat) (segIdx : nat) (PageStarts : list Z)
    (pageIndex : Z) : DCF unit :=
  match PageStarts !! Z.to_nat pageIndex with
  | None => panic
  | Some offsetInPage =>
    if offsetInPage =? DYLD_CHAINED_PTR_START_NONE then ret tt
    else if has_bits offsetInPage DYLD_CHAINED_PTR_START_MULTI then
      overflow_loop fuel fuel segIdx pageIndex PageStarts
                    (and_not offsetInPage DYLD_CHAINED_PTR_START_MULTI)
    else walkDcFixupChain fuel segIdx pageIndex offsetInPage
  end.

(** [for pageIndex := uint16(0); pageIndex < PageCount; pageIndex++]. *)
Fixpoint Parse_pages (n : nat) (fuel : nat) (segIdx : nat)
    (PageStarts : list Z) (pageIndex : Z) : DCF unit :=
  match n with
  | O => ret tt
  | S n' =>
    Parse_page fuel segIdx PageStarts pageIndex ;;;
    Parse_pages n' fuel segIdx PageStarts (pageIndex + 1)
  end.

(** [for segIdx, start := range dcf.Starts]. *)
Fixpoint Parse_segments (n : nat) (fuel : nat) (segIdx : nat) : DCF unit :=
  match n with
  | O => ret tt
  | S n' =>
    start <- Starts_at segIdx ;;
    match PageStarts start with
    | None => Parse_segments n' fuel (S segIdx)
    | Some ps =>
      Parse_pages (Z.to_nat (PageCount (InSegment start))) fuel segIdx ps 0 ;;;
      Parse_segments n' fuel (S segIdx)
    end
  end.

(** [Parse]: [Ok tt] stands for the return of [(dcf, nil)], the receiver
    being the state.  The error of [parseImports] is not looked at. *)
Definition Parse (fuel : nat) : DCF unit :=
  d <- get ;;
  match Starts d with
  | None => ParseStarts
  | Some _ => ret tt
  end ;;;
  drop_error parseImports ;;;
  d <- get ;;
  Parse_segments (length (Starts_list d)) fuel 0.

(* --------------------------------------------------------------------- *)
(** * GetImportForPointer and RebasePointer                               *)
(* --------------------------------------------------------------------- *)

(** The [switch] of [GetImportForPointer] on one segment: the ordinal it
    assigns, or [None] where the loop body ends in [continue]. *)
Definition GetImportForPointer_ordinal (s : DyldChainedStarts) (pointer : Z)
    : option Z :=
  if PageCount (InSegment s) =? 0 then None
  else
    match DCPtrKind_of (PointerFormat (InSegment s)) with
    | Some DYLD_CHAINED_PTR_32 =>
      let ptr := uint32 pointer in
      if negb (Generic32IsBind ptr) then None
      else Some (Ptr32Bind_Ordinal ptr)
    | Some DYLD_CHAINED_PTR_64 =>
      if negb (Generic64IsBind pointer) then None
      else Some (Ptr64Bind_Ordinal pointer)
    | Some DYLD_CHAINED_PTR_ARM64E =>
      if negb (DcpArm64eIsBind pointer) then None
      else if DcpArm64eIsAuth pointer
           then Some (Arm64eAuthBind_Ordinal pointer)
           else Some (Arm64eBind_Ordinal pointer)
    | _ => None
    end.

Fixpoint GetImportForPointer_loop (imports : list DcfImport)
    (starts : list DyldChainedStarts) (pointer : Z) : outcome DcfImport :=
  match starts with
  | [] => Err ErrNotABindPointer
  | s :: rest =>
    match GetImportForPointer_ordinal s pointer with
    | None => GetImportForPointer_loop imports rest pointer
    | Some ordinal =>
      if ordinal <? Z.of_nat (length imports) then
        match imports !! Z.to_nat ordinal with
        | Some i => Ok i
        | None => Panic
        end
      else GetImportForPointer_loop imports rest pointer
    end
  end.

Definition GetImportForPointer (dcf : DyldChainedFixups) (pointer : Z)
    : outcome DcfImport :=
  GetImportForPointer_loop (Imports dcf) (Starts_list dcf) pointer.

(** The [switch] of [RebasePointer] on one segment: the value it returns,
    or [None] where the loop goes on to the next segment. *)
Definition RebasePointer_segment (s : DyldChainedStarts)
    (preferredLoadAddress pointer : Z) : option Z :=
  if PageCount (InSegment s) =? 0 then None
  else
    match DCPtrKind_of (PointerFormat (InSegment s)) with
    | Some DYLD_CHAINED_PTR_32 =>
      let ptr := uint32 pointer in
      if negb (Generic32IsBind ptr) then Some (Ptr32Rebase_Target ptr)
      else None
    | Some DYLD_CHAINED_PTR_64 =>
      if negb (Generic64IsBind pointer)
      then Some (uint64 (Ptr64Rebase_UnpackedTarget pointer))
      else None
    | Some DYLD_CHAINED_PTR_ARM64E =>
      if negb (DcpArm64eIsBind pointer) then
        if DcpArm64eIsAuth pointer
        then Some (uint64 (Arm64eAuthRebase_Target pointer + preferredLoadAddress))
        else Some (Arm64eRebase_UnpackTarget pointer)
      else None
    | _ => None
    end.

Fixpoint RebasePointer_loop (starts : list DyldChainedStarts)
    (preferredLoadAddress pointer : Z) : Z :=
  match starts with
  | [] => pointer
  | s :: rest =>
    match RebasePointer_segment s preferredLoadAddress pointer with
    | Some v => v
    | None => RebasePointer_loop rest preferredLoadAddress pointer
    end
  end.

Definition RebasePointer (dcf : DyldChainedFixups)
    (preferredLoadAddress pointer : Z) : Z :=
  RebasePointer_loop (Starts_list dcf) preferredLoadAddress pointer.

(* --------------------------------------------------------------------- *)
(** * The read-through reader (reader.go)                                 *)
(* --------------------------------------------------------------------- *)

(** A value of the [Rebase] interface: the results of its methods
    [Offset()], [Raw()] and [Resolve(base)]. *)
Record Rebase := mkRebase {
  Offset : Z;
  Raw : Z;
  Resolve : Z -> Z
}.

(** A byte slice [p]: the backing array from the slice's first element up
    to its capacity, and its length. *)
Record Slice := mkSlice { s_arr : list byte; s_len : nat }.

Definition Slice_cap (p : Slice) : Z := Z.of_nat (length (s_arr p)).
Definition Slice_bytes (p : Slice) : list byte := take (s_len p) (s_arr p).

(** [make([]byte, n)]. *)
Definition make_bytes (n : nat) : Slice := mkSlice (repeat x00 n) n.

(** An [io.ReaderAt]: for a buffer length and an offset, the bytes it
    delivers and its error. *)
Definition ReaderAt : Type := nat -> Z -> list byte * option error.

(** The pair [readPointer]/[writePointer] that [init] installs. *)
Inductive PointerCodec := Codec64 | Codec32.

Definition codec_width (c : PointerCodec) : nat :=
  match c with Codec64 => 8%nat | Codec32 => 4%nat end.

Record LazyRebasedReader := mkLrr {
  dcf : option DyldChainedFixups;
  baseAddr : Z;
  rebases : gmap Z Rebase;
  pointerSize : Z;
  pointerCodec : option PointerCodec;   (* None: both functions are nil *)
  GetDyldchainFixups : option DyldChainedFixups * option error;
  GetBaseAddr : Z;
  Reader_ : ReaderAt
}.

Definition set_dcf (x : option DyldChainedFixups) (l : LazyRebasedReader) :=
  mkLrr x (baseAddr l) (rebases l) (pointerSize l) (pointerCodec l)
        (GetDyldchainFixups l) (GetBaseAddr l) (Reader_ l).
Definition set_baseAddr (x : Z) (l : LazyRebasedReader) :=
  mkLrr (dcf l) x (rebases l) (pointerSize l) (pointerCodec l)
        (GetDyldchainFixups l) (GetBaseAddr l) (Reader_ l).
Definition set_rebases (x : gmap Z Rebase) (l : LazyRebasedReader) :=
  mkLrr (dcf l) (baseAddr l) x (pointerSize l) (pointerCodec l)
        (GetDyldchainFixups l) (GetBaseAddr l) (Reader_ l).
Definition set_pointerSize (x : Z) (l : LazyRebasedReader) :=
  mkLrr (dcf l) (baseAddr l) (rebases l) x (pointerCodec l)
        (GetDyldchainFixups l) (GetBaseAddr l) (Reader_ l).
Definition set_pointerCodec (x : option PointerCodec) (l : LazyRebasedReader) :=
  mkLrr (dcf l) (baseAddr l) (rebases l) (pointerSize l) x
        (GetDyldchainFixups l) (GetBaseAddr l) (Reader_ l).

Abbreviation LRR := (M LazyRebasedReader).

Section Overlay.

(** The method [Resolve] of the ten rebase types is code of the absent
    type file and is taken as given: for a record type, its raw slot value
    and a base address, the resolved pointer. *)
Variable Resolve_of : RebaseKind -> Z -> Z -> Z.

(** The type assertion [f.(Rebase)]. *)
Definition as_Rebase (f : Fixup) : option Rebase :=
  match f with
  | RebaseFixup k ptr loc => Some (mkRebase loc ptr (Resolve_of k ptr))
  | BindFixup _ _ _ _ => None
  end.

(** [for _, f := range s.Fixups]. *)
Fixpoint init_fixups (fs : list Fixup) (m : gmap Z Rebase) : gmap Z Rebase :=
  match fs with
  | [] => m
  | f :: rest =>
    match as_Rebase f with
    | Some rb => init_fixups rest (<[Offset rb := rb]> m)
    | None => init_fixups rest m
    end
  end.

(** [for _, s := range lrr.dcf.Starts]. *)
Fixpoint init_segments (starts : list DyldChainedStarts) : LRR unit :=
  match starts with
  | [] => ret tt
  | s :: rest =>
    l <- get ;;
    (if (pointerSize l =? 0) && (0 <? PageCount (InSegment s)) then
       match ptrSize (PointerFormat (InSegment s)) with
       | Ok sz => modify (set_pointerSize sz)
       | Err e => fail e
       | Panic => panic
       | OutOfFuel => out_of_fuel
       end
     else ret tt) ;;;
    modify (fun l => set_rebases (init_fixups (Fixups s) (rebases l)) l) ;;;
    init_segments rest
  end.

Definition init (fuel : nat) : LRR unit :=
  l <- get ;;
  modify (set_dcf (fst (GetDyldchainFixups l))) ;;;
  match snd (GetDyldchainFixups l) with
  | Some e => fail (ErrCannotRetrieveFixups e)
  | None =>
    match fst (GetDyldchainFixups l) with
    | None => panic                       (* method call on a nil receiver *)
    | Some d =>
      let '(o, d') := Parse fuel d in
      modify (set_dcf (Some d')) ;;;
      match o with
      | Err e => fail (ErrCannotParseFixups e)
      | Panic => panic
      | OutOfFuel => out_of_fuel
      | Ok _ =>
        modify (set_rebases ∅) ;;;
        modify (set_baseAddr (GetBaseAddr l)) ;;;
        init_segments (Starts_list d') ;;;
        l <- get ;;
        if pointerSize l =? 8 then modify (set_pointerCodec (Some Codec64))
        else if pointerSize l =? 4 then modify (set_pointerCodec (Some Codec32))
        else if pointerSize l =? 0 then ret tt
        else fail (ErrUnexpectedPointerSize (pointerSize l))
      end
    end
  end.

End Overlay.

(** [lrr.writePointer(buf, x)]: a call of a nil function value panics, and
    so does [PutUint32]/[PutUint64] on a buffer that is too short. *)
Definition writePointer (bo : ByteOrder) (c : option PointerCodec)
    (buf : list byte) (x : Z) : outcome (list byte) :=
  match c with
  | None => Panic
  | Some c =>
    let w := codec_width c in
    if (length buf <? w)%nat then Panic
    else Ok (bo_put bo w x ++ drop w buf)
  end.

(** The slice expression [s[lo:hi]] on a backing array [arr] (up to the
    capacity): a panic unless [lo <= hi <= cap]. *)
Definition subslice (arr : list byte) (lo hi : Z) : outcome (list byte) :=
  if (lo <=? hi) && (hi <=? Z.of_nat (length arr))
  then Ok (take (Z.to_nat (hi - lo)) (drop (Z.to_nat lo) arr))
  else Panic.

(** [copy(dst, src)] where [dst] is the window of [arr] that starts at
    [lo] and has [n] elements. *)
Definition copy_into (arr : list byte) (lo : Z) (n : nat) (src : list byte)
    : list byte :=
  let k := Nat.min n (length src) in
  take (Z.to_nat lo) arr ++ take k src ++ drop (Z.to_nat lo + k) arr.

Definition bo_of (l : LazyRebasedReader) : ByteOrder :=
  match dcf l with
  | Some d => bo d
  | None => LittleEndian
  end.

(** The body of [for rOff, r := range lrr.rebases] in [patchReadBytes],
    on the buffer [p] and the scratch buffer [buf]; all arithmetic is
    unsigned 64-bit. *)
Definition patch_one (l : LazyRebasedReader) (off max : Z) (rOff : Z)
    (rb : Rebase) : M (Slice * list byte) unit :=
  fun '(p, buf) =>
    let ps := pointerSize l in
    if (uint64 (rOff + ps) <? off) || (max <? rOff) then (Ok tt, (p, buf))
    else
      let dstOff0 := uint64 (rOff - off) in
      let dstSize0 := ps in
      let srcOff0 := 0 in
      let dstOff := if rOff <? off then 0 else dstOff0 in
      let srcOff := if rOff <? off then uint64 (off - rOff) else srcOff0 in
      let dstSize1 := if rOff <? off then uint64 (dstSize0 - srcOff) else dstSize0 in
      let dstSize :=
        if max <? uint64 (rOff + dstSize1)
        then uint64 (dstSize1 - uint64 (uint64 (rOff + dstSize1) - max))
        else dstSize1 in
      match writePointer (bo_of l) (pointerCodec l) buf (Raw rb) with
      | Ok buf1 =>
        match subslice buf1 srcOff (uint64 (srcOff + dstSize)),
              subslice (s_arr p) dstOff (uint64 (dstOff + dstSize)) with
        | Ok expected, Ok found =>
          if negb (bool_decide (expected = found))
          then (Err (ErrUnderlyingMismatch rOff found expected), (p, buf1))
          else
            match writePointer (bo_of l) (pointerCodec l) buf1
                               (Resolve rb (baseAddr l)) with
            | Ok buf2 =>
              match subslice buf2 srcOff (Z.of_nat (length buf2)) with
              | Ok src =>
                (Ok tt,
                 (mkSlice (copy_into (s_arr p) dstOff (Z.to_nat dstSize) src)
                          (s_len p), buf2))
              | _ => (Panic, (p, buf2))
              end
            | _ => (Panic, (p, buf1))
            end
        | _, _ => (Panic, (p, buf1))
        end
      | _ => (Panic, (p, buf))
      end.

(** The loop of [patchReadBytes], the entries of the map being visited in
    the order [order] (Go leaves the order of a [range] over a map open). *)
Fixpoint patch_loop (l : LazyRebasedReader) (off max : Z)
    (order : list (Z * Rebase)) : M (Slice * list byte) unit :=
  match order with
  | [] => ret tt
  | (rOff, rb) :: rest =>
    patch_one l off max rOff rb ;;; patch_loop l off max rest
  end.

(** [patchReadBytes(p, off)]: [max := off + len(p)],
    [buf := make([]byte, lrr.pointerSize)], then the loop. *)
Definition patchReadBytes (l : LazyRebasedReader) (order : list (Z * Rebase))
    (off : Z) : M Slice unit :=
  fun p =>
    let max := uint64 (off + Z.of_nat (s_len p)) in
    let buf := repeat x00 (Z.to_nat (pointerSize l)) in
    let '(o, (p', _)) := patch_loop l off max order (p, buf) in
    (o, p').

(** [lrr.Reader.ReadAt(p, off)]: the delivered bytes overwrite the head of
    [p]; their number is [n]. *)
Definition underlying_ReadAt (rd : ReaderAt) (p : Slice) (off : Z)
    : Slice * Z * option error :=
  let '(bs, err) := rd (s_len p) off in
  let got := take (s_len p) bs in
  (mkSlice (got ++ drop (length got) (s_arr p)) (s_len p),
   Z.of_nat (length got), err).

(** What a call of [ReadAt] leaves behind: the returned [(n, err)] and the
    buffer, or a panic. *)
Inductive read_result :=
| ReadRet (n : Z) (err : option error) (p : Slice)
| ReadPanic
| ReadOutOfFuel.

Section OverlayRead.

Variable Resolve_of : RebaseKind -> Z -> Z -> Z.

(** The first statement of [ReadAt]: [if lrr.dcf == nil { init }]. *)
Definition ReadAt_init (fuel : nat) : LRR unit :=
  l <- get ;;
  match dcf l with
  | None => init Resolve_of fuel
  | Some _ => ret tt
  end.

(** [ReadAt(p, off)]; [order] is the order in which the [range] of
    [patchReadBytes] visits the map. *)
Definition ReadAt (fuel : nat) (order : list (Z * Rebase)) (p : Slice)
    (off : Z) (l : LazyRebasedReader) : read_result * LazyRebasedReader :=
  match ReadAt_init fuel l with
  | (Err e, l') => (ReadRet 0 (Some (ErrInitRebasedReader e)) p, l')
  | (Panic, l') => (ReadPanic, l')
  | (OutOfFuel, l') => (ReadOutOfFuel, l')
  | (Ok _, l') =>
    let '(p1, n, err) := underlying_ReadAt (Reader_ l') p off in
    match err with
    | Some e => (ReadRet n (Some e) p1, l')
    | None =>
      match patchReadBytes l' order (uint64 off) p1 with
      | (Ok _, p2) => (ReadRet n None p2, l')
      | (Err e, p2) => (ReadRet 0 (Some e) p2, l')
      | (Panic, _) => (ReadPanic, l')
      | (OutOfFuel, _) => (ReadOutOfFuel, l')
      end
    end
  end.

End OverlayRead.

(** The orders in which a [range] may visit the map. *)
Definition range_order (m : gmap Z Rebase) (order : list (Z * Rebase)) : Prop :=
  order ≡ₚ map_to_list m.

(* --------------------------------------------------------------------- *)
(** * Vocabulary of the statements                                        *)
(* --------------------------------------------------------------------- *)

Definition is_Ok {A} (o : outcome A) : bool :=
  match o with Ok _ => true | _ => false end.

(** The [next] accessor that [walkDcFixupChain] applies under each
    format: this is the code's choice of accessor, not the layout of the
    spec (for that see [spec_next]); the two differ for
    PTR_32_FIRMWARE. *)
Definition slot_next (k : DCPtrKind) (ptr : Z) : Z :=
  match k with
  | DYLD_CHAINED_PTR_32
  | DYLD_CHAINED_PTR_32_CACHE
  | DYLD_CHAINED_PTR_32_FIRMWARE => Generic32Next ptr
  | DYLD_CHAINED_PTR_64
  | DYLD_CHAINED_PTR_64_OFFSET
  | DYLD_CHAINED_PTR_64_KERNEL_CACHE
  | DYLD_CHAINED_PTR_X86_64_KERNEL_CACHE => Generic64Next ptr
  | _ => DcpArm64eNext ptr
  end.

(** The location of a chain head:
    [segment_offset + page_index * page_size + offset_in_page]. *)
Definition chain_head (s : DyldChainedStarts) (pageIndex offsetInPage : Z) : Z :=
  uint64 (uint64 (SegmentOffset (InSegment s)
                  + uint64 (pageIndex * PageSize (InSegment s)))
          + offsetInPage).


(** Segment [segIdx] of [d] is [s] with the records [recs] appended. *)
Definition seg_is (segIdx : nat) (s : DyldChainedStarts) (recs : list Fixup)
    (d : DyldChainedFixups) : Prop :=
  Starts_list d !! segIdx = Some (set_Fixups (Fixups s ++ recs) s).

(** [m] either panics, leaving the state alone, or appends one record for
    the slot [ptr] at [loc]. *)
Definition emits (segIdx : nat) (s : DyldChainedStarts) (recs : list Fixup)
    (loc ptr : Z) (m : DCF unit) : Prop :=
  forall d, seg_is segIdx s recs d ->
    m d = (Panic, d) \/
    exists f d', m d = (Ok tt, d') /\ seg_is segIdx s (recs ++ [f]) d'
                 /\ Fixup_Offset f = loc /\ Fixup_Pointer f = ptr.

(** The spec's reading of a MULTI page: the [page_starts] entries from the
    index on, up to and including the first one with the LAST bit (bit 14);
    the chain heads are these entries with that bit cleared. *)
Fixpoint spec_overflow_entries (entries : list Z) : option (list Z) :=
  match entries with
  | [] => None
  | e :: rest =>
    if Z.testbit e 14 then Some [e]
    else match spec_overflow_entries rest with
         | Some es => Some (e :: es)
         | None => None
         end
  end.

Definition spec_multi_heads (PageStarts : list Z) (raw : Z) : option (list Z) :=
  match spec_overflow_entries (drop (Z.to_nat (Z.land raw 0x7FFF)) PageStarts) with
  | Some es => Some (map (fun e => Z.clearbit e 14) es)
  | None => None
  end.

(** One chain walk per head, in order, stopping at the first walk that
    does not return normally. *)
Fixpoint walk_heads (fuel : nat) (segIdx : nat) (pageIndex : Z)
    (heads : list Z) : DCF unit :=
  match heads with
  | [] => ret tt
  | h :: rest =>
    walkDcFixupChain fuel segIdx pageIndex h ;;;
    walk_heads fuel segIdx pageIndex rest
  end.

(** The header with another value in [SymbolsFormat]. *)
Definition with_SymbolsFormat (v : Z) (d : DyldChainedFixups) : DyldChainedFixups :=
  set_Header (set_SymbolsFormat v (Header d)) d.

Definition lift_state {S A} (f : S -> S) (res : outcome A * S) : outcome A * S :=
  (fst res, f (snd res)).

(** [m] does not look at [SymbolsFormat]. *)
Definition blind (v : Z) {A} (m : DCF A) : Prop :=
  forall d, m (with_SymbolsFormat v d) = lift_state (with_SymbolsFormat v) (m d).

(** What [init] installs for a reader with rebases: a pointer size of 8
    or 4 bytes and the matching pair of pointer functions. *)
Definition codec_matches (l : LazyRebasedReader) : Prop :=
  (pointerSize l = 8 /\ pointerCodec l = Some Codec64) \/
  (pointerSize l = 4 /\ pointerCodec l = Some Codec32).

(* --------------------------------------------------------------------- *)
(** * Vocabulary of the fuel and invariant lemmas                         *)
(* --------------------------------------------------------------------- *)

(** With fuel [f'] instead of [f], [F] ends as with [f] unless [f] ran out. *)
Definition fuel_stable {A} (f f' : nat) (F : nat -> DCF A) : Prop :=
  forall d, fst (F f d) <> OutOfFuel -> F f' d = F f d.

(** [m] leaves the image reader alone. *)
Definition keeps_sr {A} (m : DCF A) : Prop :=
  forall d, sr (snd (m d)) = sr d.

(** The width in bytes of the slot that [walkDcFixupChain] reads under
    each format. *)
Definition slot_width (k : DCPtrKind) : nat :=
  match k with
  | DYLD_CHAINED_PTR_32
  | DYLD_CHAINED_PTR_32_CACHE
  | DYLD_CHAINED_PTR_32_FIRMWARE => 4
  | _ => 8
  end.

(** [m] has no loop that the fuel bounds. *)
Definition never_out_of_fuel {A} (m : DCF A) : Prop :=
  forall d, fst (m d) <> OutOfFuel.

(** The number of slot reads still possible: while the location can be
    sought (it is below 2^63) the reads are at the location, which grows;
    otherwise they are where the reader stands, which grows too. *)
Definition walk_measure (size pos loc : Z) : Z :=
  if loc <? 2 ^ 63 then Z.max 0 (size - loc)
  else size + 1 + Z.max 0 (size - pos).

(** [m] keeps the property [P] of the receiver, however it ends. *)
Definition preserves {A} (P : DyldChainedFixups -> Prop) (m : DCF A) : Prop :=
  forall d, P d -> P (snd (m d)).

(** The image reader holds [data] and stands at a position that is not
    negative. *)
Definition sr_ok (data : list byte) (d : DyldChainedFixups) : Prop :=
  rd_data (sr d) = data /\ 0 <= rd_pos (sr d).

(** What the walks rely on and keep: the page starts of a segment number
    less than 2^16, and only a segment with pages has fixups. *)
Definition pages_ok (ps : list Z) : Prop :=
  Z.of_nat (length ps) < 65536 /\ Forall (fun e => 0 <= e) ps.

Definition seg_ok (s : DyldChainedStarts) : Prop :=
  (forall ps, PageStarts s = Some ps -> pages_ok ps)
  /\ (Fixups s <> [] -> 0 < PageCount (InSegment s)).

Definition starts_ok (d : DyldChainedFixups) : Prop :=
  Forall seg_ok (Starts_list d).

(** Segment [i] has pages. *)
Definition paged (i : nat) (d : DyldChainedFixups) : Prop :=
  forall s, Starts_list d !! i = Some s -> 0 < PageCount (InSegment s).

Definition walk_inv (i : nat) (d : DyldChainedFixups) : Prop :=
  starts_ok d /\ paged i d.

(** [m] leaves the segments alone. *)
Definition keeps_Starts {A} (m : DCF A) : Prop :=
  forall d, Starts_list (snd (m d)) = Starts_list d.

(** A segment as [ParseStarts] leaves it: no fixup yet, a 16-bit page
    count. *)
Definition seg_fresh (s : DyldChainedStarts) : Prop :=
  Fixups s = [] /\ PageCount (InSegment s) < 65536
  /\ (forall ps, PageStarts s = Some ps -> pages_ok ps).

Definition starts_fresh (d : DyldChainedFixups) : Prop :=
  Forall seg_fresh (Starts_list d).

(** Fixups are recorded only for segments that have pages. *)
Definition fixups_in_paged (starts : list DyldChainedStarts) : Prop :=
  Forall (fun s => Fixups s <> [] -> 0 < PageCount (InSegment s)) starts.

(** A reader that [patchReadBytes] can work with: no rebase at all, or
    the pointer functions that fit the pointer size. *)
Definition overlay_ready (l : LazyRebasedReader) : Prop :=
  rebases l = ∅ \/ codec_matches l.

(* --------------------------------------------------------------------- *)
(** * Concrete inputs                                                     *)
(* --------------------------------------------------------------------- *)

Definition u16le (x : Z) : list byte := le_bytes 2 x.
Definition u32le (x : Z) : list byte := le_bytes 4 x.
Definition u64le (x : Z) : list byte := le_bytes 8 x.

(** Scenario S1: a PTR_64 segment at [segment_offset = 0x1000] with one
    page, [page_starts = [0]]; the slot at image offset 0x1000 is the
    rebase 0x2000. *)
Definition payload_S1 : list byte :=
  u32le 0 ++ u32le 28 ++ u32le 60 ++ u32le 60 ++ u32le 0 ++ u32le 1 ++ u32le 0 ++
  u32le 1 ++ u32le 8 ++
  u32le 24 ++ u16le 0x4000 ++ u16le 2 ++ u64le 0x1000 ++ u32le 0 ++ u16le 1
  ++ u16le 0.

Definition image_S1 : list byte := repeat x00 4096 ++ u64le 0x2000.

(** Scenario S3: imports "_malloc" and "_free"; the only slot of a PTR_64
    segment is a bind of ordinal 1. *)
Definition payload_S3 : list byte :=
  u32le 0 ++ u32le 28 ++ u32le 60 ++ u32le 68 ++ u32le 2 ++ u32le 1 ++ u32le 0 ++
  u32le 1 ++ u32le 8 ++
  u32le 24 ++ u16le 0x4000 ++ u16le 2 ++ u64le 0 ++ u32le 0 ++ u16le 1 ++ u16le 0 ++
  (* imports: name offsets 0 and 8 *)
  u32le (0 * 512) ++ u32le (8 * 512) ++
  (* symbols: "_malloc\0_free\0" *)
  bytes_of [95; 109; 97; 108; 108; 111; 99; 0; 95; 102; 114; 101; 101; 0].

Definition image_S3 : list byte := u64le (2 ^ 63 + 1).

(** Three imports "a", "b", "c"; one PTR_64 segment whose only chain
    starts at image offset 0 with a bind slot of ordinal 5. *)
Definition payload_ordinal : list byte :=
  (* header: version 0, starts 28, imports 60, symbols 72, count 3,
     imports_format 1, symbols_format 0 *)
  u32le 0 ++ u32le 28 ++ u32le 60 ++ u32le 72 ++ u32le 3 ++ u32le 1 ++ u32le 0 ++
  (* starts: one segment, info at +8 *)
  u32le 1 ++ u32le 8 ++
  (* segment: size 24, page_size 0x4000, PTR_64, offset 0, max 0,
     one page, page_starts [0] *)
  u32le 24 ++ u16le 0x4000 ++ u16le 2 ++ u64le 0 ++ u32le 0 ++ u16le 1 ++ u16le 0 ++
  (* imports: name offsets 0, 2, 4 *)
  u32le (0 * 512) ++ u32le (2 * 512) ++ u32le (4 * 512) ++
  (* symbols: "a\0b\0c\0" *)
  bytes_of [97; 0; 98; 0; 99; 0].

(** The slot: [bind = 1], [ordinal = 5], [next = 0]. *)
Definition image_ordinal : list byte := u64le (2 ^ 63 + 5).

(** One import whose name "ab" runs to the end of the payload without a
    NUL; no segment. *)
Definition payload_unterminated : list byte :=
  u32le 0 ++ u32le 28 ++ u32le 32 ++ u32le 36 ++ u32le 1 ++ u32le 1 ++ u32le 0 ++
  u32le 0 ++
  u32le 0 ++
  bytes_of [97; 98].

(** The same with the name terminated and [symbols_format = 1]. *)
Definition payload_compressed : list byte :=
  u32le 0 ++ u32le 28 ++ u32le 32 ++ u32le 36 ++ u32le 1 ++ u32le 1 ++ u32le 1 ++
  u32le 0 ++
  u32le 0 ++
  bytes_of [97; 98; 0].

(** One PTR_32 segment with [size = 8], [segment_offset = 0] and the chain
    head at in-page offset 2; the slot at 2 has [next = 4], the slot at 18
    ends the chain. *)
Definition payload_escape : list byte :=
  u32le 0 ++ u32le 28 ++ u32le 60 ++ u32le 60 ++ u32le 0 ++ u32le 1 ++ u32le 0 ++
  u32le 1 ++ u32le 8 ++
  u32le 8 ++ u16le 0x1000 ++ u16le 3 ++ u64le 0 ++ u32le 0 ++ u16le 1 ++ u16le 2.

Definition image_escape : list byte :=
  bytes_of [0; 0] ++ u32le (4 * 2 ^ 26 + 0x100) ++ repeat x00 12 ++ u32le 0x200.

Definition seg_escape : DyldChainedStarts :=
  mkStarts (mkStartsInSegment 8 0x1000 3 0 0 1) (Some [2]) [].

(** The receiver after [ParseStarts] on that payload. *)
Definition dcf_escape : DyldChainedFixups :=
  mkDcf (mkHeader 0 28 60 60 0 1 0) (Some [seg_escape]) []
        (mkReader payload_escape 60) (mkReader image_escape 0) LittleEndian.

(** The receiver after [ParseStarts] on [payload_compressed]. *)
Definition dcf_compressed : DyldChainedFixups :=
  mkDcf (mkHeader 0 28 32 36 1 1 1) (Some []) []
        (mkReader payload_compressed 32) (mkReader [] 0) LittleEndian.

(** Scenario S4: a page whose start is MULTI with index 2. *)
Definition page_starts_S4 : list Z := [0x8002; 0x0010; 0x4020; 0x0030].

Definition dcf_S4 : DyldChainedFixups :=
  mkDcf zero_header
        (Some [mkStarts (mkStartsInSegment 0 0x1000 3 0 0 1)
                        (Some page_starts_S4) []])
        [] (mkReader [] 0) (mkReader (repeat x00 64) 0) LittleEndian.

(** Scenario S5: an ARM64E segment and the slot [bind = 0], [auth = 1],
    [target = 0x4000], [diversity = 0x1234], [addr_div = 1], [key = 2],
    [next = 0]. *)
Definition seg_S5 : DyldChainedStarts :=
  mkStarts (mkStartsInSegment 0 0x4000 1 0 0 1) (Some [0]) [].

Definition dcf_S5 : DyldChainedFixups :=
  mkDcf zero_header (Some [seg_S5]) [] (mkReader [] 0) (mkReader [] 0)
        LittleEndian.

Definition pointer_S5 : Z :=
  0x4000 + 0x1234 * 2 ^ 32 + 1 * 2 ^ 48 + 2 * 2 ^ 49 + 0 * 2 ^ 51
  + 0 * 2 ^ 62 + 1 * 2 ^ 63.

(** A receiver whose two segments are of formats PTR_64_OFFSET and
    ARM64E_USERLAND24, and a pointer with every bit set. *)
Definition dcf_other_formats : DyldChainedFixups :=
  mkDcf zero_header
        (Some [mkStarts (mkStartsInSegment 0 0x4000 6 0 0 1) (Some [0]) [];
               mkStarts (mkStartsInSegment 0 0x4000 12 0 0 2) (Some [0; 0]) []])
        [mkDcfImport (bytes_of [97]) (DyldChainedImport 0)]
        (mkReader [] 0) (mkReader [] 0) LittleEndian.

(** A byte slice as an [io.ReaderAt]. *)
Definition reader_of (img : list byte) : ReaderAt :=
  fun n off =>
    if off <? 0 then ([], Some (ErrOther 0))
    else
      let bs := take n (drop (Z.to_nat off) img) in
      (bs, if (length bs <? n)%nat then Some EOF else None).

(** An initialised reader over a 32-byte image whose first 8 bytes are a
    rebase slot with raw value 0x2000, resolved by adding the base. *)
Definition image_overlay : list byte := u64le 0x2000 ++ repeat x00 24.

Definition rebase_overlay : Rebase :=
  mkRebase 0 0x2000 (fun base => uint64 (0x2000 + base)).

Definition lrr_overlay : LazyRebasedReader :=
  mkLrr (Some (NewChainedFixups [] image_overlay LittleEndian))
        0x100000000 {[ 0 := rebase_overlay ]} 8 (Some Codec64)
        (None, None) 0x100000000 (reader_of image_overlay).

(** A stand-in for the absent [Resolve] methods where [init] does not
    run. *)
Definition Resolve_raw : RebaseKind -> Z -> Z -> Z := fun _ ptr _ => ptr.

(* --------------------------------------------------------------------- *)
(** * Vocabulary of the further properties                                *)
(* --------------------------------------------------------------------- *)

(** [lrr.readPointer(src)], the other function that [init] installs:
    [bo.Uint64], or [uint64(bo.Uint32(x))]; both panic on a slice that is
    too short, and so does a call of the nil function value. *)
Definition readPointer (bo : ByteOrder) (c : option PointerCodec)
    (src : list byte) : outcome Z :=
  match c with
  | None => Panic
  | Some c =>
    let w := codec_width c in
    if (length src <? w)%nat then Panic
    else Ok (bo_uint bo (take w src))
  end.

(** The fixups of all segments, in the order in which [init] visits
    them. *)
Definition all_Fixups (starts : list DyldChainedStarts) : list Fixup :=
  concat (map Fixups starts).

(** A reader as a caller builds it: only the three required fields are
    set. *)
Definition new_reader (get : option DyldChainedFixups * option error)
    (base : Z) (rd : ReaderAt) : LazyRebasedReader :=
  mkLrr None 0 ∅ 0 None get base rd.

(** A reader over scenario S1, not yet initialised. *)
Definition lrr_S1 : LazyRebasedReader :=
  new_reader (Some (NewChainedFixups payload_S1 image_S1 LittleEndian), None)
             0x100000000 (reader_of image_S1).

(** A reader whose fixups payload is empty. *)
Definition lrr_empty_payload : LazyRebasedReader :=
  new_reader (Some (NewChainedFixups [] image_S1 LittleEndian), None)
             0x100000000 (reader_of image_S1).

(** The only segment of scenario S1 after [Parse]. *)
Definition seg_S1_parsed : DyldChainedStarts :=
  mkStarts (mkStartsInSegment 24 0x4000 2 0x1000 0 1) (Some [0])
           [RebaseFixup Ptr64Rebase 0x2000 0x1000].

(** What a chain walk changes of a segment: records are appended to its
    fixups; the header and the page starts stay. *)
Definition seg_extends (s s' : DyldChainedStarts) : Prop :=
  InSegment s' = InSegment s /\ PageStarts s' = PageStarts s
  /\ exists recs, Fixups s' = Fixups s ++ recs.

(** What the chain walks change of a receiver [d0] with parsed starts:
    the position of the image reader, and records appended. *)
Definition walk_extends (d0 d : DyldChainedFixups) : Prop :=
  Header d = Header d0 /\ bo d = bo d0 /\ r d = r d0
  /\ rd_data (sr d) = rd_data (sr d0)
  /\ Imports d = Imports d0
  /\ Starts d <> None
  /\ Forall2 seg_extends (Starts_list d0) (Starts_list d).

(** What [parseImports] changes of a receiver [d0]: the position of the
    payload reader, and imports appended. *)
Definition imports_extend (d0 d : DyldChainedFixups) : Prop :=
  Header d = Header d0 /\ bo d = bo d0
  /\ rd_data (r d) = rd_data (r d0)
  /\ sr d = sr d0 /\ Starts d = Starts d0
  /\ exists imps, Imports d = Imports d0 ++ imps.

(** What a whole [Parse] changes of a receiver with parsed starts. *)
Definition dcf_extends (d0 d : DyldChainedFixups) : Prop :=
  Header d = Header d0 /\ bo d = bo d0
  /\ rd_data (r d) = rd_data (r d0) /\ rd_data (sr d) = rd_data (sr d0)
  /\ Forall2 seg_extends (Starts_list d0) (Starts_list d)
  /\ exists imps, Imports d = Imports d0 ++ imps.

(** The type of a fixup record. *)
Inductive FixupKind :=
| IsRebase (k : RebaseKind)
| IsBind (k : BindKind).

Definition Fixup_kind (f : Fixup) : FixupKind :=
  match f with
  | RebaseFixup k _ _ => IsRebase k
  | BindFixup k _ _ _ => IsBind k
  end.

(** The table behind the [switch] of [walkDcFixupChain]: the type of the
    record for a slot, by the format of the segment and the slot's bind
    and auth bits. *)
Definition slot_kind (k : DCPtrKind) (ptr : Z) : FixupKind :=
  match k with
  | DYLD_CHAINED_PTR_32 =>
    if Generic32IsBind ptr then IsBind Ptr32Bind else IsRebase Ptr32Rebase
  | DYLD_CHAINED_PTR_32_CACHE => IsRebase Ptr32CacheRebase
  | DYLD_CHAINED_PTR_32_FIRMWARE => IsRebase Ptr32FirmwareRebase
  | DYLD_CHAINED_PTR_64 =>
    if Generic64IsBind ptr then IsBind Ptr64Bind else IsRebase Ptr64Rebase
  | DYLD_CHAINED_PTR_64_OFFSET => IsRebase Ptr64RebaseOffset
  | DYLD_CHAINED_PTR_64_KERNEL_CACHE
  | DYLD_CHAINED_PTR_X86_64_KERNEL_CACHE => IsRebase Ptr64KernelCacheRebase
  | DYLD_CHAINED_PTR_ARM64E_USERLAND24 =>
    match DcpArm64eIsBind ptr, DcpArm64eIsAuth ptr with
    | false, false => IsRebase Arm64eRebase24
    | true, false => IsBind Arm64eBind24
    | false, true => IsRebase Arm64eAuthRebase24
    | true, true => IsBind Arm64eAuthBind24
    end
  | _ =>
    match DcpArm64eIsBind ptr, DcpArm64eIsAuth ptr with
    | false, false => IsRebase Arm64eRebase
    | true, false => IsBind Arm64eBind
    | false, true => IsRebase Arm64eAuthRebase
    | true, true => IsBind Arm64eAuthBind
    end
  end.

(** A record fits the format [k] and the imports: it has the type the
    table gives for its slot, and a bind carries the name of the import
    at its ordinal. *)
Definition record_fits (k : DCPtrKind) (imports : list DcfImport) (f : Fixup)
    : Prop :=
  Fixup_kind f = slot_kind k (Fixup_Pointer f)
  /\ match f with
     | RebaseFixup _ _ _ => True
     | BindFixup bk ptr _ name =>
       exists i, imports !! Z.to_nat (Bind_Ordinal bk ptr) = Some i
                 /\ name = Name i
     end.

(** The state of a walk in segment [segIdx], which was [s] when the walk
    began: the imports are [imports], and the records appended so far fit. *)
Definition walk_fits (segIdx : nat) (s : DyldChainedStarts) (k : DCPtrKind)
    (imports : list DcfImport) (d : DyldChainedFixups) : Prop :=
  Imports d = imports
  /\ exists recs, seg_is segIdx s recs d /\ Forall (record_fits k imports) recs.

(** [m] does not panic from a state with the property [P]. *)
Definition no_panic_under {A} (P : DyldChainedFixups -> Prop) (m : DCF A) : Prop :=
  forall d, P d -> fst (m d) <> Panic.

(** The segment table as the payload holds it, by position: the segment
    for a [seg_info_offset] is empty when the offset is 0; otherwise its
    22-byte header stands at [StartsOffset + seg_info_offset] (a 32-bit sum)
    and its [PageCount] 16-bit page starts follow the header. *)
Definition decoded_segment (bo : ByteOrder) (lcdat : list byte)
    (StartsOffset segInfoOffset : Z) : DyldChainedStarts :=
  if segInfoOffset =? 0 then zero_starts
  else
    let base := Z.to_nat (uint32 (StartsOffset + segInfoOffset)) in
    let hdr := decode_in_segment bo (take 22 (drop base lcdat)) in
    let n := Z.to_nat (PageCount hdr) in
    mkStarts hdr
             (Some (map (bo_uint bo)
                        (chunks n 2 (take (2 * n) (drop (base + 22) lcdat)))))
             [].

(** The header stands at the beginning of the payload, the number of
    segments at [StartsOffset], the [seg_info_offset]s after it. *)
Definition decoded_starts (bo : ByteOrder) (lcdat : list byte)
    : DyldChainedFixupsHeader * list DyldChainedStarts :=
  let h := decode_header bo (take 28 lcdat) in
  let so := Z.to_nat (StartsOffset h) in
  let segCount := Z.to_nat (bo_uint bo (take 4 (drop so lcdat))) in
  let offs := map (bo_uint bo)
                  (chunks segCount 4 (take (4 * segCount) (drop (so + 4) lcdat))) in
  (h, map (decoded_segment bo lcdat (StartsOffset h)) offs).

(** Further vocabulary: the overflow runs, the records of a whole
    [Parse] and the concrete inputs of the later examples. *)

Definition rebase_second : Rebase :=
  mkRebase 8 0x3000 (fun base => uint64 (0x3000 + base)).

Definition image_two_slots : list byte :=
  u64le 0x2000 ++ u64le 0x3000 ++ repeat x00 16.

Definition lrr_two_slots : LazyRebasedReader :=
  mkLrr (Some (NewChainedFixups [] image_two_slots LittleEndian))
        0x100000000 {[ 0 := rebase_overlay; 8 := rebase_second ]} 8 (Some Codec64)
        (None, None) 0x100000000 (reader_of image_two_slots).

(** The overflow entries from index [idx] on hold one with the LAST bit. *)
Definition run_terminated (ps : list Z) (idx : Z) : bool :=
  existsb (fun e => has_bits e DYLD_CHAINED_PTR_START_LAST)
          (drop (Z.to_nat idx) ps).

(** A segment whose pages [Parse] can walk with [n] imports at hand: the
    page starts are 16-bit values, at least [PageCount] of them; the run
    of overflow entries of every page with the MULTI bit has an end; and
    the format of the segment has no bind whose ordinal could reach [n]. *)
Definition seg_walkable (n : nat) (s : DyldChainedStarts) : Prop :=
  forall ps, PageStarts s = Some ps ->
    pages_ok ps
    /\ PageCount (InSegment s) <= Z.of_nat (length ps)
    /\ (forall pi e, ps !! pi = Some e ->
          Z.of_nat pi < PageCount (InSegment s) ->
          has_bits e DYLD_CHAINED_PTR_START_MULTI = true ->
          e <> DYLD_CHAINED_PTR_START_NONE ->
          run_terminated ps (and_not e DYLD_CHAINED_PTR_START_MULTI) = true)
    /\ (forall k ptr bk,
          DCPtrKind_of (PointerFormat (InSegment s)) = Some k ->
          slot_kind k ptr = IsBind bk ->
          Bind_Ordinal bk ptr < Z.of_nat n).

(** Scenario S4 under the format PTR_32_CACHE, which has no bind. *)
Definition dcf_S4_cache : DyldChainedFixups :=
  mkDcf zero_header
        (Some [mkStarts (mkStartsInSegment 0 0x1000 4 0 0 1)
                        (Some page_starts_S4) []])
        [] (mkReader [] 0) (mkReader (repeat x00 64) 0) LittleEndian.

(** The [w] bytes at offset [loc] of the image [data] are there and
    decode to the word [ptr]. *)
Definition slot_in_image (bo : ByteOrder) (data : list byte) (w : nat)
    (loc ptr : Z) : Prop :=
  (Z.to_nat loc + w <= length data)%nat
  /\ bo_uint bo (take w (drop (Z.to_nat loc) data)) = ptr.

(** A record of a segment of format [k] stands for the slot of the image
    at its location.  A location from 2^63 on cannot be sought. *)
Definition record_in_image (bo : ByteOrder) (data : list byte) (k : DCPtrKind)
    (f : Fixup) : Prop :=
  0 <= Fixup_Offset f
  /\ (Fixup_Offset f < 2 ^ 63 ->
      slot_in_image bo data (slot_width k) (Fixup_Offset f) (Fixup_Pointer f)).

(** What the walks of [Parse] append to a segment [s]: nothing, or, when
    [s] has pages and a known format, records that fit the format and the
    imports and that stand for slots of the image. *)
Definition seg_fitted (imports : list DcfImport) (bo : ByteOrder)
    (data : list byte) (s s' : DyldChainedStarts) : Prop :=
  InSegment s' = InSegment s /\ PageStarts s' = PageStarts s
  /\ exists recs,
       Fixups s' = Fixups s ++ recs
       /\ (recs = []
           \/ 0 < PageCount (InSegment s)
              /\ exists k, DCPtrKind_of (PointerFormat (InSegment s)) = Some k
                           /\ Forall (fun f => record_fits k imports f
                                               /\ record_in_image bo data k f)
                                     recs).

(** The state of the walks of [Parse] that began on [d0]. *)
Definition parse_fits (d0 d : DyldChainedFixups) : Prop :=
  Imports d = Imports d0 /\ bo d = bo d0
  /\ rd_data (sr d) = rd_data (sr d0)
  /\ Forall2 (seg_fitted (Imports d0) (bo d0) (rd_data (sr d0)))
             (Starts_list d0) (Starts_list d).

(** Segment [i], if there is one, has pages and the format [k]. *)
Definition walking (i : nat) (k : DCPtrKind) (d0 : DyldChainedFixups) : Prop :=
  forall s, Starts_list d0 !! i = Some s ->
    0 < PageCount (InSegment s)
    /\ DCPtrKind_of (PointerFormat (InSegment s)) = Some k.

(** The receiver of scenario S3 after [ParseStarts]. *)
Definition dcf_S3_starts : DyldChainedFixups :=
  snd (ParseStarts (NewChainedFixups payload_S3 image_S3 LittleEndian)).

Definition seg_S3 : DyldChainedStarts :=
  mkStarts (mkStartsInSegment 24 0x4000 2 0 0 1) (Some [0]) [].

(** [m] leaves the byte order alone. *)
Definition keeps_bo {A} (m : DCF A) : Prop :=
  forall d, bo (snd (m d)) = bo d.

(** The reader over scenario S1 after its first use, and its only
    rebase. *)
Definition lrr_S1_ready : LazyRebasedReader := snd (init Resolve_raw 10 lrr_S1).

Definition rebase_S1 : Rebase :=
  mkRebase 0x1000 0x2000 (Resolve_raw Ptr64Rebase 0x2000).

(* --------------------------------------------------------------------- *)
(** * Vocabulary of the chains as functions of the image                  *)
(* --------------------------------------------------------------------- *)

(** The spec's [next(word)]: the [next] field of the layout that the spec
    gives for the family of the format.  A generic 32-bit slot is
    [target:26 | next:5 | bind:1], a firmware slot [{target:26, next:6}]
    with no bind bit; the generic 64-bit layouts have [next:12] and the
    ARM64E layouts [next:11], both from bit 51 on.  The spec has no layout
    of its own for PTR_32_CACHE and for the kernel-cache formats; they are
    read with the generic layout of their width. *)
Definition spec_next (k : DCPtrKind) (word : Z) : Z :=
  match k with
  | DYLD_CHAINED_PTR_32
  | DYLD_CHAINED_PTR_32_CACHE => ExtractBits word 26 5
  | DYLD_CHAINED_PTR_32_FIRMWARE => ExtractBits word 26 6
  | DYLD_CHAINED_PTR_64
  | DYLD_CHAINED_PTR_64_OFFSET
  | DYLD_CHAINED_PTR_64_KERNEL_CACHE
  | DYLD_CHAINED_PTR_X86_64_KERNEL_CACHE => ExtractBits word 51 12
  | _ => ExtractBits word 51 11
  end.

(** The slot of [w] bytes at offset [loc] of the image, when the image
    holds it. *)
Definition image_slot (bo : ByteOrder) (image : list byte) (w : nat) (loc : Z)
    : option Z :=
  if (0 <=? loc) && (loc + Z.of_nat w <=? Z.of_nat (length image))
  then Some (bo_uint bo (take w (drop (Z.to_nat loc) image)))
  else None.

(** The record for the slot [word] at [loc]: its type is the one of the
    table, and a bind carries the name of the import at its ordinal; there
    is none when the ordinal has no import. *)
Definition slot_record (k : DCPtrKind) (imports : list DcfImport)
    (word loc : Z) : option Fixup :=
  match slot_kind k word with
  | IsRebase rk => Some (RebaseFixup rk word loc)
  | IsBind bk =>
    match imports !! Z.to_nat (Bind_Ordinal bk word) with
    | Some i => Some (BindFixup bk word loc (Name i))
    | None => None
    end
  end.

(** A chain as a function of the image: the record of the slot at [loc],
    then, unless the [next] field of the slot (read by [next]) is zero, the
    records of the chain at [loc + next * stride].  There is no result
    when a slot is not in the image, when a bind has no import, or when the
    chain has more than [fuel] slots. *)
Fixpoint chain_records (next : Z -> Z) (fuel : nat) (bo : ByteOrder)
    (image : list byte) (imports : list DcfImport) (k : DCPtrKind) (loc : Z)
    : option (list Fixup) :=
  match fuel with
  | O => None
  | S fuel' =>
    match image_slot bo image (slot_width k) loc with
    | None => None
    | Some word =>
      match slot_record k imports word loc with
      | None => None
      | Some f =>
        if next word =? 0 then Some [f]
        else
          match chain_records next fuel' bo image imports k
                              (loc + next word * stride k) with
          | Some rest => Some (f :: rest)
          | None => None
          end
      end
    end
  end.


(** The chain heads of a page, by its [page_starts] value: none for NONE
    (0xFFFF); for a value with the MULTI bit (bit 15), the entries of
    [page_starts] from index [value & 0x7FFF] on, up to and including the
    first one with the LAST bit (bit 14), each with that bit cleared;
    otherwise the value itself. *)
Definition spec_page_heads (PageStarts : list Z) (raw : Z) : option (list Z) :=
  if raw =? 0xFFFF then Some []
  else if Z.testbit raw 15 then spec_multi_heads PageStarts raw
  else Some [raw].

(** The records that [f] gives for the elements of [xs], one after the
    other; none when one element has none. *)
Fixpoint records_of {A} (f : A -> option (list Fixup)) (xs : list A)
    : option (list Fixup) :=
  match xs with
  | [] => Some []
  | x :: rest =>
    match f x, records_of f rest with
    | Some a, Some b => Some (a ++ b)
    | _, _ => None
    end
  end.

(** The chain of the image at [loc], read in the format of the segment
    [s] with the [next] accessors of [walkDcFixupChain]. *)
Definition segment_chain (fuel : nat) (bo : ByteOrder) (image : list byte)
    (imports : list DcfImport) (s : DyldChainedStarts) (loc : Z)
    : option (list Fixup) :=
  match DCPtrKind_of (PointerFormat (InSegment s)) with
  | Some k => chain_records (slot_next k) fuel bo image imports k loc
  | None => None
  end.

(** The records of a page of [s]: those of the chains at its heads. *)
Definition page_records (fuel : nat) (bo : ByteOrder) (image : list byte)
    (imports : list DcfImport) (s : DyldChainedStarts) (ps : list Z)
    (pageIndex : nat) : option (list Fixup) :=
  match ps !! pageIndex with
  | None => None
  | Some raw =>
    match spec_page_heads ps raw with
    | None => None
    | Some heads =>
      records_of (fun h => segment_chain fuel bo image imports s
                             (chain_head s (Z.of_nat pageIndex) h))
                 heads
    end
  end.


(** The segment [s] with the records [recs] after its fixups. *)
Definition with_records (s : DyldChainedStarts) (recs : list Fixup)
    : DyldChainedStarts :=
  set_Fixups (Fixups s ++ recs) s.



(** One PTR_32_FIRMWARE segment with one page whose chain starts at image
    offset 0.  The slot at 0 is [{target = 5, next = 32}]: bit 31, the top
    bit of the 6-bit [next], is set and the five bits below it are clear.
    The slot at [0 + 32 * 4 = 128] is [{target = 7, next = 0}]. *)
Definition payload_firmware : list byte :=
  u32le 0 ++ u32le 28 ++ u32le 60 ++ u32le 60 ++ u32le 0 ++ u32le 1 ++ u32le 0 ++
  u32le 1 ++ u32le 8 ++
  u32le 24 ++ u16le 0x1000 ++ u16le 5 ++ u64le 0 ++ u32le 0 ++ u16le 1 ++ u16le 0.

Definition image_firmware : list byte :=
  u32le (32 * 2 ^ 26 + 5) ++ repeat x00 124 ++ u32le 7.

Definition seg_firmware : DyldChainedStarts :=
  mkStarts (mkStartsInSegment 24 0x1000 5 0 0 1) (Some [0]) [].

(** A PTR_32 segment with pages before the ARM64E segment of scenario
    S5. *)
Definition dcf_S5_second : DyldChainedFixups :=
  mkDcf zero_header
        (Some [mkStarts (mkStartsInSegment 0 0x4000 3 0 0 1) (Some [0]) [];
               seg_S5])
        [] (mkReader [] 0) (mkReader [] 0) LittleEndian.

(** A page whose start is MULTI with index 2, where two heads stand, and
    a page without chain. *)
Definition dcf_multi : DyldChainedFixups :=
  mkDcf zero_header
        (Some [mkStarts (mkStartsInSegment 0 0x1000 3 0 0 2)
                        (Some [0x8002; 0xFFFF; 0x0010; 0x4020]) []])
        [] (mkReader [] 0) (mkReader (repeat x00 64) 0) LittleEndian.

(** The first statement of [Parse]:
    [if dcf.Starts == nil { dcf.ParseStarts() }]. *)
Definition Parse_starts : DCF unit :=
  d <- get ;;
  match Starts d with
  | None => ParseStarts
  | Some _ => ret tt
  end.

(** One PTR_32 segment whose three page starts are a MULTI value with
    index 1 and the two entries of its overflow run, over an image of
    zeros.  The entries of the run are page starts as well: page 1 has its
    chain at in-page offset 0x10, page 2 at in-page offset 0x4020. *)
Definition payload_multi : list byte :=
  u32le 0 ++ u32le 28 ++ u32le 64 ++ u32le 64 ++ u32le 0 ++ u32le 1 ++ u32le 0 ++
  u32le 1 ++ u32le 8 ++
  u32le 28 ++ u16le 0x40 ++ u16le 3 ++ u64le 0 ++ u32le 0 ++ u16le 3
  ++ u16le 0x8001 ++ u16le 0x0010 ++ u16le 0x4020.

Definition image_multi : list byte := repeat x00 (Z.to_nat 0x40A4).

(* ===================================================================== *)
(** * Properties                                                          *)
(* ===================================================================== *)

(* --------------------------------------------------------------------- *)
(** ** The chain walk                                                     *)
(* --------------------------------------------------------------------- *)

Lemma seg_is_init segIdx s d :
  Starts_list d !! segIdx = Some s -> seg_is segIdx s [] d.
Proof.
  intros H. unfold seg_is. rewrite app_nil_r. destruct s; exact H.
Qed.


Lemma Starts_at_Some segIdx d s :
  Starts_list d !! segIdx = Some s -> Starts_at segIdx d = (Ok s, d).
Proof. intros H. unfold Starts_at. now rewrite H. Qed.

Lemma append_Fixup_seg_is segIdx s recs f d :
  seg_is segIdx s recs d ->
  exists d', append_Fixup segIdx f d = (Ok tt, d')
             /\ seg_is segIdx s (recs ++ [f]) d'.
Proof.
  intros H. unfold append_Fixup, Starts_update. red in H. rewrite H.
  eexists. split; [reflexivity|].
  unfold seg_is, Starts_list at 1. cbn.
  rewrite list_lookup_insert_eq by (eapply lookup_lt_Some; eauto).
  cbn. now rewrite <- app_assoc.
Qed.

(** A slot read leaves everything but the image reader alone, and ends in
    a value or in an error. *)
Lemma read_slot_cases w d :
  exists o x, read_slot w d = (o, set_sr x d) /\ o <> Panic /\ o <> OutOfFuel.
Proof.
  unfold read_slot, bind, get, on_sr, ret.
  destruct (Reader_ReadFull w (sr d)) as [o x] eqn:E.
  unfold Reader_ReadFull in E.
  destruct w as [|w].
  - injection E as <- <-. eexists _, _. repeat split; discriminate.
  - destruct (drop _ _); [|destruct (_ <? _)%nat]; injection E as <- <-;
      eexists _, _; (repeat split; discriminate).
Qed.

Lemma emits_rebase segIdx s recs loc ptr k :
  emits segIdx s recs loc ptr (append_rebase segIdx k ptr loc).
Proof.
  intros d H. right.
  destruct (append_Fixup_seg_is segIdx s recs (RebaseFixup k ptr loc) d H)
    as (d' & E & H').
  exists (RebaseFixup k ptr loc), d'. auto.
Qed.

Lemma emits_bind segIdx s recs loc ptr k :
  emits segIdx s recs loc ptr (append_bind segIdx k ptr loc).
Proof.
  intros d H. unfold append_bind, bind, Imports_Name.
  destruct (Imports d !! _) as [i|]; [right|left; reflexivity].
  destruct (append_Fixup_seg_is segIdx s recs (BindFixup k ptr loc (Name i)) d H)
    as (d' & E & H').
  exists (BindFixup k ptr loc (Name i)), d'. auto.
Qed.

Lemma emits_if segIdx s recs loc ptr (b : bool) m1 m2 :
  emits segIdx s recs loc ptr m1 -> emits segIdx s recs loc ptr m2 ->
  emits segIdx s recs loc ptr (if b then m1 else m2).
Proof. destruct b; auto. Qed.

Create HintDb emits.
#[local] Hint Resolve emits_rebase emits_bind emits_if : emits.

(** The shape shared by the cases of the [switch]: read, emit, hand back
    the [next] field. *)
Lemma emits_then_ret segIdx s recs loc w (nextf : Z -> Z)
    (body : Z -> DCF unit) d o d' :
  (forall v, emits segIdx s recs loc v (body v)) ->
  seg_is segIdx s recs d ->
  bind (read_slot w) (fun v => bind (body v) (fun _ => ret (nextf v))) d = (o, d') ->
  (exists f, o = Ok (nextf (Fixup_Pointer f))
             /\ seg_is segIdx s (recs ++ [f]) d'
             /\ Fixup_Offset f = loc) \/
  (is_Ok o = false /\ seg_is segIdx s recs d').
Proof.
  intros Hb H. unfold bind.
  destruct (read_slot_cases w d) as (o1 & x & E & _). rewrite E.
  destruct o1 as [v| | |];
    try (intros [= <- <-]; right; split; [reflexivity|exact H]).
  destruct (Hb v (set_sr x d) H) as [E'|(f & d1 & E' & H' & Hl & Hp)]; rewrite E'.
  - intros [= <- <-]. right. split; [reflexivity|exact H].
  - intros [= <- <-]. left. exists f. rewrite Hp. auto.
Qed.

Lemma walk_slot_spec segIdx s recs k loc d o d' :
  seg_is segIdx s recs d ->
  walk_slot segIdx k loc d = (o, d') ->
  (exists f, o = Ok (slot_next k (Fixup_Pointer f))
             /\ seg_is segIdx s (recs ++ [f]) d'
             /\ Fixup_Offset f = loc) \/
  (is_Ok o = false /\ seg_is segIdx s recs d').
Proof.
  intros H.
  destruct k; unfold walk_slot, slot_next;
    apply (emits_then_ret segIdx s recs loc); auto; intros v;
    try (destruct (DcpArm64eIsBind v), (DcpArm64eIsAuth v); cbn [negb andb]);
    auto with emits.
Qed.

Lemma uint64_step a b c :
  uint64 (a + uint64 (b + c)) = uint64 (uint64 (a + b) + c).
Proof.
  unfold uint64. rewrite Zplus_mod_idemp_r, Zplus_mod_idemp_l. f_equal. lia.
Qed.





(** The walk of the two-slot chain of [dcf_escape], evaluated. *)
Example walkDcFixupChain_escape :
  fst (walkDcFixupChain 10 0 0 2 dcf_escape) = Ok tt
  /\ Starts_list (snd (walkDcFixupChain 10 0 0 2 dcf_escape))
     = [set_Fixups [RebaseFixup Ptr32Rebase (4 * 2 ^ 26 + 0x100) 2;
                    RebaseFixup Ptr32Rebase 0x200 18] seg_escape].
Proof. split; vm_compute; reflexivity. Qed.

(** Scenario S1, evaluated: one [Rebase64] record at 0x1000 whose
    unpacked target is 0x2000. *)
Example Parse_S1 :
  fst (Parse 10 (NewChainedFixups payload_S1 image_S1 LittleEndian)) = Ok tt
  /\ map Fixups
       (Starts_list (snd (Parse 10 (NewChainedFixups payload_S1 image_S1
                                                      LittleEndian))))
     = [[RebaseFixup Ptr64Rebase 0x2000 0x1000]]
  /\ Ptr64Rebase_UnpackedTarget 0x2000 = 0x2000.
Proof. repeat split; vm_compute; reflexivity. Qed.

(** Scenario S3, evaluated: the bind of ordinal 1 carries the name
    "_free". *)
Example Parse_S3 :
  fst (Parse 10 (NewChainedFixups payload_S3 image_S3 LittleEndian)) = Ok tt
  /\ map Fixups
       (Starts_list (snd (Parse 10 (NewChainedFixups payload_S3 image_S3
                                                      LittleEndian))))
     = [[BindFixup Ptr64Bind (2 ^ 63 + 1) 0
                   (bytes_of [95; 102; 114; 101; 101])]]
  /\ GetImportForPointer
       (snd (Parse 10 (NewChainedFixups payload_S3 image_S3 LittleEndian)))
       (2 ^ 63 + 1)
     = Ok (mkDcfImport (bytes_of [95; 102; 114; 101; 101])
                       (DyldChainedImport (8 * 512))).
Proof. repeat split; vm_compute; reflexivity. Qed.



(** Under every format, a bind whose ordinal is not below the number of
    imports panics before a record is appended. *)
Lemma append_bind_out_of_range segIdx k ptr loc d :
  Z.of_nat (length (Imports d)) <= Bind_Ordinal k ptr ->
  append_bind segIdx k ptr loc d = (Panic, d).
Proof.
  intros H. unfold append_bind, bind, Imports_Name.
  rewrite lookup_ge_None_2 by lia. reflexivity.
Qed.

(** C1, at the failing input: with three imports, a PTR_64 slot that is a
    bind of ordinal 5 makes [Parse] panic on the index expression
    [dcf.Imports[bind.Ordinal()]]; no error is returned.  The scan of
    [GetImportForPointer] guards the same index and answers with its
    error. *)
Theorem Parse_bind_ordinal_out_of_range_panics :
  fst (bind ParseStarts (fun _ => parseImports)
         (NewChainedFixups payload_ordinal image_ordinal LittleEndian)) = Ok tt
  /\ length (Imports (snd (Parse 10 (NewChainedFixups payload_ordinal image_ordinal
                                                      LittleEndian)))) = 3%nat
  /\ Generic64IsBind (2 ^ 63 + 5) = true
  /\ Ptr64Bind_Ordinal (2 ^ 63 + 5) = 5
  /\ fst (Parse 10 (NewChainedFixups payload_ordinal image_ordinal LittleEndian))
     = Panic
  /\ GetImportForPointer
       (snd (Parse 10 (NewChainedFixups payload_ordinal image_ordinal LittleEndian)))
       (2 ^ 63 + 5) = Err ErrNotABindPointer.
Proof. repeat split; vm_compute; reflexivity. Qed.

(** C3, at the failing input: the name of the only import is not
    terminated; [parseImports] returns its error, [Parse] drops it and
    returns normally, with no import recorded. *)
Theorem Parse_drops_parseImports_error :
  fst (bind ParseStarts (fun _ => parseImports)
         (NewChainedFixups payload_unterminated [] LittleEndian))
    = Err (ErrReadString 36 EOF)
  /\ fst (Parse 10 (NewChainedFixups payload_unterminated [] LittleEndian)) = Ok tt
  /\ ImportsCount (Header (snd (Parse 10 (NewChainedFixups payload_unterminated []
                                                           LittleEndian)))) = 1
  /\ Imports (snd (Parse 10 (NewChainedFixups payload_unterminated []
                                              LittleEndian))) = [].
Proof. repeat split; vm_compute; reflexivity. Qed.

(* --------------------------------------------------------------------- *)
(** ** [Parse] and the [SymbolsFormat] field                              *)
(* --------------------------------------------------------------------- *)

Section SymbolsFormatBlind.

Variable v : Z.

Lemma blind_ret {A} (a : A) : blind v (ret a).
Proof. intros d. reflexivity. Qed.

Lemma blind_fail {A} e : blind v (@fail _ A e).
Proof. intros d. reflexivity. Qed.

Lemma blind_panic {A} : blind v (@panic _ A).
Proof. intros d. reflexivity. Qed.

Lemma blind_out_of_fuel {A} : blind v (@out_of_fuel _ A).
Proof. intros d. reflexivity. Qed.

Lemma blind_bind {A B} (m : DCF A) (k : A -> DCF B) :
  blind v m -> (forall a, blind v (k a)) -> blind v (bind m k).
Proof.
  intros Hm Hk d. unfold bind. rewrite Hm. unfold lift_state.
  destruct (m d) as [[a| | |] d1]; cbn; try reflexivity. apply Hk.
Qed.

(** A continuation of [get] that reads fields other than [SymbolsFormat]
    only. *)
Lemma blind_get {A} (k : DyldChainedFixups -> DCF A) :
  (forall d, k (with_SymbolsFormat v d) = k d) ->
  (forall d, blind v (k d)) -> blind v (bind get k).
Proof.
  intros Hk Hb d. unfold bind, get. rewrite Hk. apply Hb.
Qed.

Lemma blind_if {A} (b : bool) (m1 m2 : DCF A) :
  blind v m1 -> blind v m2 -> blind v (if b then m1 else m2).
Proof. destruct b; auto. Qed.

Lemma blind_on_r {A} (m : M Reader A) : blind v (on_r m).
Proof. intros d. unfold on_r. cbn. destruct (m (r d)); reflexivity. Qed.

Lemma blind_on_sr {A} (m : M Reader A) : blind v (on_sr m).
Proof. intros d. unfold on_sr. cbn. destruct (m (sr d)); reflexivity. Qed.

Lemma blind_r_Seek off : blind v (r_Seek off).
Proof. intros d. reflexivity. Qed.

Lemma blind_sr_Seek off : blind v (sr_Seek off).
Proof. intros d. reflexivity. Qed.

Lemma blind_Starts_at i : blind v (Starts_at i).
Proof.
  intros d. unfold Starts_at.
  change (Starts_list (with_SymbolsFormat v d)) with (Starts_list d).
  destruct (_ !! _); reflexivity.
Qed.

Lemma blind_Starts_update i g : blind v (Starts_update i g).
Proof.
  intros d. unfold Starts_update.
  change (Starts_list (with_SymbolsFormat v d)) with (Starts_list d).
  destruct (_ !! _); reflexivity.
Qed.

Lemma blind_Imports_Name o : blind v (Imports_Name o).
Proof.
  intros d. unfold Imports_Name.
  change (Imports (with_SymbolsFormat v d)) with (Imports d).
  destruct (_ !! _); reflexivity.
Qed.

Lemma blind_append_Import i :
  blind v (modify (fun d => set_Imports (Imports d ++ [i]) d)).
Proof. intros d. reflexivity. Qed.

Lemma blind_drop_error (m : DCF unit) : blind v m -> blind v (drop_error m).
Proof.
  intros Hm d. unfold drop_error. rewrite Hm. unfold lift_state.
  destruct (m d) as [[a| | |] d1]; reflexivity.
Qed.

Create HintDb blind.
#[local] Hint Resolve blind_ret blind_fail blind_panic blind_out_of_fuel
  blind_on_r blind_on_sr blind_r_Seek blind_sr_Seek blind_Starts_at
  blind_Starts_update blind_Imports_Name blind_append_Import : blind.

Ltac blind_step :=
  lazymatch goal with
  | |- blind _ (bind get _) => apply blind_get; [intros; reflexivity | intros]
  | |- blind _ (bind _ _) => apply blind_bind; [| intros]
  | |- blind _ (if _ then _ else _) => apply blind_if
  | |- _ => solve [auto with blind nocore]
  end.

Lemma blind_read_slot w : blind v (read_slot w).
Proof. unfold read_slot. repeat blind_step. Qed.

Lemma blind_append_rebase i k p l : blind v (append_rebase i k p l).
Proof. apply blind_Starts_update. Qed.

Lemma blind_append_bind i k p l : blind v (append_bind i k p l).
Proof.
  unfold append_bind. apply blind_bind; [apply blind_Imports_Name|intros name].
  apply blind_Starts_update.
Qed.

#[local] Hint Resolve blind_read_slot blind_append_rebase blind_append_bind : blind.

Lemma blind_walk_slot i k loc : blind v (walk_slot i k loc).
Proof. destruct k; unfold walk_slot; repeat blind_step. Qed.

Lemma blind_walk_loop fuel i pcs off next : blind v (walk_loop fuel i pcs off next).
Proof.
  revert next. induction fuel as [|fuel IH]; intros next; cbn [walk_loop].
  - auto with blind.
  - repeat blind_step. destruct (DCPtrKind_of _); [|auto with blind].
    apply blind_bind; [apply blind_walk_slot|intros nx].
    apply blind_if; auto with blind.
Qed.

Lemma blind_walkDcFixupChain fuel i pi off :
  blind v (walkDcFixupChain fuel i pi off).
Proof. unfold walkDcFixupChain. repeat blind_step. apply blind_walk_loop. Qed.

Lemma blind_overflow_loop fuel wf i pi ps idx :
  blind v (overflow_loop fuel wf i pi ps idx).
Proof.
  revert idx. induction fuel as [|fuel IH]; intros idx; cbn [overflow_loop].
  - auto with blind.
  - destruct (ps !! _); [|auto with blind].
    apply blind_bind; [apply blind_walkDcFixupChain|intros _].
    apply blind_if; auto with blind.
Qed.

Lemma blind_Parse_page fuel i ps pi : blind v (Parse_page fuel i ps pi).
Proof.
  unfold Parse_page. destruct (ps !! _); [|auto with blind].
  repeat apply blind_if; auto with blind.
  - apply blind_overflow_loop.
  - apply blind_walkDcFixupChain.
Qed.

Lemma blind_Parse_pages n fuel i ps pi : blind v (Parse_pages n fuel i ps pi).
Proof.
  revert pi. induction n as [|n IH]; intros pi; cbn [Parse_pages].
  - auto with blind.
  - apply blind_bind; [apply blind_Parse_page|intros _; apply IH].
Qed.

Lemma blind_Parse_segments n fuel i : blind v (Parse_segments n fuel i).
Proof.
  revert i. induction n as [|n IH]; intros i; cbn [Parse_segments].
  - auto with blind.
  - apply blind_bind; [apply blind_Starts_at|intros start].
    destruct (PageStarts start); [|apply IH].
    apply blind_bind; [apply blind_Parse_pages|intros _; apply IH].
Qed.

Lemma blind_read_imports : blind v read_imports.
Proof. unfold read_imports, r_Read. repeat blind_step. Qed.

Lemma blind_parseImports_names imports : blind v (parseImports_names imports).
Proof.
  induction imports as [|i rest IH]; cbn [parseImports_names].
  - auto with blind.
  - apply blind_get; [intros; reflexivity|intros d].
    destruct (ReadString0 _ _); auto with blind.
    apply blind_bind; [apply blind_append_Import|intros _; apply IH].
Qed.

Lemma blind_parseImports : blind v parseImports.
Proof.
  unfold parseImports. apply blind_get; [intros; reflexivity|intros d].
  apply blind_bind; [apply blind_r_Seek|intros _].
  apply blind_bind; [apply blind_read_imports|intros imports].
  apply blind_parseImports_names.
Qed.

(** [Parse] on a receiver whose starts are already decoded. *)
Lemma Parse_parsed fuel d ss :
  Starts d = Some ss ->
  Parse fuel d
  = bind (drop_error parseImports)
         (fun _ => bind get (fun d' =>
            Parse_segments (length (Starts_list d')) fuel 0)) d.
Proof.
  intros H. unfold Parse. unfold bind at 1. unfold get at 1. rewrite H.
  unfold bind at 1. reflexivity.
Qed.

Lemma blind_Parse_parsed fuel d ss :
  Starts d = Some ss ->
  Parse fuel (with_SymbolsFormat v d)
  = lift_state (with_SymbolsFormat v) (Parse fuel d).
Proof.
  intros Hs.
  rewrite (Parse_parsed fuel d ss Hs).
  rewrite (Parse_parsed fuel (with_SymbolsFormat v d) ss Hs).
  revert d Hs. intros d _. revert d.
  change (blind v (bind (drop_error parseImports)
                        (fun _ => bind get (fun d' =>
                           Parse_segments (length (Starts_list d')) fuel 0)))).
  apply blind_bind; [apply blind_drop_error, blind_parseImports|intros _].
  apply blind_get; [intros; reflexivity|intros d].
  apply blind_Parse_segments.
Qed.

End SymbolsFormatBlind.

(** C4, counterexample: a payload whose header has [symbols_format = 1]
    parses without error; the pool is read as raw NUL-terminated
    strings. *)
Lemma Parse_accepts_compressed_symbols :
  ParseStarts (NewChainedFixups payload_compressed [] LittleEndian)
    = (Ok tt, dcf_compressed)
  /\ SymbolsFormat (Header dcf_compressed) = 1
  /\ fst (Parse 10 (NewChainedFixups payload_compressed [] LittleEndian)) = Ok tt
  /\ Imports (snd (Parse 10 (NewChainedFixups payload_compressed [] LittleEndian)))
     = [mkDcfImport (bytes_of [97; 98]) (DyldChainedImport 0)].
Proof. repeat split; vm_compute; reflexivity. Qed.

(** C4, as the code has it: [Parse] does not look at [symbols_format].
    Once the header and the starts are decoded, [Parse] ends in the same
    way (return, error or panic), with the same imports and fixups,
    whatever the value of the field. *)
Theorem Parse_ignores_SymbolsFormat fuel v d ss :
  Starts d = Some ss ->
  Parse fuel (with_SymbolsFormat v d)
  = lift_state (with_SymbolsFormat v) (Parse fuel d).
Proof. apply blind_Parse_parsed. Qed.

Lemma Parse_ignores_SymbolsFormat_witness :
  Parse 10 (with_SymbolsFormat 0 dcf_compressed)
  = lift_state (with_SymbolsFormat 0) (Parse 10 dcf_compressed).
Proof.
  apply (Parse_ignores_SymbolsFormat 10 0 dcf_compressed []). reflexivity.
Defined.

(* --------------------------------------------------------------------- *)
(** ** Page starts                                                        *)
(* --------------------------------------------------------------------- *)

Lemma has_bits_pow2 e n : 0 <= n -> has_bits e (2 ^ n) = Z.testbit e n.
Proof.
  intros Hn. unfold has_bits.
  destruct (Z.testbit e n) eqn:E.
  - apply negb_true_iff, Z.eqb_neq. intros H.
    assert (Ht : Z.testbit (Z.land e (2 ^ n)) n = true)
      by (rewrite Z.land_spec, E, Z.pow2_bits_true by lia; reflexivity).
    rewrite H, Z.bits_0 in Ht. discriminate.
  - apply negb_false_iff, Z.eqb_eq. apply Z.bits_inj'. intros m Hm.
    rewrite Z.land_spec, Z.bits_0, Z.pow2_bits_eqb by lia.
    destruct (Z.eqb_spec n m) as [<-|]; [rewrite E|]; auto using andb_false_r.
Qed.

Lemma has_bits_LAST e : has_bits e DYLD_CHAINED_PTR_START_LAST = Z.testbit e 14.
Proof. apply (has_bits_pow2 e 14). lia. Qed.

Lemma has_bits_MULTI e : has_bits e DYLD_CHAINED_PTR_START_MULTI = Z.testbit e 15.
Proof. apply (has_bits_pow2 e 15). lia. Qed.

Lemma and_not_LAST e : and_not e DYLD_CHAINED_PTR_START_LAST = Z.clearbit e 14.
Proof. unfold and_not, Z.clearbit. rewrite Z.ldiff_land. reflexivity. Qed.

Lemma and_not_MULTI raw :
  0 <= raw < 2 ^ 16 ->
  and_not raw DYLD_CHAINED_PTR_START_MULTI = Z.land raw 0x7FFF.
Proof.
  intros H. unfold and_not, DYLD_CHAINED_PTR_START_MULTI.
  apply Z.bits_inj'. intros n Hn.
  rewrite !Z.land_spec. rewrite Z.lnot_spec by exact Hn.
  change 0x8000 with (2 ^ 15). rewrite Z.pow2_bits_eqb by lia.
  change 0x7FFF with (Z.ones 15).
  destruct (Z_lt_ge_dec n 15).
  - rewrite Z.ones_spec_low by lia.
    destruct (Z.eqb_spec 15 n); [lia|reflexivity].
  - rewrite Z.ones_spec_high by lia.
    destruct (Z.eqb_spec 15 n) as [<-|]; [reflexivity|].
    assert (Z.testbit raw n = false) as ->; [|reflexivity].
    destruct (Z.eq_dec raw 0) as [->|]; [apply Z.bits_0|].
    apply Z.bits_above_log2; [lia|].
    assert (Z.log2 raw < 16) by (apply Z.log2_lt_pow2; lia). lia.
Qed.

Lemma land_7FFF_nonneg raw : 0 <= raw -> 0 <= Z.land raw 0x7FFF.
Proof. intros H. apply Z.land_nonneg. auto. Qed.

(** The loop over the overflow entries walks the spec's heads, one after
    the other. *)
Lemma overflow_loop_refines wf segIdx pageIndex ps :
  Z.of_nat (length ps) <= 65536 ->
  forall es fuel idx,
    0 <= idx ->
    spec_overflow_entries (drop (Z.to_nat idx) ps) = Some es ->
    (length es <= fuel)%nat ->
    forall d,
      overflow_loop fuel wf segIdx pageIndex ps idx d
      = walk_heads wf segIdx pageIndex (map (fun e => Z.clearbit e 14) es) d.
Proof.
  intros Hlen. induction es as [|e es IH]; intros fuel idx Hidx Hspec Hfuel d.
  - destruct (drop (Z.to_nat idx) ps) as [|e' tl];
      cbn [spec_overflow_entries] in Hspec; [discriminate Hspec|].
    destruct (Z.testbit e' 14); [discriminate Hspec|].
    destruct (spec_overflow_entries tl); discriminate Hspec.
  - destruct fuel as [|fuel]; [cbn in Hfuel; lia|].
    destruct (drop (Z.to_nat idx) ps) as [|e' tl] eqn:Hd; [discriminate Hspec|].
    assert (Hlk : ps !! Z.to_nat idx = Some e').
    { rewrite <- (Nat.add_0_r (Z.to_nat idx)), <- lookup_drop, Hd. reflexivity. }
    assert (Htl : tl = drop (Z.to_nat (idx + 1)) ps).
    { rewrite Z2Nat.inj_add by lia. change (Z.to_nat 1) with 1%nat.
      rewrite <- drop_drop, Hd. reflexivity. }
    cbn [overflow_loop]. rewrite Hlk.
    rewrite has_bits_LAST, and_not_LAST.
    cbn [spec_overflow_entries] in Hspec.
    destruct (Z.testbit e' 14).
    + injection Hspec as <- <-. reflexivity.
    + destruct (spec_overflow_entries tl) as [es'|] eqn:Hs'; [|discriminate].
      injection Hspec as <- <-. cbn [map walk_heads]. unfold bind.
      destruct (walkDcFixupChain _ _ _ _ d) as [[[]| | |] d1]; try reflexivity.
      assert (Z.to_nat idx < length ps)%nat by (eapply lookup_lt_Some; eauto).
      assert (idx + 1 < 65536 \/ idx + 1 = 65536) as [Hi|Hi] by lia.
      * unfold uint16. rewrite Z.mod_small by lia.
        apply IH; [lia| |cbn in Hfuel; lia]. rewrite <- Htl. exact Hs'.
      * rewrite Htl, Hi in Hs'. rewrite drop_ge in Hs' by lia.
        discriminate.
Qed.

(** The body of the loop over the pages, however the walks end: for a
    [page_starts] value NONE (0xFFFF) it does nothing; for a value with the
    MULTI bit (bit 15) it is one walk per entry of [page_starts] from index
    [value & 0x7FFF] on, at the in-page offset given by the entry with the
    LAST bit (bit 14) cleared, up to and including the first entry that has
    the LAST bit (or up to the first walk that does not return
    normally). *)
Lemma Parse_page_multi_starts fuel segIdx ps pageIndex raw :
  Z.of_nat (length ps) <= 65536 ->
  ps !! Z.to_nat pageIndex = Some raw ->
  0 <= raw < 2 ^ 16 ->
  (raw = 0xFFFF -> forall d, Parse_page fuel segIdx ps pageIndex d = (Ok tt, d))
  /\ (raw <> 0xFFFF -> Z.testbit raw 15 = true ->
      forall heads,
        spec_multi_heads ps raw = Some heads ->
        (length heads <= fuel)%nat ->
        forall d, Parse_page fuel segIdx ps pageIndex d
                  = walk_heads fuel segIdx pageIndex heads d).
Proof.
  intros Hlen Hlk Hraw. unfold Parse_page. rewrite Hlk. split.
  - intros -> d. reflexivity.
  - intros Hne Hm heads Hh Hfuel d.
    destruct (Z.eqb_spec raw DYLD_CHAINED_PTR_START_NONE) as [E|_];
      [exfalso; apply Hne; exact E|].
    rewrite has_bits_MULTI, Hm, (and_not_MULTI raw Hraw).
    unfold spec_multi_heads in Hh.
    destruct (spec_overflow_entries _) as [es|] eqn:Hes; [|discriminate].
    injection Hh as <-.
    apply overflow_loop_refines;
      [exact Hlen|apply land_7FFF_nonneg; lia|exact Hes|].
    rewrite length_map in Hfuel. exact Hfuel.
Qed.

(** Scenario S4, evaluated: the only head is entry 2 with LAST cleared. *)
Example spec_multi_heads_S4 :
  spec_multi_heads page_starts_S4 0x8002 = Some [0x0020]
  /\ Parse_page 5 0 page_starts_S4 0 dcf_S4 = walk_heads 5 0 0 [0x0020] dcf_S4.
Proof. split; vm_compute; reflexivity. Qed.

(* --------------------------------------------------------------------- *)
(** ** The pointer scans                                                  *)
(* --------------------------------------------------------------------- *)

Lemma RebasePointer_loop_app pre rest pla pointer :
  Forall (fun s' => RebasePointer_segment s' pla pointer = None) pre ->
  RebasePointer_loop (pre ++ rest) pla pointer
  = RebasePointer_loop rest pla pointer.
Proof.
  induction 1 as [|s' pre Hs' _ IH]; [reflexivity|].
  cbn [app RebasePointer_loop]. rewrite Hs'. exact IH.
Qed.

(** C7, as amended: [RebasePointer] answers at the first segment that
    claims the pointer.  When that is a segment of format ARM64E with pages
    (every segment before it has no pages, has a format other than PTR_32,
    PTR_64 and ARM64E, or classifies the pointer as a bind) and the pointer
    has the bind bit clear and the auth bit set, the result is the slot's
    32-bit target field plus the preferred load address (unsigned 64-bit
    arithmetic). *)
Theorem RebasePointer_arm64e_auth_rebase dcf pre s post pla pointer :
  Starts_list dcf = pre ++ s :: post ->
  Forall (fun s' => RebasePointer_segment s' pla pointer = None) pre ->
  PageCount (InSegment s) <> 0 ->
  DCPtrKind_of (PointerFormat (InSegment s)) = Some DYLD_CHAINED_PTR_ARM64E ->
  DcpArm64eIsBind pointer = false ->
  DcpArm64eIsAuth pointer = true ->
  RebasePointer dcf pla pointer
  = uint64 (Arm64eAuthRebase_Target pointer + pla).
Proof.
  intros Hd Hpre Hpc Hk Hb Ha. unfold RebasePointer.
  rewrite Hd, (RebasePointer_loop_app pre _ _ _ Hpre).
  cbn [RebasePointer_loop]. unfold RebasePointer_segment.
  destruct (Z.eqb_spec (PageCount (InSegment s)) 0) as [E|_]; [contradiction|].
  rewrite Hk, Hb, Ha. reflexivity.
Qed.

(** Scenario S5: target 0x4000 and preferred load address 0x100000000
    resolve to 0x100004000. *)
Lemma RebasePointer_arm64e_auth_rebase_witness :
  RebasePointer dcf_S5 0x100000000 pointer_S5 = 0x100004000.
Proof.
  change 0x100004000
    with (uint64 (Arm64eAuthRebase_Target pointer_S5 + 0x100000000)).
  apply (RebasePointer_arm64e_auth_rebase dcf_S5 [] seg_S5 [] 0x100000000
           pointer_S5).
  - reflexivity.
  - constructor.
  - vm_compute. discriminate.
  - reflexivity.
  - reflexivity.
  - reflexivity.
Defined.

Lemma GetImportForPointer_loop_skips imports starts pointer :
  Forall (fun s => GetImportForPointer_ordinal s pointer = None) starts ->
  GetImportForPointer_loop imports starts pointer = Err ErrNotABindPointer.
Proof.
  induction 1 as [|s starts Hs _ IH]; [reflexivity|].
  cbn [GetImportForPointer_loop]. rewrite Hs. exact IH.
Qed.

Lemma RebasePointer_loop_skips starts pla pointer :
  Forall (fun s => RebasePointer_segment s pla pointer = None) starts ->
  RebasePointer_loop starts pla pointer = pointer.
Proof.
  intros H. rewrite <- (app_nil_r starts).
  rewrite (RebasePointer_loop_app starts [] pla pointer H). reflexivity.
Qed.

(** C10: when every segment with a non-zero page count has a format
    other than PTR_32, PTR_64 and ARM64E, [GetImportForPointer] answers
    with the not-a-bind error and [RebasePointer] hands the pointer back
    unchanged, whatever the pointer's bits. *)
Theorem pointer_scan_skips_other_formats dcf pla pointer :
  Forall (fun s =>
            PageCount (InSegment s) <> 0 ->
            DCPtrKind_of (PointerFormat (InSegment s)) <> Some DYLD_CHAINED_PTR_32
            /\ DCPtrKind_of (PointerFormat (InSegment s)) <> Some DYLD_CHAINED_PTR_64
            /\ DCPtrKind_of (PointerFormat (InSegment s))
               <> Some DYLD_CHAINED_PTR_ARM64E)
         (Starts_list dcf) ->
  GetImportForPointer dcf pointer = Err ErrNotABindPointer
  /\ RebasePointer dcf pla pointer = pointer.
Proof.
  intros H. split.
  - apply GetImportForPointer_loop_skips. eapply Forall_impl; [exact H|].
    intros s Hs. cbn beta in Hs. unfold GetImportForPointer_ordinal.
    destruct (Z.eqb_spec (PageCount (InSegment s)) 0) as [|Hpc]; [reflexivity|].
    destruct (Hs Hpc) as (H32 & H64 & Harm).
    destruct (DCPtrKind_of _) as [[]|]; congruence.
  - apply RebasePointer_loop_skips. eapply Forall_impl; [exact H|].
    intros s Hs. cbn beta in Hs. unfold RebasePointer_segment.
    destruct (Z.eqb_spec (PageCount (InSegment s)) 0) as [|Hpc]; [reflexivity|].
    destruct (Hs Hpc) as (H32 & H64 & Harm).
    destruct (DCPtrKind_of _) as [[]|]; congruence.
Qed.

Lemma pointer_scan_skips_other_formats_witness :
  GetImportForPointer dcf_other_formats (2 ^ 64 - 1) = Err ErrNotABindPointer
  /\ RebasePointer dcf_other_formats 0x100000000 (2 ^ 64 - 1) = 2 ^ 64 - 1.
Proof.
  apply (pointer_scan_skips_other_formats dcf_other_formats 0x100000000
           (2 ^ 64 - 1)).
  repeat constructor; vm_compute; discriminate.
Defined.

(* --------------------------------------------------------------------- *)
(** ** The read-through reader                                            *)
(* --------------------------------------------------------------------- *)

Lemma le_bytes_length n x : length (le_bytes n x) = n.
Proof. revert x. induction n; intros; cbn; auto. Qed.

Lemma bo_put_length bo n x : length (bo_put bo n x) = n.
Proof. destruct bo; cbn; rewrite ?length_rev; apply le_bytes_length. Qed.

Lemma writePointer_ok l buf x :
  codec_matches l -> length buf = Z.to_nat (pointerSize l) ->
  exists buf', writePointer (bo_of l) (pointerCodec l) buf x = Ok buf'
               /\ length buf' = Z.to_nat (pointerSize l).
Proof.
  intros [[Hp Hc]|[Hp Hc]] Hb; unfold writePointer; rewrite Hc;
    cbn [codec_width]; rewrite Hb, Hp;
    (eexists; split; [reflexivity|]);
    rewrite length_app, bo_put_length, length_drop, Hb, Hp; reflexivity.
Qed.

Lemma subslice_empty arr lo :
  0 <= lo <= Z.of_nat (length arr) -> subslice arr lo lo = Ok [].
Proof.
  intros H. unfold subslice.
  destruct (Z.leb_spec lo lo); [|lia].
  destruct (Z.leb_spec lo (Z.of_nat (length arr))); [|lia].
  cbn. rewrite Z.sub_diag. reflexivity.
Qed.

Lemma subslice_ok arr lo hi :
  0 <= lo <= hi -> hi <= Z.of_nat (length arr) ->
  exists s, subslice arr lo hi = Ok s.
Proof.
  intros H1 H2. unfold subslice.
  destruct (Z.leb_spec lo hi); [|lia].
  destruct (Z.leb_spec hi (Z.of_nat (length arr))); [|lia].
  cbn. eauto.
Qed.

Lemma copy_into_nothing arr lo src : copy_into arr lo 0 src = arr.
Proof. unfold copy_into. cbn. rewrite Nat.add_0_r. apply take_drop. Qed.

Lemma uint64_wrapped x :
  2 ^ 64 <= x < 2 ^ 65 -> uint64 x = x - 2 ^ 64.
Proof.
  intros H. unfold uint64. symmetry.
  apply Z.mod_unique_pos with (q := 1); lia.
Qed.

(** A rebase whose slot does not meet the read is skipped, or it touches
    the read at one end and patches no byte. *)
Lemma patch_one_disjoint l off max rOff rb p buf :
  codec_matches l ->
  length buf = Z.to_nat (pointerSize l) ->
  (s_len p <= length (s_arr p))%nat ->
  Z.of_nat (s_len p) < 2 ^ 62 ->
  0 <= off < 2 ^ 64 ->
  max = uint64 (off + Z.of_nat (s_len p)) ->
  0 <= rOff < 2 ^ 64 ->
  rOff + pointerSize l <= off \/ off + Z.of_nat (s_len p) <= rOff ->
  exists buf', patch_one l off max rOff rb (p, buf) = (Ok tt, (p, buf'))
               /\ length buf' = Z.to_nat (pointerSize l).
Proof.
  intros Hc Hb Hcap Hlen Hoff -> Hr Hdis.
  assert (Hps : pointerSize l = 8 \/ pointerSize l = 4)
    by (destruct Hc as [[? _]|[? _]]; auto).
  unfold patch_one. set (ps := pointerSize l) in *.
  set (len := Z.of_nat (s_len p)) in *.
  destruct (Z.ltb_spec (uint64 (rOff + ps)) off) as [|Hn1]; [cbn; eauto|].
  destruct (Z.ltb_spec (uint64 (off + len)) rOff) as [|Hn2]; [cbn; eauto|].
  cbn [orb].
  destruct (writePointer_ok l buf (Raw rb) Hc Hb) as (buf1 & -> & Hb1).
  destruct (writePointer_ok l buf1 (Resolve rb (baseAddr l)) Hc Hb1)
    as (buf2 & E2 & Hb2).
  assert (Hmax : off + len < 2 ^ 64).
  { destruct (Z_lt_ge_dec (off + len) (2 ^ 64)) as [|Hge]; [assumption|].
    rewrite (uint64_wrapped (off + len)) in Hn2 by lia.
    destruct Hdis as [Hbefore|Hafter]; [|lia].
    destruct (Z_lt_ge_dec (rOff + ps) (2 ^ 64)).
    - unfold uint64 in Hn1. rewrite Z.mod_small in Hn1 by lia. lia.
    - rewrite (uint64_wrapped (rOff + ps)) in Hn1 by lia. lia. }
  assert (Hend : rOff + ps < 2 ^ 64).
  { destruct (Z_lt_ge_dec (rOff + ps) (2 ^ 64)) as [|Hge]; [assumption|].
    rewrite (uint64_wrapped (rOff + ps)) in Hn1 by lia.
    unfold uint64 in Hn2. rewrite Z.mod_small in Hn2 by lia. lia. }
  unfold uint64 in *.
  rewrite (Z.mod_small (off + len)) in * by lia.
  rewrite (Z.mod_small (rOff + ps)) in * by lia.
  destruct Hdis as [Hbefore|Hafter].
  - (* the slot ends where the read begins *)
    assert (rOff + ps = off) by lia.
    destruct (Z.ltb_spec rOff off); [|lia].
    replace (off - rOff) with ps by lia.
    rewrite (Z.mod_small ps) by lia. rewrite Z.sub_diag.
    rewrite (Z.mod_small 0) by lia. rewrite Z.add_0_r.
    rewrite (Z.mod_small rOff) by lia.
    destruct (Z.ltb_spec (off + len) rOff); [lia|].
    rewrite Z.add_0_r, (Z.mod_small ps) by lia. cbn [Z.add].
    rewrite (Z.mod_small 0) by lia.
    rewrite (subslice_empty buf1 ps) by lia.
    rewrite (subslice_empty (s_arr p) 0) by lia.
    rewrite bool_decide_eq_true_2 by reflexivity.
    cbn [negb]. rewrite E2.
    destruct (subslice_ok buf2 ps (Z.of_nat (length buf2))) as [src ->];
      [lia|lia|].
    change (Z.to_nat 0) with 0%nat. rewrite copy_into_nothing.
    exists buf2. split; [|exact Hb2]. destruct p; reflexivity.
  - (* the slot begins where the read ends *)
    assert (rOff = off + len) by lia.
    destruct (Z.ltb_spec rOff off); [lia|].
    rewrite (Z.mod_small (rOff + ps)) by lia.
    destruct (Z.ltb_spec (off + len) (rOff + ps)); [|lia].
    replace (rOff + ps - (off + len)) with ps by lia.
    rewrite (Z.mod_small ps) by lia. rewrite Z.sub_diag.
    rewrite (Z.mod_small 0) by lia. rewrite !Z.add_0_r.
    replace (rOff - off) with len by lia.
    rewrite (Z.mod_small len) by lia. cbn [Z.add].
    rewrite (Z.mod_small 0) by lia.
    rewrite (Z.mod_small len) by lia.
    rewrite (subslice_empty buf1 0) by lia.
    rewrite (subslice_empty (s_arr p) len) by lia.
    rewrite bool_decide_eq_true_2 by reflexivity.
    cbn [negb]. rewrite E2.
    destruct (subslice_ok buf2 0 (Z.of_nat (length buf2))) as [src ->];
      [lia|lia|].
    change (Z.to_nat 0) with 0%nat. rewrite copy_into_nothing.
    exists buf2. split; [|exact Hb2]. destruct p; reflexivity.
Qed.

Lemma patch_loop_disjoint l off max p :
  codec_matches l ->
  (s_len p <= length (s_arr p))%nat ->
  Z.of_nat (s_len p) < 2 ^ 62 ->
  0 <= off < 2 ^ 64 ->
  max = uint64 (off + Z.of_nat (s_len p)) ->
  forall order buf,
    length buf = Z.to_nat (pointerSize l) ->
    Forall (fun e => 0 <= fst e < 2 ^ 64
                     /\ (fst e + pointerSize l <= off
                         \/ off + Z.of_nat (s_len p) <= fst e)) order ->
    exists buf', patch_loop l off max order (p, buf) = (Ok tt, (p, buf')).
Proof.
  intros Hc Hcap Hlen Hoff Hmax.
  induction order as [|[rOff rb] rest IH]; intros buf Hb Hall.
  - exists buf. reflexivity.
  - inversion Hall as [|? ? [Hr Hd] Hrest]; subst. cbn [fst] in *.
    destruct (patch_one_disjoint l off _ rOff rb p buf Hc Hb Hcap Hlen Hoff
                eq_refl Hr Hd) as (buf1 & E1 & Hb1).
    destruct (IH buf1 Hb1 Hrest) as (buf2 & E2).
    exists buf2. cbn [patch_loop]. unfold bind. rewrite E1. exact E2.
Qed.

Lemma underlying_ReadAt_shape rd p off :
  (s_len p <= length (s_arr p))%nat ->
  s_len (fst (fst (underlying_ReadAt rd p off))) = s_len p
  /\ length (s_arr (fst (fst (underlying_ReadAt rd p off)))) = length (s_arr p).
Proof.
  intros H. unfold underlying_ReadAt. destruct (rd (s_len p) off) as [bs err].
  cbn. split; [reflexivity|].
  rewrite length_app, length_drop, length_take. lia.
Qed.

Lemma uint64_of_int64_range off :
  - 2 ^ 63 <= off < 2 ^ 63 -> 0 <= uint64 off < 2 ^ 64.
Proof. intros _. unfold uint64. apply Z.mod_pos_bound. lia. Qed.

(** On an initialised reader (pointer size and pointer functions as
    [init] installs them), a [ReadAt] whose byte range is apart from the
    slot of every recorded rebase (the slot ends at or before the offset of
    the read, or begins at or after its end) returns what the underlying
    reader returned: the same count, the same error and the same buffer
    contents. *)
Lemma ReadAt_outside_rebases_unchanged Resolve_of fuel order p off l l' :
  ReadAt_init Resolve_of fuel l = (Ok tt, l') ->
  range_order (rebases l') order ->
  rebases l' = ∅ \/ codec_matches l' ->
  (s_len p <= length (s_arr p))%nat ->
  Z.of_nat (s_len p) < 2 ^ 62 ->
  - 2 ^ 63 <= off < 2 ^ 63 ->
  (forall rOff rb,
     rebases l' !! rOff = Some rb ->
     0 <= rOff < 2 ^ 64
     /\ (rOff + pointerSize l' <= uint64 off
         \/ uint64 off + Z.of_nat (s_len p) <= rOff)) ->
  ReadAt Resolve_of fuel order p off l
  = (ReadRet (snd (fst (underlying_ReadAt (Reader_ l') p off)))
             (snd (underlying_ReadAt (Reader_ l') p off))
             (fst (fst (underlying_ReadAt (Reader_ l') p off))), l').
Proof.
  intros Hinit Horder Hready Hcap Hlen Hoff Hdis.
  unfold ReadAt. rewrite Hinit.
  destruct (underlying_ReadAt_shape (Reader_ l') p off Hcap) as [Hl1 Ha1].
  destruct (underlying_ReadAt (Reader_ l') p off) as [[p1 n] err].
  cbn [fst snd] in *.
  destruct err as [e|]; [reflexivity|].
  unfold patchReadBytes.
  destruct Hready as [Hempty|Hc].
  - rewrite Hempty in Horder. unfold range_order in Horder.
    rewrite map_to_list_empty in Horder.
    apply Permutation_nil_r in Horder. subst order. reflexivity.
  - destruct (patch_loop_disjoint l' (uint64 off)
                (uint64 (uint64 off + Z.of_nat (s_len p1))) p1 Hc)
      with (order := order) (buf := repeat x00 (Z.to_nat (pointerSize l')))
      as (buf' & E).
    + lia.
    + rewrite Hl1. exact Hlen.
    + apply uint64_of_int64_range. exact Hoff.
    + reflexivity.
    + apply repeat_length.
    + apply Forall_forall. intros [rOff rb] Hin. cbn [fst].
      rewrite Hl1. apply (Hdis rOff rb).
      apply elem_of_map_to_list. unfold range_order in Horder.
      rewrite <- Horder. exact Hin.
    + rewrite E. reflexivity.
Qed.

(** C8, at the failing input: a read of 3 bytes at offset 2 lies inside
    the 8-byte slot of the rebase at offset 0, and the bytes delivered by
    the underlying reader agree with the raw word.  The length of the
    window is worked out as 5 instead of 3: with a buffer of capacity 3
    the slice expression panics; with a larger capacity the comparison
    takes in two bytes that were not read and a mismatch error is
    returned.  A read that covers the slot is patched as specified. *)
Theorem ReadAt_inside_slot_panics :
  Slice_bytes (fst (fst (underlying_ReadAt (Reader_ lrr_overlay) (make_bytes 3) 2)))
    = take 3 (drop 2 (bo_put LittleEndian 8 (Raw rebase_overlay)))
  /\ fst (ReadAt Resolve_raw 1 [(0, rebase_overlay)] (make_bytes 3) 2 lrr_overlay)
     = ReadPanic
  /\ fst (ReadAt Resolve_raw 1 [(0, rebase_overlay)] (mkSlice (repeat xff 8) 3) 2
            lrr_overlay)
     = ReadRet 0
         (Some (ErrUnderlyingMismatch 0 (bytes_of [0; 0; 0; 255; 255])
                                        (bytes_of [0; 0; 0; 0; 0])))
         (mkSlice (bytes_of [0; 0; 0; 255; 255; 255; 255; 255]) 3)
  /\ fst (ReadAt Resolve_raw 1 [(0, rebase_overlay)] (make_bytes 8) 0 lrr_overlay)
     = ReadRet 8 None (mkSlice (bo_put LittleEndian 8 0x100002000) 8).
Proof. repeat split; vm_compute; reflexivity. Qed.

(** The order of the only entry of the map of [lrr_overlay]. *)
Lemma range_order_overlay :
  range_order (rebases lrr_overlay) [(0, rebase_overlay)].
Proof.
  unfold range_order. cbn [rebases lrr_overlay].
  rewrite map_to_list_singleton. reflexivity.
Qed.

(* --------------------------------------------------------------------- *)
(** ** Fuel: more of it changes nothing                                   *)
(* --------------------------------------------------------------------- *)

Lemma fuel_stable_const {A} f f' (m : DCF A) : fuel_stable f f' (fun _ => m).
Proof. intros d _. reflexivity. Qed.

Lemma fuel_stable_bind {A B} f f' (F : nat -> DCF A) (G : nat -> A -> DCF B) :
  fuel_stable f f' F -> (forall a, fuel_stable f f' (fun g => G g a)) ->
  fuel_stable f f' (fun g => bind (F g) (G g)).
Proof.
  intros HF HG d. unfold bind.
  destruct (F f d) as [o d1] eqn:E. intros Hne.
  assert (Ho : o <> OutOfFuel) by (intros ->; apply Hne; reflexivity).
  rewrite (HF d) by (rewrite E; exact Ho). rewrite E.
  destruct o as [a| | |]; try reflexivity.
  apply (HG a d1). exact Hne.
Qed.

Lemma fuel_stable_if {A} f f' (b : bool) (F G : nat -> DCF A) :
  fuel_stable f f' F -> fuel_stable f f' G ->
  fuel_stable f f' (fun g => if b then F g else G g).
Proof. destruct b; auto. Qed.

Ltac stable_step :=
  lazymatch goal with
  | |- fuel_stable _ _ (fun g => bind _ _) => apply fuel_stable_bind; [|intros]
  | |- fuel_stable _ _ (fun g => if _ then _ else _) => apply fuel_stable_if
  | |- fuel_stable _ _ (fun g => match ?x with _ => _ end) => destruct x
  | |- fuel_stable _ _ (fun _ => ?m) => apply fuel_stable_const
  end.

Lemma fuel_stable_walk_loop segIdx pcs off :
  forall f f', (f <= f')%nat ->
  forall next, fuel_stable f f' (fun g => walk_loop g segIdx pcs off next).
Proof.
  induction f as [|f IH]; intros f' Hle next.
  - intros d Hne. exfalso. apply Hne. reflexivity.
  - destruct f' as [|f']; [lia|].
    change (fuel_stable f f' (fun g => walk_loop (S g) segIdx pcs off next)).
    cbn [walk_loop]. repeat stable_step. apply IH. lia.
Qed.

Lemma fuel_stable_walkDcFixupChain f f' segIdx pageIndex off :
  (f <= f')%nat ->
  fuel_stable f f' (fun g => walkDcFixupChain g segIdx pageIndex off).
Proof.
  intros Hle. unfold walkDcFixupChain. repeat stable_step.
  apply fuel_stable_walk_loop. exact Hle.
Qed.

Lemma fuel_stable_overflow_loop wf wf' segIdx pageIndex ps :
  (wf <= wf')%nat ->
  forall f f', (f <= f')%nat ->
  forall idx d,
    fst (overflow_loop f wf segIdx pageIndex ps idx d) <> OutOfFuel ->
    overflow_loop f' wf' segIdx pageIndex ps idx d
    = overflow_loop f wf segIdx pageIndex ps idx d.
Proof.
  intros Hw. induction f as [|f IH]; intros f' Hle idx d.
  - intros Hne. exfalso. apply Hne. reflexivity.
  - destruct f' as [|f']; [lia|]. cbn [overflow_loop].
    destruct (ps !! _) as [entry|]; [|reflexivity].
    unfold bind.
    destruct (walkDcFixupChain wf _ _ _ d) as [o d1] eqn:E. intros Hne.
    assert (Ho : o <> OutOfFuel) by (intros ->; apply Hne; reflexivity).
    rewrite (fuel_stable_walkDcFixupChain wf wf' _ _ _ Hw d)
      by (rewrite E; exact Ho).
    rewrite E. destruct o as [[]| | |]; try reflexivity.
    destruct (has_bits _ _); [reflexivity|]. apply IH; [lia|exact Hne].
Qed.

Lemma fuel_stable_Parse_page f f' segIdx ps pageIndex :
  (f <= f')%nat ->
  fuel_stable f f' (fun g => Parse_page g segIdx ps pageIndex).
Proof.
  intros Hle. unfold Parse_page. destruct (ps !! _) as [offsetInPage|];
    [|apply fuel_stable_const].
  destruct (_ =? _); [apply fuel_stable_const|].
  destruct (has_bits _ _).
  - intros d. apply fuel_stable_overflow_loop; exact Hle.
  - apply fuel_stable_walkDcFixupChain. exact Hle.
Qed.

Lemma fuel_stable_Parse_pages f f' segIdx ps :
  (f <= f')%nat ->
  forall n pageIndex,
    fuel_stable f f' (fun g => Parse_pages n g segIdx ps pageIndex).
Proof.
  intros Hle. induction n as [|n IH]; intros pageIndex; cbn [Parse_pages].
  - apply fuel_stable_const.
  - apply fuel_stable_bind; [apply fuel_stable_Parse_page; exact Hle|].
    intros _. apply IH.
Qed.

Lemma fuel_stable_Parse_segments f f' :
  (f <= f')%nat ->
  forall n segIdx, fuel_stable f f' (fun g => Parse_segments n g segIdx).
Proof.
  intros Hle. induction n as [|n IH]; intros segIdx; cbn [Parse_segments].
  - apply fuel_stable_const.
  - apply fuel_stable_bind; [apply fuel_stable_const|]. intros start.
    destruct (PageStarts start) as [ps|]; [|apply IH].
    apply fuel_stable_bind; [apply fuel_stable_Parse_pages; exact Hle|].
    intros _. apply IH.
Qed.

Lemma fuel_stable_Parse f f' :
  (f <= f')%nat -> fuel_stable f f' Parse.
Proof.
  intros Hle. unfold Parse.
  apply (fuel_stable_bind f f' (fun _ => get)); [apply fuel_stable_const|].
  intros d0.
  apply (fuel_stable_bind f f' (fun _ => match Starts d0 with
                                         | Some _ => ret tt
                                         | None => ParseStarts
                                         end)); [apply fuel_stable_const|].
  intros _.
  apply (fuel_stable_bind f f' (fun _ => drop_error parseImports));
    [apply fuel_stable_const|].
  intros _.
  apply (fuel_stable_bind f f' (fun _ => get)); [apply fuel_stable_const|].
  intros d1. apply fuel_stable_Parse_segments. exact Hle.
Qed.

(* --------------------------------------------------------------------- *)
(** ** Fuel: the loops end                                                *)
(* --------------------------------------------------------------------- *)

Lemma keeps_sr_Starts_update i g : keeps_sr (Starts_update i g).
Proof. intros d. unfold Starts_update. destruct (_ !! _); reflexivity. Qed.

Lemma keeps_sr_append_rebase i k p l : keeps_sr (append_rebase i k p l).
Proof. apply keeps_sr_Starts_update. Qed.

Lemma keeps_sr_append_bind i k p l : keeps_sr (append_bind i k p l).
Proof.
  intros d. unfold append_bind, bind, Imports_Name.
  destruct (Imports d !! _); [|reflexivity].
  apply (keeps_sr_Starts_update i _ d).
Qed.

Lemma keeps_sr_if {A} (b : bool) (m1 m2 : DCF A) :
  keeps_sr m1 -> keeps_sr m2 -> keeps_sr (if b then m1 else m2).
Proof. destruct b; auto. Qed.

Lemma keeps_sr_ret {A} (a : A) : keeps_sr (ret a).
Proof. intros d. reflexivity. Qed.

Create HintDb keeps_sr.
#[local] Hint Resolve keeps_sr_append_rebase keeps_sr_append_bind keeps_sr_if
  keeps_sr_ret : keeps_sr.

(** A slot read that succeeds consumed [w] bytes that the image holds. *)
Lemma read_slot_Ok w d v d' :
  (0 < w)%nat -> 0 <= rd_pos (sr d) ->
  read_slot w d = (Ok v, d') ->
  rd_data (sr d') = rd_data (sr d)
  /\ rd_pos (sr d') = rd_pos (sr d) + Z.of_nat w
  /\ rd_pos (sr d) + Z.of_nat w <= Reader_Size (sr d).
Proof.
  intros Hw Hpos. unfold read_slot, bind, get, on_sr, ret, Reader_ReadFull.
  destruct w as [|w]; [lia|].
  destruct (drop _ _) as [|b avail] eqn:Hd; [discriminate|].
  destruct (Nat.ltb_spec (length (b :: avail)) (S w)); [discriminate|].
  intros [= <- <-]. cbn. repeat split.
  assert (Hl : length (drop (Z.to_nat (rd_pos (sr d))) (rd_data (sr d)))
               = length (b :: avail)) by (rewrite Hd; reflexivity).
  rewrite length_drop in Hl. unfold Reader_Size. lia.
Qed.

Lemma read_then_emit_sr w (nextf : Z -> Z) (body : Z -> DCF unit) d nx d' :
  (0 < w)%nat -> 0 <= rd_pos (sr d) ->
  (forall v, keeps_sr (body v)) ->
  bind (read_slot w) (fun v => bind (body v) (fun _ => ret (nextf v))) d = (Ok nx, d') ->
  rd_data (sr d') = rd_data (sr d)
  /\ rd_pos (sr d') = rd_pos (sr d) + Z.of_nat w
  /\ rd_pos (sr d) + Z.of_nat w <= Reader_Size (sr d).
Proof.
  intros Hw Hpos Hb. unfold bind.
  destruct (read_slot w d) as [[v| | |] d1] eqn:E1; try discriminate.
  destruct (read_slot_Ok w d v d1 Hw Hpos E1) as (H1 & H2 & H3).
  assert (Hk := Hb v d1).
  destruct (body v d1) as [[[]| | |] d2]; try discriminate.
  intros [= _ <-]. cbn [snd] in Hk. rewrite Hk. auto.
Qed.

Lemma walk_slot_sr segIdx k loc d nx d' :
  0 <= rd_pos (sr d) ->
  walk_slot segIdx k loc d = (Ok nx, d') ->
  rd_data (sr d') = rd_data (sr d)
  /\ rd_pos (sr d') = rd_pos (sr d) + Z.of_nat (slot_width k)
  /\ rd_pos (sr d) + Z.of_nat (slot_width k) <= Reader_Size (sr d).
Proof.
  intros Hpos.
  destruct k; unfold walk_slot, slot_width;
    apply read_then_emit_sr; auto; try lia; intros v;
    try (destruct (DcpArm64eIsBind v), (DcpArm64eIsAuth v); cbn [negb andb]);
    auto with keeps_sr.
Qed.

Lemma ExtractBits_range x start nbits :
  0 <= nbits -> 0 <= ExtractBits x start nbits < 2 ^ nbits.
Proof.
  intros H. unfold ExtractBits. rewrite Z.land_ones by exact H.
  apply Z.mod_pos_bound. apply Z.pow_pos_nonneg; lia.
Qed.

Lemma slot_advance_range k ptr :
  0 <= slot_next k ptr * stride k < 2 ^ 15.
Proof.
  assert (H5 := ExtractBits_range ptr 26 5).
  assert (H12 := ExtractBits_range ptr 51 12).
  assert (H11 := ExtractBits_range ptr 51 11).
  destruct k; unfold slot_next, stride, Generic32Next, Generic64Next, DcpArm64eNext;
    lia.
Qed.

Lemma nof_bind {A B} (m : DCF A) (k : A -> DCF B) :
  never_out_of_fuel m -> (forall a, never_out_of_fuel (k a)) ->
  never_out_of_fuel (bind m k).
Proof.
  intros Hm Hk d. unfold bind. specialize (Hm d).
  destruct (m d) as [[a| | |] d1]; cbn in *; try discriminate; [apply Hk|congruence].
Qed.

Lemma nof_ret {A} (a : A) : never_out_of_fuel (ret a).
Proof. intros d. discriminate. Qed.

Lemma nof_if {A} (b : bool) (m1 m2 : DCF A) :
  never_out_of_fuel m1 -> never_out_of_fuel m2 ->
  never_out_of_fuel (if b then m1 else m2).
Proof. destruct b; auto. Qed.

Lemma nof_read_slot w : never_out_of_fuel (read_slot w).
Proof.
  intros d. destruct (read_slot_cases w d) as (o & x & E & _ & H).
  rewrite E. exact H.
Qed.

Lemma nof_Starts_update i g : never_out_of_fuel (Starts_update i g).
Proof. intros d. unfold Starts_update. destruct (_ !! _); discriminate. Qed.

Lemma nof_append_rebase i k p l : never_out_of_fuel (append_rebase i k p l).
Proof. apply nof_Starts_update. Qed.

Lemma nof_append_bind i k p l : never_out_of_fuel (append_bind i k p l).
Proof.
  intros d. unfold append_bind, bind, Imports_Name.
  destruct (Imports d !! _); [|discriminate]. apply nof_Starts_update.
Qed.

Create HintDb nof.
#[local] Hint Resolve nof_ret nof_if nof_read_slot nof_append_rebase
  nof_append_bind : nof.

Lemma nof_walk_slot i k loc : never_out_of_fuel (walk_slot i k loc).
Proof.
  destruct k; unfold walk_slot;
    (apply nof_bind; [apply nof_read_slot|intros v]);
    (apply nof_bind; [|intros; apply nof_ret]);
    try (destruct (DcpArm64eIsBind v), (DcpArm64eIsAuth v); cbn [negb andb]);
    auto with nof.
Qed.

Lemma int64_of_uint64 x :
  0 <= x < 2 ^ 64 -> int64 x = if x <? 2 ^ 63 then x else x - 2 ^ 64.
Proof. intros H. unfold int64. rewrite Z.mod_small by lia. reflexivity. Qed.

Lemma slot_width_pos k : 4 <= Z.of_nat (slot_width k) <= 8.
Proof. destruct k; cbn; lia. Qed.

Lemma uint64_range x : 0 <= uint64 x < 2 ^ 64.
Proof. unfold uint64. apply Z.mod_pos_bound. lia. Qed.

Lemma uint64_add_small x a :
  0 <= x < 2 ^ 64 -> 0 <= a < 2 ^ 15 ->
  uint64 (x + a) = x + a \/ (uint64 (x + a) = x + a - 2 ^ 64 /\ 2 ^ 64 <= x + a).
Proof.
  intros Hx Ha. destruct (Z_lt_ge_dec (x + a) (2 ^ 64)).
  - left. unfold uint64. apply Z.mod_small. lia.
  - right. split; [|lia]. unfold uint64. symmetry.
    apply Z.mod_unique_pos with (q := 1); lia.
Qed.

Lemma walk_loop_terminates segIdx pcs off :
  forall fuel next d,
    0 <= rd_pos (sr d) ->
    Reader_Size (sr d) < 2 ^ 62 ->
    walk_measure (Reader_Size (sr d)) (rd_pos (sr d))
                 (uint64 (pcs + off + next)) < Z.of_nat fuel ->
    fst (walk_loop fuel segIdx pcs off next d) <> OutOfFuel.
Proof.
  induction fuel as [|fuel IH]; intros next d Hpos Hsize Hm.
  - exfalso. unfold walk_measure, Reader_Size in Hm. destruct (_ <? _); lia.
  - cbn [walk_loop]. unfold bind at 1, sr_Seek, modify. unfold bind at 1.
    set (loc := uint64 (pcs + off + next)) in *.
    assert (Hloc := uint64_range (pcs + off + next)). fold loc in Hloc.
    set (d1 := set_sr (Reader_Seek (int64 loc) (sr d)) d).
    unfold Starts_at. destruct (Starts_list d1 !! segIdx) as [s|] eqn:Hs;
      [|discriminate].
    destruct (DCPtrKind_of _) as [k|]; [|discriminate].
    unfold bind.
    destruct (walk_slot segIdx k loc d1) as [o d2] eqn:E.
    assert (Hnof := nof_walk_slot segIdx k loc d1). rewrite E in Hnof.
    destruct o as [nx| | |]; try discriminate; [|contradiction].
    destruct (nx =? 0) eqn:Hz; [discriminate|].
    (* the reader after the seek *)
    assert (Hd1 : rd_data (sr d1) = rd_data (sr d)
                  /\ rd_pos (sr d1) = if loc <? 2 ^ 63 then loc else rd_pos (sr d)).
    { unfold d1. cbn [sr set_sr]. unfold Reader_Seek.
      rewrite (int64_of_uint64 loc Hloc).
      destruct (Z.ltb_spec loc (2 ^ 63)).
      - destruct (Z.ltb_spec loc 0); [lia|]. split; reflexivity.
      - destruct (Z.ltb_spec (loc - 2 ^ 64) 0); [|lia]. split; reflexivity. }
    destruct Hd1 as [Hdata1 Hpos1].
    assert (Hpos1' : 0 <= rd_pos (sr d1))
      by (rewrite Hpos1; destruct (loc <? 2 ^ 63); lia).
    destruct (walk_slot_sr segIdx k loc d1 nx d2 Hpos1' E) as (Hdata2 & Hpos2 & Hfit).
    assert (Hw := slot_width_pos k).
    assert (Hsz : Reader_Size (sr d2) = Reader_Size (sr d))
      by (unfold Reader_Size; rewrite Hdata2, Hdata1; reflexivity).
    assert (Hsz1 : Reader_Size (sr d1) = Reader_Size (sr d))
      by (unfold Reader_Size; rewrite Hdata1; reflexivity).
    (* the advance *)
    destruct (walk_slot_spec segIdx s [] k loc d1 (Ok nx) d2
                (seg_is_init _ _ _ Hs) E) as [(f & Ef & _)|[Hf _]];
      [|discriminate].
    injection Ef as ->.
    assert (Hadv := slot_advance_range k (Fixup_Pointer f)).
    assert (Hnz : slot_next k (Fixup_Pointer f) * stride k <> 0).
    { apply Z.eqb_neq in Hz. destruct k; cbn [stride]; lia. }
    apply IH.
    + lia.
    + rewrite Hsz. exact Hsize.
    + rewrite uint64_step. fold loc. rewrite Hsz, Hpos2, Hpos1.
      rewrite Hsz1, Hpos1 in Hfit.
      unfold walk_measure, Reader_Size in *.
      destruct (uint64_add_small loc _ Hloc Hadv) as [->|[-> Hwrap]];
        destruct (Z.ltb_spec loc (2 ^ 63));
        repeat match goal with
               | |- context [?a <? ?b] => destruct (Z.ltb_spec a b)
               end; lia.
Qed.

Lemma preserves_bind {A B} P (m : DCF A) (k : A -> DCF B) :
  preserves P m -> (forall a, preserves P (k a)) -> preserves P (bind m k).
Proof.
  intros Hm Hk d Hd. unfold bind. specialize (Hm d Hd).
  destruct (m d) as [[a| | |] d1]; cbn in *; auto. apply Hk. exact Hm.
Qed.

Lemma preserves_get {A} P (k : DyldChainedFixups -> DCF A) :
  (forall d0, preserves P (k d0)) -> preserves P (bind get k).
Proof. intros Hk d Hd. unfold bind, get. apply Hk. exact Hd. Qed.

Lemma preserves_ret {A} P (a : A) : preserves P (ret a).
Proof. intros d Hd. exact Hd. Qed.
Lemma preserves_fail {A} P e : preserves P (@fail _ A e).
Proof. intros d Hd. exact Hd. Qed.
Lemma preserves_panic {A} P : preserves P (@panic _ A).
Proof. intros d Hd. exact Hd. Qed.
Lemma preserves_out_of_fuel {A} P : preserves P (@out_of_fuel _ A).
Proof. intros d Hd. exact Hd. Qed.
Lemma preserves_if {A} P (b : bool) (m1 m2 : DCF A) :
  preserves P m1 -> preserves P m2 -> preserves P (if b then m1 else m2).
Proof. destruct b; auto. Qed.
Lemma preserves_drop_error P (m : DCF unit) :
  preserves P m -> preserves P (drop_error m).
Proof.
  intros Hm d Hd. unfold drop_error. specialize (Hm d Hd).
  destruct (m d) as [[a| | |] d1]; exact Hm.
Qed.
Lemma preserves_Starts_at P i : preserves P (Starts_at i).
Proof. intros d Hd. unfold Starts_at. destruct (_ !! _); exact Hd. Qed.
Lemma preserves_Imports_Name P o : preserves P (Imports_Name o).
Proof. intros d Hd. unfold Imports_Name. destruct (_ !! _); exact Hd. Qed.

Lemma sr_ok_keeps {A} data (m : DCF A) :
  keeps_sr m -> preserves (sr_ok data) m.
Proof. intros Hm d Hd. unfold sr_ok. rewrite (Hm d). exact Hd. Qed.

Lemma keeps_sr_on_r {A} (m : M Reader A) : keeps_sr (on_r m).
Proof. intros d. unfold on_r. destruct (m (r d)); reflexivity. Qed.
Lemma keeps_sr_r_Seek off : keeps_sr (r_Seek off).
Proof. intros d. reflexivity. Qed.
Lemma keeps_sr_set_Header h : keeps_sr (modify (set_Header h)).
Proof. intros d. reflexivity. Qed.
Lemma keeps_sr_set_Starts s : keeps_sr (modify (set_Starts s)).
Proof. intros d. reflexivity. Qed.
Lemma keeps_sr_append_Import i :
  keeps_sr (modify (fun d => set_Imports (Imports d ++ [i]) d)).
Proof. intros d. reflexivity. Qed.

Lemma sr_ok_sr_Seek data off : preserves (sr_ok data) (sr_Seek off).
Proof.
  intros d [Hd Hp]. unfold sr_ok, sr_Seek, modify, Reader_Seek. cbn.
  destruct (Z.ltb_spec off 0); cbn; split; try assumption; lia.
Qed.

Lemma sr_ok_read_slot data w : preserves (sr_ok data) (read_slot w).
Proof.
  intros d [Hd Hp]. unfold sr_ok, read_slot, bind, get, on_sr, ret, Reader_ReadFull.
  destruct w as [|w]; [cbn; auto|].
  destruct (drop _ _); [cbn; auto|].
  destruct (_ <? _)%nat; cbn; split; try exact Hd; unfold Reader_Size; lia.
Qed.

Create HintDb sr_ok.
#[local] Hint Resolve preserves_ret preserves_fail preserves_panic
  preserves_out_of_fuel preserves_Starts_at preserves_Imports_Name
  sr_ok_sr_Seek sr_ok_read_slot : sr_ok.
#[local] Hint Extern 1 (preserves (sr_ok _) _) =>
  apply sr_ok_keeps;
  first [ apply keeps_sr_Starts_update | apply keeps_sr_append_rebase
        | apply keeps_sr_append_bind | apply keeps_sr_on_r
        | apply keeps_sr_r_Seek | apply keeps_sr_set_Header
        | apply keeps_sr_set_Starts | apply keeps_sr_append_Import ] : sr_ok.

Ltac preserves_step :=
  lazymatch goal with
  | |- preserves _ (bind get _) => apply preserves_get; intros
  | |- preserves _ (bind _ _) => apply preserves_bind; [|intros]
  | |- preserves _ (if _ then _ else _) => apply preserves_if
  | |- preserves _ (drop_error _) => apply preserves_drop_error
  | |- preserves _ (match ?x with _ => _ end) => destruct x
  | |- _ => solve [auto with sr_ok nocore]
  end.

Lemma sr_ok_walk_slot data i k loc : preserves (sr_ok data) (walk_slot i k loc).
Proof. destruct k; unfold walk_slot; repeat preserves_step. Qed.

Lemma sr_ok_walk_loop data i pcs off :
  forall fuel next, preserves (sr_ok data) (walk_loop fuel i pcs off next).
Proof.
  induction fuel as [|fuel IH]; intros next; cbn [walk_loop].
  - auto with sr_ok.
  - repeat preserves_step;
    try first [apply sr_ok_walk_slot|apply IH].
Qed.

Lemma sr_ok_walkDcFixupChain data fuel i pi off :
  preserves (sr_ok data) (walkDcFixupChain fuel i pi off).
Proof.
  unfold walkDcFixupChain. repeat preserves_step; try apply sr_ok_walk_loop.
Qed.

Lemma sr_ok_overflow_loop data wf i pi ps :
  forall fuel idx, preserves (sr_ok data) (overflow_loop fuel wf i pi ps idx).
Proof.
  induction fuel as [|fuel IH]; intros idx; cbn [overflow_loop].
  - auto with sr_ok.
  - repeat preserves_step;
    try first [apply sr_ok_walkDcFixupChain|apply IH].
Qed.

Lemma sr_ok_Parse_page data fuel i ps pi :
  preserves (sr_ok data) (Parse_page fuel i ps pi).
Proof.
  unfold Parse_page. repeat preserves_step;
    try first [apply sr_ok_overflow_loop|apply sr_ok_walkDcFixupChain].
Qed.

Lemma sr_ok_Parse_pages data fuel i ps :
  forall n pi, preserves (sr_ok data) (Parse_pages n fuel i ps pi).
Proof.
  induction n as [|n IH]; intros pi; cbn [Parse_pages].
  - auto with sr_ok.
  - repeat preserves_step;
    try first [apply sr_ok_Parse_page|apply IH].
Qed.

Lemma sr_ok_ParseStarts_segments data :
  forall offs i, preserves (sr_ok data) (ParseStarts_segments i offs).
Proof.
  induction offs as [|o offs IH]; intros i; cbn [ParseStarts_segments].
  - auto with sr_ok.
  - unfold r_Read. repeat preserves_step; try apply IH.
Qed.

Lemma sr_ok_ParseStarts data : preserves (sr_ok data) ParseStarts.
Proof.
  unfold ParseStarts, r_Read. repeat preserves_step;
    try apply sr_ok_ParseStarts_segments.
Qed.

Lemma sr_ok_parseImports_names data :
  forall imports, preserves (sr_ok data) (parseImports_names imports).
Proof.
  induction imports as [|i rest IH]; cbn [parseImports_names].
  - auto with sr_ok.
  - repeat preserves_step; try apply IH.
Qed.

Lemma sr_ok_parseImports data : preserves (sr_ok data) parseImports.
Proof.
  unfold parseImports, read_imports, r_Read. repeat preserves_step;
    try apply sr_ok_parseImports_names.
Qed.

Lemma walk_inv_keeps {A} i (m : DCF A) :
  keeps_Starts m -> preserves (walk_inv i) m.
Proof.
  intros Hm d Hd. unfold walk_inv, starts_ok, paged. rewrite (Hm d). exact Hd.
Qed.

Lemma keeps_Starts_on_sr {A} (m : M Reader A) : keeps_Starts (on_sr m).
Proof. intros d. unfold on_sr. destruct (m (sr d)); reflexivity. Qed.
Lemma keeps_Starts_on_r {A} (m : M Reader A) : keeps_Starts (on_r m).
Proof. intros d. unfold on_r. destruct (m (r d)); reflexivity. Qed.
Lemma keeps_Starts_sr_Seek off : keeps_Starts (sr_Seek off).
Proof. intros d. reflexivity. Qed.
Lemma keeps_Starts_r_Seek off : keeps_Starts (r_Seek off).
Proof. intros d. reflexivity. Qed.
Lemma keeps_Starts_read_slot w : keeps_Starts (read_slot w).
Proof.
  intros d. destruct (read_slot_cases w d) as (o & x & E & _). rewrite E.
  reflexivity.
Qed.
Lemma keeps_Starts_append_Import i :
  keeps_Starts (modify (fun d => set_Imports (Imports d ++ [i]) d)).
Proof. intros d. reflexivity. Qed.

Lemma walk_inv_append_Fixup i f : preserves (walk_inv i) (append_Fixup i f).
Proof.
  intros d [Hok Hp]. unfold append_Fixup, Starts_update.
  destruct (Starts_list d !! i) as [s|] eqn:Hs; [|split; assumption].
  cbn [snd]. unfold walk_inv, starts_ok, paged.
  change (Starts_list (set_Starts _ d))
    with (<[i := set_Fixups (Fixups s ++ [f]) s]> (Starts_list d)).
  assert (Hi : (i < length (Starts_list d))%nat) by (eapply lookup_lt_Some; eauto).
  specialize (Hp s Hs).
  assert (Hs_ok : seg_ok s) by (eapply Forall_lookup_1; eauto).
  split.
  - apply Forall_insert; [exact Hok|]. destruct Hs_ok as [H1 _].
    split; [exact H1|]. intros _. exact Hp.
  - intros s'. rewrite list_lookup_insert_eq by exact Hi.
    intros [= <-]. exact Hp.
Qed.

Lemma walk_inv_append_rebase i k p l : preserves (walk_inv i) (append_rebase i k p l).
Proof. apply walk_inv_append_Fixup. Qed.

Lemma walk_inv_append_bind i k p l : preserves (walk_inv i) (append_bind i k p l).
Proof.
  unfold append_bind. apply preserves_bind; [apply preserves_Imports_Name|].
  intros name. apply walk_inv_append_Fixup.
Qed.

#[local] Hint Resolve walk_inv_append_rebase walk_inv_append_bind : sr_ok.
#[local] Hint Extern 1 (preserves (walk_inv _) _) =>
  apply walk_inv_keeps;
  first [ apply keeps_Starts_on_sr | apply keeps_Starts_on_r
        | apply keeps_Starts_sr_Seek | apply keeps_Starts_r_Seek
        | apply keeps_Starts_read_slot | apply keeps_Starts_append_Import ] : sr_ok.

Lemma walk_inv_walk_slot i k loc : preserves (walk_inv i) (walk_slot i k loc).
Proof. destruct k; unfold walk_slot; repeat preserves_step. Qed.

Lemma walk_inv_walk_loop i pcs off :
  forall fuel next, preserves (walk_inv i) (walk_loop fuel i pcs off next).
Proof.
  induction fuel as [|fuel IH]; intros next; cbn [walk_loop].
  - auto with sr_ok.
  - repeat preserves_step;
    try first [apply walk_inv_walk_slot|apply IH].
Qed.

Lemma walk_inv_walkDcFixupChain fuel i pi off :
  preserves (walk_inv i) (walkDcFixupChain fuel i pi off).
Proof.
  unfold walkDcFixupChain. repeat preserves_step; try apply walk_inv_walk_loop.
Qed.

Lemma walk_inv_overflow_loop wf i pi ps :
  forall fuel idx, preserves (walk_inv i) (overflow_loop fuel wf i pi ps idx).
Proof.
  induction fuel as [|fuel IH]; intros idx; cbn [overflow_loop].
  - auto with sr_ok.
  - repeat preserves_step;
    try first [apply walk_inv_walkDcFixupChain|apply IH].
Qed.

Lemma walk_inv_Parse_page fuel i ps pi :
  preserves (walk_inv i) (Parse_page fuel i ps pi).
Proof.
  unfold Parse_page. repeat preserves_step;
    try first [apply walk_inv_overflow_loop|apply walk_inv_walkDcFixupChain].
Qed.

Lemma walk_inv_Parse_pages fuel i ps :
  forall n pi, preserves (walk_inv i) (Parse_pages n fuel i ps pi).
Proof.
  induction n as [|n IH]; intros pi; cbn [Parse_pages].
  - auto with sr_ok.
  - repeat preserves_step;
    try first [apply walk_inv_Parse_page|apply IH].
Qed.

Lemma starts_ok_Parse_segments fuel :
  forall n i, preserves starts_ok (Parse_segments n fuel i).
Proof.
  induction n as [|n IH]; intros i d Hd; cbn [Parse_segments]; [exact Hd|].
  unfold bind at 1, Starts_at.
  destruct (Starts_list d !! i) as [start|] eqn:Hs; [|exact Hd].
  destruct (PageStarts start) as [ps|]; [|apply IH; exact Hd].
  destruct (Z.to_nat (PageCount (InSegment start))) as [|n'] eqn:Hn.
  - cbn [Parse_pages]. unfold bind, ret. apply IH. exact Hd.
  - assert (Hinv : walk_inv i d).
    { split; [exact Hd|]. intros s Hs'. rewrite Hs in Hs'. injection Hs' as <-. lia. }
    assert (H := walk_inv_Parse_pages fuel i ps (S n') 0 d Hinv).
    unfold bind. destruct (Parse_pages _ _ _ _ _ d) as [[[]| | |] d1]; cbn [snd] in *;
      try (destruct H as [H _]; exact H).
    apply IH. destruct H as [H _]. exact H.
Qed.

Lemma seg_fresh_ok s : seg_fresh s -> seg_ok s.
Proof. intros (Hf & _ & Hp). split; [exact Hp|]. rewrite Hf. congruence. Qed.

Lemma starts_fresh_ok d : starts_fresh d -> starts_ok d.
Proof. intros H. eapply Forall_impl; [exact H|exact seg_fresh_ok]. Qed.

Lemma byte_val_range b : 0 <= byte_val b < 256.
Proof.
  unfold byte_val. assert (H := Byte.to_N_bounded b). lia.
Qed.

Lemma le_uint_range bs : 0 <= le_uint bs < 256 ^ Z.of_nat (length bs).
Proof.
  induction bs as [|b bs IH]; [cbn; lia|].
  cbn [le_uint length]. rewrite Nat2Z.inj_succ, Z.pow_succ_r by lia.
  assert (H := byte_val_range b). lia.
Qed.

Lemma bo_uint_range bo bs : 0 <= bo_uint bo bs < 256 ^ Z.of_nat (length bs).
Proof.
  destruct bo; cbn [bo_uint]; [apply le_uint_range|].
  rewrite <- (length_rev bs). apply le_uint_range.
Qed.

Lemma field_range bo bs off w : 0 <= field bo bs off w < 256 ^ Z.of_nat w.
Proof.
  unfold field. assert (H := bo_uint_range bo (take w (drop off bs))).
  assert (Hl : (length (take w (drop off bs)) <= w)%nat)
    by (rewrite length_take; lia).
  assert (256 ^ Z.of_nat (length (take w (drop off bs))) <= 256 ^ Z.of_nat w)
    by (apply Z.pow_le_mono_r; lia).
  lia.
Qed.

Lemma chunks_length n w bs : length (chunks n w bs) = n.
Proof. revert bs. induction n as [|n IH]; intros bs; cbn; auto. Qed.

Lemma chunks_width n w bs : Forall (fun c => (length c <= w)%nat) (chunks n w bs).
Proof.
  revert bs. induction n as [|n IH]; intros bs; cbn [chunks]; constructor.
  - rewrite length_take. lia.
  - apply IH.
Qed.

Lemma starts_fresh_keeps {A} (m : DCF A) :
  keeps_Starts m -> preserves starts_fresh m.
Proof. intros Hm d Hd. unfold starts_fresh. rewrite (Hm d). exact Hd. Qed.

Lemma starts_fresh_update i g :
  (forall s, seg_fresh s -> seg_fresh (g s)) ->
  preserves starts_fresh (Starts_update i g).
Proof.
  intros Hg d Hd. unfold Starts_update.
  destruct (Starts_list d !! i) as [s|] eqn:Hs; [|exact Hd].
  cbn [snd]. unfold starts_fresh.
  change (Starts_list (set_Starts _ d)) with (<[i := g s]> (Starts_list d)).
  apply Forall_insert; [exact Hd|]. apply Hg. eapply Forall_lookup_1; eauto.
Qed.

Lemma preserves_bind_Starts_at {B} P i (k : DyldChainedStarts -> DCF B) :
  (forall s d, P d -> Starts_list d !! i = Some s -> P (snd (k s d))) ->
  preserves P (bind (Starts_at i) k).
Proof.
  intros Hk d Hd. unfold bind, Starts_at.
  destruct (Starts_list d !! i) as [s|] eqn:Hs; [|exact Hd].
  apply Hk; assumption.
Qed.

Lemma pages_ok_repeat n : Z.of_nat n < 65536 -> pages_ok (repeat 0 n).
Proof.
  intros H. split; [rewrite repeat_length; exact H|].
  apply Forall_forall. intros e He. apply list_elem_of_In, repeat_spec in He. lia.
Qed.

Lemma pages_ok_decoded bo n bs :
  Z.of_nat n < 65536 -> pages_ok (map (bo_uint bo) (chunks n 2 bs)).
Proof.
  intros H. split; [rewrite length_map, chunks_length; exact H|].
  apply Forall_map. apply Forall_forall. intros c _. apply bo_uint_range.
Qed.

Lemma starts_fresh_ParseStarts_segments :
  forall offs i, preserves starts_fresh (ParseStarts_segments i offs).
Proof.
  induction offs as [|o offs IH]; intros i; cbn [ParseStarts_segments].
  - apply preserves_ret.
  - apply preserves_if; [apply IH|].
    apply preserves_get. intros d0.
    apply preserves_bind; [apply starts_fresh_keeps, keeps_Starts_r_Seek|intros _].
    apply preserves_bind; [apply starts_fresh_keeps, keeps_Starts_on_r|intros bs].
    apply preserves_bind.
    { apply starts_fresh_update. intros s (Hf & _ & Hp).
      split; [exact Hf|]. split; [|exact Hp].
      cbn. assert (H := field_range (bo d0) bs 20 2). cbn in H. lia. }
    intros _. apply preserves_bind_Starts_at. intros s d Hd Hs.
    assert (Hn : Z.of_nat (Z.to_nat (PageCount (InSegment s))) < 65536).
    { assert (Hs' : seg_fresh s) by (eapply Forall_lookup_1; eauto).
      destruct Hs' as (_ & H & _). lia. }
    revert d Hd Hs. intros d Hd _. revert d Hd.
    change (preserves starts_fresh
              (bind (Starts_update i (set_PageStarts
                       (Some (repeat 0 (Z.to_nat (PageCount (InSegment s)))))))
                    (fun _ => bind (r_Read (2 * Z.to_nat (PageCount (InSegment s))))
                      (fun bs0 => bind (Starts_update i (set_PageStarts
                         (Some (map (bo_uint (bo d0))
                                    (chunks (Z.to_nat (PageCount (InSegment s))) 2 bs0)))))
                         (fun _ => ParseStarts_segments (S i) offs))))).
    apply preserves_bind.
    { apply starts_fresh_update. intros s' (Hf & Hc & _).
      split; [exact Hf|]. split; [exact Hc|]. intros ps [= <-].
      apply pages_ok_repeat. exact Hn. }
    intros _.
    apply preserves_bind; [apply starts_fresh_keeps, keeps_Starts_on_r|intros bs0].
    apply preserves_bind; [|intros _; apply IH].
    apply starts_fresh_update. intros s' (Hf & Hc & _).
    split; [exact Hf|]. split; [exact Hc|]. intros ps [= <-].
    apply pages_ok_decoded. exact Hn.
Qed.

Lemma starts_fresh_zero n d :
  starts_fresh (set_Starts (Some (repeat zero_starts n)) d).
Proof.
  unfold starts_fresh. change (Starts_list _) with (repeat zero_starts n).
  apply Forall_forall. intros s Hs. apply list_elem_of_In, repeat_spec in Hs.
  subst s. split; [reflexivity|]. split; [cbn; lia|]. intros ps. discriminate.
Qed.

Lemma ParseStarts_fresh d d' :
  ParseStarts d = (Ok tt, d') -> starts_fresh d'.
Proof.
  unfold ParseStarts. unfold bind at 1, get. unfold bind at 1, r_Read at 1.
  destruct (on_r (Reader_ReadFull 28) d) as [[bs| | |] d1]; try discriminate.
  unfold bind at 1, modify. unfold bind at 1, r_Seek, modify.
  unfold bind at 1, r_Read at 1.
  destruct (on_r (Reader_ReadFull 4) _) as [[bs4| | |] d2]; try discriminate.
  unfold bind at 1, modify.
  set (n := Z.to_nat (bo_uint (bo d) bs4)).
  intros E.
  assert (H := preserves_bind starts_fresh (r_Read (4 * n))
                 (fun bs0 => ParseStarts_segments 0
                    (map (bo_uint (bo d)) (chunks n 4 bs0)))
                 (starts_fresh_keeps _ (keeps_Starts_on_r _))
                 (fun bs0 => starts_fresh_ParseStarts_segments _ 0)
                 _ (starts_fresh_zero n d2)).
  rewrite E in H. exact H.
Qed.

Lemma nof_get_bind {A} (k : DyldChainedFixups -> DCF A) :
  (forall d0, never_out_of_fuel (k d0)) -> never_out_of_fuel (bind get k).
Proof. intros Hk d. unfold bind, get. apply Hk. Qed.
Lemma nof_fail {A} e : never_out_of_fuel (@fail _ A e).
Proof. intros d. discriminate. Qed.
Lemma nof_panic {A} : never_out_of_fuel (@panic _ A).
Proof. intros d. discriminate. Qed.
Lemma nof_modify g : never_out_of_fuel (modify g).
Proof. intros d. discriminate. Qed.
Lemma nof_r_Seek off : never_out_of_fuel (r_Seek off).
Proof. intros d. discriminate. Qed.
Lemma nof_Starts_at i : never_out_of_fuel (Starts_at i).
Proof. intros d. unfold Starts_at. destruct (_ !! _); discriminate. Qed.
Lemma nof_r_Read n : never_out_of_fuel (r_Read n).
Proof.
  intros d. unfold r_Read, on_r, Reader_ReadFull.
  destruct n; [discriminate|].
  destruct (drop _ _); [discriminate|]. destruct (_ <? _)%nat; discriminate.
Qed.
Lemma nof_drop_error (m : DCF unit) :
  never_out_of_fuel m -> never_out_of_fuel (drop_error m).
Proof.
  intros Hm d. unfold drop_error. specialize (Hm d).
  destruct (m d) as [[a| | |] d1]; cbn in *; congruence.
Qed.

#[local] Hint Resolve nof_fail nof_panic nof_modify nof_r_Seek nof_Starts_at
  nof_r_Read nof_Starts_update : nof.

Ltac nof_step :=
  lazymatch goal with
  | |- never_out_of_fuel (bind get _) => apply nof_get_bind; intros
  | |- never_out_of_fuel (bind _ _) => apply nof_bind; [|intros]
  | |- never_out_of_fuel (if _ then _ else _) => apply nof_if
  | |- never_out_of_fuel (match ?x with _ => _ end) => destruct x
  | |- _ => solve [auto with nof nocore]
  end.

Lemma nof_ParseStarts_segments :
  forall offs i, never_out_of_fuel (ParseStarts_segments i offs).
Proof.
  induction offs as [|o offs IH]; intros i; cbn [ParseStarts_segments];
    repeat nof_step; try apply IH.
Qed.

Lemma nof_ParseStarts : never_out_of_fuel ParseStarts.
Proof.
  unfold ParseStarts. repeat nof_step; try apply nof_ParseStarts_segments.
Qed.

Lemma nof_parseImports_names :
  forall imports, never_out_of_fuel (parseImports_names imports).
Proof.
  induction imports as [|i rest IH]; cbn [parseImports_names].
  - apply nof_ret.
  - apply nof_get_bind. intros d0. unfold ReadString0.
    destruct (until_nul _); [|apply nof_fail].
    apply nof_bind; [apply nof_modify|intros _; apply IH].
Qed.

Lemma nof_parseImports : never_out_of_fuel parseImports.
Proof.
  unfold parseImports, read_imports. repeat nof_step;
    try apply nof_parseImports_names.
Qed.

Lemma walk_measure_bound size pos loc :
  0 <= size -> 0 <= pos -> 0 <= loc -> walk_measure size pos loc <= 2 * size + 1.
Proof.
  intros Hs Hp Hl. unfold walk_measure. destruct (loc <? 2 ^ 63); lia.
Qed.

Section Termination.

Variable data : list byte.
Hypothesis data_size : Z.of_nat (length data) < 2 ^ 62.

Lemma sr_ok_size d : sr_ok data d -> Reader_Size (sr d) = Z.of_nat (length data).
Proof. intros [H _]. unfold Reader_Size. rewrite H. reflexivity. Qed.

Lemma walkDcFixupChain_terminates fuel i pi off d :
  sr_ok data d ->
  2 * Z.of_nat (length data) + 1 < Z.of_nat fuel ->
  fst (walkDcFixupChain fuel i pi off d) <> OutOfFuel.
Proof.
  intros Hd Hfuel. unfold walkDcFixupChain, bind, Starts_at.
  destruct (Starts_list d !! i) as [s|]; [|discriminate].
  assert (Hsz := sr_ok_size d Hd). destruct Hd as [_ Hpos].
  apply walk_loop_terminates; [exact Hpos|rewrite Hsz; exact data_size|].
  rewrite Hsz.
  assert (H := walk_measure_bound (Z.of_nat (length data)) (rd_pos (sr d))
                 (uint64 (uint64 (SegmentOffset (InSegment s)
                                  + uint64 (pi * PageSize (InSegment s)))
                          + off + 0))).
  assert (H0 := uint64_range (uint64 (SegmentOffset (InSegment s)
                                  + uint64 (pi * PageSize (InSegment s)))
                          + off + 0)).
  lia.
Qed.

Lemma overflow_loop_terminates wf i pi ps :
  2 * Z.of_nat (length data) + 1 < Z.of_nat wf ->
  Z.of_nat (length ps) < 65536 ->
  forall fuel idx d,
    sr_ok data d ->
    0 <= idx ->
    Z.max 0 (Z.of_nat (length ps) - idx) < Z.of_nat fuel ->
    fst (overflow_loop fuel wf i pi ps idx d) <> OutOfFuel.
Proof.
  intros Hwf Hps. induction fuel as [|fuel IH]; intros idx d Hd Hidx Hm.
  - exfalso. lia.
  - cbn [overflow_loop].
    destruct (ps !! Z.to_nat idx) as [entry|] eqn:He; [|discriminate].
    assert (Hlt : (Z.to_nat idx < length ps)%nat) by (eapply lookup_lt_Some; eauto).
    unfold bind.
    assert (Hw := walkDcFixupChain_terminates wf i pi
                    (and_not entry DYLD_CHAINED_PTR_START_LAST) d Hd Hwf).
    assert (Hs := sr_ok_walkDcFixupChain data wf i pi
                    (and_not entry DYLD_CHAINED_PTR_START_LAST) d Hd).
    destruct (walkDcFixupChain _ _ _ _ d) as [[[]| | |] d1]; cbn [fst snd] in *;
      try discriminate; [|contradiction].
    destruct (has_bits _ _); [discriminate|].
    unfold uint16. rewrite Z.mod_small by lia.
    apply IH; [exact Hs|lia|lia].
Qed.

Lemma and_not_nonneg x m : 0 <= x -> 0 <= and_not x m.
Proof. intros H. unfold and_not. apply Z.land_nonneg. auto. Qed.

Lemma Parse_page_terminates fuel i ps pi d :
  2 * Z.of_nat (length data) + 65536 <= Z.of_nat fuel ->
  pages_ok ps ->
  sr_ok data d ->
  fst (Parse_page fuel i ps pi d) <> OutOfFuel.
Proof.
  intros Hfuel [Hlen Hnn] Hd. unfold Parse_page.
  destruct (ps !! Z.to_nat pi) as [raw|] eqn:Hraw; [|discriminate].
  destruct (_ =? _); [discriminate|].
  destruct (has_bits _ _).
  - apply overflow_loop_terminates; try lia; [exact Hd| |].
    + apply and_not_nonneg. eapply Forall_lookup_1 in Hnn; eauto.
    + assert (0 <= and_not raw DYLD_CHAINED_PTR_START_MULTI).
      { apply and_not_nonneg. eapply Forall_lookup_1 in Hnn; eauto. }
      lia.
  - apply walkDcFixupChain_terminates; [exact Hd|lia].
Qed.

Lemma Parse_pages_terminates fuel i ps :
  2 * Z.of_nat (length data) + 65536 <= Z.of_nat fuel ->
  pages_ok ps ->
  forall n pi d,
    sr_ok data d ->
    fst (Parse_pages n fuel i ps pi d) <> OutOfFuel.
Proof.
  intros Hfuel Hps. induction n as [|n IH]; intros pi d Hd; cbn [Parse_pages].
  - discriminate.
  - unfold bind.
    assert (Hp := Parse_page_terminates fuel i ps pi d Hfuel Hps Hd).
    assert (Hs := sr_ok_Parse_page data fuel i ps pi d Hd).
    destruct (Parse_page _ _ _ _ d) as [[[]| | |] d1]; cbn [fst snd] in *;
      try discriminate; [|contradiction].
    apply IH. exact Hs.
Qed.

Lemma Parse_segments_terminates fuel :
  2 * Z.of_nat (length data) + 65536 <= Z.of_nat fuel ->
  forall n i d,
    sr_ok data d -> starts_ok d ->
    fst (Parse_segments n fuel i d) <> OutOfFuel.
Proof.
  intros Hfuel. induction n as [|n IH]; intros i d Hd Hok; cbn [Parse_segments].
  - discriminate.
  - unfold bind at 1, Starts_at.
    destruct (Starts_list d !! i) as [start|] eqn:Hs; [|discriminate].
    assert (Hstart : seg_ok start) by (eapply Forall_lookup_1; eauto).
    destruct (PageStarts start) as [ps|] eqn:Hps; [|apply IH; assumption].
    assert (Hpages : pages_ok ps) by (apply (proj1 Hstart); exact Hps).
    unfold bind.
    assert (Hp := Parse_pages_terminates fuel i ps Hfuel Hpages
                    (Z.to_nat (PageCount (InSegment start))) 0 d Hd).
    assert (Hsr := sr_ok_Parse_pages data fuel i ps
                     (Z.to_nat (PageCount (InSegment start))) 0 d Hd).
    assert (Hst : starts_ok (snd (Parse_pages (Z.to_nat (PageCount (InSegment start)))
                                              fuel i ps 0 d))).
    { destruct (Z.to_nat (PageCount (InSegment start))) as [|n'] eqn:Hn;
        [exact Hok|].
      apply walk_inv_Parse_pages. split; [exact Hok|].
      intros s Hs'. rewrite Hs in Hs'. injection Hs' as <-. lia. }
    destruct (Parse_pages _ _ _ _ _ d) as [[[]| | |] d1]; cbn [fst snd] in *;
      try discriminate; [|contradiction].
    apply IH; assumption.
Qed.

Lemma starts_ok_keeps {A} (m : DCF A) :
  keeps_Starts m -> preserves starts_ok m.
Proof. intros Hm d Hd. unfold starts_ok. rewrite (Hm d). exact Hd. Qed.

#[local] Hint Extern 1 (preserves starts_ok _) =>
  apply starts_ok_keeps;
  first [ apply keeps_Starts_on_r | apply keeps_Starts_r_Seek
        | apply keeps_Starts_append_Import ] : sr_ok.

Lemma starts_ok_parseImports_names :
  forall imports, preserves starts_ok (parseImports_names imports).
Proof.
  induction imports as [|i rest IH]; cbn [parseImports_names].
  - auto with sr_ok.
  - repeat preserves_step; try apply IH.
Qed.

Lemma starts_ok_parseImports : preserves starts_ok parseImports.
Proof.
  unfold parseImports, read_imports, r_Read. repeat preserves_step;
    try apply starts_ok_parseImports_names.
Qed.

(** [Parse] is total: fuel beyond twice the size of the image plus 2^16
    is never used up. *)
Lemma Parse_terminates fuel d :
  sr_ok data d ->
  Starts d = None \/ starts_ok d ->
  2 * Z.of_nat (length data) + 65536 <= Z.of_nat fuel ->
  fst (Parse fuel d) <> OutOfFuel.
Proof.
  intros Hd Hst Hfuel. unfold Parse. unfold bind at 1, get. unfold bind at 1.
  set (first := match Starts d with Some _ => ret tt | None => ParseStarts end).
  assert (H1 : fst (first d) <> OutOfFuel
               /\ sr_ok data (snd (first d))
               /\ (fst (first d) = Ok tt -> starts_ok (snd (first d)))).
  { unfold first. destruct (Starts d) as [ss|] eqn:Es.
    - split; [discriminate|]. split; [exact Hd|]. intros _.
      destruct Hst as [?|?]; [discriminate|assumption].
    - split; [apply nof_ParseStarts|]. split; [apply sr_ok_ParseStarts; exact Hd|].
      intros E. apply starts_fresh_ok, (ParseStarts_fresh d).
      destruct (ParseStarts d) as [o d']. cbn in E. subst o. reflexivity. }
  destruct (first d) as [o1 d1]. cbn [fst snd] in H1.
  destruct H1 as (Hn1 & Hsr1 & Hok1).
  destruct o1 as [[]| | |]; try discriminate; [|contradiction].
  specialize (Hok1 eq_refl).
  unfold bind at 1.
  assert (Hn2 := nof_drop_error _ nof_parseImports d1).
  assert (Hsr2 := preserves_drop_error _ _ (sr_ok_parseImports data) d1 Hsr1).
  assert (Hok2 := preserves_drop_error _ _ starts_ok_parseImports d1 Hok1).
  destruct (drop_error parseImports d1) as [o2 d2]. cbn [fst snd] in *.
  destruct o2 as [[]| | |]; try discriminate; [|contradiction].
  unfold bind, get. apply Parse_segments_terminates; assumption.
Qed.

End Termination.

(* --------------------------------------------------------------------- *)
(** ** What [init] installs                                               *)
(* --------------------------------------------------------------------- *)

Section InitReady.
Variable Resolve_of : RebaseKind -> Z -> Z -> Z.

Lemma init_fixups_nil m : init_fixups Resolve_of [] m = m.
Proof. reflexivity. Qed.

Lemma ptrSize_values fmt sz : ptrSize fmt = Ok sz -> sz = 4 \/ sz = 8.
Proof.
  unfold ptrSize. destruct (DCPtrKind_of fmt) as [[]|]; intros [= <-]; auto.
Qed.

Lemma init_segments_sizes starts :
  forall l l',
    fixups_in_paged starts ->
    (pointerSize l = 0 /\ rebases l = ∅) \/ pointerSize l = 4 \/ pointerSize l = 8 ->
    init_segments Resolve_of starts l = (Ok tt, l') ->
    ((pointerSize l' = 0 /\ rebases l' = ∅) \/ pointerSize l' = 4 \/ pointerSize l' = 8)
    /\ pointerCodec l' = pointerCodec l.
Proof.
  induction starts as [|s rest IH]; intros l l' Hp Hl.
  - intros [= <-]. auto.
  - inversion Hp as [|? ? Hs Hrest]; subst.
    cbn [init_segments]. unfold bind at 1, get. unfold bind at 1.
    set (step := if (pointerSize l =? 0) && (0 <? PageCount (InSegment s)) then _ else _).
    assert (Hstep : forall o l1, step l = (o, l1) ->
              o = Ok tt ->
              rebases l1 = rebases l /\ pointerCodec l1 = pointerCodec l /\
              ((pointerSize l1 = 0 /\ rebases l1 = ∅ /\ ~ 0 < PageCount (InSegment s))
               \/ pointerSize l1 = 4 \/ pointerSize l1 = 8)).
    { intros o l1. unfold step.
      destruct (Z.eqb_spec (pointerSize l) 0) as [E0|E0];
        [destruct (Z.ltb_spec 0 (PageCount (InSegment s)))|]; cbn [andb].
      - destruct (ptrSize _) as [sz| | |] eqn:Esz; intros [= <- <-]; try discriminate.
        intros _. cbn. destruct (ptrSize_values _ _ Esz); auto.
      - intros [= <- <-] _. repeat split; auto. left. repeat split; auto; [|lia].
        destruct Hl as [[_ ?]|[?|?]]; [assumption|lia|lia].
      - intros [= <- <-] _. repeat split; auto. right.
        destruct Hl as [[? _]|?]; [contradiction|assumption]. }
    destruct (step l) as [o l1] eqn:E1.
    destruct o as [[]| | |]; try discriminate.
    destruct (Hstep _ _ eq_refl eq_refl) as (Hr1 & Hc1 & Hs1).
    unfold bind at 1, modify. intros E2.
    set (l2 := set_rebases (init_fixups Resolve_of (Fixups s) (rebases l1)) l1) in E2.
    assert (Hinv : (pointerSize l2 = 0 /\ rebases l2 = ∅)
                   \/ pointerSize l2 = 4 \/ pointerSize l2 = 8).
    { unfold l2. cbn. destruct Hs1 as [(Hz & He & Hnp)|Hs1]; [left|right; exact Hs1].
      split; [exact Hz|].
      destruct (Fixups s) as [|f fs] eqn:Ef; [exact He|].
      exfalso. apply Hnp, Hs. discriminate. }
    destruct (IH l2 l' Hrest Hinv E2) as [H1 H2].
    split; [exact H1|]. rewrite H2. cbn. exact Hc1.
Qed.

Lemma init_segments_dcf starts :
  forall l l', init_segments Resolve_of starts l = (Ok tt, l') -> dcf l' = dcf l.
Proof.
  induction starts as [|s rest IH]; intros l l'; [intros [= <-]; reflexivity|].
  cbn [init_segments]. unfold bind, get, modify.
  destruct ((pointerSize l =? 0) && _).
  - destruct (ptrSize _); try discriminate. intros E. apply IH in E. exact E.
  - intros E. apply IH in E. exact E.
Qed.

Lemma init_ready fuel l l' d' :
  pointerSize l = 0 ->
  init Resolve_of fuel l = (Ok tt, l') ->
  dcf l' = Some d' ->
  fixups_in_paged (Starts_list d') ->
  overlay_ready l'.
Proof.
  intros Hps. unfold init. unfold bind at 1, get. unfold bind at 1, modify.
  destruct (snd (GetDyldchainFixups l)) as [e|]; [discriminate|].
  destruct (fst (GetDyldchainFixups l)) as [d0|]; [|discriminate].
  destruct (Parse fuel d0) as [o d1] eqn:EP.
  unfold bind at 1. destruct o as [[]| | |]; try discriminate.
  unfold bind at 1. unfold bind at 1.
  unfold bind at 1.
  set (l0 := set_baseAddr _ (set_rebases ∅ _)).
  destruct (init_segments Resolve_of (Starts_list d1) l0) as [o2 l2] eqn:E2.
  destruct o2 as [[]| | |]; try discriminate.
  unfold bind, get. intros E3 Hd Hfix.
  assert (Hd2 : dcf l2 = Some d1) by (apply init_segments_dcf in E2; exact E2).
  assert (Hl' : dcf l' = dcf l2 /\ rebases l' = rebases l2 /\ pointerSize l' = pointerSize l2).
  { revert E3. repeat destruct (_ =? _); intros [= <-]; try discriminate; auto. }
  destruct Hl' as (Hd' & Hr' & Hp').
  rewrite Hd', Hd2 in Hd. injection Hd as <-.
  assert (Hl0 : (pointerSize l0 = 0 /\ rebases l0 = ∅)
                \/ pointerSize l0 = 4 \/ pointerSize l0 = 8)
    by (left; split; [exact Hps|reflexivity]).
  destruct (init_segments_sizes _ l0 l2 Hfix Hl0 E2) as [Hsz Hcodec].
  revert E3.
  destruct Hsz as [[Hz He]|[H4|H8]].
  - intros _. left. rewrite Hr'. exact He.
  - rewrite H4. cbn. intros [= <-]. right. right. split; [exact H4|reflexivity].
  - rewrite H8. cbn. intros [= <-]. right. left. split; [exact H8|reflexivity].
Qed.

End InitReady.

(* --------------------------------------------------------------------- *)
(** ** Summary: [Parse] as a total function, [init] on a fresh reader     *)
(* --------------------------------------------------------------------- *)

(** Whatever [Parse] did with fuel [f], short of running out, it does
    with any larger fuel. *)
Lemma Parse_more_fuel f f' d :
  (f <= f')%nat -> fst (Parse f d) <> OutOfFuel -> Parse f' d = Parse f d.
Proof. intros Hle. apply (fuel_stable_Parse f f' Hle d). Qed.

(** On an image of fewer than 2^62 bytes, fuel beyond twice the image
    size plus 2^16 is enough for [Parse] on a receiver fresh from
    [NewChainedFixups]. *)
Lemma Parse_new_total lcdat image bo fuel :
  Z.of_nat (length image) < 2 ^ 62 ->
  2 * Z.of_nat (length image) + 65536 <= Z.of_nat fuel ->
  fst (Parse fuel (NewChainedFixups lcdat image bo)) <> OutOfFuel.
Proof.
  intros Hsize Hfuel.
  apply (Parse_terminates image Hsize); [|left; reflexivity|exact Hfuel].
  split; [reflexivity|cbn; lia].
Qed.

(** After [Parse], only segments with pages have fixups. *)
Lemma Parse_starts_ok fuel d :
  Starts d = None \/ starts_ok d ->
  fst (Parse fuel d) = Ok tt ->
  starts_ok (snd (Parse fuel d)).
Proof.
  intros Hst. destruct (Parse fuel d) as [o d'] eqn:E. cbn [fst snd].
  intros ->. revert E. unfold Parse. unfold bind at 1, get. unfold bind at 1.
  set (first := match Starts d with Some _ => ret tt | None => ParseStarts end).
  assert (H1 : fst (first d) = Ok tt -> starts_ok (snd (first d))).
  { unfold first. destruct (Starts d) as [ss|] eqn:Es.
    - intros _. destruct Hst as [?|?]; [discriminate|assumption].
    - intros E. apply starts_fresh_ok, (ParseStarts_fresh d).
      destruct (ParseStarts d) as [o d1]. cbn in E. subst o. reflexivity. }
  destruct (first d) as [o1 d1]. cbn [fst snd] in H1.
  destruct o1 as [[]| | |]; try discriminate.
  specialize (H1 eq_refl).
  unfold bind at 1.
  assert (H2 := preserves_drop_error _ _ starts_ok_parseImports d1 H1).
  destruct (drop_error parseImports d1) as [o2 d2]. cbn [fst snd] in *.
  destruct o2 as [[]| | |]; try discriminate.
  unfold bind, get. intros E.
  assert (H3 := starts_ok_Parse_segments fuel (length (Starts_list d2)) 0 d2 H2).
  rewrite E in H3. exact H3.
Qed.

Lemma starts_ok_fixups_in_paged d :
  starts_ok d -> fixups_in_paged (Starts_list d).
Proof.
  intros H. eapply Forall_impl; [exact H|]. intros s [_ Hs]. exact Hs.
Qed.

(** A fresh reader whose fixups come unparsed is, after a successful
    [init], one that [patchReadBytes] can work with. *)
Lemma init_unparsed_ready Resolve_of fuel l l' d0 :
  pointerSize l = 0 ->
  GetDyldchainFixups l = (Some d0, None) ->
  Starts d0 = None ->
  init Resolve_of fuel l = (Ok tt, l') ->
  overlay_ready l'.
Proof.
  intros Hps Hget Hd0 Hinit.
  assert (Hd' : exists d', dcf l' = Some d' /\ fixups_in_paged (Starts_list d')).
  { revert Hinit. unfold init. unfold bind at 1, get. unfold bind at 1, modify.
    rewrite Hget. cbn [fst snd].
    assert (Hok := Parse_starts_ok fuel d0 (or_introl Hd0)).
    destruct (Parse fuel d0) as [o d1]. cbn [fst snd] in Hok.
    unfold bind at 1. destruct o as [[]| | |]; try discriminate.
    specialize (Hok eq_refl).
    unfold bind at 1. unfold bind at 1. unfold bind at 1.
    set (l0 := set_baseAddr _ (set_rebases ∅ _)).
    destruct (init_segments Resolve_of (Starts_list d1) l0) as [o2 l2] eqn:E2.
    destruct o2 as [[]| | |]; try discriminate.
    apply init_segments_dcf in E2.
    unfold bind, get. intros E3. exists d1.
    split; [|apply starts_ok_fixups_in_paged; exact Hok].
    revert E3. repeat destruct (_ =? _); intros [= <-]; try discriminate;
      cbn; rewrite E2; reflexivity. }
  destruct Hd' as (d' & Hd' & Hfix).
  exact (init_ready Resolve_of fuel l l' d' Hps Hinit Hd' Hfix).
Qed.

(** The evaluations above were made with fuel 10; none of them ran out of
    it, so they stand for every larger fuel. *)
Lemma examples_any_fuel fuel :
  (10 <= fuel)%nat ->
  Parse fuel (NewChainedFixups payload_ordinal image_ordinal LittleEndian)
  = Parse 10 (NewChainedFixups payload_ordinal image_ordinal LittleEndian)
  /\ Parse fuel (NewChainedFixups payload_unterminated [] LittleEndian)
     = Parse 10 (NewChainedFixups payload_unterminated [] LittleEndian)
  /\ Parse fuel (NewChainedFixups payload_compressed [] LittleEndian)
     = Parse 10 (NewChainedFixups payload_compressed [] LittleEndian)
  /\ Parse fuel (NewChainedFixups payload_escape image_escape LittleEndian)
     = Parse 10 (NewChainedFixups payload_escape image_escape LittleEndian).
Proof.
  intros H. repeat split; apply Parse_more_fuel; try exact H;
    vm_compute; discriminate.
Qed.

(* ===================================================================== *)
(** * Further properties of the package                                   *)
(* ===================================================================== *)

(* --------------------------------------------------------------------- *)
(** ** The pointer scans: what the guard buys, and how they compose       *)
(* --------------------------------------------------------------------- *)

Lemma GetImportForPointer_ordinal_nonneg s pointer ordinal :
  GetImportForPointer_ordinal s pointer = Some ordinal -> 0 <= ordinal.
Proof.
  unfold GetImportForPointer_ordinal.
  destruct (PageCount (InSegment s) =? 0); [discriminate|].
  destruct (DCPtrKind_of _) as [[]|]; try discriminate.
  - destruct (DcpArm64eIsBind pointer); cbn [negb]; [|discriminate].
    destruct (DcpArm64eIsAuth pointer); intros [= <-];
      apply ExtractBits_range; lia.
  - destruct (Generic64IsBind pointer); cbn [negb]; [|discriminate].
    intros [= <-]. apply ExtractBits_range. lia.
  - destruct (Generic32IsBind _); cbn [negb]; [|discriminate].
    intros [= <-]. apply ExtractBits_range. lia.
Qed.

Lemma GetImportForPointer_loop_guarded imports starts pointer :
  GetImportForPointer_loop imports starts pointer = Err ErrNotABindPointer
  \/ exists (ordinal : nat) i,
       GetImportForPointer_loop imports starts pointer = Ok i
       /\ imports !! ordinal = Some i.
Proof.
  induction starts as [|s rest IH]; [left; reflexivity|].
  cbn [GetImportForPointer_loop].
  destruct (GetImportForPointer_ordinal s pointer) as [ordinal|] eqn:E;
    [|exact IH].
  apply GetImportForPointer_ordinal_nonneg in E.
  destruct (Z.ltb_spec ordinal (Z.of_nat (length imports))) as [Hlt|]; [|exact IH].
  destruct (lookup_lt_is_Some_2 imports (Z.to_nat ordinal)) as [i Hi]; [lia|].
  rewrite Hi. right. exists (Z.to_nat ordinal), i. auto.
Qed.

(** The scan of [GetImportForPointer] never panics, whatever the segments,
    the imports and the pointer: it answers with the not-a-bind error or
    with an element of [dcf.Imports].  In particular it answers with the
    error when there is no import. *)
Theorem GetImportForPointer_never_panics dcf pointer :
  (GetImportForPointer dcf pointer = Err ErrNotABindPointer
   \/ exists (ordinal : nat) i,
        GetImportForPointer dcf pointer = Ok i
        /\ Imports dcf !! ordinal = Some i)
  /\ (Imports dcf = [] -> GetImportForPointer dcf pointer = Err ErrNotABindPointer).
Proof.
  unfold GetImportForPointer.
  destruct (GetImportForPointer_loop_guarded (Imports dcf) (Starts_list dcf) pointer)
    as [E|(ordinal & i & E & Hi)].
  - split; [left; exact E|intros _; exact E].
  - split; [right; eauto|]. intros Hnil. rewrite Hnil in Hi. discriminate Hi.
Qed.

Lemma GetImportForPointer_loop_Ok imports starts pointer i :
  GetImportForPointer_loop imports starts pointer = Ok i ->
  exists s ordinal, s ∈ starts /\ GetImportForPointer_ordinal s pointer = Some ordinal.
Proof.
  induction starts as [|s rest IH]; [discriminate|].
  cbn [GetImportForPointer_loop].
  destruct (GetImportForPointer_ordinal s pointer) as [ordinal|] eqn:E.
  - intros _. exists s, ordinal. split; [left|exact E].
  - intros H. destruct (IH H) as (s' & o & Hin & Ho).
    exists s', o. split; [right; exact Hin|exact Ho].
Qed.

(** In a file whose segments with pages all have one pointer format, the
    two scans do not both claim a pointer: when [GetImportForPointer] finds
    an import for it, [RebasePointer] hands it back unchanged. *)
Theorem bind_pointer_is_not_rebased dcf fmt pla pointer i :
  Forall (fun s => PageCount (InSegment s) = 0
                   \/ PointerFormat (InSegment s) = fmt) (Starts_list dcf) ->
  GetImportForPointer dcf pointer = Ok i ->
  RebasePointer dcf pla pointer = pointer.
Proof.
  intros Hall Hget. unfold GetImportForPointer in Hget.
  destruct (GetImportForPointer_loop_Ok _ _ _ _ Hget) as (s & o & Hin & Ho).
  apply RebasePointer_loop_skips.
  rewrite Forall_forall in Hall. apply Forall_forall. intros s' Hin'.
  assert (Hs : PointerFormat (InSegment s) = fmt).
  { destruct (Hall s Hin) as [Hz|Hf]; [|exact Hf].
    unfold GetImportForPointer_ordinal in Ho. rewrite Hz in Ho. discriminate Ho. }
  unfold GetImportForPointer_ordinal in Ho.
  unfold RebasePointer_segment.
  destruct (Z.eqb_spec (PageCount (InSegment s')) 0) as [|Hpc']; [reflexivity|].
  destruct (Hall s' Hin') as [?|Hf']; [contradiction|].
  rewrite Hf', <- Hs.
  destruct (PageCount (InSegment s) =? 0); [discriminate|].
  destruct (DCPtrKind_of (PointerFormat (InSegment s))) as [[]|]; try discriminate.
  - destruct (DcpArm64eIsBind pointer); [reflexivity|discriminate].
  - destruct (Generic64IsBind pointer); [reflexivity|discriminate].
  - destruct (Generic32IsBind _); [reflexivity|discriminate].
Qed.

Lemma bind_pointer_is_not_rebased_witness :
  RebasePointer
    (snd (Parse 10 (NewChainedFixups payload_S3 image_S3 LittleEndian)))
    0x100000000 (2 ^ 63 + 1)
  = 2 ^ 63 + 1.
Proof.
  apply (bind_pointer_is_not_rebased _ 2 0x100000000 (2 ^ 63 + 1)
           (mkDcfImport (bytes_of [95; 102; 114; 101; 101])
                        (DyldChainedImport (8 * 512)))).
  - vm_compute. constructor; [right; reflexivity|constructor].
  - vm_compute. reflexivity.
Defined.

(** [RebasePointer] uses the preferred load address in one place only, the
    authenticated rebase of an ARM64E segment: for a pointer without the
    auth bit, or in a file with no ARM64E segment that has pages, the
    result is the same for every load address. *)
Theorem RebasePointer_load_address_only_for_auth dcf pla pla' pointer :
  DcpArm64eIsAuth pointer = false
  \/ Forall (fun s => PageCount (InSegment s) = 0
                      \/ DCPtrKind_of (PointerFormat (InSegment s))
                         <> Some DYLD_CHAINED_PTR_ARM64E) (Starts_list dcf) ->
  RebasePointer dcf pla pointer = RebasePointer dcf pla' pointer.
Proof.
  intros H. unfold RebasePointer.
  assert (Hseg : forall s, s ∈ Starts_list dcf ->
            RebasePointer_segment s pla pointer = RebasePointer_segment s pla' pointer).
  { intros s Hin. unfold RebasePointer_segment.
    destruct (Z.eqb_spec (PageCount (InSegment s)) 0) as [|Hpc]; [reflexivity|].
    destruct (DCPtrKind_of (PointerFormat (InSegment s))) as [[]|] eqn:Ek;
      try reflexivity.
    destruct H as [Ha|Hall].
    - rewrite Ha. reflexivity.
    - rewrite Forall_forall in Hall. destruct (Hall s Hin) as [?|Hne]; [contradiction|].
      rewrite Ek in Hne. contradiction. }
  revert Hseg. generalize (Starts_list dcf).
  induction l as [|s rest IH]; intros Hseg; [reflexivity|].
  cbn [RebasePointer_loop]. rewrite (Hseg s) by left.
  destruct (RebasePointer_segment s pla' pointer); [reflexivity|].
  apply IH. intros s' Hin. apply Hseg. right. exact Hin.
Qed.

Lemma RebasePointer_load_address_only_for_auth_witness :
  RebasePointer dcf_S5 0 0x4000 = RebasePointer dcf_S5 0x100000000 0x4000.
Proof.
  apply (RebasePointer_load_address_only_for_auth dcf_S5 0 0x100000000 0x4000).
  left. reflexivity.
Defined.

(* --------------------------------------------------------------------- *)
(** ** What [init] records                                                *)
(* --------------------------------------------------------------------- *)

Lemma byte_val_of_Z x : byte_val (byte_of_Z x) = x mod 256.
Proof.
  unfold byte_val, byte_of_Z.
  assert (Hr : 0 <= x mod 256 < 256) by (apply Z.mod_pos_bound; lia).
  destruct (Byte.of_N (Z.to_N (x mod 256))) as [b|] eqn:E.
  - apply Byte.to_of_N in E. rewrite E. lia.
  - apply Byte.of_N_None_iff in E. lia.
Qed.

Lemma le_uint_le_bytes n x : le_uint (le_bytes n x) = x mod 256 ^ Z.of_nat n.
Proof.
  revert x. induction n as [|n IH]; intros x.
  - cbn. rewrite Z.mod_1_r. reflexivity.
  - cbn [le_bytes le_uint]. rewrite IH, byte_val_of_Z.
    rewrite Nat2Z.inj_succ, Z.pow_succ_r by lia.
    rewrite Z.rem_mul_r by lia. reflexivity.
Qed.

Lemma bo_uint_bo_put bo n x : bo_uint bo (bo_put bo n x) = x mod 256 ^ Z.of_nat n.
Proof.
  destruct bo; cbn [bo_uint bo_put]; rewrite ?rev_involutive;
    apply le_uint_le_bytes.
Qed.

(** The two pointer functions that [init] installs fit each other: what
    [writePointer] stores at the head of a buffer, [readPointer] reads
    back, reduced to the pointer width (for 4-byte pointers the upper 32
    bits of the value are dropped); the bytes of the buffer after the
    pointer are left alone. *)
Theorem readPointer_of_writePointer bo c buf x buf' :
  writePointer bo (Some c) buf x = Ok buf' ->
  readPointer bo (Some c) buf' = Ok (x mod 2 ^ (8 * Z.of_nat (codec_width c)))
  /\ length buf' = length buf
  /\ drop (codec_width c) buf' = drop (codec_width c) buf.
Proof.
  unfold writePointer, readPointer.
  destruct (Nat.ltb_spec (length buf) (codec_width c)) as [|Hlen]; [discriminate|].
  intros [= <-].
  assert (Hl : length (bo_put bo (codec_width c) x ++ drop (codec_width c) buf)
               = length buf).
  { rewrite length_app, bo_put_length, length_drop. lia. }
  rewrite Hl. destruct (Nat.ltb_spec (length buf) (codec_width c)); [lia|].
  split; [|split; [reflexivity|]].
  - rewrite take_app_length' by (symmetry; apply bo_put_length).
    rewrite bo_uint_bo_put. do 2 f_equal.
    destruct c; reflexivity.
  - rewrite drop_app_length' by (symmetry; apply bo_put_length). reflexivity.
Qed.

Lemma readPointer_of_writePointer_witness :
  readPointer BigEndian (Some Codec32)
              (bo_put BigEndian 4 0x123456789 ++ drop 4 (repeat xff 6))
  = Ok (0x123456789 mod 2 ^ (8 * Z.of_nat (codec_width Codec32)))
  /\ length (bo_put BigEndian 4 0x123456789 ++ drop 4 (repeat xff 6))
     = length (repeat xff 6)
  /\ drop (codec_width Codec32)
          (bo_put BigEndian 4 0x123456789 ++ drop 4 (repeat xff 6))
     = drop (codec_width Codec32) (repeat xff 6).
Proof.
  apply (readPointer_of_writePointer BigEndian Codec32 (repeat xff 6) 0x123456789).
  reflexivity.
Defined.

Lemma elem_of_all_Fixups f starts :
  f ∈ all_Fixups starts <-> exists s, s ∈ starts /\ f ∈ Fixups s.
Proof.
  unfold all_Fixups. induction starts as [|s rest IH]; cbn [map concat].
  - split; [intros H; inversion H|intros (s & H & _); inversion H].
  - rewrite elem_of_app, IH. split.
    + intros [H|(s' & Hs' & H)]; [exists s; split; [left|exact H]|].
      exists s'. split; [right; exact Hs'|exact H].
    + intros (s' & Hs' & H). apply elem_of_cons in Hs'.
      destruct Hs' as [->|Hs']; [left; exact H|right; eauto].
Qed.

Section InitRecords.
Variable Resolve_of : RebaseKind -> Z -> Z -> Z.

Lemma init_fixups_app fs1 fs2 m :
  init_fixups Resolve_of (fs1 ++ fs2) m
  = init_fixups Resolve_of fs2 (init_fixups Resolve_of fs1 m).
Proof.
  revert m. induction fs1 as [|f fs1 IH]; intros m; [reflexivity|].
  cbn [app init_fixups]. destruct (as_Rebase Resolve_of f); apply IH.
Qed.

Lemma init_fixups_lookup fs :
  forall m o rb,
    init_fixups Resolve_of fs m !! o = Some rb ->
    m !! o = Some rb
    \/ exists k ptr, RebaseFixup k ptr o ∈ fs
                     /\ rb = mkRebase o ptr (Resolve_of k ptr).
Proof.
  induction fs as [|f fs IH]; intros m o rb; [left; assumption|].
  cbn [init_fixups]. destruct f as [k ptr loc|k ptr loc name]; cbn [as_Rebase].
  - intros H. apply IH in H. destruct H as [H|(k' & ptr' & Hin & ->)].
    + cbn [Offset] in H. destruct (decide (loc = o)) as [->|Hne].
      * rewrite lookup_insert_eq in H. injection H as <-.
        right. exists k, ptr. split; [left|reflexivity].
      * rewrite lookup_insert_ne in H by exact Hne. left. exact H.
    + right. exists k', ptr'. split; [right; exact Hin|reflexivity].
  - intros H. apply IH in H. destruct H as [H|(k' & ptr' & Hin & ->)].
    + left. exact H.
    + right. exists k', ptr'. split; [right; exact Hin|reflexivity].
Qed.

Lemma init_fixups_keeps fs :
  forall m o, is_Some (m !! o) -> is_Some (init_fixups Resolve_of fs m !! o).
Proof.
  induction fs as [|f fs IH]; intros m o H; [exact H|].
  cbn [init_fixups]. destruct (as_Rebase Resolve_of f) as [rb|]; apply IH; [|exact H].
  destruct (decide (Offset rb = o)) as [->|Hne].
  - rewrite lookup_insert_eq. eauto.
  - rewrite lookup_insert_ne by exact Hne. exact H.
Qed.

Lemma init_fixups_covers fs :
  forall m k ptr o,
    RebaseFixup k ptr o ∈ fs -> is_Some (init_fixups Resolve_of fs m !! o).
Proof.
  induction fs as [|f fs IH]; intros m k ptr o Hin; [inversion Hin|].
  cbn [init_fixups]. apply elem_of_cons in Hin. destruct Hin as [<-|Hin].
  - cbn [as_Rebase]. apply init_fixups_keeps. cbn [Offset].
    rewrite lookup_insert_eq. eauto.
  - destruct (as_Rebase Resolve_of f); eapply IH; exact Hin.
Qed.

Lemma init_segments_rebases starts :
  forall l l',
    init_segments Resolve_of starts l = (Ok tt, l') ->
    rebases l' = init_fixups Resolve_of (all_Fixups starts) (rebases l)
    /\ baseAddr l' = baseAddr l.
Proof.
  induction starts as [|s rest IH]; intros l l'; [intros [= <-]; auto|].
  cbn [init_segments]. unfold bind, get, modify.
  unfold all_Fixups. cbn [map concat]. rewrite init_fixups_app.
  destruct ((pointerSize l =? 0) && _).
  - destruct (ptrSize _); try discriminate. intros E. apply IH in E. exact E.
  - intros E. apply IH in E. exact E.
Qed.

(** What a successful [init] leaves behind, however the reader stood
    before. *)
Lemma init_Ok_shape fuel l l' :
  init Resolve_of fuel l = (Ok tt, l') ->
  exists d0 d',
    GetDyldchainFixups l = (Some d0, None)
    /\ Parse fuel d0 = (Ok tt, d')
    /\ dcf l' = Some d'
    /\ exists l0 l2,
         l0 = set_baseAddr (GetBaseAddr l) (set_rebases ∅
                (set_dcf (Some d') (set_dcf (Some d0) l)))
         /\ init_segments Resolve_of (Starts_list d') l0 = (Ok tt, l2)
         /\ rebases l' = rebases l2 /\ baseAddr l' = baseAddr l2
         /\ pointerSize l' = pointerSize l2
         /\ (pointerSize l2 = 8 /\ pointerCodec l' = Some Codec64
             \/ pointerSize l2 = 4 /\ pointerCodec l' = Some Codec32
             \/ pointerSize l2 = 0 /\ pointerCodec l' = pointerCodec l2).
Proof.
  unfold init. unfold bind at 1, get. unfold bind at 1, modify.
  destruct (GetDyldchainFixups l) as [gd ge] eqn:Eg. cbn [fst snd].
  destruct ge as [e|]; [discriminate|].
  destruct gd as [d0|]; [|discriminate].
  destruct (Parse fuel d0) as [o d1] eqn:EP.
  unfold bind at 1. destruct o as [[]| | |]; try discriminate.
  unfold bind at 1. unfold bind at 1. unfold bind at 1.
  set (l0 := set_baseAddr _ (set_rebases ∅ _)).
  destruct (init_segments Resolve_of (Starts_list d1) l0) as [o2 l2] eqn:E2.
  destruct o2 as [[]| | |]; try discriminate.
  unfold bind, get. intros E3.
  exists d0, d1. split; [reflexivity|]. split; [exact EP|].
  assert (Hd2 : dcf l2 = Some d1) by (apply init_segments_dcf in E2; exact E2).
  split.
  { revert E3. repeat destruct (_ =? _); intros [= <-]; try discriminate;
      cbn; exact Hd2. }
  exists l0, l2. split; [reflexivity|]. split; [exact E2|].
  revert E3.
  destruct (Z.eqb_spec (pointerSize l2) 8) as [H8|H8];
    [|destruct (Z.eqb_spec (pointerSize l2) 4) as [H4|H4];
      [|destruct (Z.eqb_spec (pointerSize l2) 0) as [H0|H0]]];
    intros [= <-]; cbn; auto 10.
Qed.

(** After a successful [init], the map [rebases] holds the rebase records
    of the parsed fixups and nothing else: an entry is the record of some
    segment at the offset that is its key (binds never enter the map), and
    every rebase record has its offset among the keys; [baseAddr] is what
    [GetBaseAddr] returned. *)
Theorem init_rebases_are_the_rebase_fixups fuel l l' :
  init Resolve_of fuel l = (Ok tt, l') ->
  exists d',
    dcf l' = Some d'
    /\ baseAddr l' = GetBaseAddr l
    /\ (forall o rb,
          rebases l' !! o = Some rb ->
          exists s k ptr,
            s ∈ Starts_list d' /\ RebaseFixup k ptr o ∈ Fixups s
            /\ rb = mkRebase o ptr (Resolve_of k ptr))
    /\ (forall s k ptr o,
          s ∈ Starts_list d' -> RebaseFixup k ptr o ∈ Fixups s ->
          is_Some (rebases l' !! o)).
Proof.
  intros Hinit.
  destruct (init_Ok_shape fuel l l' Hinit)
    as (d0 & d' & _ & _ & Hd & l0 & l2 & -> & E2 & Hr & Hb & _).
  exists d'. split; [exact Hd|].
  apply init_segments_rebases in E2. destruct E2 as [Hreb Hbase].
  cbn [rebases baseAddr set_baseAddr set_rebases] in Hreb, Hbase.
  split; [rewrite Hb; exact Hbase|].
  rewrite Hr, Hreb. split.
  - intros o rb H. apply init_fixups_lookup in H.
    destruct H as [H|(k & ptr & Hin & ->)]; [rewrite lookup_empty in H; discriminate|].
    apply elem_of_all_Fixups in Hin. destruct Hin as (s & Hs & Hin).
    exists s, k, ptr. auto.
  - intros s k ptr o Hs Hin. eapply init_fixups_covers.
    apply elem_of_all_Fixups. exists s. split; [exact Hs|exact Hin].
Qed.

End InitRecords.

Lemma init_rebases_are_the_rebase_fixups_witness :
  exists d',
    dcf (snd (init Resolve_raw 10 lrr_S1)) = Some d'
    /\ baseAddr (snd (init Resolve_raw 10 lrr_S1)) = GetBaseAddr lrr_S1
    /\ (forall o rb,
          rebases (snd (init Resolve_raw 10 lrr_S1)) !! o = Some rb ->
          exists s k ptr,
            s ∈ Starts_list d' /\ RebaseFixup k ptr o ∈ Fixups s
            /\ rb = mkRebase o ptr (Resolve_raw k ptr))
    /\ (forall s k ptr o,
          s ∈ Starts_list d' -> RebaseFixup k ptr o ∈ Fixups s ->
          is_Some (rebases (snd (init Resolve_raw 10 lrr_S1)) !! o)).
Proof.
  apply (init_rebases_are_the_rebase_fixups Resolve_raw 10 lrr_S1).
  vm_compute. reflexivity.
Defined.

Section InitPointerSize.
Variable Resolve_of : RebaseKind -> Z -> Z -> Z.

Lemma init_segments_sized starts :
  forall l, pointerSize l <> 0 ->
    exists l', init_segments Resolve_of starts l = (Ok tt, l')
               /\ pointerSize l' = pointerSize l.
Proof.
  induction starts as [|s rest IH]; intros l Hl; [exists l; auto|].
  cbn [init_segments]. unfold bind at 1, get. unfold bind at 1.
  destruct (Z.eqb_spec (pointerSize l) 0) as [|_]; [contradiction|].
  cbn [andb]. unfold ret at 1. unfold bind at 1, modify.
  destruct (IH (set_rebases (init_fixups Resolve_of (Fixups s) (rebases l)) l) Hl)
    as (l' & E & Hp).
  exists l'. auto.
Qed.

Lemma init_segments_first_paged pre s post :
  forall l l',
    Forall (fun s' => PageCount (InSegment s') = 0) pre ->
    0 < PageCount (InSegment s) ->
    pointerSize l = 0 ->
    init_segments Resolve_of (pre ++ s :: post) l = (Ok tt, l') ->
    ptrSize (PointerFormat (InSegment s)) = Ok (pointerSize l').
Proof.
  induction pre as [|s0 pre IH]; intros l l' Hpre Hs Hl.
  - cbn [app init_segments]. unfold bind at 1, get. unfold bind at 1.
    rewrite Hl. destruct (Z.ltb_spec 0 (PageCount (InSegment s))); [|lia].
    cbn [Z.eqb andb].
    destruct (ptrSize (PointerFormat (InSegment s))) as [sz| | |] eqn:Esz;
      try discriminate.
    unfold modify at 1. unfold bind at 1, modify.
    set (l2 := set_rebases _ _).
    assert (Hsz : pointerSize l2 <> 0).
    { unfold l2. cbn. destruct (ptrSize_values _ _ Esz); lia. }
    destruct (init_segments_sized post l2 Hsz) as (l3 & E & Hp).
    rewrite E. intros [= <-]. rewrite Hp. reflexivity.
  - inversion Hpre as [|? ? H0 Hrest]; subst.
    cbn [app init_segments]. unfold bind at 1, get. unfold bind at 1.
    rewrite Hl, H0. cbn [Z.eqb Z.ltb Z.compare andb]. unfold ret at 1.
    unfold bind at 1, modify. apply IH; auto.
Qed.

(** After a successful [init] of a reader whose pointer size was not set
    before, the pointer size is that of the first segment with pages, and
    the pointer functions are the pair of that width; the segments after
    it are not consulted, whatever their formats. *)
Theorem init_pointer_size_of_first_paged_segment fuel l l' d' pre s post :
  pointerSize l = 0 ->
  init Resolve_of fuel l = (Ok tt, l') ->
  dcf l' = Some d' ->
  Starts_list d' = pre ++ s :: post ->
  Forall (fun s' => PageCount (InSegment s') = 0) pre ->
  0 < PageCount (InSegment s) ->
  ptrSize (PointerFormat (InSegment s)) = Ok (pointerSize l')
  /\ codec_matches l'.
Proof.
  intros Hl Hinit Hd Hst Hpre Hs.
  destruct (init_Ok_shape Resolve_of fuel l l' Hinit)
    as (d0 & d1 & _ & _ & Hd1 & l0 & l2 & -> & E2 & _ & _ & Hp & Hc).
  rewrite Hd1 in Hd. injection Hd as ->. rewrite Hst in E2.
  apply init_segments_first_paged in E2; auto.
  rewrite Hp. split; [exact E2|].
  destruct (ptrSize_values _ _ E2) as [H4|H8]; unfold codec_matches; rewrite Hp.
  - right. destruct Hc as [[? ?]|[[? ?]|[? ?]]]; try lia. auto.
  - left. destruct Hc as [[? ?]|[[? ?]|[? ?]]]; try lia. auto.
Qed.

Lemma init_segments_frame starts :
  forall l, dcf (snd (init_segments Resolve_of starts l)) = dcf l
            /\ Reader_ (snd (init_segments Resolve_of starts l)) = Reader_ l.
Proof.
  induction starts as [|s rest IH]; intros l; [auto|].
  cbn [init_segments]. unfold bind, get, modify.
  destruct ((pointerSize l =? 0) && _).
  - destruct (ptrSize _); cbn [fail panic out_of_fuel snd]; auto.
    match goal with
    | |- context [init_segments _ rest ?x] =>
      destruct (IH x) as [H1 H2]; rewrite H1, H2; auto
    end.
  - cbn [ret].
    match goal with
    | |- context [init_segments _ rest ?x] =>
      destruct (IH x) as [H1 H2]; rewrite H1, H2; auto
    end.
Qed.

Lemma init_segments_Err_rebases starts :
  forall l e l1,
    fixups_in_paged starts ->
    pointerSize l = 0 -> rebases l = ∅ ->
    init_segments Resolve_of starts l = (Err e, l1) ->
    rebases l1 = ∅.
Proof.
  induction starts as [|s rest IH]; intros l e l1 Hp Hl Hr; [discriminate|].
  inversion Hp as [|? ? Hs Hrest]; subst.
  cbn [init_segments]. unfold bind at 1, get. unfold bind at 1.
  rewrite Hl. cbn [Z.eqb andb].
  destruct (Z.ltb_spec 0 (PageCount (InSegment s))) as [Hpc|Hpc].
  - destruct (ptrSize (PointerFormat (InSegment s))) as [sz| | |] eqn:Esz;
      try discriminate.
    + unfold modify at 1. unfold bind at 1, modify.
      set (l2 := set_rebases _ _).
      assert (Hsz : pointerSize l2 <> 0).
      { unfold l2. cbn. destruct (ptrSize_values _ _ Esz); lia. }
      destruct (init_segments_sized rest l2 Hsz) as (l3 & E & _).
      rewrite E. discriminate.
    + intros [= <- <-]. exact Hr.
  - unfold ret at 1. unfold bind at 1, modify.
    assert (Hf : Fixups s = []).
    { destruct (Fixups s) as [|f fs] eqn:Ef; [reflexivity|].
      exfalso. assert (0 < PageCount (InSegment s)) by (apply Hs; discriminate).
      lia. }
    rewrite Hf. cbn [init_fixups]. apply IH; auto.
Qed.

Lemma init_Err_shape fuel l e l1 d0 ge :
  pointerSize l = 0 -> rebases l = ∅ ->
  GetDyldchainFixups l = (Some d0, ge) -> Starts d0 = None ->
  init Resolve_of fuel l = (Err e, l1) ->
  rebases l1 = ∅ /\ is_Some (dcf l1) /\ Reader_ l1 = Reader_ l.
Proof.
  intros Hl Hr Hget Hd0. unfold init. unfold bind at 1, get.
  unfold bind at 1, modify. rewrite Hget. cbn [fst snd].
  destruct ge as [e'|].
  { intros [= <- <-]. cbn. eauto. }
  assert (Hok := Parse_starts_ok fuel d0 (or_introl Hd0)).
  destruct (Parse fuel d0) as [o d1]. cbn [fst snd] in Hok.
  unfold bind at 1, modify.
  destruct o as [[]| | |]; try discriminate.
  2:{ intros [= <- <-]. cbn. eauto. }
  specialize (Hok eq_refl).
  unfold bind at 1. unfold bind at 1. unfold bind at 1.
  set (l0 := set_baseAddr _ (set_rebases ∅ _)).
  assert (Hfr := init_segments_frame (Starts_list d1) l0).
  destruct (init_segments Resolve_of (Starts_list d1) l0) as [o2 l2] eqn:E2.
  cbn [snd] in Hfr. destruct Hfr as [Hd2 HR2].
  destruct o2 as [[]| | |]; try discriminate.
  - assert (Hl0 : (pointerSize l0 = 0 /\ rebases l0 = ∅)
                  \/ pointerSize l0 = 4 \/ pointerSize l0 = 8)
      by (left; split; [exact Hl|reflexivity]).
    destruct (init_segments_sizes Resolve_of _ l0 l2
                (starts_ok_fixups_in_paged _ Hok) Hl0 E2) as [Hsz _].
    unfold bind, get.
    destruct (Z.eqb_spec (pointerSize l2) 8); [discriminate|].
    destruct (Z.eqb_spec (pointerSize l2) 4); [discriminate|].
    destruct (Z.eqb_spec (pointerSize l2) 0); [discriminate|].
    exfalso. destruct Hsz as [[? _]|[?|?]]; contradiction.
  - intros [= <- <-].
    split; [|split; [rewrite Hd2; cbn; eauto|rewrite HR2; reflexivity]].
    eapply init_segments_Err_rebases; [| | |exact E2];
      [apply starts_ok_fixups_in_paged; exact Hok|exact Hl|reflexivity].
Qed.

(** A failed initialisation is not tried again.  [init] stores the fixups
    it retrieved before it parses them, and [ReadAt] initialises only
    while none is stored: when the first [ReadAt] of a new reader fails in
    [init] (a parse error, say) although fixups were retrieved, every later
    [ReadAt] returns what the underlying reader returns, with no byte
    rebased and no error of its own. *)
Theorem failed_init_is_not_retried fuel l e l1 d0 ge :
  dcf l = None -> pointerSize l = 0 -> rebases l = ∅ ->
  GetDyldchainFixups l = (Some d0, ge) -> Starts d0 = None ->
  ReadAt_init Resolve_of fuel l = (Err e, l1) ->
  forall fuel' order p off,
    range_order (rebases l1) order ->
    ReadAt Resolve_of fuel' order p off l1
    = (ReadRet (snd (fst (underlying_ReadAt (Reader_ l) p off)))
               (snd (underlying_ReadAt (Reader_ l) p off))
               (fst (fst (underlying_ReadAt (Reader_ l) p off))), l1).
Proof.
  intros Hdcf Hl Hr Hget Hd0 Hinit fuel' order p off Horder.
  unfold ReadAt_init, bind, get in Hinit. rewrite Hdcf in Hinit.
  destruct (init_Err_shape fuel l e l1 d0 ge Hl Hr Hget Hd0 Hinit)
    as (Hr1 & [d1 Hd1] & HR1).
  unfold ReadAt, ReadAt_init, bind, get. rewrite Hd1. cbn [ret].
  rewrite HR1.
  destruct (underlying_ReadAt (Reader_ l) p off) as [[p1 n] err].
  cbn [fst snd]. destruct err as [e'|]; [reflexivity|].
  unfold range_order in Horder. rewrite Hr1, map_to_list_empty in Horder.
  apply Permutation_nil_r in Horder. subst order. reflexivity.
Qed.

End InitPointerSize.

Lemma init_pointer_size_of_first_paged_segment_witness :
  ptrSize (PointerFormat (InSegment seg_S1_parsed))
    = Ok (pointerSize (snd (init Resolve_raw 10 lrr_S1)))
  /\ codec_matches (snd (init Resolve_raw 10 lrr_S1)).
Proof.
  apply (init_pointer_size_of_first_paged_segment Resolve_raw 10 lrr_S1
           (snd (init Resolve_raw 10 lrr_S1))
           (snd (Parse 10 (NewChainedFixups payload_S1 image_S1 LittleEndian)))
           [] seg_S1_parsed []).
  - reflexivity.
  - vm_compute. reflexivity.
  - vm_compute. reflexivity.
  - vm_compute. reflexivity.
  - constructor.
  - vm_compute. reflexivity.
Defined.

Lemma failed_init_is_not_retried_witness :
  ReadAt Resolve_raw 0 [] (make_bytes 8) 4096
         (snd (ReadAt_init Resolve_raw 10 lrr_empty_payload))
  = (ReadRet (snd (fst (underlying_ReadAt (Reader_ lrr_empty_payload)
                                          (make_bytes 8) 4096)))
             (snd (underlying_ReadAt (Reader_ lrr_empty_payload) (make_bytes 8) 4096))
             (fst (fst (underlying_ReadAt (Reader_ lrr_empty_payload)
                                          (make_bytes 8) 4096))),
     snd (ReadAt_init Resolve_raw 10 lrr_empty_payload)).
Proof.
  apply (failed_init_is_not_retried Resolve_raw 10 lrr_empty_payload
           (ErrCannotParseFixups EOF)
           (snd (ReadAt_init Resolve_raw 10 lrr_empty_payload))
           (NewChainedFixups [] image_S1 LittleEndian) None).
  - reflexivity.
  - reflexivity.
  - reflexivity.
  - reflexivity.
  - reflexivity.
  - vm_compute. reflexivity.
  - vm_compute. reflexivity.
Defined.

(* --------------------------------------------------------------------- *)
(** ** The bytes that [patchReadBytes] compares and replaces              *)
(* --------------------------------------------------------------------- *)

Lemma uint64_small x : 0 <= x < 2 ^ 64 -> uint64 x = x.
Proof. intros H. apply Z.mod_small. exact H. Qed.

Lemma writePointer_exact l buf x :
  codec_matches l -> length buf = Z.to_nat (pointerSize l) ->
  writePointer (bo_of l) (pointerCodec l) buf x
  = Ok (bo_put (bo_of l) (Z.to_nat (pointerSize l)) x).
Proof.
  intros [[Hp Hc]|[Hp Hc]] Hb; unfold writePointer; rewrite Hc;
    cbn [codec_width]; rewrite Hb, Hp; cbn [Z.to_nat Pos.to_nat Pos.iter_op Nat.add];
    rewrite Nat.ltb_irrefl;
    rewrite drop_ge by (rewrite Hb, Hp; cbn; lia);
    rewrite app_nil_r; reflexivity.
Qed.

Lemma subslice_window arr lo hi :
  0 <= lo <= hi -> hi <= Z.of_nat (length arr) ->
  subslice arr lo hi = Ok (take (Z.to_nat (hi - lo)) (drop (Z.to_nat lo) arr)).
Proof.
  intros H1 H2. unfold subslice.
  destruct (Z.leb_spec lo hi); [|lia].
  destruct (Z.leb_spec hi (Z.of_nat (length arr))); [|lia].
  reflexivity.
Qed.

(** One rebase whose slot meets the read without containing it strictly:
    the bytes compared with the raw word, and replaced when they agree,
    are those of the intersection [[lo, hi)] of the read and the slot. *)
Lemma patch_one_window l off rOff rb p buf :
  codec_matches l ->
  length buf = Z.to_nat (pointerSize l) ->
  (s_len p <= length (s_arr p))%nat ->
  0 <= off -> off + Z.of_nat (s_len p) < 2 ^ 64 ->
  0 <= rOff -> rOff + pointerSize l < 2 ^ 64 ->
  off <= rOff + pointerSize l -> rOff <= off + Z.of_nat (s_len p) ->
  off <= rOff \/ rOff + pointerSize l <= off + Z.of_nat (s_len p) ->
  let lo := Z.max off rOff in
  let hi := Z.min (off + Z.of_nat (s_len p)) (rOff + pointerSize l) in
  let n := Z.to_nat (hi - lo) in
  let w := Z.to_nat (pointerSize l) in
  let expected :=
    take n (drop (Z.to_nat (lo - rOff)) (bo_put (bo_of l) w (Raw rb))) in
  let found := take n (drop (Z.to_nat (lo - off)) (s_arr p)) in
  let resolved := bo_put (bo_of l) w (Resolve rb (baseAddr l)) in
  patch_one l off (uint64 (off + Z.of_nat (s_len p))) rOff rb (p, buf)
  = if bool_decide (expected = found)
    then (Ok tt,
          (mkSlice (take (Z.to_nat (lo - off)) (s_arr p)
                    ++ take n (drop (Z.to_nat (lo - rOff)) resolved)
                    ++ drop (Z.to_nat (hi - off)) (s_arr p)) (s_len p),
           resolved))
    else (Err (ErrUnderlyingMismatch rOff found expected),
          (p, bo_put (bo_of l) w (Raw rb))).
Proof.
  intros Hc Hb Hcap Hoff Hmax Hr Hend Hm1 Hm2 Hcase.
  assert (Hps : pointerSize l = 8 \/ pointerSize l = 4)
    by (destruct Hc as [[? _]|[? _]]; auto).
  intros lo hi n w expected found resolved.
  assert (Hraw : length (bo_put (bo_of l) (Z.to_nat (pointerSize l)) (Raw rb))
                 = Z.to_nat (pointerSize l)) by apply bo_put_length.
  assert (Hres : length resolved = w) by apply bo_put_length.
  unfold patch_one. cbv beta iota zeta.
  rewrite (writePointer_exact l buf (Raw rb) Hc Hb). cbv beta iota.
  rewrite (writePointer_exact l _ (Resolve rb (baseAddr l)) Hc Hraw).
  cbv beta iota.
  change (bo_put (bo_of l) (Z.to_nat (pointerSize l)) (Resolve rb (baseAddr l)))
    with resolved.
  change (Z.to_nat (pointerSize l)) with w.
  set (ps := pointerSize l) in *. set (len := Z.of_nat (s_len p)) in *.
  assert (Hw : Z.of_nat w = ps) by (unfold w; lia).
  rewrite (uint64_small (rOff + ps)) by lia.
  rewrite (uint64_small (off + len)) by lia.
  destruct (Z.ltb_spec (rOff + ps) off) as [|_]; [lia|].
  destruct (Z.ltb_spec (off + len) rOff) as [|_]; [lia|].
  cbn [orb].
  assert (Hwin :
    let dstOff := if rOff <? off then 0 else uint64 (rOff - off) in
    let srcOff := if rOff <? off then uint64 (off - rOff) else 0 in
    let dstSize1 := if rOff <? off then uint64 (ps - srcOff) else ps in
    let dstSize :=
      if off + len <? uint64 (rOff + dstSize1)
      then uint64 (dstSize1 - uint64 (uint64 (rOff + dstSize1) - (off + len)))
      else dstSize1 in
    dstOff = lo - off /\ srcOff = lo - rOff /\ dstSize = hi - lo).
  { unfold lo, hi. destruct (Z.ltb_spec rOff off) as [Hlt|Hge]; cbn zeta.
    - assert (Hin : rOff + ps <= off + len) by lia.
      rewrite (uint64_small (off - rOff)) by lia.
      rewrite (uint64_small (ps - (off - rOff))) by lia.
      rewrite (uint64_small (rOff + (ps - (off - rOff)))) by lia.
      destruct (Z.ltb_spec (off + len) (rOff + (ps - (off - rOff)))); lia.
    - rewrite (uint64_small (rOff - off)) by lia.
      rewrite (uint64_small (rOff + ps)) by lia.
      destruct (Z.ltb_spec (off + len) (rOff + ps)).
      + rewrite (uint64_small (rOff + ps - (off + len))) by lia.
        rewrite (uint64_small (ps - (rOff + ps - (off + len)))) by lia. lia.
      + lia. }
  cbn zeta in Hwin. destruct Hwin as (-> & -> & ->).
  assert (Hlo : off <= lo /\ rOff <= lo /\ lo <= hi
                /\ hi <= off + len /\ hi <= rOff + ps) by (unfold lo, hi; lia).
  rewrite (uint64_small (lo - rOff + (hi - lo))) by lia.
  rewrite (uint64_small (lo - off + (hi - lo))) by lia.
  rewrite (subslice_window (bo_put (bo_of l) w (Raw rb)))
    by (rewrite ?bo_put_length; lia).
  rewrite (subslice_window (s_arr p)) by lia.
  replace (lo - rOff + (hi - lo) - (lo - rOff)) with (hi - lo) by lia.
  replace (lo - off + (hi - lo) - (lo - off)) with (hi - lo) by lia.
  fold n expected found.
  destruct (bool_decide (expected = found)); cbn [negb]; [|reflexivity].
  rewrite (subslice_window resolved) by (rewrite ?Hres; lia).
  unfold copy_into. do 3 f_equal.
  rewrite (take_ge (drop _ resolved)) by (rewrite length_drop, Hres; lia).
  rewrite length_drop, Hres.
  replace (n `min` (w - Z.to_nat (lo - rOff)))%nat with n by (unfold n; lia).
  replace (Z.to_nat (lo - off) + n)%nat with (Z.to_nat (hi - off))
    by (unfold n; lia).
  reflexivity.
Qed.

Lemma patch_loop_app l off max o1 o2 s :
  patch_loop l off max (o1 ++ o2) s
  = bind (patch_loop l off max o1) (fun _ => patch_loop l off max o2) s.
Proof.
  revert s. induction o1 as [|[rOff rb] o1 IH]; intros s; [reflexivity|].
  cbn [app patch_loop]. unfold bind.
  destruct (patch_one l off max rOff rb s) as [[[]| | |] s1]; try reflexivity.
  rewrite IH. reflexivity.
Qed.

Lemma patch_loop_outside l off max p :
  codec_matches l ->
  (s_len p <= length (s_arr p))%nat ->
  Z.of_nat (s_len p) < 2 ^ 62 ->
  0 <= off < 2 ^ 64 ->
  max = uint64 (off + Z.of_nat (s_len p)) ->
  forall order buf,
    length buf = Z.to_nat (pointerSize l) ->
    Forall (fun e => 0 <= fst e < 2 ^ 64
                     /\ (fst e + pointerSize l <= off
                         \/ off + Z.of_nat (s_len p) <= fst e)) order ->
    exists buf', patch_loop l off max order (p, buf) = (Ok tt, (p, buf'))
                 /\ length buf' = Z.to_nat (pointerSize l).
Proof.
  intros Hc Hcap Hlen Hoff Hmax.
  induction order as [|[rOff rb] rest IH]; intros buf Hb Hall.
  - exists buf. auto.
  - inversion Hall as [|? ? [Hr Hd] Hrest]; subst. cbn [fst] in *.
    destruct (patch_one_disjoint l off _ rOff rb p buf Hc Hb Hcap Hlen Hoff
                eq_refl Hr Hd) as (buf1 & E1 & Hb1).
    destruct (IH buf1 Hb1 Hrest) as (buf2 & E2 & Hb2).
    exists buf2. cbn [patch_loop]. unfold bind. rewrite E1. auto.
Qed.

(** The entries of the map other than the one at [rOff], as any order of
    the [range] meets them: before and after that entry. *)
Lemma range_order_split m order rOff rb (P : Z -> Prop) :
  range_order m order ->
  m !! rOff = Some rb ->
  (forall k v, m !! k = Some v -> k <> rOff -> P k) ->
  exists pre post,
    order = pre ++ (rOff, rb) :: post
    /\ Forall (fun e => P (fst e)) pre /\ Forall (fun e => P (fst e)) post.
Proof.
  unfold range_order. intros Hperm Hin HP.
  assert (Hmem : forall e, e ∈ order -> m !! fst e = Some (snd e)).
  { intros [k v] He. rewrite Hperm in He. apply elem_of_map_to_list in He. exact He. }
  assert (Hnd : NoDup (order.*1)).
  { rewrite Hperm. apply NoDup_fst_map_to_list. }
  assert (He : (rOff, rb) ∈ order).
  { rewrite Hperm. apply elem_of_map_to_list. exact Hin. }
  apply list_elem_of_split in He. destruct He as (pre & post & ->).
  exists pre, post. split; [reflexivity|].
  rewrite fmap_app, fmap_cons in Hnd. cbn [fst] in Hnd.
  apply NoDup_app in Hnd. destruct Hnd as (_ & Hpre & Hpost).
  apply NoDup_cons in Hpost. destruct Hpost as [Hpost _].
  split; apply Forall_forall; intros e He.
  - apply (HP (fst e) (snd e)).
    + apply Hmem. apply elem_of_app. left. exact He.
    + intros Heq. apply (Hpre (fst e)).
      * apply list_elem_of_fmap_2. exact He.
      * rewrite Heq. left.
  - apply (HP (fst e) (snd e)).
    + apply Hmem. apply elem_of_app. right. right. exact He.
    + intros Heq. apply Hpost. rewrite <- Heq.
      apply list_elem_of_fmap_2. exact He.
Qed.

(** The loop of [patchReadBytes] when one rebase meets the read (not
    containing it strictly) and the others lie outside. *)
Lemma patch_loop_one_meets l off p rOff rb pre post buf :
  codec_matches l ->
  length buf = Z.to_nat (pointerSize l) ->
  (s_len p <= length (s_arr p))%nat ->
  0 <= off -> off + Z.of_nat (s_len p) < 2 ^ 62 ->
  0 <= rOff ->
  off <= rOff + pointerSize l -> rOff <= off + Z.of_nat (s_len p) ->
  off <= rOff \/ rOff + pointerSize l <= off + Z.of_nat (s_len p) ->
  Forall (fun e => 0 <= fst e < 2 ^ 64
                   /\ (fst e + pointerSize l <= off
                       \/ off + Z.of_nat (s_len p) <= fst e)) pre ->
  Forall (fun e => 0 <= fst e < 2 ^ 64
                   /\ (fst e + pointerSize l <= off
                       \/ off + Z.of_nat (s_len p) <= fst e)) post ->
  let lo := Z.max off rOff in
  let hi := Z.min (off + Z.of_nat (s_len p)) (rOff + pointerSize l) in
  let n := Z.to_nat (hi - lo) in
  let w := Z.to_nat (pointerSize l) in
  let expected :=
    take n (drop (Z.to_nat (lo - rOff)) (bo_put (bo_of l) w (Raw rb))) in
  let found := take n (drop (Z.to_nat (lo - off)) (s_arr p)) in
  let resolved := bo_put (bo_of l) w (Resolve rb (baseAddr l)) in
  exists buf',
    patch_loop l off (uint64 (off + Z.of_nat (s_len p)))
               (pre ++ (rOff, rb) :: post) (p, buf)
    = if bool_decide (expected = found)
      then (Ok tt,
            (mkSlice (take (Z.to_nat (lo - off)) (s_arr p)
                      ++ take n (drop (Z.to_nat (lo - rOff)) resolved)
                      ++ drop (Z.to_nat (hi - off)) (s_arr p)) (s_len p),
             buf'))
      else (Err (ErrUnderlyingMismatch rOff found expected), (p, buf')).
Proof.
  intros Hc Hb Hcap Hoff Hmax Hr Hm1 Hm2 Hcase Hpre Hpost.
  assert (Hps : pointerSize l = 8 \/ pointerSize l = 4)
    by (destruct Hc as [[? _]|[? _]]; auto).
  intros lo hi n w expected found resolved.
  destruct (patch_loop_outside l off _ p Hc Hcap ltac:(lia) ltac:(lia) eq_refl
              pre buf Hb Hpre) as (buf1 & E1 & Hb1).
  rewrite patch_loop_app. unfold bind at 1. rewrite E1.
  cbn [patch_loop]. unfold bind at 1.
  rewrite (patch_one_window l off rOff rb p buf1 Hc Hb1 Hcap Hoff ltac:(lia) Hr
             ltac:(lia) Hm1 Hm2 Hcase).
  fold lo hi n w expected found resolved.
  destruct (bool_decide (expected = found)); [|eauto].
  set (p' := mkSlice _ (s_len p)).
  assert (Hlo : off <= lo /\ rOff <= lo /\ lo <= hi
                /\ hi <= off + Z.of_nat (s_len p) /\ hi <= rOff + pointerSize l)
    by (unfold lo, hi; lia).
  assert (Hres : length resolved = w) by apply bo_put_length.
  assert (Hcap' : (s_len p' <= length (s_arr p'))%nat).
  { unfold p'. cbn [s_len s_arr].
    rewrite !length_app, length_take, length_take, !length_drop, Hres.
    assert (H1 : (Z.to_nat (lo - off) <= length (s_arr p))%nat) by lia.
    assert (H2 : (n <= w - Z.to_nat (lo - rOff))%nat) by (unfold n, w; lia).
    assert (H3 : (Z.to_nat (hi - off) = Z.to_nat (lo - off) + n)%nat)
      by (unfold n; lia).
    rewrite (Nat.min_l _ _ H1), (Nat.min_l _ _ H2), H3.
    clear - Hcap H1. lia. }
  destruct (patch_loop_outside l off _ p' Hc Hcap' ltac:(cbn; lia)
              ltac:(lia) eq_refl post resolved Hres Hpost) as (buf2 & E2 & _).
  exists buf2. exact E2.
Qed.

(** A read that meets the slot of one recorded rebase, without lying
    strictly inside it (it covers the slot, or it runs over one of the
    slot's ends), while every other rebase lies outside the read: in
    whatever order the map is visited, [patchReadBytes] compares the bytes
    of the intersection [[lo, hi)] of the read and the slot with the same
    bytes of the encoding of the raw word; when they differ it returns the
    mismatch error with the slot's offset and the two byte strings and
    leaves the buffer alone, and when they agree it replaces exactly these
    bytes by the same bytes of the encoding of the resolved value. *)
Theorem patchReadBytes_patches_the_intersection l order p off rOff rb :
  codec_matches l ->
  range_order (rebases l) order ->
  (s_len p <= length (s_arr p))%nat ->
  0 <= off -> off + Z.of_nat (s_len p) < 2 ^ 62 ->
  rebases l !! rOff = Some rb ->
  0 <= rOff ->
  off <= rOff + pointerSize l -> rOff <= off + Z.of_nat (s_len p) ->
  off <= rOff \/ rOff + pointerSize l <= off + Z.of_nat (s_len p) ->
  (forall rOff' rb',
     rebases l !! rOff' = Some rb' -> rOff' <> rOff ->
     0 <= rOff' < 2 ^ 64
     /\ (rOff' + pointerSize l <= off
         \/ off + Z.of_nat (s_len p) <= rOff')) ->
  let lo := Z.max off rOff in
  let hi := Z.min (off + Z.of_nat (s_len p)) (rOff + pointerSize l) in
  let n := Z.to_nat (hi - lo) in
  let w := Z.to_nat (pointerSize l) in
  let expected :=
    take n (drop (Z.to_nat (lo - rOff)) (bo_put (bo_of l) w (Raw rb))) in
  let found := take n (drop (Z.to_nat (lo - off)) (s_arr p)) in
  let resolved := bo_put (bo_of l) w (Resolve rb (baseAddr l)) in
  patchReadBytes l order off p
  = if bool_decide (expected = found)
    then (Ok tt,
          mkSlice (take (Z.to_nat (lo - off)) (s_arr p)
                   ++ take n (drop (Z.to_nat (lo - rOff)) resolved)
                   ++ drop (Z.to_nat (hi - off)) (s_arr p)) (s_len p))
    else (Err (ErrUnderlyingMismatch rOff found expected), p).
Proof.
  intros Hc Horder Hcap Hoff Hmax Hin Hr Hm1 Hm2 Hcase Hothers.
  intros lo hi n w expected found resolved.
  destruct (range_order_split (rebases l) order rOff rb _ Horder Hin Hothers)
    as (pre & post & -> & Hpre & Hpost).
  unfold patchReadBytes.
  destruct (patch_loop_one_meets l off p rOff rb pre post
              (repeat x00 (Z.to_nat (pointerSize l))) Hc
              (repeat_length _ _) Hcap Hoff Hmax Hr Hm1 Hm2 Hcase Hpre Hpost)
    as (buf' & E).
  rewrite E. fold lo hi n w expected found resolved.
  destruct (bool_decide (expected = found)); reflexivity.
Qed.

Lemma patchReadBytes_patches_the_intersection_witness :
  let l := lrr_overlay in
  let p := mkSlice (take 8 (drop 4 image_overlay)) 8 in
  let off := 4 in
  let rOff := 0 in
  let rb := rebase_overlay in
  let lo := Z.max off rOff in
  let hi := Z.min (off + Z.of_nat (s_len p)) (rOff + pointerSize l) in
  let n := Z.to_nat (hi - lo) in
  let w := Z.to_nat (pointerSize l) in
  let expected :=
    take n (drop (Z.to_nat (lo - rOff)) (bo_put (bo_of l) w (Raw rb))) in
  let found := take n (drop (Z.to_nat (lo - off)) (s_arr p)) in
  let resolved := bo_put (bo_of l) w (Resolve rb (baseAddr l)) in
  patchReadBytes l [(0, rebase_overlay)] off p
  = if bool_decide (expected = found)
    then (Ok tt,
          mkSlice (take (Z.to_nat (lo - off)) (s_arr p)
                   ++ take n (drop (Z.to_nat (lo - rOff)) resolved)
                   ++ drop (Z.to_nat (hi - off)) (s_arr p)) (s_len p))
    else (Err (ErrUnderlyingMismatch rOff found expected), p).
Proof.
  apply (patchReadBytes_patches_the_intersection lrr_overlay
           [(0, rebase_overlay)] (mkSlice (take 8 (drop 4 image_overlay)) 8)
           4 0 rebase_overlay).
  - left. split; reflexivity.
  - exact range_order_overlay.
  - cbn. lia.
  - lia.
  - cbn. lia.
  - reflexivity.
  - lia.
  - cbn. lia.
  - cbn. lia.
  - right. cbn. lia.
  - intros rOff' rb' H Hne. cbn [rebases lrr_overlay] in H.
    apply lookup_singleton_Some in H. destruct H as [<- _]. contradiction.
Defined.

(** Reading a pointer through the reader.  On an initialised reader, a
    [ReadAt] of exactly the slot of a recorded rebase (the buffer has the
    pointer size, the offset is the slot's, no other slot overlaps it),
    where the underlying reader delivers the encoding of the raw word:
    the call returns the pointer size and no error, and [readPointer] of
    the returned bytes is the rebase resolved against the base address
    (reduced to the pointer width), not the raw word of the file. *)
Theorem ReadAt_of_a_slot_yields_the_resolved_pointer
    Resolve_of fuel order l rOff rb p :
  is_Some (dcf l) ->
  codec_matches l ->
  range_order (rebases l) order ->
  rebases l !! rOff = Some rb ->
  0 <= rOff < 2 ^ 61 ->
  (forall rOff' rb',
     rebases l !! rOff' = Some rb' -> rOff' <> rOff ->
     0 <= rOff' < 2 ^ 64
     /\ (rOff' + pointerSize l <= rOff \/ rOff + pointerSize l <= rOff')) ->
  s_len p = Z.to_nat (pointerSize l) ->
  (s_len p <= length (s_arr p))%nat ->
  Reader_ l (s_len p) rOff = (bo_put (bo_of l) (s_len p) (Raw rb), None) ->
  exists p',
    ReadAt Resolve_of fuel order p rOff l = (ReadRet (pointerSize l) None p', l)
    /\ readPointer (bo_of l) (pointerCodec l) (Slice_bytes p')
       = Ok (Resolve rb (baseAddr l) mod 2 ^ (8 * pointerSize l)).
Proof.
  intros [d Hd] Hc Horder Hin Hr Hothers Hlen Hcap Hrd.
  assert (Hps : pointerSize l = 8 \/ pointerSize l = 4)
    by (destruct Hc as [[? _]|[? _]]; auto).
  set (w := Z.to_nat (pointerSize l)) in *.
  assert (Hw : Z.of_nat w = pointerSize l) by (unfold w; lia).
  unfold ReadAt, ReadAt_init, bind, get. rewrite Hd. cbn [ret].
  unfold underlying_ReadAt. rewrite Hrd, Hlen.
  assert (Hraw : length (bo_put (bo_of l) w (Raw rb)) = w) by apply bo_put_length.
  rewrite (take_ge (bo_put (bo_of l) w (Raw rb))) by lia.
  rewrite Hraw, Hw.
  set (p1 := mkSlice (bo_put (bo_of l) w (Raw rb) ++ drop w (s_arr p)) w).
  assert (Hcap1 : (s_len p1 <= length (s_arr p1))%nat).
  { unfold p1. cbn [s_len s_arr]. rewrite length_app, Hraw. lia. }
  assert (Hothers1 : forall rOff' rb',
            rebases l !! rOff' = Some rb' -> rOff' <> rOff ->
            0 <= rOff' < 2 ^ 64
            /\ (rOff' + pointerSize l <= rOff
                \/ rOff + Z.of_nat (s_len p1) <= rOff')).
  { intros rOff' rb' H1 H2. unfold p1. cbn [s_len]. rewrite Hw.
    exact (Hothers rOff' rb' H1 H2). }
  destruct (range_order_split (rebases l) order rOff rb _ Horder Hin Hothers1)
    as (pre & post & -> & Hpre & Hpost).
  unfold patchReadBytes. rewrite (uint64_small rOff) by lia.
  destruct (patch_loop_one_meets l rOff p1 rOff rb pre post
              (repeat x00 (Z.to_nat (pointerSize l))) Hc
              (repeat_length _ _) Hcap1 ltac:(lia)
              ltac:(unfold p1; cbn [s_len]; lia) ltac:(lia) ltac:(lia)
              ltac:(lia) ltac:(left; lia) Hpre Hpost)
    as (buf' & E).
  cbv zeta in E. unfold p1 in E. cbn [s_len s_arr] in E. fold w in E.
  rewrite Z.max_id, Hw, Z.min_id in E.
  rewrite Z.sub_diag in E. change (Z.to_nat 0) with 0%nat in E.
  replace (rOff + pointerSize l - rOff) with (pointerSize l) in E by lia.
  fold w in E. rewrite !drop_0, take_0 in E. cbn [app] in E.
  assert (Hres : length (bo_put (bo_of l) w (Resolve rb (baseAddr l))) = w)
    by apply bo_put_length.
  rewrite ?(take_ge (bo_put (bo_of l) w (Raw rb))) in E by lia.
  rewrite ?(take_ge (bo_put (bo_of l) w (Resolve rb (baseAddr l)))) in E by lia.
  rewrite (take_app_length' (bo_put (bo_of l) w (Raw rb))) in E
    by (symmetry; exact Hraw).
  rewrite bool_decide_eq_true_2 in E by reflexivity.
  unfold p1. cbn [s_len]. rewrite Hw. fold w. rewrite E.
  eexists. split; [reflexivity|].
  unfold Slice_bytes. cbn [s_len s_arr].
  rewrite take_app_length' by (symmetry; exact Hres).
  unfold readPointer.
  destruct Hc as [[Hp ->]|[Hp ->]]; cbn [codec_width];
    rewrite Hres; unfold w; rewrite Hp;
    cbn [Z.to_nat Pos.to_nat Pos.iter_op Nat.add Nat.ltb Nat.leb];
    rewrite take_ge by (rewrite bo_put_length; lia);
    rewrite bo_uint_bo_put; reflexivity.
Qed.

Lemma ReadAt_of_a_slot_yields_the_resolved_pointer_witness :
  exists p',
    ReadAt Resolve_raw 1 [(0, rebase_overlay)] (make_bytes 8) 0 lrr_overlay
    = (ReadRet (pointerSize lrr_overlay) None p', lrr_overlay)
    /\ readPointer (bo_of lrr_overlay) (pointerCodec lrr_overlay) (Slice_bytes p')
       = Ok (Resolve rebase_overlay (baseAddr lrr_overlay)
             mod 2 ^ (8 * pointerSize lrr_overlay)).
Proof.
  apply (ReadAt_of_a_slot_yields_the_resolved_pointer Resolve_raw 1
           [(0, rebase_overlay)] lrr_overlay 0 rebase_overlay (make_bytes 8)).
  - cbn. eauto.
  - left. split; reflexivity.
  - exact range_order_overlay.
  - reflexivity.
  - lia.
  - intros rOff' rb' H Hne. cbn [rebases lrr_overlay] in H.
    apply lookup_singleton_Some in H. destruct H as [<- _]. contradiction.
  - reflexivity.
  - cbn. lia.
  - vm_compute. reflexivity.
Defined.

(* --------------------------------------------------------------------- *)
(** ** [Parse] on short and on arbitrary input                            *)
(* --------------------------------------------------------------------- *)

(** A payload too short to hold the 28-byte header: [Parse] on a receiver
    fresh from [NewChainedFixups] returns the error of the first read,
    [io.EOF] for an empty payload and [io.ErrUnexpectedEOF] for one of 1
    to 27 bytes, and records nothing: [Starts] stays nil and there is no
    import. *)
Theorem Parse_truncated_header fuel lcdat image bo :
  (length lcdat < 28)%nat ->
  fst (Parse fuel (NewChainedFixups lcdat image bo))
  = Err (match lcdat with [] => EOF | _ => ErrUnexpectedEOF end)
  /\ Starts (snd (Parse fuel (NewChainedFixups lcdat image bo))) = None
  /\ Imports (snd (Parse fuel (NewChainedFixups lcdat image bo))) = [].
Proof.
  intros Hlen.
  assert (E : exists x,
            ParseStarts (NewChainedFixups lcdat image bo)
            = (Err (match lcdat with [] => EOF | _ => ErrUnexpectedEOF end),
               set_r x (NewChainedFixups lcdat image bo))).
  { unfold ParseStarts. unfold bind at 1, get.
    unfold bind at 1, r_Read, on_r, Reader_ReadFull.
    cbn [r NewChainedFixups rd_pos rd_data].
    change (Z.to_nat 0) with 0%nat. rewrite drop_0.
    destruct lcdat as [|b rest]; [eexists; reflexivity|].
    destruct (Nat.ltb_spec (length (b :: rest)) 28); [eexists; reflexivity|lia]. }
  destruct E as [x E].
  assert (EP : Parse fuel (NewChainedFixups lcdat image bo)
               = (Err (match lcdat with [] => EOF | _ => ErrUnexpectedEOF end),
                  set_r x (NewChainedFixups lcdat image bo))).
  { unfold Parse. unfold bind at 1, get. unfold bind at 1.
    change (Starts (NewChainedFixups lcdat image bo))
      with (@None (list DyldChainedStarts)).
    cbv iota. rewrite E. reflexivity. }
  rewrite EP. auto.
Qed.

Lemma Parse_truncated_header_witness :
  fst (Parse 0 (NewChainedFixups (u32le 0 ++ u32le 28) image_S1 BigEndian))
  = Err (match u32le 0 ++ u32le 28 with [] => EOF | _ => ErrUnexpectedEOF end)
  /\ Starts (snd (Parse 0 (NewChainedFixups (u32le 0 ++ u32le 28) image_S1
                                            BigEndian))) = None
  /\ Imports (snd (Parse 0 (NewChainedFixups (u32le 0 ++ u32le 28) image_S1
                                             BigEndian))) = [].
Proof.
  apply (Parse_truncated_header 0 (u32le 0 ++ u32le 28) image_S1 BigEndian).
  cbn. lia.
Defined.

(** [Parse] has no endless loop.  Whatever the payload and the image (of
    fewer than 2^62 bytes) hold, the chain walks and the loop over the
    overflow entries come to an end, be it by a return, by an error or by a
    run-time panic: no setting of the [next] fields keeps a walk going,
    since every slot read moves on in the image and a read past its end
    fails.  In the model, fuel from twice the image size plus 2^16 on is
    never used up, and the result is the same for every such fuel.
    (Allocation is not part of the model; a [make] that the run time
    refuses ends the call as well.) *)
Theorem Parse_loops_always_end lcdat image bo :
  Z.of_nat (length image) < 2 ^ 62 ->
  exists o d',
    o <> OutOfFuel
    /\ forall fuel,
         2 * Z.of_nat (length image) + 65536 <= Z.of_nat fuel ->
         Parse fuel (NewChainedFixups lcdat image bo) = (o, d').
Proof.
  intros Hsize.
  set (n := Z.to_nat (2 * Z.of_nat (length image) + 65536)).
  assert (Hn : fst (Parse n (NewChainedFixups lcdat image bo)) <> OutOfFuel)
    by (apply Parse_new_total; [exact Hsize|unfold n; lia]).
  destruct (Parse n (NewChainedFixups lcdat image bo)) as [o d'] eqn:E.
  exists o, d'. split; [exact Hn|]. intros fuel Hfuel.
  rewrite <- E. apply Parse_more_fuel; [unfold n; lia|].
  rewrite E. exact Hn.
Qed.

Lemma Parse_loops_always_end_witness :
  exists o d',
    o <> OutOfFuel
    /\ forall fuel,
         2 * Z.of_nat (length image_escape) + 65536 <= Z.of_nat fuel ->
         Parse fuel (NewChainedFixups payload_escape image_escape LittleEndian)
         = (o, d').
Proof.
  apply (Parse_loops_always_end payload_escape image_escape LittleEndian).
  vm_compute. reflexivity.
Defined.

(* --------------------------------------------------------------------- *)
(** ** How a chain walk and the overflow loop fail                        *)
(* --------------------------------------------------------------------- *)

(** A segment whose pointer format is none of the known ones: the walk of
    a chain in it returns the unknown-pointer-format error with the raw
    format, after the seek to the chain head and before any slot is read;
    no record is appended. *)
Theorem walkDcFixupChain_unknown_format fuel segIdx pageIndex offsetInPage d s :
  Starts_list d !! segIdx = Some s ->
  DCPtrKind_of (PointerFormat (InSegment s)) = None ->
  walkDcFixupChain (S fuel) segIdx pageIndex offsetInPage d
  = (Err (ErrUnknownPointerFormat (PointerFormat (InSegment s))),
     set_sr (Reader_Seek (int64 (chain_head s pageIndex offsetInPage)) (sr d)) d).
Proof.
  intros Hs Hk. unfold walkDcFixupChain, bind.
  rewrite (Starts_at_Some _ _ _ Hs). cbn [walk_loop].
  unfold bind, sr_Seek, modify.
  rewrite (Starts_at_Some segIdx _ s) by exact Hs.
  rewrite Hk. unfold chain_head. rewrite Z.add_0_r. reflexivity.
Qed.

Lemma walkDcFixupChain_unknown_format_witness :
  walkDcFixupChain 1 0 0 2
    (set_Starts (Some [set_InSegment (mkStartsInSegment 8 0x1000 13 0 0 1)
                                        seg_escape]) dcf_escape)
  = (Err (ErrUnknownPointerFormat 13),
     set_sr (Reader_Seek (int64 2) (mkReader image_escape 0))
            (set_Starts (Some [set_InSegment (mkStartsInSegment 8 0x1000 13 0 0 1)
                                             seg_escape]) dcf_escape)).
Proof.
  apply (walkDcFixupChain_unknown_format 0 0 0 2
           (set_Starts (Some [set_InSegment (mkStartsInSegment 8 0x1000 13 0 0 1)
                                            seg_escape]) dcf_escape)
           (set_InSegment (mkStartsInSegment 8 0x1000 13 0 0 1) seg_escape));
    reflexivity.
Defined.

Lemma slot_width_pos' k : (0 < slot_width k)%nat.
Proof. destruct k; cbn; lia. Qed.

Lemma read_slot_short w d :
  (0 < w)%nat ->
  0 <= rd_pos (sr d) ->
  Reader_Size (sr d) < rd_pos (sr d) + Z.of_nat w ->
  exists x,
    read_slot w d
    = (Err (if Reader_Size (sr d) <=? rd_pos (sr d) then EOF
            else ErrUnexpectedEOF), set_sr x d).
Proof.
  intros Hw Hpos Hshort. unfold read_slot, bind, get, on_sr, Reader_ReadFull.
  destruct w as [|w]; [lia|].
  unfold Reader_Size in *.
  destruct (drop (Z.to_nat (rd_pos (sr d))) (rd_data (sr d))) as [|b rest] eqn:Ed.
  - apply (f_equal length) in Ed. rewrite length_drop in Ed. cbn in Ed.
    destruct (Z.leb_spec (Z.of_nat (length (rd_data (sr d)))) (rd_pos (sr d)));
      [eauto|lia].
  - apply (f_equal length) in Ed. rewrite length_drop in Ed. cbn [length] in Ed.
    destruct (Z.leb_spec (Z.of_nat (length (rd_data (sr d)))) (rd_pos (sr d)));
      [lia|].
    destruct (Nat.ltb_spec (length (b :: rest)) (S w));
      [eauto|cbn [length] in *; lia].
Qed.

Lemma walk_slot_short segIdx k loc d :
  0 <= rd_pos (sr d) ->
  Reader_Size (sr d) < rd_pos (sr d) + Z.of_nat (slot_width k) ->
  exists x,
    walk_slot segIdx k loc d
    = (Err (if Reader_Size (sr d) <=? rd_pos (sr d) then EOF
            else ErrUnexpectedEOF), set_sr x d).
Proof.
  intros Hpos Hshort.
  destruct (read_slot_short (slot_width k) d (slot_width_pos' k) Hpos Hshort)
    as [x E].
  exists x. destruct k; unfold walk_slot; cbn [slot_width] in E;
    unfold bind at 1; rewrite E; reflexivity.
Qed.

(** A chain head at or beyond the end of the image: the walk returns the
    error of the slot read, [io.EOF] when no byte is left at the head and
    [io.ErrUnexpectedEOF] when fewer bytes are left than the slot has, and
    appends no record.  (The head is below 2^63, so that the seek to it is
    not refused.) *)
Theorem walkDcFixupChain_head_past_the_image
    fuel segIdx pageIndex offsetInPage d s k :
  Starts_list d !! segIdx = Some s ->
  DCPtrKind_of (PointerFormat (InSegment s)) = Some k ->
  chain_head s pageIndex offsetInPage < 2 ^ 63 ->
  Reader_Size (sr d)
    < chain_head s pageIndex offsetInPage + Z.of_nat (slot_width k) ->
  fst (walkDcFixupChain (S fuel) segIdx pageIndex offsetInPage d)
  = Err (if Reader_Size (sr d) <=? chain_head s pageIndex offsetInPage
         then EOF else ErrUnexpectedEOF)
  /\ Starts_list (snd (walkDcFixupChain (S fuel) segIdx pageIndex offsetInPage d))
     = Starts_list d.
Proof.
  intros Hs Hk Hloc Hshort.
  set (loc := chain_head s pageIndex offsetInPage) in *.
  assert (Hl0 : 0 <= loc) by (apply Z.mod_pos_bound; lia).
  assert (Hi : int64 loc = loc).
  { unfold int64. rewrite Z.mod_small by lia.
    destruct (Z.ltb_spec loc (2 ^ 63)); lia. }
  assert (E : exists x,
            walkDcFixupChain (S fuel) segIdx pageIndex offsetInPage d
            = (Err (if Reader_Size (sr d) <=? loc then EOF else ErrUnexpectedEOF),
               set_sr x d)).
  { unfold walkDcFixupChain. unfold bind at 1.
    rewrite (Starts_at_Some _ _ _ Hs). cbn [walk_loop].
    unfold bind at 1, sr_Seek, modify. unfold bind at 1.
    rewrite (Starts_at_Some segIdx _ s) by exact Hs.
    rewrite Hk. rewrite Z.add_0_r. fold (chain_head s pageIndex offsetInPage).
    fold loc. rewrite Hi. unfold Reader_Seek. destruct (Z.ltb_spec loc 0); [lia|].
    set (d1 := set_sr _ d).
    destruct (walk_slot_short segIdx k loc d1) as [x E];
      [exact Hl0|exact Hshort|].
    unfold bind. rewrite E. exists x. reflexivity. }
  destruct E as [x E]. rewrite E. split; reflexivity.
Qed.

Lemma walkDcFixupChain_head_past_the_image_witness :
  fst (walkDcFixupChain 1 0 0 20 dcf_escape)
  = Err (if Reader_Size (sr dcf_escape) <=? chain_head seg_escape 0 20
         then EOF else ErrUnexpectedEOF)
  /\ Starts_list (snd (walkDcFixupChain 1 0 0 20 dcf_escape))
     = Starts_list dcf_escape.
Proof.
  apply (walkDcFixupChain_head_past_the_image 0 0 0 20 dcf_escape seg_escape
           DYLD_CHAINED_PTR_32).
  - reflexivity.
  - reflexivity.
  - vm_compute. reflexivity.
  - vm_compute. reflexivity.
Defined.

Lemma overflow_loop_runs_off wf segIdx pageIndex ps :
  Z.of_nat (length ps) < 65536 ->
  forall rest fuel idx,
    0 <= idx ->
    drop (Z.to_nat idx) ps = rest ->
    Forall (fun e => Z.testbit e 14 = false) rest ->
    (length rest < fuel)%nat ->
    forall d,
      overflow_loop fuel wf segIdx pageIndex ps idx d
      = bind (walk_heads wf segIdx pageIndex
                         (map (fun e => Z.clearbit e 14) rest))
             (fun _ => panic) d.
Proof.
  intros Hlen. induction rest as [|e tl IH]; intros fuel idx Hidx Hd Hall Hfuel d.
  - destruct fuel as [|fuel]; [cbn in Hfuel; lia|].
    cbn [overflow_loop].
    assert (Hlk : ps !! Z.to_nat idx = None).
    { apply lookup_ge_None_2. apply (f_equal length) in Hd.
      rewrite length_drop in Hd. cbn in Hd. lia. }
    rewrite Hlk. reflexivity.
  - destruct fuel as [|fuel]; [cbn in Hfuel; lia|].
    assert (Hlk : ps !! Z.to_nat idx = Some e).
    { rewrite <- (Nat.add_0_r (Z.to_nat idx)), <- lookup_drop, Hd. reflexivity. }
    assert (Htl : drop (Z.to_nat (idx + 1)) ps = tl).
    { rewrite Z2Nat.inj_add by lia. change (Z.to_nat 1) with 1%nat.
      rewrite <- drop_drop, Hd. reflexivity. }
    inversion Hall as [|? ? He Htl']; subst.
    cbn [overflow_loop]. rewrite Hlk.
    rewrite has_bits_LAST, and_not_LAST, He.
    assert (Z.to_nat idx < length ps)%nat by (eapply lookup_lt_Some; eauto).
    pose proof (IH fuel (idx + 1) ltac:(lia) eq_refl Htl'
                  ltac:(cbn in Hfuel; lia)) as IH'.
    cbn [map walk_heads]. unfold bind in *.
    destruct (walkDcFixupChain _ _ _ _ d) as [[[]| | |] d1]; try reflexivity.
    unfold uint16. rewrite Z.mod_small by lia.
    apply IH'.
Qed.

(** A page whose start has the MULTI bit while no entry of [page_starts]
    from its index on has the LAST bit: the loop over the overflow entries
    has no check of the index; it walks the chain of every entry up to the
    end of [page_starts] (unless a walk fails before) and then panics on
    the index expression, so [Parse] does not return normally. *)
Theorem Parse_page_unterminated_overflow_panics fuel segIdx ps pageIndex raw d :
  Z.of_nat (length ps) < 65536 ->
  ps !! Z.to_nat pageIndex = Some raw ->
  0 <= raw < 2 ^ 16 -> raw <> 0xFFFF -> Z.testbit raw 15 = true ->
  Forall (fun e => Z.testbit e 14 = false)
         (drop (Z.to_nat (Z.land raw 0x7FFF)) ps) ->
  (length ps < fuel)%nat ->
  Parse_page fuel segIdx ps pageIndex d
  = bind (walk_heads fuel segIdx pageIndex
            (map (fun e => Z.clearbit e 14)
                 (drop (Z.to_nat (Z.land raw 0x7FFF)) ps)))
         (fun _ => panic) d.
Proof.
  intros Hlen Hlk Hraw Hne Hm Hall Hfuel. unfold Parse_page. rewrite Hlk.
  destruct (Z.eqb_spec raw DYLD_CHAINED_PTR_START_NONE) as [E|_];
    [exfalso; apply Hne; exact E|].
  rewrite has_bits_MULTI, Hm, (and_not_MULTI raw Hraw).
  apply overflow_loop_runs_off;
    [exact Hlen|apply land_7FFF_nonneg; lia|reflexivity|exact Hall|].
  rewrite length_drop. lia.
Qed.

Lemma Parse_page_unterminated_overflow_panics_witness :
  Parse_page 5 0 [0x8001; 0x0010] 0 dcf_S4
  = bind (walk_heads 5 0 0
            (map (fun e => Z.clearbit e 14)
                 (drop (Z.to_nat (Z.land 0x8001 0x7FFF)) [0x8001; 0x0010])))
         (fun _ => panic) dcf_S4.
Proof.
  apply (Parse_page_unterminated_overflow_panics 5 0 [0x8001; 0x0010] 0 0x8001
           dcf_S4).
  - cbn. lia.
  - reflexivity.
  - lia.
  - discriminate.
  - reflexivity.
  - vm_compute. repeat constructor.
  - cbn. lia.
Defined.

(* --------------------------------------------------------------------- *)
(** ** [Parse] only appends                                               *)
(* --------------------------------------------------------------------- *)

Lemma seg_extends_refl s : seg_extends s s.
Proof. repeat split. exists []. rewrite app_nil_r. reflexivity. Qed.

Lemma walk_extends_refl d : Starts d <> None -> walk_extends d d.
Proof.
  intros H. repeat split; auto.
  apply Forall_Forall2_diag, Forall_forall. intros s _. apply seg_extends_refl.
Qed.

Lemma Reader_ReadFull_data n x :
  rd_data (snd (Reader_ReadFull n x)) = rd_data x.
Proof.
  unfold Reader_ReadFull. destruct n; [reflexivity|].
  destruct (drop _ _); [reflexivity|]. destruct (_ <? _)%nat; reflexivity.
Qed.

Lemma Reader_Seek_data off x : rd_data (Reader_Seek off x) = rd_data x.
Proof. unfold Reader_Seek. destruct (off <? 0); reflexivity. Qed.

Lemma walk_extends_sr_Seek d0 off : preserves (walk_extends d0) (sr_Seek off).
Proof.
  intros d (H1 & H2 & H3 & H4 & H5 & H6 & H7). unfold sr_Seek, modify. cbn [snd].
  repeat split; auto. cbn. rewrite Reader_Seek_data. exact H4.
Qed.

Lemma walk_extends_read_slot d0 w : preserves (walk_extends d0) (read_slot w).
Proof.
  intros d (H1 & H2 & H3 & H4 & H5 & H6 & H7).
  unfold read_slot, bind, get, on_sr, ret.
  assert (Hd := Reader_ReadFull_data w (sr d)).
  destruct (Reader_ReadFull w (sr d)) as [[bs| | |] x]; cbn [snd] in *;
    repeat split; auto; cbn; rewrite Hd; exact H4.
Qed.

Lemma walk_extends_append_Fixup d0 i f :
  preserves (walk_extends d0) (append_Fixup i f).
Proof.
  intros d (H1 & H2 & H3 & H4 & H5 & H6 & H7).
  unfold append_Fixup, Starts_update.
  destruct (Starts_list d !! i) as [s|] eqn:Hs; [|repeat split; auto].
  cbn [snd]. split; [exact H1|]. split; [exact H2|]. split; [exact H3|].
  split; [exact H4|]. split; [exact H5|]. split; [discriminate|].
  change (Starts_list (set_Starts _ d))
    with (<[i := set_Fixups (Fixups s ++ [f]) s]> (Starts_list d)).
  destruct (Forall2_lookup_r _ _ _ _ _ H7 Hs) as (s0 & Hs0 & (E1 & E2 & recs & E3)).
  rewrite <- (list_insert_id _ _ _ Hs0).
  apply Forall2_insert; [exact H7|].
  split; [exact E1|]. split; [exact E2|].
  exists (recs ++ [f]). cbn. rewrite E3, <- app_assoc. reflexivity.
Qed.

Lemma walk_extends_append_rebase d0 i k p l :
  preserves (walk_extends d0) (append_rebase i k p l).
Proof. apply walk_extends_append_Fixup. Qed.

Lemma walk_extends_append_bind d0 i k p l :
  preserves (walk_extends d0) (append_bind i k p l).
Proof.
  unfold append_bind. apply preserves_bind; [apply preserves_Imports_Name|].
  intros name. apply walk_extends_append_Fixup.
Qed.

Create HintDb extends.
#[local] Hint Resolve preserves_ret preserves_fail preserves_panic
  preserves_out_of_fuel preserves_Starts_at preserves_Imports_Name
  walk_extends_sr_Seek walk_extends_read_slot walk_extends_append_rebase
  walk_extends_append_bind : extends.

Ltac extends_step :=
  lazymatch goal with
  | |- preserves _ (bind get _) => apply preserves_get; intros
  | |- preserves _ (bind _ _) => apply preserves_bind; [|intros]
  | |- preserves _ (if _ then _ else _) => apply preserves_if
  | |- preserves _ (drop_error _) => apply preserves_drop_error
  | |- preserves _ (match ?x with _ => _ end) => destruct x
  | |- _ => solve [auto with extends nocore]
  end.

Lemma walk_extends_walk_slot d0 i k loc :
  preserves (walk_extends d0) (walk_slot i k loc).
Proof. destruct k; unfold walk_slot; repeat extends_step. Qed.

Lemma walk_extends_walk_loop d0 i pcs off :
  forall fuel next, preserves (walk_extends d0) (walk_loop fuel i pcs off next).
Proof.
  induction fuel as [|fuel IH]; intros next; cbn [walk_loop].
  - auto with extends.
  - repeat extends_step; try first [apply walk_extends_walk_slot|apply IH].
Qed.

Lemma walk_extends_walkDcFixupChain d0 fuel i pi off :
  preserves (walk_extends d0) (walkDcFixupChain fuel i pi off).
Proof.
  unfold walkDcFixupChain. repeat extends_step; try apply walk_extends_walk_loop.
Qed.

Lemma walk_extends_overflow_loop d0 wf i pi ps :
  forall fuel idx, preserves (walk_extends d0) (overflow_loop fuel wf i pi ps idx).
Proof.
  induction fuel as [|fuel IH]; intros idx; cbn [overflow_loop].
  - auto with extends.
  - repeat extends_step;
      try first [apply walk_extends_walkDcFixupChain|apply IH].
Qed.

Lemma walk_extends_Parse_page d0 fuel i ps pi :
  preserves (walk_extends d0) (Parse_page fuel i ps pi).
Proof.
  unfold Parse_page. repeat extends_step;
    try first [apply walk_extends_overflow_loop
              |apply walk_extends_walkDcFixupChain].
Qed.

Lemma walk_extends_Parse_pages d0 fuel i ps :
  forall n pi, preserves (walk_extends d0) (Parse_pages n fuel i ps pi).
Proof.
  induction n as [|n IH]; intros pi; cbn [Parse_pages].
  - auto with extends.
  - repeat extends_step; try first [apply walk_extends_Parse_page|apply IH].
Qed.

Lemma walk_extends_Parse_segments d0 fuel :
  forall n i, preserves (walk_extends d0) (Parse_segments n fuel i).
Proof.
  induction n as [|n IH]; intros i; cbn [Parse_segments].
  - auto with extends.
  - repeat extends_step; try first [apply walk_extends_Parse_pages|apply IH].
Qed.

Lemma imports_extend_refl d : imports_extend d d.
Proof. repeat split. exists []. rewrite app_nil_r. reflexivity. Qed.

Lemma imports_extend_r_Seek d0 off : preserves (imports_extend d0) (r_Seek off).
Proof.
  intros d (H1 & H2 & H3 & H4 & H5 & H6). unfold r_Seek, modify. cbn [snd].
  repeat split; auto. cbn. rewrite Reader_Seek_data. exact H3.
Qed.

Lemma imports_extend_r_Read d0 n : preserves (imports_extend d0) (r_Read n).
Proof.
  intros d (H1 & H2 & H3 & H4 & H5 & H6). unfold r_Read, on_r.
  assert (Hd := Reader_ReadFull_data n (r d)).
  destruct (Reader_ReadFull n (r d)) as [o x]; cbn [snd] in *.
  repeat split; auto. cbn. rewrite Hd. exact H3.
Qed.

Lemma imports_extend_append d0 i :
  preserves (imports_extend d0)
            (modify (fun d => set_Imports (Imports d ++ [i]) d)).
Proof.
  intros d (H1 & H2 & H3 & H4 & H5 & imps & H6). unfold modify. cbn [snd].
  repeat split; auto. exists (imps ++ [i]). cbn. rewrite H6, <- app_assoc.
  reflexivity.
Qed.

#[local] Hint Resolve imports_extend_r_Seek imports_extend_r_Read
  imports_extend_append : extends.

Lemma imports_extend_parseImports_names d0 :
  forall imports, preserves (imports_extend d0) (parseImports_names imports).
Proof.
  induction imports as [|i rest IH]; cbn [parseImports_names].
  - auto with extends.
  - repeat extends_step; try apply IH.
Qed.

Lemma imports_extend_parseImports d0 : preserves (imports_extend d0) parseImports.
Proof.
  unfold parseImports, read_imports. repeat extends_step;
    try apply imports_extend_parseImports_names.
Qed.

(** [Parse] on a receiver whose starts are parsed only appends: however it
    ends, the header, the payload, the image, the number of segments and
    each segment's header and page starts are as before, every fixup and
    every import that was there is still there, at its place, and what is
    new comes after it. *)
Theorem Parse_only_appends fuel d ss :
  Starts d = Some ss ->
  dcf_extends d (snd (Parse fuel d)).
Proof.
  intros Hs. rewrite (Parse_parsed fuel d ss Hs).
  assert (H1 := preserves_drop_error _ _ (imports_extend_parseImports d) d
                  (imports_extend_refl d)).
  unfold bind at 1.
  destruct (drop_error parseImports d) as [o1 d1]. cbn [snd] in H1.
  destruct H1 as (E1 & E2 & E3 & E4 & E5 & imps & E6).
  assert (Hd1 : Starts d1 <> None) by (rewrite E5, Hs; discriminate).
  assert (H2 : dcf_extends d d1).
  { unfold dcf_extends.
    rewrite E1, E2, E3, E4. unfold Starts_list. rewrite E5.
    repeat split; eauto.
    apply Forall_Forall2_diag, Forall_forall. intros s _. apply seg_extends_refl. }
  destruct o1 as [[]| | |]; try exact H2.
  unfold bind, get.
  assert (H3 := walk_extends_Parse_segments d1 fuel (length (Starts_list d1)) 0 d1
                  (walk_extends_refl d1 Hd1)).
  destruct (Parse_segments _ _ _ d1) as [o2 d2]. cbn [snd] in *.
  destruct H3 as (F1 & F2 & F3 & F4 & F5 & F6 & F7).
  unfold dcf_extends. rewrite F1, F2, F3, F4, F5, E1, E2, E3, E4.
  repeat split; eauto.
  unfold Starts_list at 1. rewrite <- E5. exact F7.
Qed.

Lemma Parse_only_appends_witness :
  dcf_extends dcf_escape (snd (Parse 10 dcf_escape)).
Proof.
  apply (Parse_only_appends 10 dcf_escape [seg_escape]). reflexivity.
Defined.

Lemma drop_error_state (m : DCF unit) d : snd (drop_error m d) = snd (m d).
Proof. unfold drop_error. destruct (m d) as [[[]| | |] d1]; reflexivity. Qed.

(** The two stages of [Parse] on a receiver with parsed starts: first the
    imports are appended, then the walks append records. *)
Lemma Parse_parsed_stages fuel d ss :
  Starts d = Some ss ->
  imports_extend d (snd (parseImports d))
  /\ walk_extends (snd (parseImports d)) (snd (Parse fuel d)).
Proof.
  intros Hs.
  assert (H1 := imports_extend_parseImports d d (imports_extend_refl d)).
  split; [exact H1|].
  rewrite (Parse_parsed fuel d ss Hs). unfold bind at 1.
  assert (Hst := drop_error_state parseImports d).
  destruct H1 as (_ & _ & _ & _ & E5 & _).
  assert (Hd1 : Starts (snd (parseImports d)) <> None)
    by (rewrite E5, Hs; discriminate).
  rewrite <- Hst in Hd1 |- *.
  destruct (drop_error parseImports d) as [o1 d1]. cbn [snd] in *.
  destruct o1 as [[]| | |]; try (apply walk_extends_refl; exact Hd1).
  unfold bind, get.
  apply walk_extends_Parse_segments. apply walk_extends_refl. exact Hd1.
Qed.

Lemma parseImports_names_uniform imports :
  forall d d',
    Header d' = Header d -> rd_data (r d') = rd_data (r d) ->
    exists new,
      Imports (snd (parseImports_names imports d)) = Imports d ++ new
      /\ Imports (snd (parseImports_names imports d')) = Imports d' ++ new
      /\ fst (parseImports_names imports d') = fst (parseImports_names imports d).
Proof.
  induction imports as [|i rest IH]; intros d d' Hh Hr.
  - exists []. cbn. rewrite !app_nil_r. auto.
  - assert (Hstep : forall x,
              Header x = Header d -> rd_data (r x) = rd_data (r d) ->
              parseImports_names (i :: rest) x
              = match ReadString0 (rd_data (r d))
                                  (SymbolsOffset (Header d) + NameOffset i) with
                | Ok s =>
                  parseImports_names rest
                    (set_Imports (Imports x ++ [mkDcfImport s i]) x)
                | Err e =>
                  (Err (ErrReadString
                          (uint64 (SymbolsOffset (Header d) + NameOffset i)) e), x)
                | Panic => (Panic, x)
                | OutOfFuel => (OutOfFuel, x)
                end).
    { intros x Hx1 Hx2. cbn [parseImports_names]. unfold bind at 1, get.
      rewrite Hx1, Hx2. destruct (ReadString0 _ _); reflexivity. }
    rewrite (Hstep d eq_refl eq_refl), (Hstep d' Hh Hr).
    destruct (ReadString0 _ _) as [s| | |].
    + destruct (IH (set_Imports (Imports d ++ [mkDcfImport s i]) d)
                   (set_Imports (Imports d' ++ [mkDcfImport s i]) d') Hh Hr)
        as (new & E1 & E2 & E3).
      exists (mkDcfImport s i :: new).
      rewrite E1, E2, E3. cbn [Imports set_Imports].
      rewrite <- !app_assoc. auto.
    + exists []. cbn. rewrite !app_nil_r. auto.
    + exists []. cbn. rewrite !app_nil_r. auto.
    + exists []. cbn. rewrite !app_nil_r. auto.
Qed.

Lemma read_imports_uniform d d' :
  Header d' = Header d -> bo d' = bo d -> r d' = r d ->
  fst (read_imports d') = fst (read_imports d)
  /\ Header (snd (read_imports d')) = Header (snd (read_imports d))
  /\ rd_data (r (snd (read_imports d'))) = rd_data (r (snd (read_imports d)))
  /\ Imports (snd (read_imports d')) = Imports d'
  /\ Imports (snd (read_imports d)) = Imports d.
Proof.
  intros Hh Hb Hr. destruct d as [h ss imps x y b], d' as [h' ss' imps' x' y' b'].
  cbn [Header bo r] in Hh, Hb, Hr. subst h' b' x'.
  unfold read_imports, bind, get, r_Read, on_r, ret.
  cbv beta iota delta [Header bo r].
  destruct (ImportsFormat h =? DC_IMPORT);
    [|destruct (ImportsFormat h =? DC_IMPORT_ADDEND);
      [|destruct (ImportsFormat h =? DC_IMPORT_ADDEND64)]];
    try match goal with
        | |- context [Reader_ReadFull ?n x] =>
          destruct (Reader_ReadFull n x) as [[bs| | |] x1]
        end;
    repeat split; reflexivity.
Qed.

Lemma parseImports_uniform d d' :
  Header d' = Header d -> bo d' = bo d -> rd_data (r d') = rd_data (r d) ->
  0 <= ImportsOffset (Header d) < 2 ^ 63 ->
  exists new,
    Imports (snd (parseImports d)) = Imports d ++ new
    /\ Imports (snd (parseImports d')) = Imports d' ++ new
    /\ fst (parseImports d') = fst (parseImports d).
Proof.
  intros Hh Hb Hr Hoff.
  assert (Hi : int64 (ImportsOffset (Header d)) = ImportsOffset (Header d)).
  { unfold int64. rewrite Z.mod_small by lia.
    destruct (Z.ltb_spec (ImportsOffset (Header d)) (2 ^ 63)); lia. }
  set (x := mkReader (rd_data (r d)) (ImportsOffset (Header d))).
  assert (Hstep : forall y,
            Header y = Header d -> rd_data (r y) = rd_data (r d) ->
            parseImports y
            = bind read_imports (fun imports => parseImports_names imports)
                   (set_r x y)).
  { intros y Hy1 Hy2. unfold parseImports. unfold bind at 1, get.
    unfold bind at 1, r_Seek, modify. rewrite Hy1, Hi. unfold Reader_Seek.
    destruct (Z.ltb_spec (ImportsOffset (Header d)) 0); [lia|].
    rewrite Hy2. reflexivity. }
  rewrite (Hstep d eq_refl eq_refl), (Hstep d' Hh Hr).
  destruct (read_imports_uniform (set_r x d) (set_r x d') Hh Hb eq_refl)
    as (F1 & F2 & F3 & F4 & F5).
  unfold bind.
  destruct (read_imports (set_r x d)) as [o1 d1].
  destruct (read_imports (set_r x d')) as [o1' d1'].
  cbn [fst snd] in *. subst o1'.
  destruct o1 as [imports| | |];
    try solve [exists []; cbn [fst snd]; rewrite !app_nil_r, F4, F5; auto].
  destruct (parseImports_names_uniform imports d1 d1' F2 F3)
    as (new & E1 & E2 & E3).
  exists new. rewrite E1, E2, E3, F4, F5. auto.
Qed.

(* --------------------------------------------------------------------- *)
(** ** What [parseImports] appends                                        *)
(* --------------------------------------------------------------------- *)

Lemma until_nul_spec bs :
  forall s, until_nul bs = Some s ->
    (x00 ∉ s) /\ take (S (length s)) bs = s ++ [x00].
Proof.
  induction bs as [|b rest IH]; intros s; cbn [until_nul]; [discriminate|].
  destruct (Byte.eqb b x00) eqn:Eb.
  - intros [= <-]. apply Byte.byte_dec_bl in Eb. subst b.
    split; [apply not_elem_of_nil|reflexivity].
  - destruct (until_nul rest) as [s'|]; [|discriminate].
    intros [= <-]. destruct (IH s' eq_refl) as [Hn Ht].
    split.
    + apply not_elem_of_cons. split; [|exact Hn].
      intros <-. vm_compute in Eb. discriminate.
    + cbn [length]. change (take (S (S (length s'))) (b :: rest))
        with (b :: take (S (length s')) rest).
      rewrite Ht. reflexivity.
Qed.

(** The loop over the import records, when it comes to its end: one
    import per record, in order, each with the string read for it. *)
Lemma parseImports_names_Ok imports :
  forall d d',
    parseImports_names imports d = (Ok tt, d') ->
    Header d' = Header d /\ r d' = r d
    /\ exists new,
         Imports d' = Imports d ++ new
         /\ Forall2 (fun imp i =>
                       Import_of imp = i
                       /\ ReadString0 (rd_data (r d))
                                      (SymbolsOffset (Header d) + NameOffset i)
                          = Ok (Name imp)) new imports.
Proof.
  induction imports as [|i rest IH]; intros d d'.
  - intros [= <-]. split; [reflexivity|]. split; [reflexivity|].
    exists []. rewrite app_nil_r. split; [reflexivity|constructor].
  - cbn [parseImports_names]. unfold bind at 1, get.
    destruct (ReadString0 _ _) as [s| | |] eqn:Es; try discriminate.
    unfold bind, modify. intros E. apply IH in E.
    destruct E as (Hh & Hr & new & Hi & Hall). cbn in Hh, Hr, Hi, Hall.
    split; [exact Hh|]. split; [exact Hr|].
    exists (mkDcfImport s i :: new). split.
    + rewrite Hi, <- app_assoc. reflexivity.
    + constructor; [split; [reflexivity|exact Es]|exact Hall].
Qed.

Lemma read_imports_Ok d imports d1 :
  read_imports d = (Ok imports, d1) ->
  Header d1 = Header d /\ rd_data (r d1) = rd_data (r d)
  /\ Imports d1 = Imports d
  /\ (ImportsFormat (Header d) = DC_IMPORT
      \/ ImportsFormat (Header d) = DC_IMPORT_ADDEND
      \/ ImportsFormat (Header d) = DC_IMPORT_ADDEND64 ->
      length imports = Z.to_nat (ImportsCount (Header d))).
Proof.
  unfold read_imports, bind, get, r_Read, on_r, ret.
  destruct (Z.eqb_spec (ImportsFormat (Header d)) DC_IMPORT) as [E1|E1];
    [|destruct (Z.eqb_spec (ImportsFormat (Header d)) DC_IMPORT_ADDEND) as [E2|E2];
      [|destruct (Z.eqb_spec (ImportsFormat (Header d)) DC_IMPORT_ADDEND64)
          as [E3|E3]]];
    try match goal with
        | |- context [Reader_ReadFull ?n (r d)] =>
          pose proof (Reader_ReadFull_data n (r d)) as Hd;
          destruct (Reader_ReadFull n (r d)) as [[bs| | |] x1]; try discriminate
        end;
    intros [= <- <-]; cbn [snd] in *;
    (split; [reflexivity|]); (split; [try exact Hd; reflexivity|]);
    (split; [reflexivity|]); intros Hf;
    rewrite ?length_map, ?chunks_length; try reflexivity.
  exfalso. destruct Hf as [?|[?|?]]; contradiction.
Qed.

(** For the three import formats the code knows, a [parseImports] that
    returns no error has appended exactly [ImportsCount] imports, so that
    an ordinal below [ImportsCount] indexes the import of that number
    (counted from the imports that were there before). *)
Theorem parseImports_appends_ImportsCount d d' :
  parseImports d = (Ok tt, d') ->
  ImportsFormat (Header d) = DC_IMPORT
  \/ ImportsFormat (Header d) = DC_IMPORT_ADDEND
  \/ ImportsFormat (Header d) = DC_IMPORT_ADDEND64 ->
  length (Imports d')
  = (length (Imports d) + Z.to_nat (ImportsCount (Header d)))%nat.
Proof.
  unfold parseImports. unfold bind at 1, get. unfold bind at 1, r_Seek, modify.
  unfold bind.
  destruct (read_imports _) as [[imports| | |] d1] eqn:E1; try discriminate.
  intros E2 Hf.
  apply read_imports_Ok in E1. destruct E1 as (Hh1 & _ & Hi1 & Hlen).
  apply parseImports_names_Ok in E2.
  destruct E2 as (_ & _ & new & Hi & Hall).
  rewrite Hi, Hi1, length_app. cbn [Imports set_r]. f_equal.
  rewrite (Forall2_length _ _ _ Hall). apply Hlen. exact Hf.
Qed.

Lemma parseImports_appends_ImportsCount_witness :
  length (Imports (snd (parseImports dcf_compressed)))
  = (length (Imports dcf_compressed)
     + Z.to_nat (ImportsCount (Header dcf_compressed)))%nat.
Proof.
  apply (parseImports_appends_ImportsCount dcf_compressed
           (snd (parseImports dcf_compressed))).
  - vm_compute. reflexivity.
  - left. reflexivity.
Defined.

(** After its first statement, [Parse] goes on as on a receiver whose
    starts are parsed. *)
Lemma Parse_after_starts fuel d ds ss :
  Parse_starts d = (Ok tt, ds) -> Starts ds = Some ss ->
  Parse fuel d = Parse fuel ds.
Proof.
  unfold Parse_starts. unfold bind at 1, get.
  destruct (Starts d) as [l|] eqn:Hd.
  - intros [= <-] _. reflexivity.
  - intros E Hs. unfold Parse, bind, get. rewrite Hd, E, Hs. reflexivity.
Qed.

(** What a [parseImports] without error appends under one of the three
    import formats: [ImportsCount] imports. *)
Lemma parseImports_Ok_count d new :
  fst (parseImports d) = Ok tt ->
  ImportsFormat (Header d) = DC_IMPORT
  \/ ImportsFormat (Header d) = DC_IMPORT_ADDEND
  \/ ImportsFormat (Header d) = DC_IMPORT_ADDEND64 ->
  Imports (snd (parseImports d)) = Imports d ++ new ->
  length new = Z.to_nat (ImportsCount (Header d)).
Proof.
  unfold parseImports. unfold bind at 1, get. unfold bind at 1, r_Seek, modify.
  unfold bind.
  destruct (read_imports _) as [[imports| | |] d1] eqn:E1; try discriminate.
  destruct (parseImports_names imports d1) as [o d'] eqn:E2. cbn [fst snd].
  intros -> Hf Hnew.
  apply read_imports_Ok in E1. destruct E1 as (Hh1 & _ & Hi1 & Hlen).
  apply parseImports_names_Ok in E2.
  destruct E2 as (_ & _ & new' & Hi & Hall).
  rewrite Hi, Hi1 in Hnew. cbn [Imports set_r] in Hnew.
  apply app_inv_head in Hnew. subst new'.
  rewrite (Forall2_length _ _ _ Hall). apply Hlen. exact Hf.
Qed.

(** [Parse] is not idempotent.  Nothing resets [dcf.Imports]: every call
    of [Parse] reads the import table again and appends what [parseImports]
    appends, whatever the chain walks do afterwards; a second [Parse]
    leaves the imports of the first followed by the same imports again.
    Where the table is read without error under one of the three import
    formats, these are [ImportsCount] imports, so that a second [Parse] of
    a payload with imports leaves more imports than the first.  [ds] is the
    receiver after the first statement of the first [Parse], which parses
    the starts unless they are parsed already.  (The ordinals of the binds
    keep pointing into the first copy.) *)
Theorem Parse_again_appends_the_imports_again fuel fuel' d ds ss :
  Parse_starts d = (Ok tt, ds) ->
  Starts ds = Some ss ->
  0 <= ImportsOffset (Header ds) < 2 ^ 32 ->
  exists new,
    Imports (snd (parseImports ds)) = Imports ds ++ new
    /\ Imports (snd (Parse fuel d)) = Imports ds ++ new
    /\ Imports (snd (Parse fuel' (snd (Parse fuel d)))) = Imports ds ++ new ++ new
    /\ (fst (parseImports ds) = Ok tt ->
        ImportsFormat (Header ds) = DC_IMPORT
        \/ ImportsFormat (Header ds) = DC_IMPORT_ADDEND
        \/ ImportsFormat (Header ds) = DC_IMPORT_ADDEND64 ->
        length new = Z.to_nat (ImportsCount (Header ds))).
Proof.
  intros Hst Hs Hoff. rewrite (Parse_after_starts fuel d ds ss Hst Hs).
  destruct (Parse_parsed_stages fuel ds ss Hs)
    as [(E1 & E2 & E3 & _ & _ & _) (F1 & F2 & F3 & _ & F5 & F6 & _)].
  set (d2 := snd (Parse fuel ds)) in *.
  destruct (Starts d2) as [ss2|] eqn:Hs2; [|contradiction].
  destruct (Parse_parsed_stages fuel' d2 ss2 Hs2)
    as [_ (_ & _ & _ & _ & G5 & _)].
  assert (Hh : Header d2 = Header ds) by (rewrite F1; exact E1).
  assert (Hb : bo d2 = bo ds) by (rewrite F2; exact E2).
  assert (Hr : rd_data (r d2) = rd_data (r ds)) by (rewrite F3; exact E3).
  destruct (parseImports_uniform ds d2 Hh Hb Hr ltac:(lia)) as (new & N1 & N2 & _).
  exists new. split; [exact N1|]. rewrite G5, N2, F5, N1.
  split; [reflexivity|]. split; [rewrite <- app_assoc; reflexivity|].
  intros Hok Hf. exact (parseImports_Ok_count ds new Hok Hf N1).
Qed.

(** The payload with one import, from the beginning: a second [Parse]
    leaves two. *)
Lemma Parse_again_appends_the_imports_again_witness :
  let d := NewChainedFixups payload_compressed [] LittleEndian in
  exists new,
    Imports (snd (parseImports dcf_compressed)) = Imports dcf_compressed ++ new
    /\ Imports (snd (Parse 1 d)) = Imports dcf_compressed ++ new
    /\ Imports (snd (Parse 1 (snd (Parse 1 d))))
       = Imports dcf_compressed ++ new ++ new
    /\ length new = 1%nat.
Proof.
  destruct (Parse_again_appends_the_imports_again 1 1
              (NewChainedFixups payload_compressed [] LittleEndian)
              dcf_compressed [])
    as (new & H1 & H2 & H3 & H4).
  - vm_compute. reflexivity.
  - reflexivity.
  - vm_compute. split; [discriminate|reflexivity].
  - exists new. split; [exact H1|]. split; [exact H2|]. split; [exact H3|].
    apply H4; [vm_compute; reflexivity|left; reflexivity].
Defined.

Example Parse_twice_compressed :
  let d := NewChainedFixups payload_compressed [] LittleEndian in
  length (Imports (snd (Parse 1 d))) = 1%nat
  /\ length (Imports (snd (Parse 1 (snd (Parse 1 d))))) = 2%nat.
Proof. split; vm_compute; reflexivity. Qed.

(** An imports format that is none of the three the code knows is not an
    error: [parseImports] reads no record and returns nil, whatever
    [ImportsCount] says; no import is appended and only the payload
    reader has moved (to [ImportsOffset]). *)
Theorem parseImports_unknown_format_reads_nothing d :
  ImportsFormat (Header d) <> DC_IMPORT ->
  ImportsFormat (Header d) <> DC_IMPORT_ADDEND ->
  ImportsFormat (Header d) <> DC_IMPORT_ADDEND64 ->
  parseImports d
  = (Ok tt, set_r (Reader_Seek (int64 (ImportsOffset (Header d))) (r d)) d).
Proof.
  intros H1 H2 H3.
  assert (E : forall x, Header x = Header d -> read_imports x = (Ok [], x)).
  { intros x Hx. unfold read_imports. unfold bind at 1, get. rewrite Hx.
    destruct (Z.eqb_spec (ImportsFormat (Header d)) DC_IMPORT); [contradiction|].
    destruct (Z.eqb_spec (ImportsFormat (Header d)) DC_IMPORT_ADDEND);
      [contradiction|].
    destruct (Z.eqb_spec (ImportsFormat (Header d)) DC_IMPORT_ADDEND64);
      [contradiction|].
    reflexivity. }
  unfold parseImports. unfold bind at 1, get. unfold bind at 1, r_Seek, modify.
  unfold bind. rewrite E by reflexivity. reflexivity.
Qed.

Lemma parseImports_unknown_format_reads_nothing_witness :
  parseImports (set_Header (mkHeader 0 28 32 36 7 4 0) dcf_compressed)
  = (Ok tt,
     set_r (Reader_Seek (int64 32) (r dcf_compressed))
           (set_Header (mkHeader 0 28 32 36 7 4 0) dcf_compressed)).
Proof.
  apply (parseImports_unknown_format_reads_nothing
           (set_Header (mkHeader 0 28 32 36 7 4 0) dcf_compressed));
    vm_compute; discriminate.
Defined.

(** The names of the imports.  When [parseImports] returns no error, each
    import it appended carries the record it was made from and, as its
    name, the bytes of the payload from offset
    [SymbolsOffset + NameOffset] of that record up to the first NUL: the
    name holds no NUL, and the payload holds the name followed by a NUL at
    that offset. *)
Theorem parseImports_names_are_NUL_terminated_strings d d' :
  parseImports d = (Ok tt, d') ->
  exists new,
    Imports d' = Imports d ++ new
    /\ Forall (fun imp =>
                 (x00 ∉ Name imp)
                 /\ take (S (length (Name imp)))
                         (drop (Z.to_nat (SymbolsOffset (Header d)
                                          + NameOffset (Import_of imp)))
                               (rd_data (r d)))
                    = Name imp ++ [x00]) new.
Proof.
  unfold parseImports. unfold bind at 1, get. unfold bind at 1, r_Seek, modify.
  unfold bind.
  destruct (read_imports _) as [[imports| | |] d1] eqn:E1; try discriminate.
  intros E2.
  apply read_imports_Ok in E1. destruct E1 as (Hh1 & Hr1 & Hi1 & _).
  apply parseImports_names_Ok in E2.
  destruct E2 as (_ & _ & new & Hi & Hall).
  exists new. rewrite Hi, Hi1. split; [reflexivity|].
  cbn [Header set_r r] in Hh1, Hr1. rewrite Reader_Seek_data in Hr1.
  rewrite Hh1, Hr1 in Hall.
  clear - Hall. induction Hall as [|imp i new imports [<- Hs] _ IH]; constructor.
  - unfold ReadString0 in Hs.
    destruct (until_nul _) as [s|] eqn:Eu; [|discriminate].
    injection Hs as <-. apply until_nul_spec. exact Eu.
  - exact IH.
Qed.

Lemma parseImports_names_are_NUL_terminated_strings_witness :
  exists new,
    Imports (snd (parseImports dcf_compressed)) = Imports dcf_compressed ++ new
    /\ Forall (fun imp =>
                 (x00 ∉ Name imp)
                 /\ take (S (length (Name imp)))
                         (drop (Z.to_nat (SymbolsOffset (Header dcf_compressed)
                                          + NameOffset (Import_of imp)))
                               (rd_data (r dcf_compressed)))
                    = Name imp ++ [x00]) new.
Proof.
  apply (parseImports_names_are_NUL_terminated_strings dcf_compressed
           (snd (parseImports dcf_compressed))).
  vm_compute. reflexivity.
Defined.

(* --------------------------------------------------------------------- *)
(** ** The records of a chain walk                                        *)
(* --------------------------------------------------------------------- *)

Lemma walk_fits_sr_Seek i s k imps off : preserves (walk_fits i s k imps) (sr_Seek off).
Proof. intros d H. exact H. Qed.

Lemma walk_fits_read_slot i s k imps w : preserves (walk_fits i s k imps) (read_slot w).
Proof.
  intros d H. destruct (read_slot_cases w d) as (o & x & E & _). rewrite E.
  exact H.
Qed.

Lemma walk_fits_append i s k imps f :
  record_fits k imps f -> preserves (walk_fits i s k imps) (append_Fixup i f).
Proof.
  intros Hf d (Hi & recs & Hs & Hall).
  destruct (append_Fixup_seg_is i s recs f d Hs) as (d' & E & Hs').
  rewrite E. cbn [snd]. split.
  - unfold append_Fixup, Starts_update in E.
    destruct (Starts_list d !! i); [|discriminate]. injection E as <-. exact Hi.
  - exists (recs ++ [f]). split; [exact Hs'|].
    apply Forall_app. split; [exact Hall|]. constructor; [exact Hf|constructor].
Qed.

Lemma walk_fits_append_rebase i s k imps rk ptr loc :
  slot_kind k ptr = IsRebase rk ->
  preserves (walk_fits i s k imps) (append_rebase i rk ptr loc).
Proof.
  intros Hk. apply walk_fits_append. split; [symmetry; exact Hk|exact I].
Qed.

Lemma walk_fits_append_bind i s k imps bk ptr loc :
  slot_kind k ptr = IsBind bk ->
  preserves (walk_fits i s k imps) (append_bind i bk ptr loc).
Proof.
  intros Hk d H. unfold append_bind, bind, Imports_Name.
  destruct (Imports d !! Z.to_nat (Bind_Ordinal bk ptr)) as [imp|] eqn:E;
    [|exact H].
  apply walk_fits_append; [|exact H].
  split; [symmetry; exact Hk|]. exists imp. destruct H as [<- _]. auto.
Qed.

Lemma walk_fits_walk_slot i s k imps loc :
  preserves (walk_fits i s k imps) (walk_slot i k loc).
Proof.
  destruct k; unfold walk_slot;
    (apply preserves_bind; [apply walk_fits_read_slot|intros ptr]);
    (apply preserves_bind; [|intros _; apply preserves_ret]);
    try (apply walk_fits_append_rebase; reflexivity);
    try (destruct (Generic32IsBind ptr) eqn:Eb;
         [apply walk_fits_append_bind|apply walk_fits_append_rebase];
         cbn [slot_kind]; rewrite Eb; reflexivity);
    try (destruct (Generic64IsBind ptr) eqn:Eb;
         [apply walk_fits_append_bind|apply walk_fits_append_rebase];
         cbn [slot_kind]; rewrite Eb; reflexivity);
    destruct (DcpArm64eIsBind ptr) eqn:Eb, (DcpArm64eIsAuth ptr) eqn:Ea;
    cbn [negb andb];
    first [apply walk_fits_append_bind|apply walk_fits_append_rebase];
    cbn [slot_kind]; rewrite Eb, Ea; reflexivity.
Qed.

Lemma walk_fits_walk_loop i s k imps pcs off :
  DCPtrKind_of (PointerFormat (InSegment s)) = Some k ->
  forall fuel next,
    preserves (walk_fits i s k imps) (walk_loop fuel i pcs off next).
Proof.
  intros Hk. induction fuel as [|fuel IH]; intros next; cbn [walk_loop].
  - apply preserves_out_of_fuel.
  - apply preserves_bind; [apply walk_fits_sr_Seek|intros _].
    apply preserves_bind_Starts_at. intros s' d Hd Hs'.
    assert (Hfmt : PointerFormat (InSegment s') = PointerFormat (InSegment s)).
    { destruct Hd as (_ & recs & Hs & _). red in Hs. rewrite Hs in Hs'.
      injection Hs' as <-. reflexivity. }
    rewrite Hfmt, Hk.
    revert d Hd Hs'. intros d Hd _. revert d Hd.
    change (preserves (walk_fits i s k imps)
              (bind (walk_slot i k (uint64 (pcs + off + next)))
                    (fun nx => if nx =? 0 then ret tt
                               else walk_loop fuel i pcs off
                                              (uint64 (next + nx * stride k))))).
    apply preserves_bind; [apply walk_fits_walk_slot|intros nx].
    apply preserves_if; [apply preserves_ret|apply IH].
Qed.

(** The records of a chain walk fit the format of the segment: each record
    appended is of the type that the [switch] on the format gives for the
    bind and auth bits of its own slot word, and each bind record carries
    the name of the import the slot's ordinal selects among the imports as
    they are when the walk begins. *)
Theorem walk_records_fit_the_format fuel segIdx pageIndex offsetInPage d s k :
  Starts_list d !! segIdx = Some s ->
  DCPtrKind_of (PointerFormat (InSegment s)) = Some k ->
  exists recs,
    Starts_list (snd (walkDcFixupChain fuel segIdx pageIndex offsetInPage d))
      !! segIdx = Some (set_Fixups (Fixups s ++ recs) s)
    /\ Forall (record_fits k (Imports d)) recs.
Proof.
  intros Hs Hk.
  assert (H0 : walk_fits segIdx s k (Imports d) d).
  { split; [reflexivity|]. exists []. split; [apply seg_is_init; exact Hs|constructor]. }
  assert (H : preserves (walk_fits segIdx s k (Imports d))
                (walkDcFixupChain fuel segIdx pageIndex offsetInPage)).
  { unfold walkDcFixupChain. apply preserves_bind; [apply preserves_Starts_at|].
    intros s'. apply walk_fits_walk_loop. exact Hk. }
  destruct (H d H0) as (_ & recs & H1 & H2). exists recs. auto.
Qed.

Lemma walk_records_fit_the_format_witness :
  exists recs,
    Starts_list (snd (walkDcFixupChain 10 0 0 2 dcf_escape)) !! 0%nat
      = Some (set_Fixups (Fixups seg_escape ++ recs) seg_escape)
    /\ Forall (record_fits DYLD_CHAINED_PTR_32 (Imports dcf_escape)) recs.
Proof.
  apply (walk_records_fit_the_format 10 0 0 2 dcf_escape seg_escape
           DYLD_CHAINED_PTR_32); reflexivity.
Defined.

Lemma no_panic_bind {A B} P (m : DCF A) (k : A -> DCF B) :
  no_panic_under P m -> preserves P m -> (forall a, no_panic_under P (k a)) ->
  no_panic_under P (bind m k).
Proof.
  intros Hm Hp Hk d Hd. unfold bind. specialize (Hm d Hd). specialize (Hp d Hd).
  destruct (m d) as [[a| | |] d1]; cbn [fst snd] in *;
    try discriminate; [|contradiction].
  apply Hk. exact Hp.
Qed.

Lemma no_panic_ret {A} P (a : A) : no_panic_under P (ret a).
Proof. intros d _. discriminate. Qed.

Lemma no_panic_read_slot P w : no_panic_under P (read_slot w).
Proof.
  intros d _. destruct (read_slot_cases w d) as (o & x & E & Hp & _).
  rewrite E. exact Hp.
Qed.

Lemma no_panic_append_Fixup i s k imps f :
  no_panic_under (walk_fits i s k imps) (append_Fixup i f).
Proof.
  intros d (_ & recs & Hs & _).
  destruct (append_Fixup_seg_is i s recs f d Hs) as (d' & E & _).
  rewrite E. discriminate.
Qed.

Lemma no_panic_append_bind i s k imps bk ptr loc :
  Bind_Ordinal bk ptr < Z.of_nat (length imps) ->
  no_panic_under (walk_fits i s k imps) (append_bind i bk ptr loc).
Proof.
  intros Hord d H. unfold append_bind, bind, Imports_Name.
  assert (Hi : Imports d = imps) by (destruct H as [? _]; assumption).
  assert (H0 : 0 <= Bind_Ordinal bk ptr)
    by (destruct bk; apply ExtractBits_range; lia).
  destruct (lookup_lt_is_Some_2 (Imports d) (Z.to_nat (Bind_Ordinal bk ptr)))
    as [imp E]; [rewrite Hi; lia|].
  rewrite E. exact (no_panic_append_Fixup i s k imps _ d H).
Qed.

Lemma no_panic_walk_slot i s k imps loc :
  (forall ptr bk, slot_kind k ptr = IsBind bk ->
                  Bind_Ordinal bk ptr < Z.of_nat (length imps)) ->
  no_panic_under (walk_fits i s k imps) (walk_slot i k loc).
Proof.
  intros Hord.
  destruct k; unfold walk_slot;
    (apply no_panic_bind;
     [apply no_panic_read_slot|apply walk_fits_read_slot|intros ptr]);
    (apply no_panic_bind; [| |intros _; apply no_panic_ret]);
    try (apply no_panic_append_Fixup);
    try (apply walk_fits_append_rebase; reflexivity);
    try (destruct (Generic32IsBind ptr) eqn:Eb;
         [first [apply no_panic_append_bind; apply Hord
                |apply walk_fits_append_bind]
         |first [apply no_panic_append_Fixup|apply walk_fits_append_rebase]];
         cbn [slot_kind]; rewrite Eb; reflexivity);
    try (destruct (Generic64IsBind ptr) eqn:Eb;
         [first [apply no_panic_append_bind; apply Hord
                |apply walk_fits_append_bind]
         |first [apply no_panic_append_Fixup|apply walk_fits_append_rebase]];
         cbn [slot_kind]; rewrite Eb; reflexivity);
    destruct (DcpArm64eIsBind ptr) eqn:Eb, (DcpArm64eIsAuth ptr) eqn:Ea;
    cbn [negb andb];
    first [apply no_panic_append_Fixup
          |apply no_panic_append_bind; apply Hord
          |apply walk_fits_append_bind
          |apply walk_fits_append_rebase];
    cbn [slot_kind]; rewrite Eb, Ea; reflexivity.
Qed.

Lemma no_panic_walk_loop i s k imps pcs off :
  DCPtrKind_of (PointerFormat (InSegment s)) = Some k ->
  (forall ptr bk, slot_kind k ptr = IsBind bk ->
                  Bind_Ordinal bk ptr < Z.of_nat (length imps)) ->
  forall fuel next,
    no_panic_under (walk_fits i s k imps) (walk_loop fuel i pcs off next).
Proof.
  intros Hk Hord. induction fuel as [|fuel IH]; intros next; cbn [walk_loop].
  - intros d _. discriminate.
  - intros d Hd. unfold bind at 1, sr_Seek, modify.
    assert (Hd1 : walk_fits i s k imps
                    (set_sr (Reader_Seek (int64 (uint64 (pcs + off + next))) (sr d)) d))
      by exact Hd.
    destruct Hd1 as (Hi & recs & Hs & Hall).
    unfold bind at 1. rewrite (Starts_at_Some i _ _ Hs).
    cbn [InSegment set_Fixups]. rewrite Hk.
    apply (no_panic_bind (walk_fits i s k imps)).
    + apply no_panic_walk_slot. exact Hord.
    + apply walk_fits_walk_slot.
    + intros nx. destruct (nx =? 0); [apply no_panic_ret|apply IH].
    + split; [exact Hi|]. exists recs. auto.
Qed.

(** A chain walk panics at one place only, the lookup of a bind's import:
    in a segment that exists, of a known format, the walk never panics
    when no slot word can be a bind with an ordinal beyond the imports,
    and so never under the formats that have no bind (PTR_32_CACHE,
    PTR_32_FIRMWARE, PTR_64_OFFSET and the two kernel-cache formats),
    whatever the image holds. *)
Theorem walk_panics_only_in_the_import_lookup
    fuel segIdx pageIndex offsetInPage d s k :
  Starts_list d !! segIdx = Some s ->
  DCPtrKind_of (PointerFormat (InSegment s)) = Some k ->
  (forall ptr bk, slot_kind k ptr = IsBind bk ->
                  Bind_Ordinal bk ptr < Z.of_nat (length (Imports d))) ->
  fst (walkDcFixupChain fuel segIdx pageIndex offsetInPage d) <> Panic.
Proof.
  intros Hs Hk Hord.
  assert (H0 : walk_fits segIdx s k (Imports d) d).
  { split; [reflexivity|]. exists []. split; [apply seg_is_init; exact Hs|constructor]. }
  unfold walkDcFixupChain, bind. rewrite (Starts_at_Some _ _ _ Hs).
  apply (no_panic_walk_loop segIdx s k (Imports d) _ _ Hk Hord). exact H0.
Qed.

Lemma walk_panics_only_in_the_import_lookup_witness :
  fst (walkDcFixupChain 10 0 0 2
         (set_Starts (Some [set_InSegment (mkStartsInSegment 8 0x1000 4 0 0 1)
                                          seg_escape]) dcf_escape))
  <> Panic.
Proof.
  apply (walk_panics_only_in_the_import_lookup 10 0 0 2
           (set_Starts (Some [set_InSegment (mkStartsInSegment 8 0x1000 4 0 0 1)
                                            seg_escape]) dcf_escape)
           (set_InSegment (mkStartsInSegment 8 0x1000 4 0 0 1) seg_escape)
           DYLD_CHAINED_PTR_32_CACHE).
  - reflexivity.
  - reflexivity.
  - intros ptr bk H. discriminate H.
Defined.

(* --------------------------------------------------------------------- *)
(** ** [ParseStarts] reads the segment table where the payload has it     *)
(* --------------------------------------------------------------------- *)

Lemma r_Read_Ok n h st im data pos y b bs d1 :
  0 <= pos ->
  r_Read n (mkDcf h st im (mkReader data pos) y b) = (Ok bs, d1) ->
  bs = take n (drop (Z.to_nat pos) data)
  /\ d1 = mkDcf h st im (mkReader data (pos + Z.of_nat n)) y b.
Proof.
  intros Hpos. unfold r_Read, on_r, Reader_ReadFull. cbn [r rd_pos rd_data].
  destruct n as [|n].
  - intros [= <- <-]. rewrite Z.add_0_r. auto.
  - destruct (drop (Z.to_nat pos) data) as [|b0 rest] eqn:Ed; [discriminate|].
    destruct (Nat.ltb_spec (length (b0 :: rest)) (S n)); [discriminate|].
    intros [= <- <-]. auto.
Qed.

Lemma Starts_update_middle done x rest f h im rr y b :
  Starts_update (length done) f (mkDcf h (Some (done ++ x :: rest)) im rr y b)
  = (Ok tt, mkDcf h (Some (done ++ f x :: rest)) im rr y b).
Proof.
  unfold Starts_update.
  change (Starts_list (mkDcf h (Some (done ++ x :: rest)) im rr y b))
    with (done ++ x :: rest).
  rewrite list_lookup_middle by reflexivity.
  unfold set_Starts. cbn [Header Imports r sr bo].
  rewrite <- (Nat.add_0_r (length done)), insert_app_r. reflexivity.
Qed.

Lemma Starts_at_middle done x rest h im rr y b :
  Starts_at (length done) (mkDcf h (Some (done ++ x :: rest)) im rr y b)
  = (Ok x, mkDcf h (Some (done ++ x :: rest)) im rr y b).
Proof.
  unfold Starts_at.
  change (Starts_list (mkDcf h (Some (done ++ x :: rest)) im rr y b))
    with (done ++ x :: rest).
  rewrite list_lookup_middle by reflexivity. reflexivity.
Qed.

Lemma int64_of_uint32 x : int64 (uint32 x) = uint32 x.
Proof.
  assert (H : 0 <= uint32 x < 2 ^ 32) by (apply Z.mod_pos_bound; lia).
  unfold int64. rewrite Z.mod_small by lia.
  destruct (Z.ltb_spec (uint32 x) (2 ^ 63)); lia.
Qed.

Lemma ParseStarts_segments_decodes h lcdat im y b :
  forall offs done pos d',
    ParseStarts_segments (length done) offs
      (mkDcf h (Some (done ++ repeat zero_starts (length offs))) im
             (mkReader lcdat pos) y b)
    = (Ok tt, d') ->
    exists pos',
      d' = mkDcf h (Some (done ++ map (decoded_segment b lcdat (StartsOffset h)) offs))
                 im (mkReader lcdat pos') y b.
Proof.
  induction offs as [|off offs IH]; intros done pos d'.
  - cbn [ParseStarts_segments length repeat map]. intros [= <-]. eauto.
  - cbn [ParseStarts_segments length repeat map].
    unfold decoded_segment at 1.
    destruct (Z.eqb_spec off 0) as [->|Hne].
    + intros E.
      replace (done ++ zero_starts :: repeat zero_starts (length offs))
        with ((done ++ [zero_starts]) ++ repeat zero_starts (length offs)) in E
        by (rewrite <- app_assoc; reflexivity).
      replace (S (length done)) with (length (done ++ [zero_starts])) in E
        by (rewrite length_app; cbn; lia).
      apply IH in E. destruct E as [pos' ->]. exists pos'.
      rewrite <- app_assoc. reflexivity.
    + unfold bind at 1, get. unfold bind at 1, r_Seek, modify.
      cbn [Header r set_r Starts Imports sr bo].
      rewrite int64_of_uint32. unfold Reader_Seek.
      assert (Hb : 0 <= uint32 (StartsOffset h + off) < 2 ^ 32)
        by (apply Z.mod_pos_bound; lia).
      destruct (Z.ltb_spec (uint32 (StartsOffset h + off)) 0); [lia|].
      cbn [rd_data]. set (base := uint32 (StartsOffset h + off)) in *.
      unfold bind at 1.
      destruct (r_Read 22 _) as [[bs| | |] d1] eqn:E1; try discriminate.
      apply r_Read_Ok in E1; [|lia]. destruct E1 as [-> ->].
      cbn [Header Starts Imports r sr bo rd_data rd_pos].
      set (hdr := decode_in_segment b (take 22 (drop (Z.to_nat base) lcdat))).
      unfold bind at 1. rewrite Starts_update_middle.
      unfold bind at 1. rewrite Starts_at_middle.
      cbn [InSegment set_InSegment zero_starts].
      set (n := Z.to_nat (PageCount hdr)).
      unfold bind at 1. rewrite Starts_update_middle.
      unfold bind at 1.
      destruct (r_Read (2 * n) _) as [[bs2| | |] d2] eqn:E2; try discriminate.
      apply r_Read_Ok in E2; [|lia]. destruct E2 as [-> ->].
      cbn [Header Starts Imports r sr bo rd_data rd_pos].
      unfold bind at 1. rewrite Starts_update_middle.
      cbn [set_PageStarts set_InSegment InSegment Fixups PageStarts zero_starts].
      intros E.
      match type of E with
      | context [done ++ ?seg :: repeat zero_starts (length offs)] =>
        replace (done ++ seg :: repeat zero_starts (length offs))
          with ((done ++ [seg]) ++ repeat zero_starts (length offs)) in E
          by (rewrite <- app_assoc; reflexivity);
        replace (S (length done)) with (length (done ++ [seg])) in E
          by (rewrite length_app; cbn; lia)
      end.
      apply IH in E. destruct E as [pos' ->]. exists pos'.
      rewrite <- app_assoc. cbn [app].
      replace (Z.to_nat (base + Z.of_nat 22)) with (Z.to_nat base + 22)%nat
        by lia.
      reflexivity.
Qed.

(** [ParseStarts] on a receiver fresh from [NewChainedFixups], when it
    returns no error: the header is the first 28 bytes of the payload,
    and the segments are the ones the payload holds by position: as many
    as the 32-bit count at [StartsOffset] says; the segment of a zero
    [seg_info_offset] is left empty, with nil page starts; every other
    segment has the header found at [StartsOffset + seg_info_offset] and
    exactly [PageCount] page starts, those that follow that header; no
    segment has a fixup yet.  Imports and image reader are untouched. *)
Theorem ParseStarts_decodes_the_payload lcdat image bo0 d' :
  ParseStarts (NewChainedFixups lcdat image bo0) = (Ok tt, d') ->
  Header d' = fst (decoded_starts bo0 lcdat)
  /\ Starts d' = Some (snd (decoded_starts bo0 lcdat))
  /\ Imports d' = [] /\ sr d' = mkReader image 0 /\ bo d' = bo0.
Proof.
  unfold ParseStarts, NewChainedFixups. unfold bind at 1, get.
  unfold bind at 1.
  destruct (r_Read 28 _) as [[bs| | |] d1] eqn:E1; try discriminate.
  apply r_Read_Ok in E1; [|lia]. destruct E1 as [-> ->].
  change (Z.to_nat 0) with 0%nat. rewrite drop_0.
  cbn [bo].
  set (h := decode_header bo0 (take 28 lcdat)).
  unfold bind at 1, modify. unfold set_Header at 1.
  cbn [Header Starts Imports r sr bo].
  unfold bind at 1, r_Seek, modify. unfold set_r at 1.
  cbn [Header Starts Imports r sr bo].
  assert (Hso : 0 <= StartsOffset h < 2 ^ 32).
  { unfold h, decode_header. cbn [StartsOffset].
    assert (H := field_range bo0 (take 28 lcdat) 4 4). cbn in H. lia. }
  assert (Hi : int64 (StartsOffset h) = StartsOffset h).
  { unfold int64. rewrite Z.mod_small by lia.
    destruct (Z.ltb_spec (StartsOffset h) (2 ^ 63)); lia. }
  rewrite Hi. unfold Reader_Seek.
  destruct (Z.ltb_spec (StartsOffset h) 0); [lia|]. cbn [rd_data].
  unfold bind at 1.
  destruct (r_Read 4 _) as [[bs4| | |] d2] eqn:E2; try discriminate.
  apply r_Read_Ok in E2; [|lia]. destruct E2 as [-> ->].
  set (segCount := Z.to_nat (bo_uint bo0 (take 4 (drop (Z.to_nat (StartsOffset h)) lcdat)))).
  unfold bind at 1, modify. unfold set_Starts at 1.
  cbn [Header Starts Imports r sr bo].
  unfold bind at 1.
  destruct (r_Read (4 * segCount) _) as [[bsO| | |] d3] eqn:E3; try discriminate.
  apply r_Read_Ok in E3; [|lia]. destruct E3 as [-> ->].
  set (offs := map (bo_uint bo0) (chunks segCount 4 _)).
  assert (Hlen : length offs = segCount)
    by (unfold offs; rewrite length_map, chunks_length; reflexivity).
  rewrite <- Hlen at 1.
  intros E.
  apply (ParseStarts_segments_decodes h lcdat [] _ bo0 offs []) in E.
  destruct E as [pos' ->].
  cbn [Header Starts Imports sr bo app].
  unfold decoded_starts. fold h. cbn [fst snd].
  repeat split; try reflexivity.
  do 2 f_equal. unfold offs. do 3 f_equal.
  fold segCount.
  replace (Z.to_nat (StartsOffset h + Z.of_nat 4))
    with (Z.to_nat (StartsOffset h) + 4)%nat by lia.
  reflexivity.
Qed.

Lemma ParseStarts_decodes_the_payload_witness :
  Header dcf_escape = fst (decoded_starts LittleEndian payload_escape)
  /\ Starts dcf_escape = Some (snd (decoded_starts LittleEndian payload_escape))
  /\ Imports dcf_escape = [] /\ sr dcf_escape = mkReader image_escape 0
  /\ bo dcf_escape = LittleEndian.
Proof.
  apply (ParseStarts_decodes_the_payload payload_escape image_escape LittleEndian
           dcf_escape).
  vm_compute. reflexivity.
Defined.

(* --------------------------------------------------------------------- *)
(** ** Every slot that a read meets                                      *)
(* --------------------------------------------------------------------- *)

(** The bytes of a buffer in which the window [[a, c)] has been replaced
    by the bytes of [src] from [b] on. *)
Lemma window_lookup (arr src : list byte) (a b c i : nat) :
  (a <= c <= length arr)%nat -> (b + (c - a) <= length src)%nat ->
  (take a arr ++ take (c - a) (drop b src) ++ drop c arr) !! i
  = if bool_decide (a <= i < c)%nat then src !! (b + (i - a))%nat else arr !! i.
Proof.
  intros H1 H2.
  assert (La : length (take a arr) = a) by (rewrite length_take; lia).
  assert (Lb : length (take (c - a) (drop b src)) = (c - a)%nat)
    by (rewrite length_take, length_drop; lia).
  destruct (decide (i < a)%nat) as [Hi|Hi].
  - rewrite lookup_app_l by lia. rewrite lookup_take_lt by lia.
    rewrite bool_decide_eq_false_2 by lia. reflexivity.
  - rewrite lookup_app_r by lia. rewrite La.
    destruct (decide (i < c)%nat) as [Hc|Hc].
    + rewrite lookup_app_l by lia. rewrite lookup_take_lt by lia.
      rewrite lookup_drop. rewrite bool_decide_eq_true_2 by lia. reflexivity.
    + rewrite lookup_app_r by lia. rewrite Lb, lookup_drop.
      rewrite bool_decide_eq_false_2 by lia. f_equal. lia.
Qed.

(** Two windows of the same length hold the same bytes when they agree
    byte by byte. *)
Lemma window_eq (xs ys : list byte) (a b n : nat) :
  (a + n <= length xs)%nat -> (b + n <= length ys)%nat ->
  (forall j, (j < n)%nat -> xs !! (a + j)%nat = ys !! (b + j)%nat) ->
  take n (drop a xs) = take n (drop b ys).
Proof.
  intros H1 H2 H. apply list_eq. intros j.
  rewrite !lookup_take, !lookup_drop. case_decide; auto.
Qed.

Lemma patch_loop_overlay l off :
  codec_matches l -> 0 <= off ->
  forall order p buf,
    length buf = Z.to_nat (pointerSize l) ->
    (s_len p <= length (s_arr p))%nat ->
    off + Z.of_nat (s_len p) < 2 ^ 62 ->
    NoDup (order.*1) ->
    (forall e, e ∈ order ->
       0 <= fst e < 2 ^ 62
       /\ (off <= fst e \/ fst e + pointerSize l <= off + Z.of_nat (s_len p))) ->
    (forall e1 e2, e1 ∈ order -> e2 ∈ order -> fst e1 < fst e2 ->
       fst e1 + pointerSize l <= fst e2) ->
    (forall e i, e ∈ order -> (i < s_len p)%nat ->
       fst e <= off + Z.of_nat i < fst e + pointerSize l ->
       s_arr p !! i
       = bo_put (bo_of l) (Z.to_nat (pointerSize l)) (Raw (snd e))
           !! Z.to_nat (off + Z.of_nat i - fst e)) ->
    exists p' buf',
      patch_loop l off (uint64 (off + Z.of_nat (s_len p))) order (p, buf)
      = (Ok tt, (p', buf'))
      /\ s_len p' = s_len p /\ length (s_arr p') = length (s_arr p)
      /\ (forall e i, e ∈ order -> (i < s_len p)%nat ->
            fst e <= off + Z.of_nat i < fst e + pointerSize l ->
            s_arr p' !! i
            = bo_put (bo_of l) (Z.to_nat (pointerSize l))
                     (Resolve (snd e) (baseAddr l))
                !! Z.to_nat (off + Z.of_nat i - fst e))
      /\ (forall i,
            (forall e, e ∈ order ->
               ~ ((i < s_len p)%nat
                  /\ fst e <= off + Z.of_nat i < fst e + pointerSize l)) ->
            s_arr p' !! i = s_arr p !! i).
Proof.
  intros Hc Hoff.
  assert (Hps : pointerSize l = 8 \/ pointerSize l = 4)
    by (destruct Hc as [[? _]|[? _]]; auto).
  induction order as [|[rOff rb] rest IH]; intros p buf Hb Hcap Hmax Hnd Hrange Hdis Hraw.
  - exists p, buf. repeat split; auto. intros e i He. inversion He.
  - apply NoDup_cons in Hnd. cbn [fmap list_fmap fst] in Hnd.
    destruct Hnd as [Hhead Hnd].
    assert (Hne : forall e, e ∈ rest ->
              fst e + pointerSize l <= rOff \/ rOff + pointerSize l <= fst e).
    { intros e He.
      assert (fst e <> rOff).
      { intros Heq. apply Hhead. rewrite <- Heq. apply list_elem_of_fmap_2. exact He. }
      destruct (Z.lt_trichotomy (fst e) rOff) as [Hlt|[Heq|Hgt]]; [|contradiction|].
      - left. apply (Hdis e (rOff, rb)); [right; exact He|left|exact Hlt].
      - right. apply (Hdis (rOff, rb) e); [left|right; exact He|exact Hgt]. }
    destruct (Hrange (rOff, rb) ltac:(left)) as [Hr Hcase]. cbn [fst] in Hr, Hcase.
    set (ps := pointerSize l) in *. set (len := Z.of_nat (s_len p)) in *.
    (* the buffer after the first entry *)
    assert (Hstep : exists p1 buf1,
      patch_one l off (uint64 (off + len)) rOff rb (p, buf) = (Ok tt, (p1, buf1))
      /\ length buf1 = Z.to_nat ps
      /\ s_len p1 = s_len p /\ length (s_arr p1) = length (s_arr p)
      /\ (forall i, (i < s_len p)%nat -> rOff <= off + Z.of_nat i < rOff + ps ->
            s_arr p1 !! i
            = bo_put (bo_of l) (Z.to_nat ps) (Resolve rb (baseAddr l))
                !! Z.to_nat (off + Z.of_nat i - rOff))
      /\ (forall i, ~ ((i < s_len p)%nat /\ rOff <= off + Z.of_nat i < rOff + ps) ->
            s_arr p1 !! i = s_arr p !! i)).
    { destruct (decide (rOff + ps <= off \/ off + len <= rOff)) as [Hout|Hin].
      - destruct (patch_one_disjoint l off _ rOff rb p buf Hc Hb Hcap
                    ltac:(unfold len in *; lia) ltac:(unfold len in *; lia)
                    eq_refl ltac:(lia) Hout)
          as (buf1 & E1 & Hb1).
        exists p, buf1. repeat split; auto.
        intros i Hi Hs. unfold len in *. lia.
      - assert (Hm1 : off <= rOff + ps) by lia.
        assert (Hm2 : rOff <= off + len) by lia.
        assert (E := patch_one_window l off rOff rb p buf Hc Hb Hcap Hoff
                       ltac:(unfold len in *; lia) ltac:(lia)
                       ltac:(unfold ps in *; lia) Hm1 Hm2 Hcase).
        cbv zeta in E. fold ps len in E.
        set (lo := Z.max off rOff) in *.
        set (hi := Z.min (off + len) (rOff + ps)) in *.
        assert (Hlo : off <= lo /\ rOff <= lo /\ lo <= hi
                      /\ hi <= off + len /\ hi <= rOff + ps)
          by (unfold lo, hi; lia).
        assert (Hlraw : forall x, length (bo_put (bo_of l) (Z.to_nat ps) x) = Z.to_nat ps)
          by (intros x; apply bo_put_length).
        rewrite bool_decide_eq_true_2 in E.
        2:{ apply window_eq.
            - rewrite Hlraw. lia.
            - unfold len in *. lia.
            - intros j Hj.
              rewrite (Hraw (rOff, rb) (Z.to_nat (lo - off) + j)%nat ltac:(left)
                         ltac:(unfold len in *; lia) ltac:(cbn [fst]; lia)).
              cbn [fst snd]. f_equal. lia. }
        eexists _, _. split; [exact E|]. cbn [s_len s_arr].
        replace (Z.to_nat (hi - lo))
          with (Z.to_nat (hi - off) - Z.to_nat (lo - off))%nat by lia.
        split; [apply Hlraw|]. split; [reflexivity|].
        split.
        { rewrite !length_app, !length_take, !length_drop, Hlraw.
          assert (H1 : (Z.to_nat (lo - off) <= Z.to_nat (hi - off))%nat) by lia.
          assert (H2 : (Z.to_nat (hi - off) <= length (s_arr p))%nat)
            by (unfold len in *; lia).
          assert (H3 : (Z.to_nat (hi - off) - Z.to_nat (lo - off)
                        <= Z.to_nat ps - Z.to_nat (lo - rOff))%nat) by lia.
          clear - H1 H2 H3. lia. }
        split.
        + intros i Hi Hs.
          rewrite window_lookup
            by (rewrite ?Hlraw; unfold len in *; lia).
          rewrite bool_decide_eq_true_2 by (unfold len in *; lia).
          f_equal. lia.
        + intros i Hi.
          rewrite window_lookup
            by (rewrite ?Hlraw; unfold len in *; lia).
          rewrite bool_decide_eq_false_2; [reflexivity|].
          intros [H1 H2]. apply Hi. unfold len in *. lia. }
    destruct Hstep as (p1 & buf1 & E1 & Hb1 & Hl1 & Hc1 & Hin1 & Hout1).
    destruct (IH p1 buf1 Hb1) as (p' & buf' & E' & Hl' & Hc' & Hin' & Hout').
    + rewrite Hl1, Hc1. exact Hcap.
    + rewrite Hl1. exact Hmax.
    + exact Hnd.
    + intros e He. rewrite Hl1. apply Hrange. right. exact He.
    + intros e1 e2 H1 H2. apply Hdis; right; assumption.
    + intros e i He Hi Hs. rewrite Hl1 in Hi.
      rewrite Hout1.
      * apply Hraw; [right; exact He|exact Hi|exact Hs].
      * intros [_ Hs']. destruct (Hne e He); fold ps in Hs; lia.
    + exists p', buf'. cbn [patch_loop]. unfold bind. rewrite E1.
      rewrite Hl1 in E'. fold len in E'. split; [exact E'|].
      split; [congruence|]. split; [congruence|]. split.
      * intros e i He Hi Hs. apply elem_of_cons in He. destruct He as [->|He].
        -- cbn [fst snd] in *. rewrite Hout'.
           ++ apply Hin1; assumption.
           ++ intros e He [_ Hs']. destruct (Hne e He); fold ps in Hs'; lia.
        -- apply Hin'; [exact He|rewrite Hl1; exact Hi|exact Hs].
      * intros i Hi. rewrite Hout'.
        -- apply Hout1. apply (Hi (rOff, rb)). left.
        -- intros e He. rewrite Hl1. apply Hi. right. exact He.
Qed.

(** A read that lies strictly inside no recorded slot, over slots that do
    not overlap one another, where the bytes read agree with the raw word
    of every slot they meet: [patchReadBytes] returns no error and, in
    whatever order the map is visited, the buffer holds for every byte of
    the read that lies in a slot the byte of the encoding of the resolved
    value, and every other byte as it was. *)
Theorem patchReadBytes_overlays_every_slot l order p off :
  codec_matches l ->
  range_order (rebases l) order ->
  (s_len p <= length (s_arr p))%nat ->
  0 <= off -> off + Z.of_nat (s_len p) < 2 ^ 62 ->
  (forall rOff rb, rebases l !! rOff = Some rb ->
     0 <= rOff < 2 ^ 62
     /\ (off <= rOff \/ rOff + pointerSize l <= off + Z.of_nat (s_len p))) ->
  (forall rOff rb rOff' rb',
     rebases l !! rOff = Some rb -> rebases l !! rOff' = Some rb' ->
     rOff < rOff' -> rOff + pointerSize l <= rOff') ->
  (forall rOff rb i, rebases l !! rOff = Some rb -> (i < s_len p)%nat ->
     rOff <= off + Z.of_nat i < rOff + pointerSize l ->
     s_arr p !! i
     = bo_put (bo_of l) (Z.to_nat (pointerSize l)) (Raw rb)
         !! Z.to_nat (off + Z.of_nat i - rOff)) ->
  exists p',
    patchReadBytes l order off p = (Ok tt, p')
    /\ s_len p' = s_len p /\ length (s_arr p') = length (s_arr p)
    /\ (forall rOff rb i, rebases l !! rOff = Some rb -> (i < s_len p)%nat ->
          rOff <= off + Z.of_nat i < rOff + pointerSize l ->
          s_arr p' !! i
          = bo_put (bo_of l) (Z.to_nat (pointerSize l)) (Resolve rb (baseAddr l))
              !! Z.to_nat (off + Z.of_nat i - rOff))
    /\ (forall i,
          (forall rOff rb, rebases l !! rOff = Some rb ->
             ~ ((i < s_len p)%nat
                /\ rOff <= off + Z.of_nat i < rOff + pointerSize l)) ->
          s_arr p' !! i = s_arr p !! i).
Proof.
  intros Hc Horder Hcap Hoff Hmax Hrange Hdis Hraw.
  assert (Hmem : forall e, e ∈ order <-> rebases l !! fst e = Some (snd e)).
  { intros [k v]. unfold range_order in Horder. rewrite Horder.
    apply elem_of_map_to_list. }
  assert (Hnd : NoDup (order.*1)).
  { unfold range_order in Horder. rewrite Horder. apply NoDup_fst_map_to_list. }
  destruct (patch_loop_overlay l off Hc Hoff order p
              (repeat x00 (Z.to_nat (pointerSize l)))
              (repeat_length _ _) Hcap Hmax Hnd)
    as (p' & buf' & E & Hl & Hcp & Hin & Hout).
  - intros e He. apply (Hrange (fst e) (snd e)). apply Hmem. exact He.
  - intros e1 e2 H1 H2. apply (Hdis (fst e1) (snd e1) (fst e2) (snd e2));
      apply Hmem; assumption.
  - intros e i He. apply (Hraw (fst e) (snd e)). apply Hmem. exact He.
  - exists p'. unfold patchReadBytes. rewrite E.
    split; [reflexivity|]. split; [exact Hl|]. split; [exact Hcp|]. split.
    + intros rOff rb i Hm. apply (Hin (rOff, rb)). apply Hmem. exact Hm.
    + intros i Hi. apply Hout. intros e He. apply (Hi (fst e) (snd e)).
      apply Hmem. exact He.
Qed.

Lemma range_order_two_slots :
  range_order (rebases lrr_two_slots) [(8, rebase_second); (0, rebase_overlay)].
Proof.
  unfold range_order. cbn [rebases lrr_two_slots].
  rewrite map_to_list_insert by reflexivity.
  rewrite map_to_list_singleton. apply Permutation_swap.
Qed.

Lemma two_slots_lookup rOff rb :
  rebases lrr_two_slots !! rOff = Some rb ->
  (rOff = 0 /\ rb = rebase_overlay) \/ (rOff = 8 /\ rb = rebase_second).
Proof.
  cbn [rebases lrr_two_slots]. intros H.
  apply lookup_insert_Some in H. destruct H as [[<- <-]|[_ H]]; [auto|].
  apply lookup_singleton_Some in H. destruct H as [<- <-]. auto.
Qed.

Lemma patchReadBytes_overlays_every_slot_witness :
  let l := lrr_two_slots in
  let p := mkSlice (take 8 (drop 4 image_two_slots)) 8 in
  exists p',
    patchReadBytes l [(8, rebase_second); (0, rebase_overlay)] 4 p = (Ok tt, p')
    /\ s_len p' = s_len p /\ length (s_arr p') = length (s_arr p)
    /\ (forall rOff rb i, rebases l !! rOff = Some rb -> (i < s_len p)%nat ->
          rOff <= 4 + Z.of_nat i < rOff + pointerSize l ->
          s_arr p' !! i
          = bo_put (bo_of l) (Z.to_nat (pointerSize l)) (Resolve rb (baseAddr l))
              !! Z.to_nat (4 + Z.of_nat i - rOff))
    /\ (forall i,
          (forall rOff rb, rebases l !! rOff = Some rb ->
             ~ ((i < s_len p)%nat
                /\ rOff <= 4 + Z.of_nat i < rOff + pointerSize l)) ->
          s_arr p' !! i = s_arr p !! i).
Proof.
  apply (patchReadBytes_overlays_every_slot lrr_two_slots
           [(8, rebase_second); (0, rebase_overlay)]
           (mkSlice (take 8 (drop 4 image_two_slots)) 8) 4).
  - left. split; reflexivity.
  - exact range_order_two_slots.
  - cbn. lia.
  - lia.
  - cbn. lia.
  - intros rOff rb H.
    destruct (two_slots_lookup _ _ H) as [[-> ->]|[-> ->]]; cbn; lia.
  - intros rOff rb rOff' rb' H H'.
    destruct (two_slots_lookup _ _ H) as [[-> ->]|[-> ->]];
      destruct (two_slots_lookup _ _ H') as [[-> ->]|[-> ->]]; cbn; lia.
  - intros rOff rb i H Hi Hs. cbn [s_len] in Hi.
    destruct (two_slots_lookup _ _ H) as [[-> ->]|[-> ->]];
      cbn [pointerSize lrr_two_slots] in Hs;
      do 8 (destruct i as [|i]; [try lia; vm_compute; reflexivity|]); lia.
Defined.

(* --------------------------------------------------------------------- *)
(** ** A read strictly inside a slot                                     *)
(* --------------------------------------------------------------------- *)

(** One rebase whose slot contains the read strictly: the length of the
    window is worked out larger than the read, and the slice expression
    on a buffer without spare capacity panics. *)
Lemma patch_one_inside_panics l off rOff rb p buf :
  codec_matches l ->
  length buf = Z.to_nat (pointerSize l) ->
  length (s_arr p) = s_len p ->
  0 <= rOff < 2 ^ 62 -> rOff < off ->
  off + Z.of_nat (s_len p) < rOff + pointerSize l ->
  fst (patch_one l off (uint64 (off + Z.of_nat (s_len p))) rOff rb (p, buf))
  = Panic.
Proof.
  intros Hc Hb Hcap Hr Hlt Hin.
  assert (Hps : pointerSize l = 8 \/ pointerSize l = 4)
    by (destruct Hc as [[? _]|[? _]]; auto).
  unfold patch_one. cbv beta iota zeta.
  rewrite (writePointer_exact l buf (Raw rb) Hc Hb). cbv beta iota.
  set (ps := pointerSize l) in *. set (len := Z.of_nat (s_len p)) in *.
  rewrite (uint64_small (rOff + ps)) by lia.
  rewrite (uint64_small (off + len)) by lia.
  destruct (Z.ltb_spec (rOff + ps) off) as [|_]; [lia|].
  destruct (Z.ltb_spec (off + len) rOff) as [|_]; [lia|].
  cbn [orb].
  destruct (Z.ltb_spec rOff off) as [_|]; [|lia].
  rewrite (uint64_small (off - rOff)) by lia.
  rewrite (uint64_small (ps - (off - rOff))) by lia.
  rewrite (uint64_small (rOff + (ps - (off - rOff)))) by lia.
  assert (Hsub : forall dstSize, len < dstSize < 2 ^ 63 ->
            subslice (s_arr p) 0 (uint64 (0 + dstSize)) = Panic).
  { intros dstSize Hd. unfold subslice.
    rewrite (uint64_small (0 + dstSize)) by lia.
    destruct (Z.leb_spec (0 + dstSize) (Z.of_nat (length (s_arr p)))) as [Hle|_].
    - rewrite Hcap in Hle. unfold len in *. lia.
    - rewrite andb_false_r. reflexivity. }
  destruct (Z.ltb_spec (off + len) (rOff + (ps - (off - rOff)))).
  - rewrite (uint64_small (rOff + (ps - (off - rOff)) - (off + len))) by lia.
    rewrite (uint64_small (ps - (off - rOff)
                           - (rOff + (ps - (off - rOff)) - (off + len)))) by lia.
    rewrite Hsub by lia.
    destruct (subslice _ _ _); reflexivity.
  - rewrite Hsub by lia.
    destruct (subslice _ _ _); reflexivity.
Qed.

(** A read that lies strictly inside the slot of a recorded rebase (it
    begins after the slot's first byte and ends before its end), into a
    buffer without spare capacity, while the other rebases lie outside
    the read: whatever bytes the underlying reader delivers and in
    whatever order the map is visited, [ReadAt] panics on the slice
    expression of the patch. *)
Theorem ReadAt_strictly_inside_a_slot_panics
    Resolve_of fuel order l rOff rb p off :
  is_Some (dcf l) ->
  codec_matches l ->
  range_order (rebases l) order ->
  rebases l !! rOff = Some rb ->
  0 <= rOff < 2 ^ 62 ->
  rOff < off -> off + Z.of_nat (s_len p) < rOff + pointerSize l ->
  (forall rOff' rb',
     rebases l !! rOff' = Some rb' -> rOff' <> rOff ->
     0 <= rOff' < 2 ^ 64
     /\ (rOff' + pointerSize l <= off \/ off + Z.of_nat (s_len p) <= rOff')) ->
  length (s_arr p) = s_len p ->
  snd (Reader_ l (s_len p) off) = None ->
  ReadAt Resolve_of fuel order p off l = (ReadPanic, l).
Proof.
  intros [d Hd] Hc Horder Hin Hr Hlt Hins Hothers Hcap Hrd.
  assert (Hps : pointerSize l = 8 \/ pointerSize l = 4)
    by (destruct Hc as [[? _]|[? _]]; auto).
  unfold ReadAt, ReadAt_init, bind, get. rewrite Hd. cbn [ret].
  destruct (underlying_ReadAt_shape (Reader_ l) p off ltac:(lia)) as [Hl1 Ha1].
  assert (Herr : snd (underlying_ReadAt (Reader_ l) p off) = None).
  { unfold underlying_ReadAt. destruct (Reader_ l (s_len p) off) as [bs err].
    cbn [snd] in *. exact Hrd. }
  destruct (underlying_ReadAt (Reader_ l) p off) as [[p1 n] err].
  cbn [fst snd] in *. subst err.
  assert (Hcap1 : length (s_arr p1) = s_len p1) by congruence.
  rewrite <- Hl1 in Hins, Hothers.
  destruct (range_order_split (rebases l) order rOff rb _ Horder Hin Hothers)
    as (pre & post & -> & Hpre & Hpost).
  unfold patchReadBytes. rewrite (uint64_small off) by lia.
  rewrite patch_loop_app. unfold bind at 1.
  destruct (patch_loop_outside l off _ p1 Hc ltac:(lia) ltac:(lia) ltac:(lia)
              eq_refl pre (repeat x00 (Z.to_nat (pointerSize l)))
              (repeat_length _ _) Hpre) as (buf1 & E1 & Hb1).
  rewrite E1. cbn [patch_loop]. unfold bind at 1.
  assert (E := patch_one_inside_panics l off rOff rb p1 buf1 Hc Hb1 Hcap1 Hr Hlt Hins).
  destruct (patch_one l off _ rOff rb (p1, buf1)) as [o [p2 buf2]].
  cbn [fst] in E. subst o. reflexivity.
Qed.

Lemma ReadAt_strictly_inside_a_slot_panics_witness :
  ReadAt Resolve_raw 1 [(0, rebase_overlay)] (make_bytes 3) 2 lrr_overlay
  = (ReadPanic, lrr_overlay).
Proof.
  apply (ReadAt_strictly_inside_a_slot_panics Resolve_raw 1
           [(0, rebase_overlay)] lrr_overlay 0 rebase_overlay (make_bytes 3) 2).
  - cbn. eauto.
  - left. split; reflexivity.
  - exact range_order_overlay.
  - reflexivity.
  - lia.
  - lia.
  - cbn. lia.
  - intros rOff' rb' H Hne. cbn [rebases lrr_overlay] in H.
    apply lookup_singleton_Some in H. destruct H as [<- _]. contradiction.
  - reflexivity.
  - reflexivity.
Defined.

(* --------------------------------------------------------------------- *)
(** ** Where [Parse] can panic                                           *)
(* --------------------------------------------------------------------- *)

Lemma walk_extends_lookup d1 d i s1 :
  walk_extends d1 d -> Starts_list d1 !! i = Some s1 ->
  exists s, Starts_list d !! i = Some s
            /\ InSegment s = InSegment s1 /\ PageStarts s = PageStarts s1.
Proof.
  intros (_ & _ & _ & _ & _ & _ & H) Hs.
  destruct (Forall2_lookup_l _ _ _ _ _ H Hs) as (s & Hs' & E1 & E2 & _).
  exists s. auto.
Qed.

(** A chain walk in a segment that exists does not panic when no bind of
    the segment's format can have an ordinal beyond the imports. *)
Lemma no_panic_walkDcFixupChain d1 fuel i pi off s1 :
  Starts_list d1 !! i = Some s1 ->
  (forall k ptr bk,
     DCPtrKind_of (PointerFormat (InSegment s1)) = Some k ->
     slot_kind k ptr = IsBind bk ->
     Bind_Ordinal bk ptr < Z.of_nat (length (Imports d1))) ->
  no_panic_under (walk_extends d1) (walkDcFixupChain fuel i pi off).
Proof.
  intros Hs1 Hord d Hd.
  destruct (walk_extends_lookup d1 d i s1 Hd Hs1) as (s & Hs & E1 & _).
  assert (Hi : Imports d = Imports d1) by (destruct Hd as (_ & _ & _ & _ & H & _); exact H).
  unfold walkDcFixupChain, bind. rewrite (Starts_at_Some _ _ _ Hs).
  destruct (DCPtrKind_of (PointerFormat (InSegment s))) as [k|] eqn:Hk.
  - apply (no_panic_walk_loop i s k (Imports d) _ _ Hk).
    + intros ptr bk Hb. rewrite Hi. apply (Hord k ptr bk); [|exact Hb].
      rewrite <- E1. exact Hk.
    + split; [reflexivity|]. exists [].
      split; [apply seg_is_init; exact Hs|constructor].
  - destruct fuel as [|fuel]; [discriminate|]. cbn [walk_loop].
    unfold bind at 1, sr_Seek, modify. unfold bind at 1.
    rewrite (Starts_at_Some i _ s) by exact Hs. rewrite Hk. discriminate.
Qed.

Lemma no_panic_if {A} P (b : bool) (m1 m2 : DCF A) :
  no_panic_under P m1 -> no_panic_under P m2 ->
  no_panic_under P (if b then m1 else m2).
Proof. destruct b; auto. Qed.

Lemma run_terminated_entry ps idx :
  0 <= idx -> run_terminated ps idx = true ->
  exists e, ps !! Z.to_nat idx = Some e
            /\ (has_bits e DYLD_CHAINED_PTR_START_LAST = false ->
                run_terminated ps (idx + 1) = true).
Proof.
  intros Hidx. unfold run_terminated.
  replace (Z.to_nat (idx + 1)) with (S (Z.to_nat idx)) by lia.
  generalize (Z.to_nat idx). intros n.
  destruct (ps !! n) as [e|] eqn:E.
  - intros H. exists e. split; [reflexivity|]. intros Hl.
    rewrite (drop_S _ _ _ E) in H. cbn [existsb] in H. rewrite Hl in H. exact H.
  - apply lookup_ge_None_1 in E. rewrite drop_ge by lia. discriminate.
Qed.

Lemma no_panic_overflow_loop d1 wf i pi ps s1 :
  Starts_list d1 !! i = Some s1 ->
  (forall k ptr bk,
     DCPtrKind_of (PointerFormat (InSegment s1)) = Some k ->
     slot_kind k ptr = IsBind bk ->
     Bind_Ordinal bk ptr < Z.of_nat (length (Imports d1))) ->
  Z.of_nat (length ps) < 65536 ->
  forall fuel idx,
    0 <= idx -> run_terminated ps idx = true ->
    no_panic_under (walk_extends d1) (overflow_loop fuel wf i pi ps idx).
Proof.
  intros Hs1 Hord Hlen. induction fuel as [|fuel IH]; intros idx Hidx Hrun.
  - intros d _. discriminate.
  - cbn [overflow_loop].
    destruct (run_terminated_entry ps idx Hidx Hrun) as (e & E & Hnext).
    rewrite E.
    apply no_panic_bind.
    + apply (no_panic_walkDcFixupChain d1 wf i pi _ s1 Hs1 Hord).
    + apply walk_extends_walkDcFixupChain.
    + intros _. destruct (has_bits e DYLD_CHAINED_PTR_START_LAST) eqn:El.
      * apply no_panic_ret.
      * specialize (Hnext eq_refl).
        assert (Hlt : idx + 1 < 65536).
        { unfold run_terminated in Hnext.
          destruct (decide (length ps <= Z.to_nat (idx + 1))%nat) as [Hge|Hlt].
          - rewrite drop_ge in Hnext by lia. discriminate.
          - lia. }
        assert (Hu : uint16 (idx + 1) = idx + 1)
          by (unfold uint16; apply Z.mod_small; lia).
        rewrite Hu. apply IH; [lia|exact Hnext].
Qed.

Lemma no_panic_Parse_page d1 fuel i ps pi s1 :
  Starts_list d1 !! i = Some s1 ->
  PageStarts s1 = Some ps ->
  seg_walkable (length (Imports d1)) s1 ->
  0 <= pi < PageCount (InSegment s1) ->
  no_panic_under (walk_extends d1) (Parse_page fuel i ps pi).
Proof.
  intros Hs1 Hps Hw Hpi. destruct (Hw ps Hps) as ((Hlen & Hnn) & Hcount & Hruns & Hord).
  unfold Parse_page.
  destruct (lookup_lt_is_Some_2 ps (Z.to_nat pi)) as [e E]; [lia|].
  rewrite E.
  destruct (Z.eqb_spec e DYLD_CHAINED_PTR_START_NONE) as [|Hne];
    [apply no_panic_ret|].
  destruct (has_bits e DYLD_CHAINED_PTR_START_MULTI) eqn:Em.
  - apply (no_panic_overflow_loop d1 fuel i pi ps s1 Hs1 Hord Hlen).
    + apply and_not_nonneg. rewrite Forall_forall in Hnn. apply Hnn.
      apply (list_elem_of_lookup_2 _ _ _ E).
    + apply (Hruns (Z.to_nat pi) e E); [lia|exact Em|exact Hne].
  - apply (no_panic_walkDcFixupChain d1 fuel i pi e s1 Hs1 Hord).
Qed.

Lemma no_panic_Parse_pages d1 fuel i ps s1 :
  Starts_list d1 !! i = Some s1 ->
  PageStarts s1 = Some ps ->
  seg_walkable (length (Imports d1)) s1 ->
  forall n pi,
    0 <= pi -> pi + Z.of_nat n <= PageCount (InSegment s1) ->
    no_panic_under (walk_extends d1) (Parse_pages n fuel i ps pi).
Proof.
  intros Hs1 Hps Hw. induction n as [|n IH]; intros pi H0 Hn; cbn [Parse_pages].
  - apply no_panic_ret.
  - apply no_panic_bind.
    + apply (no_panic_Parse_page d1 fuel i ps pi s1 Hs1 Hps Hw). lia.
    + apply walk_extends_Parse_page.
    + intros _. apply IH; lia.
Qed.

Lemma no_panic_Parse_segments d1 fuel :
  Forall (seg_walkable (length (Imports d1))) (Starts_list d1) ->
  forall n i,
    (i + n <= length (Starts_list d1))%nat ->
    no_panic_under (walk_extends d1) (Parse_segments n fuel i).
Proof.
  intros Hall. induction n as [|n IH]; intros i Hn; cbn [Parse_segments].
  - apply no_panic_ret.
  - intros d Hd.
    destruct (lookup_lt_is_Some_2 (Starts_list d1) i) as [s1 Hs1]; [lia|].
    destruct (walk_extends_lookup d1 d i s1 Hd Hs1) as (s & Hs & E1 & E2).
    unfold bind at 1. rewrite (Starts_at_Some _ _ _ Hs). rewrite E2, E1.
    assert (Hw : seg_walkable (length (Imports d1)) s1).
    { rewrite Forall_forall in Hall. apply Hall.
      apply (list_elem_of_lookup_2 _ _ _ Hs1). }
    destruct (PageStarts s1) as [ps|] eqn:Hps.
    + revert d Hd Hs. intros d Hd _. revert d Hd.
      apply no_panic_bind.
      * destruct (Z.le_gt_cases 0 (PageCount (InSegment s1))) as [Hpc|Hpc].
        -- apply (no_panic_Parse_pages d1 fuel i ps s1 Hs1 Hps Hw); lia.
        -- replace (Z.to_nat (PageCount (InSegment s1))) with 0%nat by lia.
           apply no_panic_ret.
      * apply walk_extends_Parse_pages.
      * intros _. apply IH. lia.
    + apply IH; [lia|exact Hd].
Qed.

Lemma seg_walkable_mono n m s :
  (n <= m)%nat -> seg_walkable n s -> seg_walkable m s.
Proof.
  intros Hnm H ps Hps. destruct (H ps Hps) as (H1 & H2 & H3 & H4).
  repeat split; try assumption; try apply H1.
  intros k ptr bk Hk Hb. specialize (H4 k ptr bk Hk Hb). lia.
Qed.

Lemma no_panic_r_Read P n : no_panic_under P (r_Read n).
Proof.
  intros d _. unfold r_Read, on_r, Reader_ReadFull.
  destruct n; [discriminate|].
  destruct (drop _ _); [discriminate|].
  destruct (_ <? _)%nat; discriminate.
Qed.

Lemma no_panic_parseImports_names :
  forall imports d, fst (parseImports_names imports d) <> Panic.
Proof.
  induction imports as [|i rest IH]; intros d; cbn [parseImports_names].
  - discriminate.
  - unfold bind at 1, get. unfold ReadString0.
    destruct (until_nul _); [|discriminate].
    unfold bind, modify. apply IH.
Qed.

Lemma no_panic_parseImports d : fst (parseImports d) <> Panic.
Proof.
  unfold parseImports. unfold bind at 1, get.
  unfold bind at 1, r_Seek, modify.
  set (d1 := set_r _ d).
  assert (H : forall (A B : Type) (m : DCF A) (k : A -> DCF B) x,
            fst (m x) <> Panic -> (forall a y, fst (k a y) <> Panic) ->
            fst (bind m k x) <> Panic).
  { intros A B m k x Hm Hk. unfold bind. destruct (m x) as [[a| | |] y];
      cbn [fst] in *; auto; discriminate. }
  apply H.
  - unfold read_imports. unfold bind at 1, get.
    repeat match goal with
           | |- context [if ?b then _ else _] => destruct b
           end;
      try (apply H; [apply (no_panic_r_Read (fun _ => True)); exact I
                    |intros a y; unfold ret; cbn; discriminate]).
    unfold ret; cbn; discriminate.
  - intros imports y. apply no_panic_parseImports_names.
Qed.

(** [Parse] panics only at its index expressions.  On a receiver with
    parsed starts where every segment has its [PageCount] page starts (as
    [ParseStarts] leaves them), every run of overflow entries has an
    entry with the LAST bit, and no format at hand has a bind whose
    ordinal could reach the number of imports, [Parse] does not panic,
    whatever the payload and the image hold. *)
Theorem Parse_does_not_panic_on_walkable_segments fuel d ss :
  Starts d = Some ss ->
  Forall (seg_walkable (length (Imports d))) ss ->
  fst (Parse fuel d) <> Panic.
Proof.
  intros Hs Hall. rewrite (Parse_parsed fuel d ss Hs).
  assert (H1 := preserves_drop_error _ _ (imports_extend_parseImports d) d
                  (imports_extend_refl d)).
  assert (Hnp := no_panic_parseImports d).
  unfold bind at 1. unfold drop_error in *.
  destruct (parseImports d) as [o1 d1]. cbn [fst] in Hnp.
  assert (Hd1 : imports_extend d d1) by (destruct o1 as [[]| | |]; exact H1).
  clear H1. destruct Hd1 as (_ & _ & _ & _ & E5 & imps & E6).
  assert (Hrest : fst (bind get (fun d' =>
                     Parse_segments (length (Starts_list d')) fuel 0) d1)
                  <> Panic).
  { unfold bind, get.
    apply (no_panic_Parse_segments d1 fuel).
    - unfold Starts_list. rewrite E5, Hs. cbn [default from_option].
      apply (Forall_impl _ _ _ Hall). intros s.
      apply seg_walkable_mono. rewrite E6, length_app. lia.
    - cbn. lia.
    - apply walk_extends_refl. rewrite E5, Hs. discriminate. }
  destruct o1 as [[]| | |]; try exact Hrest; try contradiction; discriminate.
Qed.

Lemma Parse_does_not_panic_on_walkable_segments_witness :
  fst (Parse 200 dcf_S4_cache) <> Panic.
Proof.
  apply (Parse_does_not_panic_on_walkable_segments 200 dcf_S4_cache
           [mkStarts (mkStartsInSegment 0 0x1000 4 0 0 1)
                     (Some page_starts_S4) []]).
  - reflexivity.
  - constructor; [|constructor]. intros ps [= <-].
    split; [split; [vm_compute; reflexivity|repeat constructor; discriminate]|].
    split; [cbn; lia|]. split.
    + intros pi e He Hpi Hm Hne. cbn [PageCount InSegment] in Hpi.
      destruct pi as [|pi]; [|lia]. injection He as <-.
      vm_compute. reflexivity.
    + intros k ptr bk Hk Hb. cbn [PointerFormat InSegment] in Hk.
      vm_compute in Hk. injection Hk as <-. discriminate.
Defined.

(* --------------------------------------------------------------------- *)
(** ** The records of a whole [Parse]                                    *)
(* --------------------------------------------------------------------- *)

Lemma parse_fits_refl d : parse_fits d d.
Proof.
  repeat split.
  apply Forall_Forall2_diag, Forall_forall. intros s _.
  repeat split. exists []. rewrite app_nil_r. auto.
Qed.

Lemma parse_fits_sr_Seek d0 off : preserves (parse_fits d0) (sr_Seek off).
Proof.
  intros d (H1 & H2 & H3 & H4). unfold sr_Seek, modify. cbn [snd].
  repeat split; auto. cbn. rewrite Reader_Seek_data. exact H3.
Qed.

Lemma parse_fits_read_slot d0 w : preserves (parse_fits d0) (read_slot w).
Proof.
  intros d (H1 & H2 & H3 & H4).
  unfold read_slot, bind, get, on_sr, ret.
  assert (Hd := Reader_ReadFull_data w (sr d)).
  destruct (Reader_ReadFull w (sr d)) as [[bs| | |] x]; cbn [snd] in *;
    repeat split; auto; cbn; rewrite Hd; exact H3.
Qed.

(** What a slot read returns is the word of the image where the reader
    stands. *)
Lemma read_slot_value w d ptr d' :
  (0 < w)%nat -> 0 <= rd_pos (sr d) ->
  read_slot w d = (Ok ptr, d') ->
  slot_in_image (bo d) (rd_data (sr d)) w (rd_pos (sr d)) ptr.
Proof.
  intros Hw Hpos. unfold read_slot, bind, get, on_sr, ret, Reader_ReadFull.
  destruct w as [|w]; [lia|].
  destruct (drop _ _) as [|b avail] eqn:Hd; [discriminate|].
  destruct (Nat.ltb_spec (length (b :: avail)) (S w)); [discriminate|].
  intros [= <- <-]. split; [|rewrite Hd; reflexivity].
  assert (Hl : length (drop (Z.to_nat (rd_pos (sr d))) (rd_data (sr d)))
               = length (b :: avail)) by (rewrite Hd; reflexivity).
  rewrite length_drop in Hl. lia.
Qed.

Lemma parse_fits_append_Fixup d0 i k f :
  walking i k d0 -> record_fits k (Imports d0) f ->
  record_in_image (bo d0) (rd_data (sr d0)) k f ->
  preserves (parse_fits d0) (append_Fixup i f).
Proof.
  intros Hw Hf Him d (Hi & Hbo & Hdata & H). unfold append_Fixup, Starts_update.
  destruct (Starts_list d !! i) as [s|] eqn:Hs; [|repeat split; assumption].
  cbn [snd]. split; [exact Hi|]. split; [exact Hbo|]. split; [exact Hdata|].
  change (Starts_list (set_Starts _ d))
    with (<[i := set_Fixups (Fixups s ++ [f]) s]> (Starts_list d)).
  destruct (Forall2_lookup_r _ _ _ _ _ H Hs)
    as (s0 & Hs0 & (E1 & E2 & recs & E3 & Hrecs)).
  rewrite <- (list_insert_id _ _ _ Hs0).
  apply Forall2_insert; [exact H|].
  split; [exact E1|]. split; [exact E2|].
  exists (recs ++ [f]). split; [cbn; rewrite E3, <- app_assoc; reflexivity|].
  right. destruct (Hw s0 Hs0) as [Hp Hk]. split; [exact Hp|].
  exists k. split; [exact Hk|].
  apply Forall_app. split; [|constructor; [split; assumption|constructor]].
  destruct Hrecs as [->|(_ & k' & Hk' & Hall)]; [constructor|].
  rewrite Hk in Hk'. injection Hk' as <-. exact Hall.
Qed.

Lemma parse_fits_append_rebase d0 i k rk ptr loc :
  walking i k d0 -> slot_kind k ptr = IsRebase rk ->
  0 <= loc ->
  (loc < 2 ^ 63 ->
   slot_in_image (bo d0) (rd_data (sr d0)) (slot_width k) loc ptr) ->
  preserves (parse_fits d0) (append_rebase i rk ptr loc).
Proof.
  intros Hw Hk Hloc Him. apply (parse_fits_append_Fixup d0 i k _ Hw).
  - split; [symmetry; exact Hk|exact I].
  - split; [exact Hloc|exact Him].
Qed.

Lemma parse_fits_append_bind d0 i k bk ptr loc :
  walking i k d0 -> slot_kind k ptr = IsBind bk ->
  0 <= loc ->
  (loc < 2 ^ 63 ->
   slot_in_image (bo d0) (rd_data (sr d0)) (slot_width k) loc ptr) ->
  preserves (parse_fits d0) (append_bind i bk ptr loc).
Proof.
  intros Hw Hk Hloc Him d H. unfold append_bind, bind, Imports_Name.
  destruct (Imports d !! Z.to_nat (Bind_Ordinal bk ptr)) as [imp|] eqn:E;
    [|exact H].
  apply (parse_fits_append_Fixup d0 i k _ Hw); [| |exact H].
  - split; [symmetry; exact Hk|]. exists imp. destruct H as [<- _]. auto.
  - split; [exact Hloc|exact Him].
Qed.

Ltac fits_append Hw Hloc Him :=
  lazymatch goal with
  | |- preserves _ (append_bind _ _ _ _) =>
    eapply parse_fits_append_bind; [exact Hw| |exact Hloc|exact Him]
  | |- preserves _ (append_rebase _ _ _ _) =>
    eapply parse_fits_append_rebase; [exact Hw| |exact Hloc|exact Him]
  | |- preserves _ (ret _) => apply preserves_ret
  end.

(** The records of one slot, appended where the reader stands at the
    slot's location. *)
Lemma parse_fits_walk_slot d0 i k loc d :
  walking i k d0 ->
  parse_fits d0 d ->
  (loc < 2 ^ 63 -> rd_pos (sr d) = loc) -> 0 <= loc ->
  parse_fits d0 (snd (walk_slot i k loc d)).
Proof.
  intros Hw Hd Hpos Hloc.
  assert (Hread : forall w, w = slot_width k ->
            forall (body : Z -> DCF Z),
              (forall ptr,
                 (loc < 2 ^ 63 ->
                  slot_in_image (bo d0) (rd_data (sr d0)) (slot_width k) loc ptr) ->
                 preserves (parse_fits d0) (body ptr)) ->
              parse_fits d0 (snd (bind (read_slot w) body d))).
  { intros w Hwd body Hbody. unfold bind.
    assert (Hp := parse_fits_read_slot d0 w d Hd).
    destruct (read_slot w d) as [[ptr| | |] d1] eqn:E; cbn [snd] in Hp;
      try exact Hp.
    apply Hbody; [|exact Hp]. intros Hlt.
    destruct Hd as (_ & Hbo & Hdata & _). rewrite <- Hbo, <- Hdata, <- Hwd.
    rewrite <- (Hpos Hlt).
    apply (read_slot_value w d ptr d1); [|rewrite (Hpos Hlt); exact Hloc|exact E].
    rewrite Hwd. assert (H := slot_width_pos k). lia. }
  destruct k; unfold walk_slot; apply Hread; try reflexivity; intros ptr Him;
    (apply preserves_bind; [|intros _; apply preserves_ret]);
    try match goal with
        | |- context [Generic32IsBind ?p] =>
          destruct (Generic32IsBind p) eqn:Eb
        | |- context [Generic64IsBind ?p] =>
          destruct (Generic64IsBind p) eqn:Eb
        | |- context [DcpArm64eIsBind ?p] =>
          destruct (DcpArm64eIsBind p) eqn:Eb, (DcpArm64eIsAuth p) eqn:Ea;
          cbn [negb andb]
        end;
    cbv iota;
    fits_append Hw Hloc Him; cbn [slot_kind]; rewrite ?Eb, ?Ea; reflexivity.
Qed.

Lemma parse_fits_walk_loop d0 i pcs off :
  paged i d0 ->
  forall fuel next,
    preserves (parse_fits d0) (walk_loop fuel i pcs off next).
Proof.
  intros Hp. induction fuel as [|fuel IH]; intros next; cbn [walk_loop].
  - apply preserves_out_of_fuel.
  - intros d Hd0. unfold bind at 1, sr_Seek at 1, modify.
    set (loc := uint64 (pcs + off + next)).
    set (d1 := set_sr (Reader_Seek (int64 loc) (sr d)) d).
    assert (Hd : parse_fits d0 d1) by (apply (parse_fits_sr_Seek d0 (int64 loc) d Hd0)).
    assert (Hloc : 0 <= loc < 2 ^ 64) by apply uint64_range.
    assert (Hpos : loc < 2 ^ 63 -> rd_pos (sr d1) = loc).
    { intros Hlt. unfold d1. cbn [sr set_sr]. unfold Reader_Seek.
      rewrite (int64_of_uint64 loc Hloc).
      destruct (Z.ltb_spec loc (2 ^ 63)); [|lia].
      destruct (Z.ltb_spec loc 0); [lia|]. reflexivity. }
    clearbody d1. unfold bind at 1, Starts_at.
    destruct (Starts_list d1 !! i) as [s'|] eqn:Hs'; [|exact Hd].
    destruct Hd as (Hi & Hbo & Hdata & H).
    destruct (Forall2_lookup_r _ _ _ _ _ H Hs') as (s0 & Hs0 & (E1 & _)).
    rewrite E1.
    destruct (DCPtrKind_of (PointerFormat (InSegment s0))) as [k|] eqn:Hk;
      [|repeat split; assumption].
    assert (Hw : walking i k d0).
    { intros s Hs. rewrite Hs0 in Hs. injection Hs as <-.
      split; [apply (Hp s0 Hs0)|exact Hk]. }
    assert (Hd : parse_fits d0 d1) by (repeat split; assumption).
    assert (Hslot := parse_fits_walk_slot d0 i k loc d1 Hw Hd Hpos ltac:(lia)).
    unfold bind.
    destruct (walk_slot i k loc d1) as [[nx| | |] d2]; cbn [snd] in Hslot;
      try exact Hslot.
    destruct (nx =? 0); [exact Hslot|]. apply IH. exact Hslot.
Qed.

Lemma parse_fits_walkDcFixupChain d0 fuel i pi off :
  paged i d0 -> preserves (parse_fits d0) (walkDcFixupChain fuel i pi off).
Proof.
  intros Hp. unfold walkDcFixupChain.
  apply preserves_bind; [apply preserves_Starts_at|intros s].
  apply parse_fits_walk_loop. exact Hp.
Qed.

Lemma parse_fits_overflow_loop d0 wf i pi ps :
  paged i d0 ->
  forall fuel idx, preserves (parse_fits d0) (overflow_loop fuel wf i pi ps idx).
Proof.
  intros Hp. induction fuel as [|fuel IH]; intros idx; cbn [overflow_loop].
  - apply preserves_out_of_fuel.
  - destruct (ps !! Z.to_nat idx); [|apply preserves_panic].
    apply preserves_bind; [apply parse_fits_walkDcFixupChain; exact Hp|intros _].
    apply preserves_if; [apply preserves_ret|apply IH].
Qed.

Lemma parse_fits_Parse_page d0 fuel i ps pi :
  paged i d0 -> preserves (parse_fits d0) (Parse_page fuel i ps pi).
Proof.
  intros Hp. unfold Parse_page.
  destruct (ps !! Z.to_nat pi); [|apply preserves_panic].
  apply preserves_if; [apply preserves_ret|].
  apply preserves_if;
    [apply parse_fits_overflow_loop|apply parse_fits_walkDcFixupChain]; exact Hp.
Qed.

Lemma parse_fits_Parse_pages d0 fuel i ps :
  paged i d0 ->
  forall n pi, preserves (parse_fits d0) (Parse_pages n fuel i ps pi).
Proof.
  intros Hp. induction n as [|n IH]; intros pi; cbn [Parse_pages].
  - apply preserves_ret.
  - apply preserves_bind; [apply parse_fits_Parse_page; exact Hp|intros _].
    apply IH.
Qed.

Lemma parse_fits_Parse_segments d0 fuel :
  forall n i, preserves (parse_fits d0) (Parse_segments n fuel i).
Proof.
  induction n as [|n IH]; intros i; cbn [Parse_segments].
  - apply preserves_ret.
  - apply preserves_bind_Starts_at. intros s' d Hd Hs'.
    destruct (PageStarts s') as [ps|]; [|apply IH; exact Hd].
    destruct (Z.to_nat (PageCount (InSegment s'))) as [|n'] eqn:En.
    + cbn [Parse_pages]. unfold bind, ret. apply IH. exact Hd.
    + assert (Hpg : paged i d0).
      { intros s0 Hs0. destruct Hd as (_ & _ & _ & H).
        destruct (Forall2_lookup_r _ _ _ _ _ H Hs') as (s0' & Hs0' & (E1 & _)).
        rewrite Hs0 in Hs0'. injection Hs0' as <-. rewrite <- E1. lia. }
      apply (preserves_bind (parse_fits d0));
        [apply parse_fits_Parse_pages; exact Hpg|intros _; apply IH|exact Hd].
Qed.

(** The part of [Parse] that follows [ParseStarts]. *)
Lemma Parse_tail_fits fuel d :
  parse_fits (snd (parseImports d))
    (snd (bind (drop_error parseImports)
               (fun _ => bind get (fun d' =>
                  Parse_segments (length (Starts_list d')) fuel 0)) d)).
Proof.
  unfold bind at 1.
  assert (Hst := drop_error_state parseImports d).
  rewrite <- Hst.
  destruct (drop_error parseImports d) as [o1 d1]. cbn [snd] in *.
  destruct o1 as [[]| | |]; try apply parse_fits_refl.
  unfold bind, get.
  apply parse_fits_Parse_segments. apply parse_fits_refl.
Qed.

Lemma Parse_parse_fits fuel d ss :
  Starts d = Some ss ->
  Starts (snd (parseImports d)) = Some ss
  /\ bo (snd (parseImports d)) = bo d
  /\ sr (snd (parseImports d)) = sr d
  /\ parse_fits (snd (parseImports d)) (snd (Parse fuel d)).
Proof.
  intros Hs.
  assert (H1 := imports_extend_parseImports d d (imports_extend_refl d)).
  destruct H1 as (_ & E2 & _ & E4 & E5 & _).
  split; [rewrite E5; exact Hs|]. split; [exact E2|]. split; [exact E4|].
  rewrite (Parse_parsed fuel d ss Hs). apply Parse_tail_fits.
Qed.

(** The records that [Parse] appends, on a receiver with parsed starts
    and however it ends.  A segment without pages or of an unknown format
    gets none.  The records of any other segment are of the types that
    the [switch] on its format gives for their slot words; every bind
    carries the name of the import that its ordinal selects among the
    imports as [Parse] leaves them; and every record whose location is
    below 2^63 holds the word that the image has at that location, in
    the width of the format. *)
Theorem Parse_records_fit_their_segments fuel d ss :
  Starts d = Some ss ->
  Forall2 (seg_fitted (Imports (snd (Parse fuel d))) (bo d) (rd_data (sr d)))
          ss (Starts_list (snd (Parse fuel d))).
Proof.
  intros Hs.
  destruct (Parse_parse_fits fuel d ss Hs) as (E & Ebo & Esr & Hi & _ & _ & H).
  rewrite Hi. unfold Starts_list at 1 in H. rewrite E, Ebo, Esr in H. exact H.
Qed.

Lemma Parse_records_fit_their_segments_witness :
  Forall2 (seg_fitted (Imports (snd (Parse 10 dcf_escape))) (bo dcf_escape)
                      (rd_data (sr dcf_escape)))
          [seg_escape] (Starts_list (snd (Parse 10 dcf_escape))).
Proof.
  apply (Parse_records_fit_their_segments 10 dcf_escape [seg_escape]).
  reflexivity.
Defined.

(* --------------------------------------------------------------------- *)
(** ** [GetImportForPointer] and the walked binds                        *)
(* --------------------------------------------------------------------- *)

Lemma ExtractBits_uint32 x start nbits :
  0 <= start -> 0 <= nbits -> start + nbits <= 32 ->
  ExtractBits (uint32 x) start nbits = ExtractBits x start nbits.
Proof.
  intros H1 H2 H3. unfold ExtractBits, uint32.
  apply Z.bits_inj'. intros n Hn.
  rewrite !Z.land_spec, !Z.shiftr_spec by exact Hn.
  destruct (Z.ltb_spec n nbits) as [Hlt|Hge].
  - rewrite Z.mod_pow2_bits_low by lia. reflexivity.
  - rewrite Z.ones_spec_high by lia. rewrite !andb_false_r. reflexivity.
Qed.

(** The ordinal that [GetImportForPointer] works out in a segment with
    pages, for a pointer that the walk under the segment's format records
    as a bind, is the ordinal of that record. *)
Lemma GetImportForPointer_ordinal_of_bind s k bk ptr :
  PageCount (InSegment s) <> 0 ->
  DCPtrKind_of (PointerFormat (InSegment s)) = Some k ->
  k = DYLD_CHAINED_PTR_32 \/ k = DYLD_CHAINED_PTR_64
  \/ k = DYLD_CHAINED_PTR_ARM64E ->
  slot_kind k ptr = IsBind bk ->
  GetImportForPointer_ordinal s ptr = Some (Bind_Ordinal bk ptr).
Proof.
  intros Hpc Hk Hin Hb. unfold GetImportForPointer_ordinal.
  destruct (Z.eqb_spec (PageCount (InSegment s)) 0) as [|_]; [contradiction|].
  rewrite Hk. destruct Hin as [->|[->| ->]]; cbn [slot_kind] in Hb.
  - unfold Generic32IsBind, Ptr32Bind_Ordinal in *.
    rewrite !ExtractBits_uint32 by lia.
    destruct (negb (ExtractBits ptr 31 1 =? 0)); [|discriminate].
    injection Hb as <-. reflexivity.
  - destruct (Generic64IsBind ptr); [|discriminate].
    injection Hb as <-. reflexivity.
  - destruct (DcpArm64eIsBind ptr), (DcpArm64eIsAuth ptr); try discriminate;
      injection Hb as <-; reflexivity.
Qed.

Lemma GetImportForPointer_loop_finds imports starts fmt k bk ptr imp :
  Forall (fun s => PageCount (InSegment s) = 0
                   \/ PointerFormat (InSegment s) = fmt) starts ->
  Exists (fun s => PageCount (InSegment s) <> 0) starts ->
  DCPtrKind_of fmt = Some k ->
  k = DYLD_CHAINED_PTR_32 \/ k = DYLD_CHAINED_PTR_64
  \/ k = DYLD_CHAINED_PTR_ARM64E ->
  slot_kind k ptr = IsBind bk ->
  imports !! Z.to_nat (Bind_Ordinal bk ptr) = Some imp ->
  GetImportForPointer_loop imports starts ptr = Ok imp.
Proof.
  intros Hall Hex Hk Hin Hb Himp.
  induction starts as [|s rest IH]; [inversion Hex|].
  inversion Hall as [|? ? Hs Hrest]; subst.
  cbn [GetImportForPointer_loop].
  destruct (Z.eq_dec (PageCount (InSegment s)) 0) as [Hz|Hnz].
  - assert (E : GetImportForPointer_ordinal s ptr = None).
    { unfold GetImportForPointer_ordinal. rewrite Hz. reflexivity. }
    rewrite E. apply IH; [exact Hrest|].
    inversion Hex; subst; [contradiction|assumption].
  - destruct Hs as [?|Hf]; [contradiction|].
    rewrite (GetImportForPointer_ordinal_of_bind s k bk ptr Hnz
               ltac:(rewrite Hf; exact Hk) Hin Hb).
    assert (H0 : 0 <= Bind_Ordinal bk ptr)
      by (destruct bk; apply ExtractBits_range; lia).
    apply lookup_lt_Some in Himp as Hlt.
    destruct (Z.ltb_spec (Bind_Ordinal bk ptr) (Z.of_nat (length imports)));
      [|lia].
    rewrite Himp. reflexivity.
Qed.

(** The two ways to the import of a bind agree.  In a file whose segments
    with pages all have one format, PTR_32, PTR_64 or ARM64E: for every
    bind record that [Parse] appends, [GetImportForPointer] of the
    record's slot word finds an import, and its name is the name that
    the record carries. *)
Theorem GetImportForPointer_finds_the_import_of_a_walked_bind
    fuel d ss fmt k :
  Starts d = Some ss ->
  Forall (fun s => PageCount (InSegment s) = 0
                   \/ PointerFormat (InSegment s) = fmt) ss ->
  DCPtrKind_of fmt = Some k ->
  k = DYLD_CHAINED_PTR_32 \/ k = DYLD_CHAINED_PTR_64
  \/ k = DYLD_CHAINED_PTR_ARM64E ->
  Forall2 (fun s s' =>
             exists recs,
               Fixups s' = Fixups s ++ recs
               /\ forall bk ptr loc name,
                    BindFixup bk ptr loc name ∈ recs ->
                    exists imp,
                      GetImportForPointer (snd (Parse fuel d)) ptr = Ok imp
                      /\ Name imp = name)
          ss (Starts_list (snd (Parse fuel d))).
Proof.
  intros Hs Hall Hk Hin.
  destruct (Parse_parse_fits fuel d ss Hs) as (E & _ & _ & Hi & _ & _ & H).
  unfold Starts_list at 1 in H. rewrite E in H. cbn [default from_option] in H.
  rewrite <- Hi in H.
  set (d' := snd (Parse fuel d)) in *.
  assert (Hall' : Forall (fun s => PageCount (InSegment s) = 0
                                   \/ PointerFormat (InSegment s) = fmt)
                         (Starts_list d')).
  { apply (Forall2_Forall_r _ _ _ _ H). apply (Forall_impl _ _ _ Hall).
    intros s Hs0 s' (E1 & _). rewrite E1. exact Hs0. }
  apply Forall2_same_length_lookup. split; [apply (Forall2_length _ _ _ H)|].
  intros i s s' Hl Hl'.
  destruct (Forall2_lookup_lr _ _ _ _ _ _ H Hl Hl') as (E1 & E2 & recs & E3 & Hrecs).
  exists recs. split; [exact E3|]. intros bk ptr loc name Hmem.
  destruct Hrecs as [->|(Hpc & k' & Hk' & Hfit)]; [inversion Hmem|].
  assert (Hf : PointerFormat (InSegment s) = fmt).
  { rewrite Forall_forall in Hall.
    destruct (Hall s (list_elem_of_lookup_2 _ _ _ Hl)) as [?|?]; [lia|assumption]. }
  rewrite Hf, Hk in Hk'. injection Hk' as <-.
  rewrite Forall_forall in Hfit.
  destruct (Hfit _ Hmem) as [[Hkind (imp & Himp & ->)] _].
  exists imp. split; [|reflexivity].
  unfold GetImportForPointer.
  apply (GetImportForPointer_loop_finds _ _ fmt k bk ptr imp Hall'); try assumption.
  - apply Exists_exists. exists s'. split; [apply (list_elem_of_lookup_2 _ _ _ Hl')|].
    rewrite E1. lia.
  - symmetry. exact Hkind.
Qed.

Lemma GetImportForPointer_finds_the_import_of_a_walked_bind_witness :
  Forall2 (fun s s' =>
             exists recs,
               Fixups s' = Fixups s ++ recs
               /\ forall bk ptr loc name,
                    BindFixup bk ptr loc name ∈ recs ->
                    exists imp,
                      GetImportForPointer (snd (Parse 10 dcf_S3_starts)) ptr
                      = Ok imp
                      /\ Name imp = name)
          [seg_S3] (Starts_list (snd (Parse 10 dcf_S3_starts))).
Proof.
  apply (GetImportForPointer_finds_the_import_of_a_walked_bind
           10 dcf_S3_starts [seg_S3] 2 DYLD_CHAINED_PTR_64).
  - vm_compute. reflexivity.
  - constructor; [right; reflexivity|constructor].
  - reflexivity.
  - right. left. reflexivity.
Defined.

(* --------------------------------------------------------------------- *)
(** ** Reading through the reader                                        *)
(* --------------------------------------------------------------------- *)

Lemma byte_of_Z_byte_val b : byte_of_Z (byte_val b) = b.
Proof.
  unfold byte_of_Z, byte_val.
  assert (H := Byte.to_N_bounded b).
  rewrite Z.mod_small by lia. rewrite N2Z.id, Byte.of_to_N. reflexivity.
Qed.

Lemma le_bytes_le_uint bs : le_bytes (length bs) (le_uint bs) = bs.
Proof.
  induction bs as [|b bs IH]; [reflexivity|].
  cbn [length le_bytes le_uint].
  assert (Hb := byte_val_range b).
  assert (E1 : byte_of_Z (byte_val b + 256 * le_uint bs) = b).
  { rewrite <- (byte_of_Z_byte_val b) at 2. unfold byte_of_Z.
    replace ((byte_val b + 256 * le_uint bs) mod 256) with (byte_val b mod 256);
      [reflexivity|].
    rewrite (Z.mul_comm 256), Z_mod_plus_full. reflexivity. }
  assert (E2 : (byte_val b + 256 * le_uint bs) / 256 = le_uint bs).
  { rewrite (Z.mul_comm 256), Z.div_add by lia.
    rewrite Z.div_small by lia. lia. }
  rewrite E1, E2, IH. reflexivity.
Qed.

(** Encoding what was decoded gives the bytes back. *)
Lemma bo_put_bo_uint bo bs : bo_put bo (length bs) (bo_uint bo bs) = bs.
Proof.
  destruct bo; cbn [bo_put bo_uint]; [apply le_bytes_le_uint|].
  rewrite <- (length_rev bs), le_bytes_le_uint. apply rev_involutive.
Qed.

Lemma keeps_bo_bind {A B} (m : DCF A) (k : A -> DCF B) :
  keeps_bo m -> (forall a, keeps_bo (k a)) -> keeps_bo (bind m k).
Proof.
  intros Hm Hk d. unfold bind. specialize (Hm d).
  destruct (m d) as [[a| | |] d1]; cbn [snd] in *; auto.
  rewrite (Hk a d1). exact Hm.
Qed.

Lemma keeps_bo_on_r {A} (m : M Reader A) : keeps_bo (on_r m).
Proof. intros d. unfold on_r. destruct (m (r d)); reflexivity. Qed.

Lemma keeps_bo_Starts_update i g : keeps_bo (Starts_update i g).
Proof. intros d. unfold Starts_update. destruct (_ !! _); reflexivity. Qed.

Lemma keeps_bo_Starts_at i : keeps_bo (Starts_at i).
Proof. intros d. unfold Starts_at. destruct (_ !! _); reflexivity. Qed.

Lemma keeps_bo_ParseStarts_segments :
  forall offs i, keeps_bo (ParseStarts_segments i offs).
Proof.
  induction offs as [|o offs IH]; intros i; cbn [ParseStarts_segments].
  - intros d. reflexivity.
  - destruct (o =? 0); [apply IH|].
    intros d. unfold bind at 1, get. revert d.
    intros d0. 
    apply (keeps_bo_bind (r_Seek _)); [intros d; reflexivity|intros _].
    apply keeps_bo_bind; [apply keeps_bo_on_r|intros bs].
    apply keeps_bo_bind; [apply keeps_bo_Starts_update|intros _].
    apply keeps_bo_bind; [apply keeps_bo_Starts_at|intros s].
    apply keeps_bo_bind; [apply keeps_bo_Starts_update|intros _].
    apply keeps_bo_bind; [apply keeps_bo_on_r|intros bs2].
    apply keeps_bo_bind; [apply keeps_bo_Starts_update|intros _].
    apply IH.
Qed.

Lemma keeps_bo_ParseStarts : keeps_bo ParseStarts.
Proof.
  intros d0. unfold ParseStarts. unfold bind at 1, get.
  refine (keeps_bo_bind (r_Read 28) _ _ _ d0); [apply keeps_bo_on_r|intros bs].
  apply keeps_bo_bind; [intros d; reflexivity|intros _].
  apply keeps_bo_bind; [intros d; reflexivity|intros _].
  apply keeps_bo_bind; [apply keeps_bo_on_r|intros bs4].
  apply keeps_bo_bind; [intros d; reflexivity|intros _].
  apply keeps_bo_bind; [apply keeps_bo_on_r|intros bsO].
  apply keeps_bo_ParseStarts_segments.
Qed.

(** The records of a receiver that [Parse] has parsed from scratch: only
    segments with pages and a known format have any, and each record
    whose location can be sought holds the word of the image there. *)
Lemma Parse_unparsed_records fuel d0 d' data :
  Starts d0 = None -> sr_ok data d0 ->
  Parse fuel d0 = (Ok tt, d') ->
  bo d' = bo d0
  /\ Forall (fun s' =>
       Fixups s' = []
       \/ 0 < PageCount (InSegment s')
          /\ exists k, DCPtrKind_of (PointerFormat (InSegment s')) = Some k
                       /\ Forall (record_in_image (bo d0) data k) (Fixups s'))
       (Starts_list d').
Proof.
  intros Hs Hsr. unfold Parse. unfold bind at 1. unfold get at 1. rewrite Hs.
  unfold bind at 1.
  assert (Hbo := keeps_bo_ParseStarts d0).
  assert (Hsr1 := sr_ok_ParseStarts data d0 Hsr).
  destruct (ParseStarts d0) as [o1 d1] eqn:E1. cbn [snd] in *.
  destruct o1 as [[]| | |]; try discriminate.
  assert (Hfresh := ParseStarts_fresh d0 d1 E1).
  intros E.
  assert (Hfit := Parse_tail_fits fuel d1). rewrite E in Hfit. cbn [snd] in Hfit.
  assert (H1 := imports_extend_parseImports d1 d1 (imports_extend_refl d1)).
  destruct H1 as (_ & E2 & _ & E4 & E5 & _).
  destruct Hfit as (_ & Hb & _ & H).
  rewrite E2, E4 in H. unfold Starts_list at 1 in H. rewrite E5 in H.
  fold (Starts_list d1) in H.
  destruct Hsr1 as [Hdata _]. rewrite Hdata, Hbo in H.
  split; [rewrite Hb, E2; exact Hbo|].
  apply (Forall2_Forall_r _ _ _ _ H). apply (Forall_impl _ _ _ Hfresh).
  intros s (Hf & _) s' (E1' & _ & recs & E3 & Hrecs).
  rewrite Hf in E3. cbn [app] in E3. rewrite E3, E1'.
  destruct Hrecs as [->|(Hp & k & Hk & Hall)]; [left; reflexivity|].
  right. split; [exact Hp|]. exists k. split; [exact Hk|].
  apply (Forall_impl _ _ _ Hall). intros f [_ Hf']. exact Hf'.
Qed.

(** A read of the image itself that lies within it is complete. *)
Lemma underlying_ReadAt_image image p off :
  0 <= off -> off + Z.of_nat (s_len p) <= Z.of_nat (length image) ->
  underlying_ReadAt (reader_of image) p off
  = (mkSlice (take (s_len p) (drop (Z.to_nat off) image)
              ++ drop (s_len p) (s_arr p)) (s_len p),
     Z.of_nat (s_len p), None).
Proof.
  intros Hoff Hin. unfold underlying_ReadAt, reader_of.
  destruct (Z.ltb_spec off 0) as [|_]; [lia|].
  set (bs := take (s_len p) (drop (Z.to_nat off) image)).
  assert (Hl : length bs = s_len p)
    by (unfold bs; rewrite length_take, length_drop; lia).
  rewrite Hl, Nat.ltb_irrefl.
  rewrite (take_ge bs) by lia. rewrite Hl. reflexivity.
Qed.

(** Reading through the reader gives the rebased image.  The reader is
    new, over the image that the fixups describe, and its first use has
    initialised it; every segment with pages has slots of the reader's
    pointer size; the slots of the recorded rebases can be sought and do
    not overlap one another; the read lies within the image and strictly
    inside no slot.  Then [ReadAt] returns the length of the buffer and no
    error, in whatever order the map is visited; every byte of a slot is
    the byte of the encoding of the resolved value, and every other byte
    is the byte of the image. *)
Theorem ReadAt_returns_the_rebased_image
    Resolve_of fuel order lcdat image bo0 base l p off :
  init Resolve_of fuel
       (new_reader (Some (NewChainedFixups lcdat image bo0), None) base
                   (reader_of image))
  = (Ok tt, l) ->
  (forall d' s k,
     dcf l = Some d' -> s ∈ Starts_list d' -> 0 < PageCount (InSegment s) ->
     DCPtrKind_of (PointerFormat (InSegment s)) = Some k ->
     Z.of_nat (slot_width k) = pointerSize l) ->
  range_order (rebases l) order ->
  (s_len p <= length (s_arr p))%nat ->
  0 <= off -> off + Z.of_nat (s_len p) <= Z.of_nat (length image) ->
  Z.of_nat (length image) < 2 ^ 62 ->
  (forall rOff rb, rebases l !! rOff = Some rb ->
     rOff < 2 ^ 63
     /\ (off <= rOff \/ rOff + pointerSize l <= off + Z.of_nat (s_len p))) ->
  (forall rOff rb rOff' rb',
     rebases l !! rOff = Some rb -> rebases l !! rOff' = Some rb' ->
     rOff < rOff' -> rOff + pointerSize l <= rOff') ->
  exists p',
    ReadAt Resolve_of fuel order p off l
    = (ReadRet (Z.of_nat (s_len p)) None p', l)
    /\ s_len p' = s_len p
    /\ (forall rOff rb i, rebases l !! rOff = Some rb -> (i < s_len p)%nat ->
          rOff <= off + Z.of_nat i < rOff + pointerSize l ->
          s_arr p' !! i
          = bo_put bo0 (Z.to_nat (pointerSize l)) (Resolve rb base)
              !! Z.to_nat (off + Z.of_nat i - rOff))
    /\ (forall i, (i < s_len p)%nat ->
          (forall rOff rb, rebases l !! rOff = Some rb ->
             ~ (rOff <= off + Z.of_nat i < rOff + pointerSize l)) ->
          s_arr p' !! i = image !! Z.to_nat (off + Z.of_nat i)).
Proof.
  intros Hinit Hwidth Horder Hcap Hoff Hin Hsize Hslots Hdis.
  set (d0 := NewChainedFixups lcdat image bo0) in *.
  set (l00 := new_reader (Some d0, None) base (reader_of image)) in *.
  (* the shape of the initialised reader *)
  assert (Hready : overlay_ready l).
  { apply (init_unparsed_ready Resolve_of fuel l00 l d0); reflexivity || exact Hinit. }
  destruct (init_Ok_shape Resolve_of fuel l00 l Hinit)
    as (d0x & d' & Hget & HP & Hd & l0 & l2 & -> & E2 & Hr & Hb & _).
  cbn [GetDyldchainFixups l00 new_reader] in Hget. injection Hget as <-.
  assert (Hrd : Reader_ l = reader_of image).
  { revert Hinit. unfold init, l00, new_reader. unfold bind at 1, get.
    unfold bind at 1, modify. cbn [GetDyldchainFixups fst snd].
    destruct (Parse fuel d0) as [o d1]. unfold bind at 1, modify.
    destruct o as [[]| | |]; try discriminate.
    unfold bind at 1, modify. unfold bind at 1, modify. unfold bind at 1.
    match goal with
    | |- context [init_segments Resolve_of ?ss ?x] =>
      assert (Hf := init_segments_frame Resolve_of ss x);
      destruct (init_segments Resolve_of ss x) as [o2 l3]
    end.
    cbn [snd] in Hf. destruct Hf as [_ Hf].
    destruct o2 as [[]| | |]; try discriminate.
    unfold bind, get.
    repeat destruct (_ =? _); intros [= <-]; cbn; exact Hf. }
  apply init_segments_rebases in E2. destruct E2 as [Hreb Hbase].
  cbn [rebases baseAddr set_baseAddr set_rebases GetBaseAddr l00 new_reader]
    in Hreb, Hbase.
  rewrite Hreb in Hr. rewrite Hbase in Hb.
  destruct (Parse_unparsed_records fuel d0 d' image eq_refl
              ltac:(split; [reflexivity|cbn; lia]) HP) as [Hbo Hrecs].
  cbn [bo d0 NewChainedFixups] in Hbo, Hrecs.
  assert (Hbol : bo_of l = bo0) by (unfold bo_of; rewrite Hd; exact Hbo).
  (* what an entry of the map is *)
  assert (Hentry : forall rOff rb, rebases l !! rOff = Some rb ->
            0 <= rOff
            /\ (rOff < 2 ^ 63 ->
                slot_in_image bo0 image (Z.to_nat (pointerSize l)) rOff (Raw rb))).
  { intros rOff rb H. rewrite Hr in H. apply init_fixups_lookup in H.
    destruct H as [H|(k & ptr & Hmem & ->)];
      [rewrite lookup_empty in H; discriminate|].
    apply elem_of_all_Fixups in Hmem. destruct Hmem as (s & Hs & Hmem).
    rewrite Forall_forall in Hrecs.
    destruct (Hrecs s Hs) as [Hnil|(Hp & kk & Hk & Hall)];
      [rewrite Hnil in Hmem; inversion Hmem|].
    rewrite Forall_forall in Hall. destruct (Hall _ Hmem) as [H0 Him].
    cbn [Fixup_Offset Fixup_Pointer] in H0, Him. cbn [Raw].
    rewrite <- (Hwidth d' s kk Hd Hs Hp Hk), Nat2Z.id. auto. }
  (* the underlying read *)
  unfold ReadAt, ReadAt_init, bind, get. rewrite Hd. cbn [ret].
  rewrite Hrd, (underlying_ReadAt_image image p off Hoff Hin).
  set (n := s_len p) in *.
  set (p1 := mkSlice (take n (drop (Z.to_nat off) image) ++ drop n (s_arr p)) n).
  assert (Hp1 : forall i, (i < n)%nat ->
            s_arr p1 !! i = image !! Z.to_nat (off + Z.of_nat i)).
  { intros i Hi. unfold p1. cbn [s_arr].
    rewrite lookup_app_l by (rewrite length_take, length_drop; lia).
    rewrite lookup_take_lt by lia. rewrite lookup_drop. f_equal. lia. }
  assert (Hcap1 : (s_len p1 <= length (s_arr p1))%nat).
  { unfold p1. cbn [s_len s_arr].
    rewrite length_app, length_take, !length_drop. lia. }
  rewrite (uint64_small off) by lia.
  destruct Hready as [Hempty|Hc].
  - (* no rebase at all *)
    rewrite Hempty in Horder. unfold range_order in Horder.
    rewrite map_to_list_empty in Horder.
    apply Permutation_nil_r in Horder. subst order.
    exists p1. split; [reflexivity|]. split; [reflexivity|]. split.
    + intros rOff rb i H. rewrite Hempty, lookup_empty in H. discriminate.
    + intros i Hi _. apply Hp1. exact Hi.
  - assert (Hps : pointerSize l = 8 \/ pointerSize l = 4)
      by (destruct Hc as [[? _]|[? _]]; auto).
    assert (Hmem : forall e, e ∈ order <-> rebases l !! fst e = Some (snd e)).
    { intros [k v]. unfold range_order in Horder. rewrite Horder.
      apply elem_of_map_to_list. }
    assert (Hnd : NoDup (order.*1)).
    { unfold range_order in Horder. rewrite Horder. apply NoDup_fst_map_to_list. }
    assert (Hkey : forall rOff rb, rebases l !! rOff = Some rb ->
              0 <= rOff
              /\ rOff + pointerSize l <= Z.of_nat (length image)
              /\ bo_put bo0 (Z.to_nat (pointerSize l)) (Raw rb)
                 = take (Z.to_nat (pointerSize l)) (drop (Z.to_nat rOff) image)).
    { intros rOff rb H. destruct (Hentry rOff rb H) as [H0 Him].
      destruct (Hslots rOff rb H) as [Hlt _].
      destruct (Him Hlt) as [Hfit Hval].
      split; [exact H0|]. split; [lia|].
      rewrite <- Hval.
      set (bs := take _ (drop _ image)).
      assert (Hl : length bs = Z.to_nat (pointerSize l))
        by (unfold bs; rewrite length_take, length_drop; lia).
      rewrite <- Hl at 1. apply bo_put_bo_uint. }
    destruct (patch_loop_overlay l off Hc Hoff order p1
                (repeat x00 (Z.to_nat (pointerSize l)))
                (repeat_length _ _) Hcap1
                ltac:(unfold p1; cbn [s_len]; lia) Hnd)
      as (p' & buf' & E & Hl & Hcp & Hin' & Hout').
    + intros e He. apply Hmem in He.
      destruct (Hkey _ _ He) as (H0 & Hend & _).
      destruct (Hslots _ _ He) as [_ Hcase].
      split; [lia|exact Hcase].
    + intros e1 e2 H1 H2. apply (Hdis (fst e1) (snd e1) (fst e2) (snd e2));
        apply Hmem; assumption.
    + intros e i He Hi Hs. apply Hmem in He.
      destruct (Hkey _ _ He) as (H0 & Hend & Hraw).
      rewrite Hbol, Hraw. unfold p1 in Hi. cbn [s_len] in Hi.
      rewrite (Hp1 i Hi).
      rewrite lookup_take_lt by lia. rewrite lookup_drop. f_equal. lia.
    + unfold patchReadBytes. rewrite E.
      exists p'. split; [reflexivity|]. split; [exact Hl|]. split.
      * intros rOff rb i H Hi Hs.
        rewrite (Hin' (rOff, rb) i); [|apply Hmem; exact H|exact Hi|exact Hs].
        cbn [fst snd]. rewrite Hbol, Hb. reflexivity.
      * intros i Hi Hnone. rewrite Hout'; [apply Hp1; exact Hi|].
        intros e He [_ Hs]. apply Hmem in He. exact (Hnone _ _ He Hs).
Qed.

Lemma rebases_S1_ready : rebases lrr_S1_ready = {[ 0x1000 := rebase_S1 ]}.
Proof. vm_compute. reflexivity. Qed.

Lemma ReadAt_returns_the_rebased_image_witness :
  let l := lrr_S1_ready in
  let p := make_bytes 8 in
  exists p',
    ReadAt Resolve_raw 10 [(0x1000, rebase_S1)] p 0x1000 l
    = (ReadRet (Z.of_nat (s_len p)) None p', l)
    /\ s_len p' = s_len p
    /\ (forall rOff rb i, rebases l !! rOff = Some rb -> (i < s_len p)%nat ->
          rOff <= 0x1000 + Z.of_nat i < rOff + pointerSize l ->
          s_arr p' !! i
          = bo_put LittleEndian (Z.to_nat (pointerSize l))
                   (Resolve rb 0x100000000)
              !! Z.to_nat (0x1000 + Z.of_nat i - rOff))
    /\ (forall i, (i < s_len p)%nat ->
          (forall rOff rb, rebases l !! rOff = Some rb ->
             ~ (rOff <= 0x1000 + Z.of_nat i < rOff + pointerSize l)) ->
          s_arr p' !! i = image_S1 !! Z.to_nat (0x1000 + Z.of_nat i)).
Proof.
  apply (ReadAt_returns_the_rebased_image Resolve_raw 10
           [(0x1000, rebase_S1)] payload_S1 image_S1 LittleEndian 0x100000000
           lrr_S1_ready (make_bytes 8) 0x1000).
  - vm_compute. reflexivity.
  - intros d' s k Hd Hs Hp Hk.
    assert (E : Starts_list <$> dcf lrr_S1_ready = Some [seg_S1_parsed])
      by (vm_compute; reflexivity).
    rewrite Hd in E. cbn in E. injection E as E. rewrite E in Hs.
    apply list_elem_of_singleton in Hs. subst s.
    vm_compute in Hk. injection Hk as <-. vm_compute. reflexivity.
  - unfold range_order. rewrite rebases_S1_ready, map_to_list_singleton.
    reflexivity.
  - cbn. lia.
  - lia.
  - vm_compute. discriminate.
  - vm_compute. reflexivity.
  - intros rOff rb H. rewrite rebases_S1_ready in H.
    apply lookup_singleton_Some in H. destruct H as [<- <-].
    split; [lia|left; lia].
  - intros rOff rb rOff' rb' H H'. rewrite rebases_S1_ready in H, H'.
    apply lookup_singleton_Some in H. destruct H as [<- <-].
    apply lookup_singleton_Some in H'. destruct H' as [<- <-]. lia.
Defined.

(* --------------------------------------------------------------------- *)
(** ** How [parseImports] fails                                          *)
(* --------------------------------------------------------------------- *)

Lemma r_Read_Err n d e d' :
  r_Read n d = (Err e, d') ->
  (e = EOF \/ e = ErrUnexpectedEOF)
  /\ Header d' = Header d /\ Imports d' = Imports d.
Proof.
  unfold r_Read, on_r, Reader_ReadFull.
  destruct n; [discriminate|].
  destruct (drop _ _); [intros [= <- <-]; auto|].
  destruct (_ <? _)%nat; intros [= <- <-]; auto.
Qed.

Lemma read_imports_Err d e d' :
  read_imports d = (Err e, d') ->
  (e = EOF \/ e = ErrUnexpectedEOF) /\ Imports d' = Imports d.
Proof.
  unfold read_imports. unfold bind at 1, get.
  repeat match goal with
         | |- context [if ?b then _ else _] => destruct b
         end;
    try discriminate;
    unfold bind;
    match goal with
    | |- context [r_Read ?n d] =>
      destruct (r_Read n d) as [[bs| | |] d1] eqn:E; try discriminate
    end;
    intros [= <- <-]; apply r_Read_Err in E; destruct E as (H1 & _ & H2); auto.
Qed.

(** The loop over the names stops at the first name that has no NUL up
    to the end of the payload; the imports before it stay appended. *)
Lemma parseImports_names_Err imports :
  forall d e d',
    parseImports_names imports d = (Err e, d') ->
    exists new i,
      Imports d' = Imports d ++ new
      /\ (length new < length imports)%nat
      /\ imports !! length new = Some i
      /\ until_nul (drop (Z.to_nat (SymbolsOffset (Header d) + NameOffset i))
                         (rd_data (r d))) = None
      /\ e = ErrReadString (uint64 (SymbolsOffset (Header d) + NameOffset i)) EOF.
Proof.
  induction imports as [|i rest IH]; intros d e d'; [discriminate|].
  cbn [parseImports_names]. unfold bind at 1, get. unfold ReadString0.
  destruct (until_nul _) as [s|] eqn:Es.
  - unfold bind, modify. intros E. apply IH in E.
    destruct E as (new & i' & Hi & Hlen & Hl & Hu & ->).
    cbn [Imports set_Imports Header r] in Hi, Hu |- *.
    exists (mkDcfImport s i :: new), i'.
    rewrite Hi, <- app_assoc. cbn [length]. repeat split; auto. lia.
  - intros [= <- <-]. exists [], i. rewrite app_nil_r. cbn [length].
    repeat split; auto. lia.
Qed.

(** [parseImports] fails in two ways only.  Either the table of import
    records is cut short: the error is that of the read ([io.EOF] or
    [io.ErrUnexpectedEOF]) and no import is appended.  Or a name has no
    NUL up to the end of the payload: the imports before it stay
    appended, the error carries the offset of that name in the payload,
    as a 64-bit sum, and the cause [io.EOF]. *)
Theorem parseImports_fails_in_two_ways d e d' :
  parseImports d = (Err e, d') ->
  (Imports d' = Imports d /\ (e = EOF \/ e = ErrUnexpectedEOF))
  \/ exists new off,
       Imports d' = Imports d ++ new
       /\ (length new < Z.to_nat (ImportsCount (Header d)))%nat
       /\ until_nul (drop (Z.to_nat off) (rd_data (r d))) = None
       /\ e = ErrReadString (uint64 off) EOF.
Proof.
  unfold parseImports. unfold bind at 1, get. unfold bind at 1, r_Seek, modify.
  unfold bind.
  destruct (read_imports _) as [[imports| | |] d1] eqn:E1; try discriminate.
  - intros E2.
    assert (Hlen : (length imports <= Z.to_nat (ImportsCount (Header d)))%nat).
    { revert E1. unfold read_imports. unfold bind at 1, get.
      cbn [Header set_r bo].
      repeat match goal with
             | |- context [if ?b then _ else _] => destruct b
             end;
        unfold bind;
        try match goal with
            | |- context [r_Read ?n ?x] =>
              destruct (r_Read n x) as [[bs| | |] d2]; try discriminate
            end;
        unfold ret; intros [= <- _];
        rewrite ?length_map, ?chunks_length; cbn [length]; lia. }
    apply read_imports_Ok in E1. destruct E1 as (Hh1 & Hr1 & Hi1 & _).
    apply parseImports_names_Err in E2.
    destruct E2 as (new & i & Hi & Hl & _ & Hu & ->).
    cbn [Header set_r r Imports] in Hh1, Hr1, Hi1.
    rewrite Reader_Seek_data in Hr1.
    right. exists new, (SymbolsOffset (Header d) + NameOffset i).
    rewrite Hi, Hi1. rewrite Hh1, Hr1 in Hu. rewrite Hh1.
    repeat split; auto. lia.
  - intros [= <- <-]. apply read_imports_Err in E1.
    destruct E1 as [He Hi]. left. split; [exact Hi|exact He].
Qed.

Lemma parseImports_fails_in_two_ways_witness :
  let d := NewChainedFixups payload_unterminated [] LittleEndian in
  let d1 := snd (ParseStarts d) in
  let e := ErrReadString 36 EOF in
  let d' := snd (parseImports d1) in
  (Imports d' = Imports d1 /\ (e = EOF \/ e = ErrUnexpectedEOF))
  \/ exists new off,
       Imports d' = Imports d1 ++ new
       /\ (length new < Z.to_nat (ImportsCount (Header d1)))%nat
       /\ until_nul (drop (Z.to_nat off) (rd_data (r d1))) = None
       /\ e = ErrReadString (uint64 off) EOF.
Proof.
  apply (parseImports_fails_in_two_ways
           (snd (ParseStarts (NewChainedFixups payload_unterminated []
                                               LittleEndian)))
           (ErrReadString 36 EOF)).
  vm_compute. reflexivity.
Defined.

(* --------------------------------------------------------------------- *)
(** ** The chains as functions of the image                               *)
(* --------------------------------------------------------------------- *)















Lemma slot_next_nonneg k word : 0 <= slot_next k word.
Proof.
  destruct k; cbn [slot_next];
    unfold Generic32Next, Generic64Next, DcpArm64eNext, ExtractBits;
    apply Z.land_nonneg; right; cbv; discriminate.
Qed.

Lemma stride_pos k : 0 < stride k.
Proof. destruct k; cbn; lia. Qed.







Lemma records_of_ext {A} (f g : A -> option (list Fixup)) xs :
  (forall x, f x = g x) -> records_of f xs = records_of g xs.
Proof.
  intros H. induction xs as [|x xs IH]; [reflexivity|].
  cbn [records_of]. rewrite H, IH. reflexivity.
Qed.


Section Records.

Variable fuel : nat.
Variable bo0 : ByteOrder.
Variable image : list byte.
Variable imports : list DcfImport.
Hypothesis Hsize : Z.of_nat (length image) < 2 ^ 62.

Lemma segment_chain_with_records s recs loc :
  segment_chain fuel bo0 image imports (with_records s recs) loc
  = segment_chain fuel bo0 image imports s loc.
Proof. reflexivity. Qed.

Lemma page_records_with_records s recs ps p :
  page_records fuel bo0 image imports (with_records s recs) ps p
  = page_records fuel bo0 image imports s ps p.
Proof. reflexivity. Qed.



Hypothesis Hfuel : 65536 <= Z.of_nat fuel.



End Records.



Section SegmentRecords.

Variable fuel : nat.
Variable bo0 : ByteOrder.
Variable image : list byte.
Variable imports : list DcfImport.
Hypothesis Hsize : Z.of_nat (length image) < 2 ^ 62.
Hypothesis Hfuel : 65536 <= Z.of_nat fuel.


End SegmentRecords.





(** C5, at the failing input: a PTR_32_FIRMWARE chain whose first slot is
    [{target = 5, next = 32}].  By the firmware layout [{target:26, next:6}]
    the [next] field is 32, so the chain goes on at [0 + 32 * 4 = 128] and
    has two slots.  The walk reads [next] with the accessor of the generic
    32-bit layout, five bits from bit 26 on (in that layout the same word
    has [next = 0]), finds 0, and ends the chain after the first slot:
    [Parse] returns normally with one record, and the slot at 128 is never
    visited. *)
Theorem Parse_firmware_chain_cut_short :
  spec_next DYLD_CHAINED_PTR_32_FIRMWARE (32 * 2 ^ 26 + 5) = 32
  /\ spec_next DYLD_CHAINED_PTR_32 (32 * 2 ^ 26 + 5) = 0
  /\ slot_next DYLD_CHAINED_PTR_32_FIRMWARE (32 * 2 ^ 26 + 5) = 0
  /\ chain_records (spec_next DYLD_CHAINED_PTR_32_FIRMWARE) 3 LittleEndian
       image_firmware [] DYLD_CHAINED_PTR_32_FIRMWARE 0
     = Some [RebaseFixup Ptr32FirmwareRebase (32 * 2 ^ 26 + 5) 0;
             RebaseFixup Ptr32FirmwareRebase 7 128]
  /\ fst (Parse 3 (NewChainedFixups payload_firmware image_firmware LittleEndian))
     = Ok tt
  /\ Starts (snd (Parse 3 (NewChainedFixups payload_firmware image_firmware
                                            LittleEndian)))
     = Some [with_records seg_firmware
               [RebaseFixup Ptr32FirmwareRebase (32 * 2 ^ 26 + 5) 0]].
Proof. repeat split; vm_compute; reflexivity. Qed.







(** A payload, from the beginning: the starts are parsed first; page 0
    has the two heads of its overflow run, and the entries of the run are
    the starts of the pages 1 and 2. *)
Example Parse_payload_multi :
  let d := NewChainedFixups payload_multi image_multi LittleEndian in
  map PageStarts (Starts_list (snd (Parse_starts d)))
  = [Some [0x8001; 0x0010; 0x4020]]
  /\ spec_page_heads [0x8001; 0x0010; 0x4020] 0x8001 = Some [0x10; 0x20]
  /\ fst (Parse 3 d) = Ok tt
  /\ map Fixups (Starts_list (snd (Parse 3 d)))
     = [[RebaseFixup Ptr32Rebase 0 0x10; RebaseFixup Ptr32Rebase 0 0x20;
         RebaseFixup Ptr32Rebase 0 0x50; RebaseFixup Ptr32Rebase 0 0x40A0]].
Proof. repeat split; vm_compute; reflexivity. Qed.

(** Two heads in one overflow run, and a page without chain: the chains
    at the in-page offsets 0x10 and 0x20 of page 0 are walked, in this
    order, and page 1 (NONE) is skipped. *)
Example Parse_multi_two_heads :
  spec_page_heads [0x8002; 0xFFFF; 0x0010; 0x4020] 0x8002 = Some [0x10; 0x20]
  /\ spec_page_heads [0x8002; 0xFFFF; 0x0010; 0x4020] 0xFFFF = Some []
  /\ fst (Parse 3 dcf_multi) = Ok tt
  /\ map Fixups (Starts_list (snd (Parse 3 dcf_multi)))
     = [[RebaseFixup Ptr32Rebase 0 0x10; RebaseFixup Ptr32Rebase 0 0x20]].
Proof. repeat split; vm_compute; reflexivity. Qed.

(** C7, counterexample: the ARM64E segment of scenario S5 classifies
    [pointer_S5] as an authenticated rebase with target 0x4000, but a
    PTR_32 segment with pages stands before it; the scan stops there, reads
    the low 32 bits as a generic 32-bit rebase and returns its target
    0x4000 instead of 0x100004000. *)
Lemma RebasePointer_earlier_segment_claims_the_pointer :
  Starts_list dcf_S5_second !! 1%nat = Some seg_S5
  /\ DCPtrKind_of (PointerFormat (InSegment seg_S5))
     = Some DYLD_CHAINED_PTR_ARM64E
  /\ DcpArm64eIsBind pointer_S5 = false
  /\ DcpArm64eIsAuth pointer_S5 = true
  /\ Arm64eAuthRebase_Target pointer_S5 + 0x100000000 = 0x100004000
  /\ RebasePointer dcf_S5_second 0x100000000 pointer_S5 = 0x4000
  /\ RebasePointer dcf_S5_second 0x100000000 pointer_S5
     <> Arm64eAuthRebase_Target pointer_S5 + 0x100000000.
Proof. repeat split; vm_compute; congruence. Qed.

(** C9, at the failing input: a read of no byte at offset 2.  Its range
    [2, 2) holds no byte of the slot [0, 8) of the only rebase, and the
    underlying reader delivers nothing and no error; but [patchReadBytes]
    skips only the slots that end before the offset or begin after the end
    of the read, works out a window of 2 bytes for this slot and slices the
    empty buffer, which panics.  The window length is the one of C8. *)
Theorem ReadAt_empty_read_inside_slot_panics :
  rebases lrr_overlay = {[ 0 := rebase_overlay ]}
  /\ pointerSize lrr_overlay = 8
  /\ snd (fst (underlying_ReadAt (Reader_ lrr_overlay) (make_bytes 0) 2)) = 0
  /\ snd (underlying_ReadAt (Reader_ lrr_overlay) (make_bytes 0) 2) = None
  /\ (forall x, 2 <= x < 2 + Z.of_nat (s_len (make_bytes 0)) ->
        ~ (0 <= x < 0 + pointerSize lrr_overlay))
  /\ fst (ReadAt Resolve_raw 1 [(0, rebase_overlay)] (make_bytes 0) 2 lrr_overlay)
     = ReadPanic.
Proof.
  split; [reflexivity|]. split; [reflexivity|].
  split; [vm_compute; reflexivity|]. split; [vm_compute; reflexivity|].
  split; [cbn; lia|]. vm_compute. reflexivity.
Qed.
